(** * redisgl web viewer: the synchronisation core

  A shallow embedding of the JavaScript sources of the viewer
  ([redis.js], [camera.js], [trajectory.js], [robot.js], [object.js],
  the file names of [graphics.js] and the dispatch loop of
  [simulator.js]) together with the properties the specification states
  about them and further properties of the code.

  Conventions of the embedding.
  - A JavaScript exception is a value of [Completion]: [Normal a] or
    [Throw e]. Code that can throw is written in the [Completion] monad.
  - An object used as a map from strings is a [JsObj.t]: the list of
    its own enumerable properties in [for ... in] order.  The members
    it inherits from [Object.prototype] ([constructor], [toString],
    ...) are seen by the operator [in] and by no [for ... in] loop; an
    assignment to [__proto__] creates no own property.  The built-in
    objects themselves are no part of a state: where the code writes
    to one of them, the state is marked and tells no more.
  - An [ArrayBuffer] is a [list byte]; a JavaScript string whose code
    units are all below 256 (the only ones the decoder produces) is a
    [string].
  - Numbers that are indices or lengths are exact naturals; the source
    computes them in binary64, which agrees as long as they stay below
    2^53.  A buffer is shorter than that, so that an index beyond
    2^53 is out of range in both readings.
  - Numbers that are measurements (depths, intrinsics) are binary64
    values, [PrimFloat.float]. *)

From Stdlib Require Import ZArith NArith Lia Bool.
From Stdlib.Strings Require Import Ascii String Byte.
From Stdlib Require Import PrimFloat Uint63 SpecFloat FloatOps.
From stdpp Require Import base option list strings.

(** ** Completions *)

Inductive JsError : Type :=
| Error
| RangeError
| TypeError
| SyntaxError
| ReferenceError.

Inductive Completion (A : Type) : Type :=
| Normal (a : A)
| Throw (e : JsError).

Arguments Normal {A} a.
Arguments Throw {A} e.

#[global] Instance Completion_ret : MRet Completion := fun _ a => Normal a.

#[global] Instance Completion_bind : MBind Completion := fun _ _ f c =>
match c with
| Normal a => f a
| Throw e => Throw e
end.

Definition throws {A} (c : Completion A) : bool :=
match c with
| Normal _ => false
| Throw _ => true
end.

(** Code that changes a state of type [S] and can throw: the state comes
    back either way, as it was when the exception was raised. *)
Definition StateM (S A : Type) : Type := S -> S * Completion A.

#[global] Instance StateM_ret (S : Type) : MRet (StateM S) :=
  fun _ a s => (s, Normal a).

#[global] Instance StateM_bind (S : Type) : MBind (StateM S) := fun _ _ f m s =>
  match m s with
  | (s', Normal a) => f a s'
  | (s', Throw e) => (s', Throw e)
  end.

Definition get {S : Type} : StateM S S := fun s => (s, Normal s).

Definition modify {S : Type} (f : S -> S) : StateM S unit := fun s => (f s, Normal tt).

Definition lift {S A : Type} (c : Completion A) : StateM S A := fun s => (s, c).

(** [try { m } catch (error) { handler }] *)
Definition try_catch {S A : Type} (m : StateM S A) (handler : JsError -> StateM S A)
  : StateM S A := fun s =>
  match m s with
  | (s', Normal a) => (s', Normal a)
  | (s', Throw e) => handler e s'
  end.

(** A loop over the elements of [l], in order. *)
Fixpoint forM {S B : Type} (l : list B) (body : B -> StateM S unit) : StateM S unit :=
  match l with
  | [] => mret tt
  | b :: l' => body b ;; forM l' body
  end.

(** A [for] loop over the elements of [l] whose body can throw. *)
Fixpoint foldM {A B : Type} (f : A -> B -> Completion A) (a : A) (l : list B)
  : Completion A :=
  match l with
  | [] => Normal a
  | b :: l' => a' ← f a b; foldM f a' l'
  end.

(** ** Numbers *)

(** The global [isNaN] on a number. *)
Definition isNaN (x : float) : bool := negb (PrimFloat.eqb x x).

(** A natural number (an index, a dimension) as a number. *)
Definition number (n : nat) : float :=
  PrimFloat.of_uint63 (Uint63.of_Z (Z.of_nat n)).

(** What a store into a [Float32Array] keeps of a number: the nearest
    binary32 value. *)
Definition fround (x : float) : float :=
  SF2Prim
    (match Prim2SF x with
     | S754_finite s m e =>
         binary_normalize 24 128 (if s then Z.neg m else Z.pos m) e s
     | y => y
     end).

(** [array[i] = x] on a [Float32Array]: a store outside the array is
    dropped. *)
Definition store32 (array : list float) (i : nat) (x : float) : list float :=
  <[i := fround x]> array.

(** ** Objects as ordered maps *)

Module JsObj.

Local Open Scope N_scope.

(** The integer a canonical array-index key denotes: a decimal numeral
    without sign or leading zero, at most 2^32 - 2. *)
Definition digit_of (c : ascii) : option N :=
  let n := N_of_ascii c in
  if (48 <=? n) && (n <=? 57) then Some (n - 48) else None.

Fixpoint digits_value (s : string) (acc : N) : option N :=
  match s with
  | EmptyString => Some acc
  | String c r =>
      match digit_of c with
      | Some d => digits_value r (acc * 10 + d)
      | None => None
      end
  end.

Definition array_index (k : string) : option N :=
  match k with
  | EmptyString => None
  | String c r =>
      if Ascii.eqb c "0" && negb (String.eqb r "") then None
      else if 10 <? N.of_nat (String.length k) then None
      else match digits_value k 0 with
           | Some n => if n <? 2 ^ 32 - 1 then Some n else None
           | None => None
           end
  end.

(** The members of [Object.prototype]: those of the language, and
    those every browser adds. None of them is enumerable. *)
Definition Object_prototype : list string :=
  ["constructor"; "hasOwnProperty"; "isPrototypeOf"; "propertyIsEnumerable";
   "toLocaleString"; "toString"; "valueOf"; "__proto__";
   "__defineGetter__"; "__defineSetter__"; "__lookupGetter__";
   "__lookupSetter__"]%string.

Definition inherited (k : string) : bool :=
  existsb (String.eqb k) Object_prototype.

Section Obj.
Context {V : Type}.

Definition t : Type := list (string * V).

Definition empty : t := [].

(** [o[k]] *)
Fixpoint get (k : string) (o : t) : option V :=
  match o with
  | [] => None
  | (k', v) :: o' => if String.eqb k k' then Some v else get k o'
  end.

(** [o.hasOwnProperty(k)] *)
Definition has (k : string) (o : t) : bool :=
  match get k o with
  | Some _ => true
  | None => false
  end.

(** [k in o], for an object [o] that [{}] has made: [k] names a
    property of [o] or a member of [Object.prototype]. *)
Definition in_ (k : string) (o : t) : bool := has k o || inherited k.

(** The property exists: its value changes, its place does not. *)
Fixpoint replace (k : string) (v : V) (o : t) : t :=
  match o with
  | [] => []
  | (k', v') :: o' =>
      if String.eqb k k' then (k', v) :: o' else (k', v') :: replace k v o'
  end.

(** A new array-index key goes among the index keys, in ascending
    numeric order, ahead of every other key. *)
Fixpoint insert_index (i : N) (k : string) (v : V) (o : t) : t :=
  match o with
  | [] => [(k, v)]
  | (k', v') :: o' =>
      match array_index k' with
      | Some j => if j <? i then (k', v') :: insert_index i k v o'
                  else (k, v) :: o
      | None => (k, v) :: o
      end
  end.

(** [o[k] = v]. An assignment to [__proto__] creates no property: a
    string is ignored, an [ArrayBuffer] becomes the prototype, which
    brings nothing that a [for ... in] loop visits. *)
Definition set (k : string) (v : V) (o : t) : t :=
  if String.eqb k "__proto__" then o
  else if has k o then replace k v o
  else match array_index k with
       | Some i => insert_index i k v o
       | None => o ++ [(k, v)]
       end.

(** [delete o[k]] *)
Fixpoint delete (k : string) (o : t) : t :=
  match o with
  | [] => []
  | (k', v) :: o' =>
      if String.eqb k k' then o' else (k', v) :: delete k o'
  end.

(** The keys a [for (const k in o)] loop visits, in order. *)
Definition keys (o : t) : list string := map fst o.

End Obj.

Arguments t V : clear implicits.

End JsObj.

(** ** redis.js: the wire decoder *)

Module Redis.

Local Open Scope N_scope.

(** A decoded payload: a string (type 1) or an [ArrayBuffer] (type 2). *)
Inductive Value : Type :=
| Text (s : string)
| Binary (b : list byte).

(** An [ArrayBuffer] used as a property key is converted to a string. *)
Definition toPropertyKey (v : Value) : string :=
  match v with
  | Text s => s
  | Binary _ => "[object ArrayBuffer]"
  end.

Definition byteLength (buffer : list byte) : N := N.of_nat (length buffer).

(** [buffer.slice(first, final)]: both ends are clamped to the buffer. *)
Definition slice (buffer : list byte) (first final : N) : list byte :=
  let len := byteLength buffer in
  let first := N.min first len in
  let final := N.min final len in
  take (N.to_nat (final - first)) (drop (N.to_nat first) buffer).

(** The big-endian value of a run of bytes. *)
Definition be_value (bs : list byte) : N :=
  fold_left (fun acc b => acc * 256 + Byte.to_N b) bs 0.

(** [new DataView(buffer, idx).getUintW()] with [W = 8 * width]: the
    view needs [idx <= byteLength], the read needs [width] bytes in
    the view; both raise [RangeError]. The default byte order is big
    endian. *)
Definition getUint (width : N) (buffer : list byte) (idx : N) : Completion N :=
  if idx + width <=? byteLength buffer
  then Normal (be_value (slice buffer idx (idx + width)))
  else Throw RangeError.

Definition getUint8 := getUint 1.
Definition getUint16 := getUint 2.
Definition getUint32 := getUint 4.
Definition getBigUint64 := getUint 8.

(** [new Uint8Array(buffer, idx, len)]: [RangeError] unless the whole
    range lies in the buffer. *)
Definition Uint8Array (buffer : list byte) (idx len : N) : Completion (list byte) :=
  if idx + len <=? byteLength buffer
  then Normal (slice buffer idx (idx + len))
  else Throw RangeError.

Section Decoder.

(** The most arguments a call can be given through [apply]: what the
    engine has room for on its stack. *)
Variable max_arguments : N.

(** [String.fromCharCode.apply(null, bytes)]: every byte is an argument
    of the call, and more arguments than the engine takes raise
    [RangeError]. *)
Definition fromCharCodes (bytes : list byte) : Completion string :=
  if byteLength bytes <=? max_arguments
  then Normal (string_of_list_byte bytes)
  else Throw RangeError.

(** [parsePayload(buffer, idx)]. The result is [None] when the function
    falls off its end without a [return] (a type other than 1 and 2). *)
Definition parsePayload (buffer : list byte) (idx : N)
  : Completion (option (N * Value)) :=
  b ← getUint8 buffer idx;
  let type := N.land b 127 in
  let idx := idx + 1 in
  lenPayload ← getUint8 buffer idx;
  let idx := idx + 1 in
  '(lenPayload, idx) ←
    (if lenPayload =? 126 then
       l ← getUint16 buffer idx; Normal (l, idx + 2)
     else if lenPayload =? 127 then
       l ← getBigUint64 buffer idx; Normal (l, idx + 8)
     else Normal (lenPayload, idx));
  if type =? 1 then
    payload ← Uint8Array buffer idx lenPayload;
    text ← fromCharCodes payload;
    Normal (Some (idx + lenPayload, Text text))
  else if type =? 2 then
    let payload := slice buffer idx (idx + lenPayload) in
    Normal (Some (idx + lenPayload, Binary payload))
  else Normal None.

(** [idxKey[0]], [idxKey[1]] on the result of [parsePayload]: reading a
    property of [undefined] raises [TypeError]. *)
Definition elements {A} (r : option A) : Completion A :=
  match r with
  | Some a => Normal a
  | None => Throw TypeError
  end.

Record UpdateBatch : Type := {
  toUpdate : JsObj.t Value;
  toDelete : list Value;
}.

(** The first loop of [parseMessage]; [n] counts the iterations left. *)
Fixpoint parseUpdates (buffer : list byte) (n : nat) (idx : N)
    (updateKeyVals : JsObj.t Value) : Completion (N * JsObj.t Value) :=
  match n with
  | O => Normal (idx, updateKeyVals)
  | S n' =>
      idxKey ← parsePayload buffer idx;
      '(idx, key) ← elements idxKey;
      idxVal ← parsePayload buffer idx;
      '(idx, val) ← elements idxVal;
      parseUpdates buffer n' idx (JsObj.set (toPropertyKey key) val updateKeyVals)
  end.

(** The second loop of [parseMessage]. *)
Fixpoint parseDeletes (buffer : list byte) (n : nat) (idx : N)
    (deleteKeys : list Value) : Completion (N * list Value) :=
  match n with
  | O => Normal (idx, deleteKeys)
  | S n' =>
      idxKey ← parsePayload buffer idx;
      '(idx, key) ← elements idxKey;
      parseDeletes buffer n' idx (deleteKeys ++ [key])
  end.

Definition parseMessage (buffer : list byte) : Completion UpdateBatch :=
  let idx := 0 in
  numUpdates ← getUint32 buffer idx;
  let idx := idx + 4 in
  '(idx, updateKeyVals) ← parseUpdates buffer (N.to_nat numUpdates) idx JsObj.empty;
  numDeletes ← getUint32 buffer idx;
  let idx := idx + 4 in
  '(_, deleteKeys) ← parseDeletes buffer (N.to_nat numDeletes) idx [];
  Normal {| toUpdate := updateKeyVals; toDelete := deleteKeys |}.

End Decoder.

(** *** Values as the dispatch loop hands them on *)

(** A value after [parseUpdateKeys] has looked at it, or as a form
    gives it back: a string, a matrix of strings, or an [ArrayBuffer]. *)
Inductive Val : Type :=
| VString (s : string)
| VMatrix (rows : list (list string))
| VBuffer (b : list byte).

(** The result of [makeNumeric]: the string it was given, or an array
    or a matrix of numbers. *)
Inductive Numeric : Type :=
| NString (s : string)
| NArray (row : list float)
| NMatrix (rows : list (list float)).

Definition is_space (c : ascii) : bool :=
  let n := nat_of_ascii c in
  ((9 <=? n)%nat && (n <=? 13)%nat) || (n =? 32)%nat || (n =? 160)%nat.

Fixpoint trimStart (s : string) : string :=
  match s with
  | EmptyString => EmptyString
  | String c r => if is_space c then trimStart r else s
  end.

Fixpoint rev_string (s acc : string) : string :=
  match s with
  | EmptyString => acc
  | String c r => rev_string r (String c acc)
  end.

(** [s.trim()] *)
Definition trim (s : string) : string :=
  rev_string (trimStart (rev_string (trimStart s) EmptyString)) EmptyString.

(** [s.split(sep)] for a separator of one character; [cur] is the piece
    read so far, reversed. *)
Fixpoint split_from (sep : ascii) (s cur : string) : list string :=
  match s with
  | EmptyString => [rev_string cur EmptyString]
  | String c r =>
      if Ascii.eqb c sep then rev_string cur EmptyString :: split_from sep r EmptyString
      else split_from sep r (String c cur)
  end.

Definition split (sep : ascii) (s : string) : list string :=
  split_from sep s EmptyString.

(** [stringToMatrix(string, false)] *)
Definition stringToMatrix (s : string) : list (list string) :=
  map (fun row => split " " (trim row)) (split ";" (trim s)).

Section Numbers.

(** The global [parseFloat], on strings. *)
Variable parseFloat : string -> float.

(** [isNumeric(val)] on a decoded payload; an [ArrayBuffer] is converted
    to the string [[object ArrayBuffer]], which is no number. *)
Definition isNumeric (val : Value) : bool :=
  match val with
  | Text s => negb (isNaN (parseFloat s))
  | Binary _ => false
  end.

(** [makeNumeric(val)]; an [ArrayBuffer] has no [map]. *)
Definition makeNumeric (val : Val) : Completion Numeric :=
  match val with
  | VString s => Normal (NString s)
  | VMatrix rows => Normal (NMatrix (map (map parseFloat) rows))
  | VBuffer _ => Throw TypeError
  end.

(** [makeNumeric(val[0])]: the first character of a string, the first
    row of a matrix; [undefined] has no [length]. *)
Definition makeNumeric0 (val : Val) : Completion Numeric :=
  match val with
  | VString (String c _) => Normal (NString (String c EmptyString))
  | VMatrix (row :: _) => Normal (NArray (map parseFloat row))
  | _ => Throw TypeError
  end.

End Numbers.

End Redis.

(** ** The wire format *)

Module Wire.
Import Redis.

Local Open Scope N_scope.

(** The three widths of the length field. *)
Inductive LengthTier : Type :=
| Literal
| Medium
| Large.

(** One self-describing payload as it is laid out on the wire: the
    reserved high bit of the type byte, the width chosen for the length
    field, and the content, whose constructor gives the type tag. *)
Record Payload : Type := {
  reserved : bool;
  tier : LengthTier;
  content : Value;
}.

Record Message : Type := {
  updates : list (Payload * Payload);
  deletes : list Payload;
}.

Definition byte_of_N (n : N) : byte :=
  match Byte.of_N (n mod 256) with
  | Some b => b
  | None => x00
  end.

(** [n] in [width] bytes, most significant first. *)
Fixpoint be_bytes (width : nat) (n : N) : list byte :=
  match width with
  | O => []
  | S w => be_bytes w (n / 256) ++ [byte_of_N n]
  end.

Definition type_tag (v : Value) : N :=
  match v with
  | Text _ => 1
  | Binary _ => 2
  end.

Definition raw_bytes (v : Value) : list byte :=
  match v with
  | Text s => list_byte_of_string s
  | Binary b => b
  end.

Definition tier_fits (t : LengthTier) (n : N) : Prop :=
  match t with
  | Literal => n < 126
  | Medium => n < 2 ^ 16
  | Large => n < 2 ^ 53
  end.

Definition encode_length (t : LengthTier) (n : N) : list byte :=
  match t with
  | Literal => [byte_of_N n]
  | Medium => byte_of_N 126 :: be_bytes 2 n
  | Large => byte_of_N 127 :: be_bytes 8 n
  end.

(** Modelled from the spec: the producer of wire messages is not among
    the sources; section 4.1 gives the layout of a payload as one type
    byte (low 7 bits the tag, high bit reserved), the three-tier length
    field and the raw bytes. *)
Definition encode_payload (p : Payload) : list byte :=
  let body := raw_bytes (content p) in
  byte_of_N (type_tag (content p) + (if reserved p then 128 else 0))
    :: encode_length (tier p) (byteLength body) ++ body.

Definition encode_update (kv : Payload * Payload) : list byte :=
  encode_payload (fst kv) ++ encode_payload (snd kv).

(** Modelled from the spec: the layout of a message in section 4.1, a
    4-byte big-endian count of updates, the (key, value) pairs, a 4-byte
    big-endian count of deletes, the keys. *)
Definition encode (m : Message) : list byte :=
  be_bytes 4 (N.of_nat (length (updates m)))
    ++ concat (map encode_update (updates m))
    ++ be_bytes 4 (N.of_nat (length (deletes m)))
    ++ concat (map encode_payload (deletes m)).

Definition payload_ok (p : Payload) : Prop :=
  tier_fits (tier p) (byteLength (raw_bytes (content p))).

Definition well_formed (m : Message) : Prop :=
  N.of_nat (length (updates m)) < 2 ^ 32
  /\ N.of_nat (length (deletes m)) < 2 ^ 32
  /\ Forall (fun kv => payload_ok (fst kv) /\ payload_ok (snd kv)) (updates m)
  /\ Forall payload_ok (deletes m).

(** A text the decoder can turn into a string: no longer than the
    arguments a call takes. *)
Definition text_fits (max_arguments : N) (p : Payload) : Prop :=
  match content p with
  | Text s => byteLength (list_byte_of_string s) <= max_arguments
  | Binary _ => True
  end.

Definition texts_fit (max_arguments : N) (m : Message) : Prop :=
  Forall (fun kv => text_fits max_arguments (fst kv) /\ text_fits max_arguments (snd kv))
    (updates m)
  /\ Forall (text_fits max_arguments) (deletes m).

(** The batch a message stands for: its key/value pairs and its delete
    keys, in the order of the message. *)
Definition pairs_of (m : Message) : list (string * Value) :=
  map (fun kv => (toPropertyKey (content (fst kv)), content (snd kv))) (updates m).

Definition batch_of (m : Message) : UpdateBatch :=
  {| toUpdate := pairs_of m; toDelete := map content (deletes m) |}.

(** Keys that an object keeps in insertion order: text, pairwise
    distinct, none of them an array index or [__proto__]. *)
Definition plain_key (p : Payload) : Prop :=
  match content p with
  | Text s => JsObj.array_index s = None /\ s <> "__proto__"%string
  | Binary _ => False
  end.

Definition plain_keys (m : Message) : Prop :=
  Forall (fun kv => plain_key (fst kv)) (updates m)
  /\ NoDup (map (fun kv => toPropertyKey (content (fst kv))) (updates m)).

(** A message all of whose payloads are text. *)
Definition is_text (p : Payload) : Prop := exists s, content p = Text s.

Definition text_only (m : Message) : Prop :=
  Forall (fun kv => is_text (fst kv) /\ is_text (snd kv)) (updates m)
  /\ Forall is_text (deletes m).

(** The decoder stands at [idx] in [buffer], with [rest] still to read. *)
Definition at_cursor (buffer : list byte) (idx : N) (rest : list byte) : Prop :=
  exists pre, buffer = pre ++ rest /\ byteLength pre = idx.

(** What [updateKeyVals[key] = val] does for one encoded pair. *)
Definition store_update (o : JsObj.t Value) (kv : Payload * Payload) : JsObj.t Value :=
  JsObj.set (toPropertyKey (content (fst kv))) (content (snd kv)) o.

End Wire.

(** ** trajectory.js: the trail of a moving point *)

Module Trajectory.

Definition LEN_TRAJECTORY_TRAIL : nat := 500.

Section Ring.

(** A position is the three numbers of [val[0]]; what they are plays no
    part in the bookkeeping of the ring. *)
Context {P : Type}.

(** The content of a fresh [Float32Array]. *)
Variable origin : P.

(** The length of the trail, [LEN_TRAJECTORY_TRAIL] in the source. *)
Variable trail : nat.

(** A trajectory: the position attribute shared by its two lines, the
    draw range (start, count) of each line, and the [redisgl] record. *)
Record t : Type := {
  positions : list P;
  drawRange1 : nat * nat;
  drawRange2 : nat * nat;
  idx : nat;
  len : nat;
}.

Definition create : t :=
  {| positions := replicate (trail + 1) origin;
     drawRange1 := (0, 0);
     drawRange2 := (0, 0);
     idx := 0;
     len := 0 |}.

(** [attribute.set(pos, 3 * i)]: the typed array raises [RangeError]
    when the three numbers do not fit at that offset. *)
Definition set (positions : list P) (pos : P) (i : nat) : Completion (list P) :=
  if decide (i < length positions) then Normal (<[i := pos]> positions)
  else Throw RangeError.

Definition appendPosition (traj : t) (pos : P) : Completion t :=
  positions ← set (positions traj) pos (idx traj);
  let idx := S (idx traj) in
  '(positions, idx) ←
    (if decide (trail < idx) then
       positions ← set positions pos 0; Normal (positions, 1)
     else Normal (positions, idx));
  if decide (len traj < trail) then
    let len := S (len traj) in
    Normal {| positions := positions;
              drawRange1 := (0, len);
              drawRange2 := drawRange2 traj;
              idx := idx;
              len := len |}
  else
    Normal {| positions := positions;
              drawRange1 := (0, idx);
              drawRange2 := (idx, trail - idx + 1);
              idx := idx;
              len := len traj |}.

Definition reset (traj : t) : t :=
  {| positions := positions traj;
     drawRange1 := (0, 0);
     drawRange2 := (0, 0);
     idx := 0;
     len := 0 |}.

(** A run of appends, from the first position to the last. *)
Fixpoint appendAll (traj : t) (ps : list P) : Completion t :=
  match ps with
  | [] => Normal traj
  | pos :: ps' => traj ← appendPosition traj pos; appendAll traj ps'
  end.

(** The points a line draws: [count] slots from [start]. *)
Definition segment (positions : list P) (range : nat * nat) : list P :=
  take (snd range) (drop (fst range) positions).

Definition visible (traj : t) : list P :=
  segment (positions traj) (drawRange1 traj) ++ segment (positions traj) (drawRange2 traj).

(** The state while the trail is filling: nothing has wrapped yet. *)
Definition filling (ps : list P) : t :=
  {| positions := ps ++ replicate (trail + 1 - length ps) origin;
     drawRange1 := (0, length ps);
     drawRange2 := (0, 0);
     idx := length ps;
     len := length ps |}.

(** The state once the trail is full, after the positions [ps]: the
    slots below [i] hold the newest [i] positions, the slots from [i] on
    the older ones, back to the [trail]-th last. *)
Definition wrapped (ps : list P) (i : nat) : t :=
  {| positions := drop (length ps - i) ps ++ take (trail + 1 - i) (drop (length ps - trail) ps);
     drawRange1 := (0, i);
     drawRange2 := (i, trail - i + 1);
     idx := i;
     len := trail |}.

End Ring.

Arguments t P : clear implicits.

End Trajectory.

(** ** robot.js: joint configurations *)

Module Robot.

(** [String.prototype.toLowerCase] on one Latin-1 character. *)
Definition toLowerCase (c : ascii) : ascii :=
  let n := nat_of_ascii c in
  if (65 <=? n)%nat && (n <=? 90)%nat then ascii_of_nat (n + 32)
  else if (192 <=? n)%nat && (n <=? 222)%nat && negb (n =? 215)%nat
       then ascii_of_nat (n + 32)
  else c.

Section Kinematics.

(** three.js is not part of the sources: its quaternions and vectors, the
    numbers of a configuration, and the operations [updateQ] calls on
    them are parameters. *)
Context {Quaternion Vector3 Number : Type}.

(** [new THREE.Quaternion()] *)
Variable identity : Quaternion.
(** [quat.setFromAxisAngle(axis, angle)] *)
Variable setFromAxisAngle : Vector3 -> Number -> Quaternion.
(** [multiply a b] is the product [a * b]: [b.premultiply(a)] sets [b]
    to it. *)
Variable multiply : Quaternion -> Quaternion -> Quaternion.
(** [new THREE.Vector3()] *)
Variable zero : Vector3.
(** [v.multiplyScalar(s)] *)
Variable multiplyScalar : Vector3 -> Number -> Vector3.
(** [add u v] is the sum [u + v]: [u.add(v)] sets [u] to it. *)
Variable add : Vector3 -> Vector3 -> Vector3.
(** The global [parseFloat], on strings. *)
Variable parseFloat : string -> float.
(** What three.js is given for [q[i]]: a number, a string of one
    character, an array of numbers, or, past the end of [q],
    [undefined]. *)
Variable number : float -> Number.
Variable character : ascii -> Number.
Variable array : list float -> Number.
Variable undefined : Number.

(** A body of the chain: its pose in its parent, and the [redisgl]
    record [create] attaches, with the pose at rest, the first letter of
    the joint type and the joint axis (missing when the second letter is
    none of x, y, z). *)
Record Body : Type := {
  quaternion : Quaternion;
  position : Vector3;
  redisgl_quaternion : Quaternion;
  redisgl_position : Vector3;
  jointType : ascii;
  jointAxis : option Vector3;
}.

(** The [redisgl] record of a robot: the bodies and the configuration,
    by its elements [q[0]], [q[1]], ... *)
Record t : Type := {
  bodies : list Body;
  q : list Number;
}.

(** The elements of what [makeNumeric] returns: the characters of a
    string, the numbers of an array, the rows of a matrix. *)
Definition elements (q : Redis.Numeric) : list Number :=
  match q with
  | Redis.NString s => map character (list_ascii_of_string s)
  | Redis.NArray row => map number row
  | Redis.NMatrix rows => map array rows
  end.

(** Reading [axis.x] of a missing axis raises [TypeError]. *)
Definition axis_of (body : Body) : Completion Vector3 :=
  match jointAxis body with
  | Some axis => Normal axis
  | None => Throw TypeError
  end.

(** The body of the loop of [updateQ], for the body at index [i]. *)
Definition updateBody (q : list Number) (i : nat) (body : Body) : Completion Body :=
  let qi := default undefined (q !! i) in
  quat ← (if Ascii.eqb (toLowerCase (jointType body)) "r" then
            axis ← axis_of body; Normal (setFromAxisAngle axis qi)
          else Normal identity);
  let quat := multiply (redisgl_quaternion body) quat in
  pos ← (if Ascii.eqb (toLowerCase (jointType body)) "p" then
           axis ← axis_of body; Normal (multiplyScalar axis qi)
         else Normal zero);
  let pos := add pos (redisgl_position body) in
  Normal {| quaternion := quat;
            position := pos;
            redisgl_quaternion := redisgl_quaternion body;
            redisgl_position := redisgl_position body;
            jointType := jointType body;
            jointAxis := jointAxis body |}.

Fixpoint updateBodies (q : list Number) (i : nat) (bodies : list Body)
  : Completion (list Body) :=
  match bodies with
  | [] => Normal []
  | body :: rest =>
      body ← updateBody q i body;
      rest ← updateBodies q (S i) rest;
      Normal (body :: rest)
  end.

(** [updateQ(robot, val)]. When the loop raises, the robot keeps the
    poses set before the joint that raised; the model returns no robot
    then. *)
Definition updateQ (robot : t) (val : Redis.Val) : Completion (t * bool) :=
  q ← Redis.makeNumeric0 parseFloat val;
  let q := elements q in
  bodies ← updateBodies q 0 (bodies robot);
  Normal ({| bodies := bodies; q := q |}, true).

(** The configuration a value stands for: the numbers its first row
    spells, or its first character. *)
Inductive configures : Redis.Val -> list Number -> Prop :=
| configures_row (row : list string) (rows : list (list string)) :
    configures (Redis.VMatrix (row :: rows)) (map (fun s => number (parseFloat s)) row)
| configures_char (c : ascii) (s : string) :
    configures (Redis.VString (String c s)) [character c].

(** A value without a first element: the empty string, a matrix of no
    rows, an [ArrayBuffer]. *)
Definition first_missing (val : Redis.Val) : bool :=
  match val with
  | Redis.VString EmptyString | Redis.VMatrix [] | Redis.VBuffer _ => true
  | _ => false
  end.

(** A revolute joint: its type is the letter r, small or capital. *)
Definition revolute (body : Body) : bool :=
  Ascii.eqb (jointType body) "r" || Ascii.eqb (jointType body) "R".

(** A prismatic joint: its type is the letter p, small or capital. *)
Definition prismatic (body : Body) : bool :=
  Ascii.eqb (jointType body) "p" || Ascii.eqb (jointType body) "P".

(** A joint that moves has an axis to move about. *)
Definition axis_known (body : Body) : Prop :=
  revolute body || prismatic body = true -> jointAxis body <> None.

(** The pose [updateQ] gives a body for the joint value [qi]. *)
Definition posed (qi : Number) (body body' : Body) : Prop :=
  redisgl_quaternion body' = redisgl_quaternion body
  /\ redisgl_position body' = redisgl_position body
  /\ jointType body' = jointType body
  /\ jointAxis body' = jointAxis body
  /\ (forall axis, revolute body = true -> jointAxis body = Some axis ->
        quaternion body'
        = multiply (redisgl_quaternion body) (setFromAxisAngle axis qi))
  /\ (revolute body = false -> quaternion body' = redisgl_quaternion body)
  /\ (forall axis, prismatic body = true -> jointAxis body = Some axis ->
        position body' = add (redisgl_position body) (multiplyScalar axis qi))
  /\ (prismatic body = false -> position body' = redisgl_position body).

End Kinematics.

Arguments Body : clear implicits.
Arguments t : clear implicits.

End Robot.

(** ** camera.js: frames and the point cloud *)

Module Camera.

Local Open Scope float_scope.

Definition DOWNSCALE_FACTOR : nat := 2.

(** The dimensions of an image: [[numRows, numCols, numChannels]]. *)
Record Dim : Type := {
  numRows : nat;
  numCols : nat;
  numChannels : nat;
}.

(** The intrinsic matrix as [makeNumeric] leaves it: rows of numbers. *)
Definition Intrinsic : Type := list (list float).

(** A camera: the [redisgl] record, the pose, the attributes and the draw
    range of the point cloud ([children[0]]), and the position arrays of
    the eight lines of the frame ([children[1]]). An attribute is absent
    until the first depth image creates it; the draw range is absent
    until it is set. *)
Record t : Type := {
  colorImage : option (list float);
  depthImage : option (list float);
  depthDim : Dim;
  colorDim : Dim;
  intrinsic : option Intrinsic;
  position : option Redis.Numeric;
  quaternion : option Redis.Numeric;
  positionArray : option (list float);
  colorArray : option (list float);
  drawRange : option (nat * nat);
  frame : list (list float);
}.

Definition create : t :=
  {| colorImage := None;
     depthImage := None;
     depthDim := {| numRows := 0; numCols := 0; numChannels := 0 |};
     colorDim := {| numRows := 0; numCols := 0; numChannels := 0 |};
     intrinsic := None;
     position := None;
     quaternion := None;
     positionArray := None;
     colorArray := None;
     drawRange := None;
     frame := replicate 8 (replicate 6 0) |}.

Definition with_points (camera : t) (array : list float) (count : nat) : t :=
  {| colorImage := colorImage camera;
     depthImage := depthImage camera;
     depthDim := depthDim camera;
     colorDim := colorDim camera;
     intrinsic := intrinsic camera;
     position := position camera;
     quaternion := quaternion camera;
     positionArray := Some array;
     colorArray := colorArray camera;
     drawRange := Some (0%nat, count);
     frame := frame camera |}.

Definition with_colors (camera : t) (array : list float) : t :=
  {| colorImage := colorImage camera;
     depthImage := depthImage camera;
     depthDim := depthDim camera;
     colorDim := colorDim camera;
     intrinsic := intrinsic camera;
     position := position camera;
     quaternion := quaternion camera;
     positionArray := positionArray camera;
     colorArray := Some array;
     drawRange := drawRange camera;
     frame := frame camera |}.

Definition with_frame (camera : t) (lines : list (list float)) : t :=
  {| colorImage := colorImage camera;
     depthImage := depthImage camera;
     depthDim := depthDim camera;
     colorDim := colorDim camera;
     intrinsic := intrinsic camera;
     position := position camera;
     quaternion := quaternion camera;
     positionArray := positionArray camera;
     colorArray := colorArray camera;
     drawRange := drawRange camera;
     frame := lines |}.

(** [K[i][j]]: a missing row has no elements to read ([TypeError]); a
    missing element is [undefined], [NaN] in arithmetic. *)
Definition entry (K : Intrinsic) (i j : nat) : Completion float :=
  match K !! i with
  | Some row => Normal (default nan (row !! j))
  | None => Throw TypeError
  end.

(** [image[i] / scale]; past the end [image[i]] is [undefined]. *)
Definition element_over (image : list float) (i : nat) (scale : float) : float :=
  default nan (image !! i) / scale.

(** [a % b != 0] on naturals; [a % 0] is [NaN]. *)
Definition remainder_nonzero (a b : nat) : bool :=
  match b with
  | O => true
  | _ => negb (a mod b =? 0)%nat
  end.

(** [attributes.position.array] and the like: an absent attribute has no
    [array]. *)
Definition array_of (attribute : option (list float)) : Completion (list float) :=
  match attribute with
  | Some array => Normal array
  | None => Throw TypeError
  end.

Section Reprojection.

(** [DOWNSCALE_FACTOR] in the source. *)
Variable downscale : nat.

(** The body of the inner loop of the first pass of [renderPointCloud],
    at column [x] of row [y]. *)
Definition pointAt (K : Intrinsic) (rows cols : nat) (image : list float)
    (y : nat) (acc : list float * nat) (x : nat) : Completion (list float * nat) :=
  let '(buffer, idx) := acc in
  if remainder_nonzero x downscale then Normal acc
  else
    let d := element_over image (cols * y + x) 1000 in
    if isNaN d || (d <=? 0) then Normal acc
    else
      k02 ← entry K 0 2;
      k00 ← entry K 0 0;
      let buffer := store32 buffer (3 * idx + 0) (d * (number x - k02) / k00) in
      k12 ← entry K 1 2;
      k11 ← entry K 1 1;
      let buffer := store32 buffer (3 * idx + 1) (d * (number (rows - y) - k12) / k11) in
      let buffer := store32 buffer (3 * idx + 2) d in
      Normal (buffer, S idx).

Definition pointsOfRow (K : Intrinsic) (rows cols : nat) (image : list float)
    (acc : list float * nat) (y : nat) : Completion (list float * nat) :=
  if remainder_nonzero y downscale then Normal acc
  else foldM (pointAt K rows cols image y) acc (seq 0 cols).

(** The body of the inner loop of the second pass. *)
Definition colorAt (rows cols channels : nat) (image colors : list float)
    (y : nat) (acc : list float * nat) (x : nat) : list float * nat :=
  let '(colorBuffer, idx) := acc in
  if remainder_nonzero x downscale then acc
  else
    let idxRow := ((rows - y) * cols * channels)%nat in
    let idxCol := (x * channels)%nat in
    let d := element_over image (cols * y + x) 1000 in
    if isNaN d || (d <=? 0) then acc
    else
      let colorBuffer :=
        fold_left
          (fun colorBuffer c =>
             store32 colorBuffer (3 * idx + c)
               (element_over colors (idxRow + idxCol + c) 255))
          (seq 0 3) colorBuffer in
      (colorBuffer, S idx).

Definition colorsOfRow (rows cols channels : nat) (image colors : list float)
    (acc : list float * nat) (y : nat) : list float * nat :=
  if remainder_nonzero y downscale then acc
  else fold_left (colorAt rows cols channels image colors y) (seq 0 cols) acc.

Definition renderPointCloud (camera : t) : Completion (t * bool) :=
  match depthImage camera, intrinsic camera with
  | Some image, Some K =>
      let rows := numRows (depthDim camera) in
      let cols := numCols (depthDim camera) in
      buffer ← array_of (positionArray camera);
      '(buffer, idx) ← foldM (pointsOfRow K rows cols image) (buffer, 0%nat) (seq 0 rows);
      let camera := with_points camera buffer idx in
      let numColorRows := numRows (colorDim camera) in
      let numColorCols := numCols (colorDim camera) in
      match colorImage camera with
      | Some colors =>
          if negb (numColorRows =? rows)%nat || negb (numColorCols =? cols)%nat
          then Normal (camera, true)
          else
            colorBuffer ← array_of (colorArray camera);
            let channels := numChannels (colorDim camera) in
            let '(colorBuffer, _) :=
              fold_left (colorsOfRow rows cols channels image colors)
                (seq 0 rows) (colorBuffer, 0%nat) in
            Normal (with_colors camera colorBuffer, true)
      | None => Normal (camera, true)
      end
  | _, _ => Normal (camera, false)
  end.

End Reprojection.

(** The corner of the view frame at pixel ([y], [x]), at unit depth. *)
Definition corner (K : Intrinsic) (yx : float * float) : Completion (list float) :=
  let '(y, x) := yx in
  k02 ← entry K 0 2;
  k00 ← entry K 0 0;
  k12 ← entry K 1 2;
  k11 ← entry K 1 1;
  Normal [(x - k02) / k00; (y - k12) / k11; 1].

Fixpoint mapM {A B : Type} (f : A -> Completion B) (l : list A) : Completion (list B) :=
  match l with
  | [] => Normal []
  | a :: l' => b ← f a; bs ← mapM f l'; Normal (b :: bs)
  end.

(** [array[offset + j] = corner[j]] for [j] below 3. *)
Definition store_corner (array : list float) (offset : nat) (corner : list float)
  : list float :=
  fold_left
    (fun array j => store32 array (offset + j) (default nan (corner !! j)))
    (seq 0 3) array.

(** The position array of line [i] of the frame after
    [renderCameraViewFrame]. *)
Definition frame_line (corners : list (list float)) (i : nat) (array : list float)
  : list float :=
  if (i <? 4)%nat then
    store_corner array 3 (default [] (corners !! i))
  else
    let corner1 := default [] (corners !! (i mod 4)%nat) in
    let corner2 := default [] (corners !! ((i + 1) mod 4)%nat) in
    store_corner (store_corner array 0 corner1) 3 corner2.

Definition renderCameraViewFrame (camera : t) : Completion (t * bool) :=
  match intrinsic camera with
  | None => Normal (camera, false)
  | Some K =>
      let rows := number (numRows (depthDim camera)) in
      let cols := number (numCols (depthDim camera)) in
      corners ← mapM (corner K)
        [(0, 0); (0, cols - 1); (rows - 1, cols - 1); (rows - 1, 0)];
      Normal (with_frame camera (imap (frame_line corners) (frame camera)), true)
  end.

(** *** The update handlers *)

(** A decode that has been started and has not reported yet: the
    callback given to [promise_img.then], with the camera it closes
    over and the image and dimensions it will be called with. *)
Inductive Task : Type :=
| DepthDecoded (camera : nat) (img : list float) (dim : Dim)
| ColorDecoded (camera : nat) (img : list float) (dim : Dim).

(** The cameras ever created, by identity, the two flags of the module
    and the decodes in flight. *)
Record World : Type := {
  cameras : list t;
  updatingDepth : bool;
  updatingColor : bool;
  pending : list Task;
}.

Definition empty_world : World :=
  {| cameras := []; updatingDepth := false; updatingColor := false; pending := [] |}.

Definition with_cameras (world : World) (cameras : list t) : World :=
  {| cameras := cameras;
     updatingDepth := updatingDepth world;
     updatingColor := updatingColor world;
     pending := pending world |}.

Definition with_pending (world : World) (pending : list Task) : World :=
  {| cameras := cameras world;
     updatingDepth := updatingDepth world;
     updatingColor := updatingColor world;
     pending := pending |}.

Definition with_updatingDepth (world : World) (flag : bool) : World :=
  {| cameras := cameras world;
     updatingDepth := flag;
     updatingColor := updatingColor world;
     pending := pending world |}.

Definition with_updatingColor (world : World) (flag : bool) : World :=
  {| cameras := cameras world;
     updatingDepth := updatingDepth world;
     updatingColor := flag;
     pending := pending world |}.

(** The camera object a reference denotes. *)
Definition deref (world : World) (camera : nat) : Completion t :=
  match cameras world !! camera with
  | Some spec => Normal spec
  | None => Throw TypeError
  end.

Definition assign (world : World) (camera : nat) (spec : t) : World :=
  with_cameras world (<[camera := spec]> (cameras world)).

(** [create(key, loadCallback)]: a new camera object. *)
Definition new_camera (world : World) : World * nat :=
  (with_cameras world (cameras world ++ [create]), length (cameras world)).

Definition with_depth (camera : t) (img : list float) (dim : Dim) : t :=
  {| colorImage := colorImage camera;
     depthImage := Some img;
     depthDim := dim;
     colorDim := colorDim camera;
     intrinsic := intrinsic camera;
     position := position camera;
     quaternion := quaternion camera;
     positionArray := positionArray camera;
     colorArray := colorArray camera;
     drawRange := drawRange camera;
     frame := frame camera |}.

Definition with_color (camera : t) (img : list float) (dim : Dim) : t :=
  {| colorImage := Some img;
     depthImage := depthImage camera;
     depthDim := depthDim camera;
     colorDim := dim;
     intrinsic := intrinsic camera;
     position := position camera;
     quaternion := quaternion camera;
     positionArray := positionArray camera;
     colorArray := colorArray camera;
     drawRange := drawRange camera;
     frame := frame camera |}.

Definition with_intrinsic (camera : t) (K : Intrinsic) : t :=
  {| colorImage := colorImage camera;
     depthImage := depthImage camera;
     depthDim := depthDim camera;
     colorDim := colorDim camera;
     intrinsic := Some K;
     position := position camera;
     quaternion := quaternion camera;
     positionArray := positionArray camera;
     colorArray := colorArray camera;
     drawRange := drawRange camera;
     frame := frame camera |}.

Definition with_pose (camera : t) (position quaternion : option Redis.Numeric) : t :=
  {| colorImage := colorImage camera;
     depthImage := depthImage camera;
     depthDim := depthDim camera;
     colorDim := colorDim camera;
     intrinsic := intrinsic camera;
     position := position;
     quaternion := quaternion;
     positionArray := positionArray camera;
     colorArray := colorArray camera;
     drawRange := drawRange camera;
     frame := frame camera |}.

(** The new buffers of the first depth image: [3 * img.length / 4]
    numbers each, zeros for the positions, ones for the colours, and an
    empty draw range. *)
Definition new_buffers (camera : t) (img : list float) : t :=
  let len_buffer := (3 * length img / (DOWNSCALE_FACTOR * DOWNSCALE_FACTOR))%nat in
  {| colorImage := colorImage camera;
     depthImage := depthImage camera;
     depthDim := depthDim camera;
     colorDim := colorDim camera;
     intrinsic := intrinsic camera;
     position := position camera;
     quaternion := quaternion camera;
     positionArray := Some (replicate len_buffer 0);
     colorArray := Some (replicate len_buffer 1);
     drawRange := Some (0%nat, 0%nat);
     frame := frame camera |}.

(** [Number(c)] for the string of the one character [c]: a digit is its
    value, white space is 0, anything else is [NaN]. *)
Definition number_of_char (c : ascii) : float :=
  match JsObj.digit_of c with
  | Some d => number (N.to_nat d)
  | None => if Redis.is_space c then 0 else nan
  end.

(** What a value given as intrinsic has for rows. The rows of a string
    are its characters: [K[i][0]] is the character itself, a number
    only in arithmetic, and [K[i][j]] is [undefined] past that. The
    elements of an array of numbers have no elements of their own. *)
Definition rows_of (K : Redis.Numeric) : Intrinsic :=
  match K with
  | Redis.NString s => map (fun c => [number_of_char c]) (list_ascii_of_string s)
  | Redis.NArray row => replicate (length row) []
  | Redis.NMatrix rows => rows
  end.

(** A rendering function applied to a camera of the world. When it
    raises, the stores it made into the buffers before are not kept. *)
Definition rendering (f : t -> Completion (t * bool)) (camera : nat)
  : StateM World bool := fun world =>
  match deref world camera with
  | Throw e => (world, Throw e)
  | Normal spec =>
      match f spec with
      | Throw e => (world, Throw e)
      | Normal (spec, result) => (assign world camera spec, Normal result)
      end
  end.

(** A store into a field of a camera of the world. *)
Definition updating (f : t -> t) (camera : nat) : StateM World unit := fun world =>
  match deref world camera with
  | Throw e => (world, Throw e)
  | Normal spec => (assign world camera (f spec), Normal tt)
  end.

Section Handlers.

Variable parseFloat : string -> float.

(** [parseOpenCvMat(opencv_mat)]: the image its promise resolves to and
    the dimensions, or the exception it raises. The decoders it hands
    the bytes to (the EXR loader of three.js, the PNG decoder of the
    browser) are not part of the sources. On a buffer on which the loop
    over the size does not end (see [OpenCv.sizeWord]) the page hangs in
    the call; the handlers below are about the buffers on which it
    returns or raises. *)
Variable parseOpenCvMat : list byte -> Completion (list float * Dim).

Definition updateIntrinsic (camera : nat) (val : Redis.Val) : StateM World bool :=
  K ← lift (Redis.makeNumeric parseFloat val);
  updating (fun spec => with_intrinsic spec (rows_of K)) camera;;
  framed ← rendering renderCameraViewFrame camera;
  if (framed : bool) then rendering (renderPointCloud DOWNSCALE_FACTOR) camera
  else mret false.

Definition updatePosition (camera : nat) (val : Redis.Val) : StateM World bool :=
  pos ← lift (Redis.makeNumeric0 parseFloat val);
  updating (fun spec => with_pose spec (Some pos) (quaternion spec)) camera;;
  mret true.

Definition updateOrientation (camera : nat) (val : Redis.Val) : StateM World bool :=
  quat ← lift (Redis.makeNumeric0 parseFloat val);
  updating (fun spec => with_pose spec (position spec) (Some quat)) camera;;
  mret true.

Definition updateDepthImage (camera : nat) (opencv_mat : Redis.Val)
  : StateM World bool := fun world =>
  match opencv_mat with
  | Redis.VBuffer buffer =>
      if updatingDepth world then (world, Normal false)
      else
        let world := with_updatingDepth world true in
        match parseOpenCvMat buffer with
        | Throw e => (world, Throw e)
        | Normal (img, dim) =>
            (with_pending world (pending world ++ [DepthDecoded camera img dim]),
             Normal false)
        end
  | _ => (world, Normal false)
  end.

Definition updateColorImage (camera : nat) (opencv_mat : Redis.Val)
  : StateM World bool := fun world =>
  match opencv_mat with
  | Redis.VBuffer buffer =>
      if updatingColor world then (world, Normal false)
      else
        let world := with_updatingColor world true in
        match parseOpenCvMat buffer with
        | Throw e => (world, Throw e)
        | Normal (img, dim) =>
            (with_pending world (pending world ++ [ColorDecoded camera img dim]),
             Normal false)
        end
  | _ => (world, Normal false)
  end.

End Handlers.

(** The callback of [updateDepthImage], run when the image is there.
    The boolean tells whether it called [renderCallback]; the flag is
    cleared in both branches. *)
Definition depthDecoded (camera : nat) (img : list float) (dim : Dim)
  : StateM World bool :=
  updating
    (fun spec =>
       let spec :=
         match depthImage spec with
         | None => new_buffers spec img
         | Some _ => spec
         end in
       with_depth spec img dim)
    camera;;
  rendering renderCameraViewFrame camera;;
  rendering (renderPointCloud DOWNSCALE_FACTOR) camera;;
  world ← get;
  modify (fun world => with_updatingDepth world false);;
  mret (negb (updatingColor world)).

(** The callback of [updateColorImage]. *)
Definition colorDecoded (camera : nat) (img : list float) (dim : Dim)
  : StateM World bool :=
  updating (fun spec => with_color spec img dim) camera;;
  rendering (renderPointCloud DOWNSCALE_FACTOR) camera;;
  world ← get;
  modify (fun world => with_updatingColor world false);;
  mret (negb (updatingDepth world)).

Definition run (task : Task) : StateM World bool :=
  match task with
  | DepthDecoded camera img dim => depthDecoded camera img dim
  | ColorDecoded camera img dim => colorDecoded camera img dim
  end.

(** Neither rendering function touches the images, their dimensions or
    the intrinsic matrix. *)
Definition same_frame_state (spec spec' : Camera.t) : Prop :=
  depthImage spec' = depthImage spec
  /\ colorImage spec' = colorImage spec
  /\ depthDim spec' = depthDim spec
  /\ colorDim spec' = colorDim spec
  /\ intrinsic spec' = intrinsic spec.

End Camera.

(** ** simulator.js: the registry and the dispatch loop *)

Module Simulator.

Import Redis.

Definition KEY_ARGS : string := "webapp::simulator::args".

(** The four component modules. *)
Inductive Kind : Type :=
| KRobot
| KObject
| KTrajectory
| KCamera.

#[global] Instance Kind_eq_dec : EqDecision Kind.
Proof. solve_decision. Defined.

(** What the loop reads of a parsed JSON text: the prefixes of an args
    record and the update keys of a model. A field is [None] where the
    text has none ([undefined] in the source). *)
Record Json : Type := {
  key_cameras_prefix : option string;
  key_objects_prefix : option string;
  key_robots_prefix : option string;
  key_trajectories_prefix : option string;
  key_q : option string;
  key_pos : option string;
  key_ori : option string;
  key_scale : option string;
  key_matrix : option string;
  key_intrinsic : option string;
  key_depth_image : option string;
  key_color_image : option string;
}.

(** The update callbacks the four [parse...Model] functions register. *)
Inductive Handler : Type :=
| RobotUpdateQ
| RobotUpdatePosition
| RobotUpdateOrientation
| ObjectUpdatePosition
| ObjectUpdateOrientation
| ObjectUpdateScale
| ObjectUpdateMatrix
| TrajectoryAppendPosition
| CameraUpdatePosition
| CameraUpdateOrientation
| CameraUpdateIntrinsic
| CameraUpdateDepthImage
| CameraUpdateColorImage.

(** An entry of the registry: the closure [(val) => updateCallback(
    component, val, renderCallback)], by the component it closes over
    and the callback it calls. *)
Record Callback : Type := {
  component : nat;
  handler : Handler;
}.

(** One call of a registered callback: where it was registered, what it
    was given and how it completed. *)
Record Invocation : Type := {
  at_key : string;
  at_component : string;
  callee : Callback;
  given : Val;
  outcome : Completion bool;
}.

(** A string where the source has a value that may be [undefined]. *)
Definition js_string (s : option string) : string := default "undefined"%string s.

(** [ToString] of a decoded payload and of a value of a form. *)
Definition toString (v : Value) : string := toPropertyKey v.

Definition join (sep : string) (l : list string) : string :=
  match l with
  | [] => ""%string
  | s :: l' => fold_left (fun acc s' => (acc ++ sep ++ s')%string) l' s
  end.

Definition valToString (v : Val) : string :=
  match v with
  | VString s => s
  | VMatrix rows => join "," (map (join ","%string) rows)
  | VBuffer _ => "[object ArrayBuffer]"
  end.

Definition is_line_terminator (c : ascii) : bool :=
  let n := nat_of_ascii c in (n =? 10)%nat || (n =? 13)%nat.

Fixpoint has_line_terminator (s : string) : bool :=
  match s with
  | EmptyString => false
  | String c r => is_line_terminator c || has_line_terminator r
  end.

(** What follows [webapp::simulator::args::] in [key], when [key]
    starts with it and nothing that follows is a line terminator: the
    group of the regular expression of [parseArgs]. *)
Definition args_namespace (key : string) : option string :=
  let p := (KEY_ARGS ++ "::")%string in
  if String.prefix p key then
    let rest := String.substring (String.length p) (String.length key - String.length p) key in
    if has_line_terminator rest then None else Some rest
  else None.

Definition prefix_of (kind : Kind) (json : Json) : option string :=
  match kind with
  | KRobot => key_robots_prefix json
  | KObject => key_objects_prefix json
  | KTrajectory => key_trajectories_prefix json
  | KCamera => key_cameras_prefix json
  end.

Section Loop.

(** The collaborators of the loop that are not part of the sources:
    the arguments a call takes, [JSON.parse] and [parseFloat]; the image
    decoders behind [parseOpenCvMat]; the HTML forms of redis.js, by the
    functions the loop calls on them, each of which looks its form up
    with a jQuery selector made of the key and raises, an [Error], when
    jQuery cannot read it; and the scene nodes of three.js behind the robot, object and
    trajectory modules, by [create] and by the update callbacks, each of
    which leaves a state of the nodes and either reports whether to
    render or throws. *)
Context {Forms Nodes : Type}.
Variable max_arguments : N.
Variable JSON_parse : string -> Completion Json.
Variable parseFloat : string -> float.
Variable parseOpenCvMat : list byte -> Completion (list float * Camera.Dim).
Variable formExists : string -> Forms -> Completion bool.
Variable getValue : string -> Forms -> Completion Val.
Variable getKeys : Forms -> list string.
Variable updateForm : string -> option Val -> Forms -> Forms * Completion unit.
Variable deleteForm : string -> Forms -> Forms * Completion unit.
Variable create_node : Kind -> Json -> Nodes -> Nodes * Completion nat.
Variable update_node : Handler -> nat -> Val -> Nodes -> Nodes * Completion bool.

(** The variables of the ready handler: the flag of the socket, the
    registry, the args and the four maps from keys to components; the
    children of the scene this file adds; the number of calls of
    [renderer.render]; the load callbacks not yet called; the forms, the
    nodes and the cameras; for the statements only, the calls of
    registered callbacks so far; and whether the page has written to an
    object that is none of these variables: a member of
    [Object.prototype], or the prototype of one of the maps. Every
    object of the page inherits what is written there, and from then on
    the fields of the state no longer tell what the page does. *)
Record State : Type := {
  handlingMessage : bool;
  redisUpdateCallbacks : JsObj.t (JsObj.t Callback);
  args : JsObj.t Json;
  robots : JsObj.t nat;
  objects : JsObj.t nat;
  trajectories : JsObj.t nat;
  cameras : JsObj.t nat;
  scene : list (Kind * nat);
  renders : nat;
  loading : list (Kind * string * nat);
  forms : Forms;
  nodes : Nodes;
  world : Camera.World;
  invoked : list Invocation;
  polluted : bool;
}.

Definition with_handlingMessage (st : State) (x : bool) : State :=
  {| handlingMessage := x;
     redisUpdateCallbacks := redisUpdateCallbacks st;
     args := args st;
     robots := robots st;
     objects := objects st;
     trajectories := trajectories st;
     cameras := cameras st;
     scene := scene st;
     renders := renders st;
     loading := loading st;
     forms := forms st;
     nodes := nodes st;
     world := world st;
     invoked := invoked st;
     polluted := polluted st |}.

Definition with_redisUpdateCallbacks (st : State) (x : JsObj.t (JsObj.t Callback)) : State :=
  {| handlingMessage := handlingMessage st;
     redisUpdateCallbacks := x;
     args := args st;
     robots := robots st;
     objects := objects st;
     trajectories := trajectories st;
     cameras := cameras st;
     scene := scene st;
     renders := renders st;
     loading := loading st;
     forms := forms st;
     nodes := nodes st;
     world := world st;
     invoked := invoked st;
     polluted := polluted st |}.

Definition with_args (st : State) (x : JsObj.t Json) : State :=
  {| handlingMessage := handlingMessage st;
     redisUpdateCallbacks := redisUpdateCallbacks st;
     args := x;
     robots := robots st;
     objects := objects st;
     trajectories := trajectories st;
     cameras := cameras st;
     scene := scene st;
     renders := renders st;
     loading := loading st;
     forms := forms st;
     nodes := nodes st;
     world := world st;
     invoked := invoked st;
     polluted := polluted st |}.

Definition with_robots (st : State) (x : JsObj.t nat) : State :=
  {| handlingMessage := handlingMessage st;
     redisUpdateCallbacks := redisUpdateCallbacks st;
     args := args st;
     robots := x;
     objects := objects st;
     trajectories := trajectories st;
     cameras := cameras st;
     scene := scene st;
     renders := renders st;
     loading := loading st;
     forms := forms st;
     nodes := nodes st;
     world := world st;
     invoked := invoked st;
     polluted := polluted st |}.

Definition with_objects (st : State) (x : JsObj.t nat) : State :=
  {| handlingMessage := handlingMessage st;
     redisUpdateCallbacks := redisUpdateCallbacks st;
     args := args st;
     robots := robots st;
     objects := x;
     trajectories := trajectories st;
     cameras := cameras st;
     scene := scene st;
     renders := renders st;
     loading := loading st;
     forms := forms st;
     nodes := nodes st;
     world := world st;
     invoked := invoked st;
     polluted := polluted st |}.

Definition with_trajectories (st : State) (x : JsObj.t nat) : State :=
  {| handlingMessage := handlingMessage st;
     redisUpdateCallbacks := redisUpdateCallbacks st;
     args := args st;
     robots := robots st;
     objects := objects st;
     trajectories := x;
     cameras := cameras st;
     scene := scene st;
     renders := renders st;
     loading := loading st;
     forms := forms st;
     nodes := nodes st;
     world := world st;
     invoked := invoked st;
     polluted := polluted st |}.

Definition with_cameras (st : State) (x : JsObj.t nat) : State :=
  {| handlingMessage := handlingMessage st;
     redisUpdateCallbacks := redisUpdateCallbacks st;
     args := args st;
     robots := robots st;
     objects := objects st;
     trajectories := trajectories st;
     cameras := x;
     scene := scene st;
     renders := renders st;
     loading := loading st;
     forms := forms st;
     nodes := nodes st;
     world := world st;
     invoked := invoked st;
     polluted := polluted st |}.

Definition with_scene (st : State) (x : list (Kind * nat)) : State :=
  {| handlingMessage := handlingMessage st;
     redisUpdateCallbacks := redisUpdateCallbacks st;
     args := args st;
     robots := robots st;
     objects := objects st;
     trajectories := trajectories st;
     cameras := cameras st;
     scene := x;
     renders := renders st;
     loading := loading st;
     forms := forms st;
     nodes := nodes st;
     world := world st;
     invoked := invoked st;
     polluted := polluted st |}.

Definition with_renders (st : State) (x : nat) : State :=
  {| handlingMessage := handlingMessage st;
     redisUpdateCallbacks := redisUpdateCallbacks st;
     args := args st;
     robots := robots st;
     objects := objects st;
     trajectories := trajectories st;
     cameras := cameras st;
     scene := scene st;
     renders := x;
     loading := loading st;
     forms := forms st;
     nodes := nodes st;
     world := world st;
     invoked := invoked st;
     polluted := polluted st |}.

Definition with_loading (st : State) (x : list (Kind * string * nat)) : State :=
  {| handlingMessage := handlingMessage st;
     redisUpdateCallbacks := redisUpdateCallbacks st;
     args := args st;
     robots := robots st;
     objects := objects st;
     trajectories := trajectories st;
     cameras := cameras st;
     scene := scene st;
     renders := renders st;
     loading := x;
     forms := forms st;
     nodes := nodes st;
     world := world st;
     invoked := invoked st;
     polluted := polluted st |}.

Definition with_forms (st : State) (x : Forms) : State :=
  {| handlingMessage := handlingMessage st;
     redisUpdateCallbacks := redisUpdateCallbacks st;
     args := args st;
     robots := robots st;
     objects := objects st;
     trajectories := trajectories st;
     cameras := cameras st;
     scene := scene st;
     renders := renders st;
     loading := loading st;
     forms := x;
     nodes := nodes st;
     world := world st;
     invoked := invoked st;
     polluted := polluted st |}.

Definition with_nodes (st : State) (x : Nodes) : State :=
  {| handlingMessage := handlingMessage st;
     redisUpdateCallbacks := redisUpdateCallbacks st;
     args := args st;
     robots := robots st;
     objects := objects st;
     trajectories := trajectories st;
     cameras := cameras st;
     scene := scene st;
     renders := renders st;
     loading := loading st;
     forms := forms st;
     nodes := x;
     world := world st;
     invoked := invoked st;
     polluted := polluted st |}.

Definition with_world (st : State) (x : Camera.World) : State :=
  {| handlingMessage := handlingMessage st;
     redisUpdateCallbacks := redisUpdateCallbacks st;
     args := args st;
     robots := robots st;
     objects := objects st;
     trajectories := trajectories st;
     cameras := cameras st;
     scene := scene st;
     renders := renders st;
     loading := loading st;
     forms := forms st;
     nodes := nodes st;
     world := x;
     invoked := invoked st;
     polluted := polluted st |}.

Definition with_invoked (st : State) (x : list Invocation) : State :=
  {| handlingMessage := handlingMessage st;
     redisUpdateCallbacks := redisUpdateCallbacks st;
     args := args st;
     robots := robots st;
     objects := objects st;
     trajectories := trajectories st;
     cameras := cameras st;
     scene := scene st;
     renders := renders st;
     loading := loading st;
     forms := forms st;
     nodes := nodes st;
     world := world st;
     invoked := x;
     polluted := polluted st |}.

Definition with_polluted (st : State) (x : bool) : State :=
  {| handlingMessage := handlingMessage st;
     redisUpdateCallbacks := redisUpdateCallbacks st;
     args := args st;
     robots := robots st;
     objects := objects st;
     trajectories := trajectories st;
     cameras := cameras st;
     scene := scene st;
     renders := renders st;
     loading := loading st;
     forms := forms st;
     nodes := nodes st;
     world := world st;
     invoked := invoked st;
     polluted := x |}.

Definition components (kind : Kind) (st : State) : JsObj.t nat :=
  match kind with
  | KRobot => robots st
  | KObject => objects st
  | KTrajectory => trajectories st
  | KCamera => cameras st
  end.

Definition with_components (kind : Kind) (st : State) (x : JsObj.t nat) : State :=
  match kind with
  | KRobot => with_robots st x
  | KObject => with_objects st x
  | KTrajectory => with_trajectories st x
  | KCamera => with_cameras st x
  end.

(** [renderer.render(scene, camera)] *)
Definition render : StateM State unit :=
  modify (fun st => with_renders st (S (renders st))).

(** The callback [cb] applied to [val]. *)
Definition call (cb : Callback) (val : Val) : StateM State bool := fun st =>
  let on_camera (f : StateM Camera.World bool) :=
    let '(w, r) := f (world st) in (with_world st w, r) in
  match handler cb with
  | CameraUpdatePosition => on_camera (Camera.updatePosition parseFloat (component cb) val)
  | CameraUpdateOrientation => on_camera (Camera.updateOrientation parseFloat (component cb) val)
  | CameraUpdateIntrinsic => on_camera (Camera.updateIntrinsic parseFloat (component cb) val)
  | CameraUpdateDepthImage => on_camera (Camera.updateDepthImage parseOpenCvMat (component cb) val)
  | CameraUpdateColorImage => on_camera (Camera.updateColorImage parseOpenCvMat (component cb) val)
  | h =>
      let '(n, r) := update_node h (component cb) val (nodes st) in
      (with_nodes st n, r)
  end.

(** A call, entered in the record of calls. *)
Definition invoke (key keyComponent : string) (cb : Callback) (val : Val)
  : StateM State bool := fun st =>
  let '(st, r) := call cb val st in
  (with_invoked st
     (invoked st ++ [{| at_key := key; at_component := keyComponent; callee := cb;
                        given := val; outcome := r |}]),
   r).

(** A call of one of the functions of redis.js that read the forms. *)
Definition reading {A : Type} (f : Forms -> Completion A) : StateM State A :=
  fun st => (st, f (forms st)).

(** A call of one of the functions of redis.js that change the forms. *)
Definition writing (f : Forms -> Forms * Completion unit) : StateM State unit :=
  fun st => let '(forms, r) := f (forms st) in (with_forms st forms, r).

(** [redisUpdateCallbacks[key][keyComponent] = ...] where
    [redisUpdateCallbacks[key]] is an array the registry owns. The
    property [length] of an array takes no closure for a value. *)
Definition store_callback (key keyComponent : string) (cb : Callback)
    (entry : JsObj.t Callback) : StateM State unit :=
  if String.eqb keyComponent "length" then lift (Throw RangeError)
  else
    modify (fun st =>
      with_redisUpdateCallbacks st
        (JsObj.set key (JsObj.set keyComponent cb entry) (redisUpdateCallbacks st))).

(** At a key that names a member of [Object.prototype] the registry
    gets no array: [key in redisUpdateCallbacks] holds already, and the
    closure is stored in that member. *)
Definition registerRedisUpdateCallback (key : option string) (keyComponent : string)
    (cb : Callback) : StateM State unit :=
  if bool_decide (key = Some ""%string) then mret tt
  else
    let key := js_string key in
    st ← get;
    (if JsObj.in_ key (redisUpdateCallbacks st) then mret tt
     else
       modify (fun st =>
         with_redisUpdateCallbacks st
           (JsObj.set key JsObj.empty (redisUpdateCallbacks st))));;
    st ← get;
    (match JsObj.get key (redisUpdateCallbacks st) with
     | Some entry => store_callback key keyComponent cb entry
     | None => modify (fun st => with_polluted st true)
     end);;
    present ← reading (formExists key);
    if (present : bool) then
      val ← reading (getValue key);
      invoke key keyComponent cb val;; mret tt
    else mret tt.

(** The loop of [unregisterRedisUpdateCallback] over the keys of the
    registry. The test [keyComponent in redisUpdateCallbacks[key]] lets
    pass the properties of the array and the names it inherits; of the
    latter the array has nothing to delete. The property [length] is its
    own and cannot be deleted, which raises in the strict code of a
    module. *)
Fixpoint delete_callbacks (keyComponent : string)
    (callbacks : JsObj.t (JsObj.t Callback)) : Completion (JsObj.t (JsObj.t Callback)) :=
  match callbacks with
  | [] => Normal []
  | (key, entry) :: rest =>
      if String.eqb keyComponent "length" then Throw TypeError
      else
        rest ← delete_callbacks keyComponent rest;
        Normal ((key, JsObj.delete keyComponent entry) :: rest)
  end.

Definition unregisterRedisUpdateCallback (keyComponent : string) : StateM State unit :=
  st ← get;
  callbacks ← lift (delete_callbacks keyComponent (redisUpdateCallbacks st));
  modify (fun st => with_redisUpdateCallbacks st callbacks).

Definition isModelKey (key : string) (kind : Kind) (st : State) : bool :=
  existsb
    (fun '(_, json) =>
       negb (bool_decide (prefix_of kind json = Some ""%string))
       && String.prefix (js_string (prefix_of kind json)) key)
    (args st).

(** Whether the load callback of [create] is called before [create]
    returns (trajectories, cameras) or later (robots, objects). *)
Definition loads_later (kind : Kind) : bool :=
  match kind with
  | KRobot | KObject => true
  | KTrajectory | KCamera => false
  end.

(** [Component.create(model, loadCallback)]: a new component. The load
    callback of a trajectory or a camera runs inside [create], before the
    component is in its map, and returns at once. *)
Definition create (kind : Kind) (model : Json) : StateM State nat := fun st =>
  match kind with
  | KCamera =>
      let '(w, component) := Camera.new_camera (world st) in
      (with_world st w, Normal component)
  | _ =>
      let '(n, r) := create_node kind model (nodes st) in
      (with_nodes st n, r)
  end.

(** [components[key] = component]. At [__proto__] the assignment gives
    the map a new prototype, the component, and no property. *)
Definition store_component (kind : Kind) (key : string) (component : nat)
  : StateM State unit :=
  if String.eqb key "__proto__" then modify (fun st => with_polluted st true)
  else
    modify (fun st =>
      with_components kind st (JsObj.set key component (components kind st))).

(** [addComponentToScene(Component, components, key, model, callback)].
    Under [key in components] a name the map inherits passes as well:
    what [components[key]] is then is no child of the scene and no
    property of the map, and nothing is removed. The result is the new
    component, which is what [components[key]] is from then on. *)
Definition addComponentToScene (kind : Kind) (key : string) (model : Json)
  : StateM State nat :=
  component ← create kind model;
  modify (fun st =>
    if loads_later kind then with_loading st (loading st ++ [(kind, key, component)])
    else st);;
  modify (fun st =>
    match JsObj.get key (components kind st) with
    | Some old =>
        let st := with_scene st (filter (fun c => c <> (kind, old)) (scene st)) in
        with_components kind st (JsObj.delete key (components kind st))
    | None => st
    end);;
  store_component kind key component;;
  modify (fun st => with_scene st (scene st ++ [(kind, component)]));;
  render;;
  mret component.

Definition parseRobotModel (key val : string) : StateM State bool :=
  st ← get;
  if negb (isModelKey key KRobot st) then mret false
  else
    model ← lift (JSON_parse val);
    robot ← addComponentToScene KRobot key model;
    registerRedisUpdateCallback (key_q model) key
      {| component := robot; handler := RobotUpdateQ |};;
    registerRedisUpdateCallback (key_pos model) key
      {| component := robot; handler := RobotUpdatePosition |};;
    registerRedisUpdateCallback (key_ori model) key
      {| component := robot; handler := RobotUpdateOrientation |};;
    mret true.

Definition parseObjectModel (key val : string) : StateM State bool :=
  st ← get;
  if negb (isModelKey key KObject st) then mret false
  else
    model ← lift (JSON_parse val);
    object ← addComponentToScene KObject key model;
    registerRedisUpdateCallback (key_pos model) key
      {| component := object; handler := ObjectUpdatePosition |};;
    (if bool_decide (key_ori model = Some ""%string) then mret tt
     else registerRedisUpdateCallback (key_ori model) key
            {| component := object; handler := ObjectUpdateOrientation |});;
    (if bool_decide (key_scale model = Some ""%string) then mret tt
     else registerRedisUpdateCallback (key_scale model) key
            {| component := object; handler := ObjectUpdateScale |});;
    (if bool_decide (key_matrix model = Some ""%string) then mret tt
     else registerRedisUpdateCallback (key_matrix model) key
            {| component := object; handler := ObjectUpdateMatrix |});;
    mret true.

Definition parseTrajectoryModel (key val : string) : StateM State bool :=
  st ← get;
  if negb (isModelKey key KTrajectory st) then mret false
  else
    model ← lift (JSON_parse val);
    trajectory ← addComponentToScene KTrajectory key model;
    registerRedisUpdateCallback (key_pos model) key
      {| component := trajectory; handler := TrajectoryAppendPosition |};;
    mret true.

Definition parseCameraModel (key val : string) : StateM State bool :=
  st ← get;
  if negb (isModelKey key KCamera st) then mret false
  else
    model ← lift (JSON_parse val);
    camera ← addComponentToScene KCamera key model;
    registerRedisUpdateCallback (key_pos model) key
      {| component := camera; handler := CameraUpdatePosition |};;
    registerRedisUpdateCallback (key_ori model) key
      {| component := camera; handler := CameraUpdateOrientation |};;
    registerRedisUpdateCallback (key_intrinsic model) key
      {| component := camera; handler := CameraUpdateIntrinsic |};;
    registerRedisUpdateCallback (key_depth_image model) key
      {| component := camera; handler := CameraUpdateDepthImage |};;
    registerRedisUpdateCallback (key_color_image model) key
      {| component := camera; handler := CameraUpdateColorImage |};;
    mret true.

(** The rescan of [parseArgs]: every key that has a form is offered to
    the model parser its prefix selects under the new args, with the
    value of its form. *)
Definition loadExisting (json : Json) (key : string) : StateM State unit :=
  let starts (kind : Kind) := String.prefix (js_string (prefix_of kind json)) key in
  let load (parseModelFunction : string -> string -> StateM State bool)
    : StateM State unit :=
    val ← reading (getValue key);
    parseModelFunction key (valToString val);; mret tt in
  if starts KCamera then load parseCameraModel
  else if starts KObject then load parseObjectModel
  else if starts KRobot then load parseRobotModel
  else if starts KTrajectory then load parseTrajectoryModel
  else mret tt.

(** [args[namespace] = ...]. At [__proto__] the assignment gives the
    args a new prototype and no property. *)
Definition store_args (namespace : string) (json : Json) : StateM State unit :=
  if String.eqb namespace "__proto__" then modify (fun st => with_polluted st true)
  else modify (fun st => with_args st (JsObj.set namespace json (args st))).

Definition parseArgs (keyVals : JsObj.t Value) : StateM State unit :=
  forM keyVals (fun '(key, val) =>
    match args_namespace key with
    | None => mret tt
    | Some namespace =>
        match JSON_parse (toString val) with
        | Throw _ => mret tt
        | Normal json =>
            store_args namespace json;;
            st ← get;
            forM (getKeys (forms st)) (loadExisting json)
        end
    end).

(** The loop of [parseModels], from the entry [(key, val)] on: an
    exception of a model parser ends the loop and is not raised
    further. *)
Fixpoint parseModels (keyVals : JsObj.t Value) : StateM State unit :=
  match keyVals with
  | [] => mret tt
  | (key, Binary _) :: rest => parseModels rest
  | (key, Text val) :: rest =>
      parsed ← try_catch
        (isCamera ← parseCameraModel key val;
         if (isCamera : bool) then mret (Some true)
         else
           isObject ← parseObjectModel key val;
           if (isObject : bool) then mret (Some true)
           else
             isRobot ← parseRobotModel key val;
             if (isRobot : bool) then mret (Some true)
             else
               isTrajectory ← parseTrajectoryModel key val;
               mret (Some isTrajectory))
        (fun _ => mret None);
      match parsed with
      | None => mret tt
      | Some false => parseModels rest
      | Some true =>
          writing (updateForm key (Some (VString val)));;
          parseModels rest
      end
  end.

(** The value [parseUpdateKeys] hands to the callbacks of a key. *)
Definition toVal (val : Value) : Val :=
  match val with
  | Text s => if isNumeric parseFloat val then VMatrix (stringToMatrix s) else VString s
  | Binary b => VBuffer b
  end.

(** The inner loop of [parseUpdateKeys] over the callbacks of [key]. *)
Fixpoint dispatch (key : string) (val : Val) (entry : JsObj.t Callback)
    (renderFrame : bool) : StateM State bool :=
  match entry with
  | [] => mret renderFrame
  | (keyComponent, updateCallback) :: rest =>
      result ← invoke key keyComponent updateCallback val;
      dispatch key val rest (result || renderFrame)
  end.

(** What a [for ... in] loop over [redisUpdateCallbacks[key]] visits:
    the callbacks of the array at [key]; at a key the registry has from
    [Object.prototype], nothing. *)
Definition callbacks_at (key : string) (st : State) : JsObj.t Callback :=
  default JsObj.empty (JsObj.get key (redisUpdateCallbacks st)).

Fixpoint updateKeys (keyVals : JsObj.t Value) (renderFrame : bool) : StateM State bool :=
  match keyVals with
  | [] => mret renderFrame
  | (key, val) :: rest =>
      let val := toVal val in
      st ← get;
      renderFrame ←
        (if JsObj.in_ key (redisUpdateCallbacks st)
         then dispatch key val (callbacks_at key st) renderFrame
         else mret renderFrame);
      writing (updateForm key (match val with VBuffer _ => None | _ => Some val end));;
      updateKeys rest renderFrame
  end.

Definition parseUpdateKeys (keyVals : JsObj.t Value) : StateM State bool :=
  updateKeys keyVals false.

(** The removal of the component at [key] of the map of [kind], as the
    two branches of [parseDeleteKeys] do it. At a key the map has from
    [Object.prototype] there is nothing to remove from the scene or to
    delete from the map. *)
Definition remove (kind : Kind) (key : string) : StateM State unit :=
  modify (fun st =>
    match JsObj.get key (components kind st) with
    | Some old =>
        let st := with_scene st (filter (fun c => c <> (kind, old)) (scene st)) in
        with_components kind st (JsObj.delete key (components kind st))
    | None => st
    end);;
  unregisterRedisUpdateCallback key.

Fixpoint deleteKeys (keys : list Value) (renderFrame : bool) : StateM State bool :=
  match keys with
  | [] => mret renderFrame
  | k :: rest =>
      let key := toString k in
      st ← get;
      renderFrame ←
        (if JsObj.in_ key (robots st) then remove KRobot key;; mret true
         else if JsObj.in_ key (objects st) then remove KObject key;; mret true
         else mret renderFrame);
      writing (deleteForm key);;
      deleteKeys rest renderFrame
  end.

Definition parseDeleteKeys (keys : list Value) : StateM State bool :=
  deleteKeys keys false.

Definition handleMessage (buffer : list byte) : StateM State unit :=
  keys ← lift (parseMessage max_arguments buffer);
  parseArgs (toUpdate keys);;
  parseModels (toUpdate keys);;
  renderFrame ← parseUpdateKeys (toUpdate keys);
  deleted ← parseDeleteKeys (toDelete keys);
  let renderFrame := deleted || renderFrame in
  (if renderFrame then render else mret tt);;
  modify (fun st => with_handlingMessage st false).

(** [ws.onmessage], with the promise of the bytes resolved. *)
Definition onmessage (buffer : list byte) : StateM State unit :=
  st ← get;
  if handlingMessage st then mret tt
  else
    modify (fun st => with_handlingMessage st true);;
    handleMessage buffer.

(** The load callback of [addComponentToScene] for the component
    created at [key]: it renders only if that component is still the one
    at [key]. *)
Definition loaded (kind : Kind) (key : string) (component : nat) : StateM State unit :=
  st ← get;
  if JsObj.in_ key (components kind st)
     && bool_decide (JsObj.get key (components kind st) = Some component)
  then render
  else mret tt.

(** The callback of a decode, with the [renderCallback] every
    registration passes. *)
Definition decoded (task : Camera.Task) : StateM State unit := fun st =>
  match Camera.run task (world st) with
  | (w, Normal true) => render (with_world st w)
  | (w, Normal false) => (with_world st w, Normal tt)
  | (w, Throw e) => (with_world st w, Throw e)
  end.

(** The decode in flight at position [i] reports. *)
Definition complete (i : nat) : StateM State unit := fun st =>
  match Camera.pending (world st) !! i with
  | Some task =>
      let w := Camera.with_pending (world st) (delete i (Camera.pending (world st))) in
      decoded task (with_world st w)
  | None => (st, Normal tt)
  end.

Definition initial (forms0 : Forms) (nodes0 : Nodes) : State :=
  {| handlingMessage := false;
     redisUpdateCallbacks := JsObj.empty;
     args := JsObj.empty;
     robots := JsObj.empty;
     objects := JsObj.empty;
     trajectories := JsObj.empty;
     cameras := JsObj.empty;
     scene := [];
     renders := 0;
     loading := [];
     forms := forms0;
     nodes := nodes0;
     world := Camera.empty_world;
     invoked := [];
     polluted := false |}.

(** A call that asked for a render. *)
Definition asked (call : Invocation) : bool :=
  match outcome call with
  | Normal true => true
  | _ => false
  end.

(** A delete key that [parseDeleteKeys] finds in the robots or in the
    objects: the key of a robot or an object, or the name of a member of
    [Object.prototype]. *)
Definition names_entity (st : State) (key : Value) : bool :=
  JsObj.in_ (toString key) (robots st) || JsObj.in_ (toString key) (objects st).

End Loop.

End Simulator.

(** ** The reprojector as the specification words it *)

Module Reprojection.

Import Camera.

Local Open Scope float_scope.

Section Words.

Variable downscale : nat.
Variable K : Intrinsic.
Variables rows cols : nat.
Variable image : list float.

(** The pixels of the image in raster order: row by row, the row index
    increasing, the columns of a row from left to right. *)
Definition raster : list (nat * nat) :=
  flat_map (fun y => map (pair y) (seq 0 cols)) (seq 0 rows).

(** [a % b == 0]; [a % 0] is [NaN], which equals no number. *)
Definition multiple (a b : nat) : bool :=
  negb (b =? 0)%nat && (a mod b =? 0)%nat.

(** [row % downscale == 0 && col % downscale == 0] *)
Definition sampled (p : nat * nat) : bool :=
  multiple (fst p) downscale && multiple (snd p) downscale.

(** [d = raw / 1000] *)
Definition depth (p : nat * nat) : float :=
  element_over image (cols * fst p + snd p) 1000.

Definition is_finite (d : float) : bool :=
  negb (isNaN d) && negb (d =? infinity) && negb (d =? neg_infinity).

(** A finite positive number, as the specification has it. *)
Definition finite_positive (d : float) : bool := is_finite d && (0 <? d).

(** A number above zero, as the source tests it: not [NaN] and not at
    most 0. *)
Definition positive (d : float) : bool := negb (isNaN d || (d <=? 0)).

(** [K[i][j]] in arithmetic. *)
Definition K_at (i j : nat) : float :=
  default nan (default [] (K !! i) !! j).

(** The point of a pixel. *)
Definition point (p : nat * nat) : float * float * float :=
  let d := depth p in
  (d * (number (snd p) - K_at 0 2) / K_at 0 0,
   d * (number (rows - fst p) - K_at 1 2) / K_at 1 1,
   d).

(** The pixels emitted when only finite positive depths count. *)
Definition emitted_finite : list (nat * nat) :=
  List.filter (fun p => sampled p && finite_positive (depth p)) raster.

(** The pixels emitted when every depth above zero counts. *)
Definition emitted : list (nat * nat) :=
  List.filter (fun p => sampled p && positive (depth p)) raster.

End Words.

(** Point [idx] stored into a position buffer. *)
Definition store_point (acc : list float * nat) (p : float * float * float)
  : list float * nat :=
  let '(buffer, idx) := acc in
  let '(x, y, z) := p in
  (store32 (store32 (store32 buffer (3 * idx + 0) x) (3 * idx + 1) y) (3 * idx + 2) z,
   S idx).

(** The points stored one after the other, from point 0 on. *)
Definition store_points (buffer : list float) (points : list (float * float * float))
  : list float * nat :=
  fold_left store_point points (buffer, 0%nat).

End Reprojection.

(** ** A sample of collaborators and of traffic *)

(** Simple stand-ins for what the sources leave to the browser and to
    three.js, and a few messages, for the concrete runs below. *)

Module Sample.

Import Redis Wire Simulator.

(** Forms: the keys shown, in alphabetical order, each with its value
    (none for a binary one). A deleted form is gone at once. *)
Definition Forms : Type := list (string * option Val).

Definition formExists (key : string) (forms : Forms) : bool :=
  JsObj.has key forms.

Definition getValue (key : string) (forms : Forms) : Val :=
  match JsObj.get key forms with
  | Some (Some val) => val
  | _ => VMatrix [[]]
  end.

Definition getKeys (forms : Forms) : list string := map fst forms.

Fixpoint addForm (key : string) (val : option Val) (forms : Forms) : Forms :=
  match forms with
  | [] => [(key, val)]
  | (key', val') :: rest =>
      if String.ltb key key' then (key, val) :: forms
      else (key', val') :: addForm key val rest
  end.

Definition updateForm (key : string) (val : option Val) (forms : Forms) : Forms :=
  if JsObj.has key forms then
    match val with
    | Some _ => JsObj.replace key val forms
    | None => forms
    end
  else addForm key val forms.

Definition deleteForm (key : string) (forms : Forms) : Forms :=
  JsObj.delete key forms.

(** Nodes: the kinds of the components created, a component being known
    by its place in the list, and the updates applied. *)
Record Nodes : Type := {
  created : list Kind;
  applied : list (Handler * nat * Val);
}.

Definition no_nodes : Nodes := {| created := []; applied := [] |}.

Definition create_node (kind : Kind) (model : Json) (nodes : Nodes)
  : Nodes * Completion nat :=
  ({| created := created nodes ++ [kind]; applied := applied nodes |},
   Normal (length (created nodes))).

(** The digits at the start of [s], as a number. *)
Fixpoint digits (s : string) (acc : option nat) : option nat :=
  match s with
  | EmptyString => acc
  | String c r =>
      match JsObj.digit_of c with
      | Some d => digits r (Some (10 * default 0%nat acc + N.to_nat d)%nat)
      | None => acc
      end
  end.

(** [parseFloat] for unsigned whole numbers: the number the leading
    digits spell, [NaN] when there is none. *)
Definition parseFloat (s : string) : float :=
  match digits (trimStart s) None with
  | Some n => number n
  | None => nan
  end.

(** An update through a callback of the robot, object or trajectory
    module: [makeNumeric(val[0])] raises when there is no [val[0]];
    [appendPosition] returns nothing, the others [true]. *)
Definition update_node (handler : Handler) (component : nat) (val : Val) (nodes : Nodes)
  : Nodes * Completion bool :=
  match makeNumeric0 parseFloat val with
  | Throw e => (nodes, Throw e)
  | Normal _ =>
      ({| created := created nodes;
          applied := applied nodes ++ [(handler, component, val)] |},
       Normal (match handler with TrajectoryAppendPosition => false | _ => true end))
  end.

(** An image decoder: one row of pixels, one per byte. *)
Definition parseOpenCvMat (buffer : list byte)
  : Completion (list float * Camera.Dim) :=
  Normal (map (fun b => number (N.to_nat (Byte.to_N b))) buffer,
          {| Camera.numRows := 1; Camera.numCols := length buffer;
             Camera.numChannels := 1 |}).

Definition no_keys : Json :=
  {| key_cameras_prefix := None; key_objects_prefix := None;
     key_robots_prefix := None; key_trajectories_prefix := None;
     key_q := None; key_pos := None; key_ori := None; key_scale := None;
     key_matrix := None; key_intrinsic := None; key_depth_image := None;
     key_color_image := None |}.

(** The args: a prefix per kind. *)
Definition args_doc : Json :=
  {| key_cameras_prefix := Some "camera::"%string;
     key_objects_prefix := Some "object::"%string;
     key_robots_prefix := Some "robot::"%string;
     key_trajectories_prefix := Some "trajectory::"%string;
     key_q := None; key_pos := None; key_ori := None; key_scale := None;
     key_matrix := None; key_intrinsic := None; key_depth_image := None;
     key_color_image := None |}.

(** A model that binds the one key [key] through the field of its kind:
    [key_q] for a robot, [key_depth_image] for a camera. *)
Definition robot_doc (key : string) : Json :=
  {| key_cameras_prefix := None; key_objects_prefix := None;
     key_robots_prefix := None; key_trajectories_prefix := None;
     key_q := Some key; key_pos := Some ""%string; key_ori := Some ""%string;
     key_scale := None; key_matrix := None; key_intrinsic := None;
     key_depth_image := None; key_color_image := None |}.

Definition camera_doc (key : string) : Json :=
  {| key_cameras_prefix := None; key_objects_prefix := None;
     key_robots_prefix := None; key_trajectories_prefix := None;
     key_q := None; key_pos := Some ""%string; key_ori := Some ""%string;
     key_scale := None; key_matrix := None; key_intrinsic := Some ""%string;
     key_depth_image := Some key; key_color_image := Some ""%string |}.

(** [JSON.parse] on the texts of the sample, each named for the record
    it stands for. *)
Definition JSON_parse (text : string) : Completion Json :=
  if String.eqb text "args" then Normal args_doc
  else if String.eqb text "arm, first model" then Normal (robot_doc "arm::q")
  else if String.eqb text "arm, second model" then Normal (robot_doc "arm::joints")
  else if String.eqb text "front, first model" then Normal (camera_doc "front::depth")
  else if String.eqb text "front, second model" then Normal (camera_doc "front::range")
  else Throw SyntaxError.

Abbreviation State := (@Simulator.State Forms Nodes).

Definition initial : State := Simulator.initial [] no_nodes.

(** The arguments a call takes in the runs below. *)
Definition max_arguments : N := 65536.

(** The functions of redis.js on these forms. None of them raises: no
    key of the runs below has a character that breaks the selector
    [form[data-key='...']]. *)
Definition Redis_formExists (key : string) (forms : Forms) : Completion bool :=
  Normal (formExists key forms).

Definition Redis_getValue (key : string) (forms : Forms) : Completion Val :=
  Normal (getValue key forms).

Definition Redis_updateForm (key : string) (val : option Val) (forms : Forms)
  : Forms * Completion unit :=
  (updateForm key val forms, Normal tt).

Definition Redis_deleteForm (key : string) (forms : Forms) : Forms * Completion unit :=
  (deleteForm key forms, Normal tt).

Definition onmessage : list byte -> StateM State unit :=
  Simulator.onmessage max_arguments JSON_parse parseFloat parseOpenCvMat
    Redis_formExists Redis_getValue getKeys Redis_updateForm Redis_deleteForm
    create_node update_node.

Definition complete : nat -> StateM State unit := Simulator.complete.

(** A message of text keys and short payloads. *)
Definition text (s : string) : Payload :=
  {| reserved := false; tier := Literal; content := Text s |}.

Definition binary (b : list byte) : Payload :=
  {| reserved := false; tier := Literal; content := Binary b |}.

Definition message (updates : list (string * Payload)) (deletes : list string)
  : list byte :=
  encode {| updates := map (fun kv => (text (fst kv), snd kv)) updates;
            deletes := map text deletes |}.

(** The events of a run, one after the other. *)
Fixpoint run (events : list (StateM State unit)) : StateM State unit :=
  match events with
  | [] => mret tt
  | event :: rest => event ;; run rest
  end.

Definition args_key : string := "webapp::simulator::args::sample".

(** The args and a first model of the robot [robot::arm]. *)
Definition arm_arrives : list byte :=
  message [(args_key, text "args"); ("robot::arm"%string, text "arm, first model")] [].

(** A second model of the same robot, bound to another key. *)
Definition arm_replaced : list byte :=
  message [("robot::arm"%string, text "arm, second model")] [].

(** A configuration at the key of the first model. *)
Definition old_key_updated : list byte :=
  message [("arm::q"%string, text "0 0 0")] [].

Definition arm_deleted : list byte :=
  message [] ["robot::arm"%string].

(** The args and a first model of the camera [camera::front]. *)
Definition front_arrives : list byte :=
  message [(args_key, text "args"); ("camera::front"%string, text "front, first model")] [].

Definition front_replaced : list byte :=
  message [("camera::front"%string, text "front, second model")] [].

Definition front_deleted : list byte :=
  message [] ["camera::front"%string].

(** A delete of a key that names no component and a member of
    [Object.prototype]. *)
Definition toString_deleted : list byte :=
  message [] ["toString"%string].

(** A depth image of two pixels at the key of the first model. *)
Definition depth_arrives : list byte :=
  message [("front::depth"%string, binary [x07; x09])] [].

Definition handleMessage : list byte -> StateM State unit :=
  Simulator.handleMessage max_arguments JSON_parse parseFloat parseOpenCvMat
    Redis_formExists Redis_getValue getKeys Redis_updateForm Redis_deleteForm
    create_node update_node.

(** The args, a first model of the robot and a configuration at its
    key, in one message. *)
Definition arm_arrives_posed : list byte :=
  message [(args_key, text "args"); ("robot::arm"%string, text "arm, first model");
           ("arm::q"%string, text "0 0 0")] [].

(** A delete of one binary key of five bytes, and the message cut after
    the first byte of the key. *)
Definition blob_deleted : Message :=
  {| updates := []; deletes := [binary [xaa; xbb; xcc; xdd; xee]] |}.

Definition blob_cut : list byte := take 11 (encode blob_deleted).

(** A delete of one text key of five characters, cut at the same place. *)
Definition word_deleted : Message :=
  {| updates := []; deletes := [text "hello"] |}.

Definition word_cut : list byte := take 11 (encode word_deleted).

(** One binary delete key whose length byte says five where one byte
    follows. *)
Definition overlong : list byte :=
  [x00; x00; x00; x00; x00; x00; x00; x01; x02; x05; xaa].

(** Two updates and two deletes, the keys of the updates plain. *)
Definition batch : Message :=
  {| updates := [(text args_key, text "args");
                 (text "front::depth", binary [x07; x09])];
     deletes := [text "robot::arm"; binary [xaa; xbb]] |}.

(** Two updates, the key of the second an array index. *)
Definition out_of_order : Message :=
  {| updates := [(text "b", text "first"); (text "1", text "second")];
     deletes := [] |}.

(** An intrinsic matrix: focal length 2, principal point (1, 1). *)
Definition K3 : Camera.Intrinsic :=
  [[2; 0; 1]; [0; 2; 1]; [0; 0; 1]]%float.

(** A camera as its first depth image leaves it: the image and its
    dimensions stored, the buffers as [updateDepthImage] allocates them. *)
Definition camera_of (image : list float) (rows cols : nat) : Camera.t :=
  let dim := {| Camera.numRows := rows; Camera.numCols := cols;
                Camera.numChannels := 1 |} in
  Camera.new_buffers
    (Camera.with_depth (Camera.with_intrinsic Camera.create K3) image dim) image.

(** One pixel, infinitely far. *)
Definition far_pixel : list float := [infinity].

(** Four rows of four pixels, in millimetres. *)
Definition depth4 : list float :=
  [1000; 5; 2000; 5;
   5; 5; 5; 5;
   nan; 5; 0; 5;
   5; 5; 5; 5]%float.

(** Whole numbers for the quaternions, the vectors and the joint values
    of a chain: a rotation about an axis is the product of the axis and
    the angle, and orientations compose by addition. *)
Definition joint (type : ascii) (axis : option Z) (rest : Z) : Robot.Body Z Z :=
  {| Robot.quaternion := 0%Z; Robot.position := 0%Z;
     Robot.redisgl_quaternion := rest; Robot.redisgl_position := rest;
     Robot.jointType := type; Robot.jointAxis := axis |}.

(** A revolute joint, a prismatic one, a fixed one and one of a type
    that is none of these. *)
Definition chain : Robot.t Z Z Z :=
  {| Robot.bodies := [joint "R" (Some 1%Z) 10; joint "p" (Some 2%Z) 20;
                      joint "f" None 30; joint "?" None 40];
     Robot.q := [0; 0; 0; 0]%Z |}.

(** A number as a whole number: what is left of it without its
    fraction, 0 for what is no finite number. *)
Definition whole (x : float) : Z :=
  match Prim2SF x with
  | S754_finite s m e => (if s then -1 else 1) * Z.shiftl (Z.pos m) e
  | _ => 0
  end.

Definition updateQ : Robot.t Z Z Z -> Val -> Completion (Robot.t Z Z Z * bool) :=
  Robot.updateQ 0%Z Z.mul Z.add 0%Z Z.mul Z.add parseFloat whole
    (fun c => whole (Camera.number_of_char c)) (fun _ => 0%Z) 0%Z.

End Sample.

(** ** What a computation leaves alone *)

Module Frame.

Section Keeps.
Context {S X : Type}.

(** The part [part] of the state is the same after [m] as before,
    whether [m] returns or throws. *)
Definition keeps (part : S -> X) {A : Type} (m : StateM S A) : Prop :=
  forall s, part (fst (m s)) = part s.

(** After [m] the part [part] of the state is [x] if [m] returned, and
    as it was if [m] threw. *)
Definition ends (part : S -> X) (x : X) {A : Type} (m : StateM S A) : Prop :=
  forall s,
    match snd (m s) with
    | Normal _ => part (fst (m s)) = x
    | Throw _ => part (fst (m s)) = part s
    end.

End Keeps.

(** A property of the state that holds after [m] when it held before,
    whether [m] returns or throws. *)
Definition stable {S : Type} (property : S -> Prop) {A : Type} (m : StateM S A) : Prop :=
  forall s, property s -> property (fst (m s)).

End Frame.

(** ** redis.js: matrices as text, and the order of the forms *)

Module Sidebar.

Import Redis.

(** [matrixToString(matrix)]: a string is returned as it is, the rows
    of a matrix are joined by blanks and then by "; "; an [ArrayBuffer]
    has no [map]. *)
Definition matrixToString (matrix : Val) : Completion string :=
  match matrix with
  | VString s => Normal s
  | VMatrix rows => Normal (Simulator.join "; " (map (Simulator.join " ") rows))
  | VBuffer _ => Throw TypeError
  end.

Fixpoint all_chars (p : ascii -> bool) (s : string) : bool :=
  match s with
  | EmptyString => true
  | String c r => p c && all_chars p r
  end.

(** An element that survives the way through text: not empty, and free
    of white space and of semicolons. *)
Definition plain (e : string) : bool :=
  negb (String.eqb e "")
  && all_chars (fun c => negb (is_space c) && negb (Ascii.eqb c ";")) e.

(** A string that [trimStart] leaves as it is: not empty, and not
    starting with white space. *)
Definition solid (s : string) : bool :=
  match s with
  | EmptyString => false
  | String c _ => negb (is_space c)
  end.

(** A matrix of at least one row, each row of at least one such element. *)
Definition printable (rows : list (list string)) : bool :=
  negb (bool_decide (rows = []))
  && forallb (fun row => negb (bool_decide (row = [])) && forallb plain row) rows.

(** The forms of the page in document order, each by its [data-key]. *)
Definition Keys : Type := list string.

(** The loop of [addForm] that finds the place of [key]: the index of
    the first form whose key is greater, or the number of forms. *)
Fixpoint place (key : string) (keys : Keys) (idx_key : nat) : nat :=
  match keys with
  | [] => idx_key
  | k :: rest => if String.ltb key k then idx_key else place key rest (S idx_key)
  end.

(** [addForm(key, ...)], as to where the new form goes: before the form
    at the index found, or at the end. *)
Definition addForm (key : string) (keys : Keys) : Keys :=
  let idx_key := place key keys 0 in
  if (idx_key <? length keys)%nat
  then take idx_key keys ++ key :: drop idx_key keys
  else keys ++ [key].

(** In alphabetical order, as [<] on strings has it. *)
Fixpoint ordered (keys : Keys) : bool :=
  match keys with
  | [] => true
  | k :: rest =>
      match rest with
      | [] => true
      | k' :: _ => negb (String.ltb k' k) && ordered rest
      end
  end.

End Sidebar.

(** ** camera.js: the header of an image message *)

Module OpenCv.

Import Redis.

(** The ids of the matrix types of OpenCV that the viewer knows, each
    with its name. *)
Definition CV_TYPES : JsObj.t string :=
  [("0", "CV_8UC1"); ("8", "CV_8UC2"); ("16", "CV_8UC3"); ("24", "CV_8UC4");
   ("2", "CV_16UC1"); ("10", "CV_16UC2"); ("18", "CV_16UC3"); ("26", "CV_16UC4");
   ("5", "CV_32FC1"); ("13", "CV_32FC2"); ("11", "CV_32FC3"); ("29", "CV_32FC4")]%string.

(** [String.fromCharCode(buffer[idx])] for a [Uint8Array]: past the end
    the element is [undefined], whose character code is 0. *)
Definition fromCharCode (element : option byte) : ascii :=
  match element with
  | Some b => ascii_of_byte b
  | None => Ascii.zero
  end.

(** [string.includes(searchString)] *)
Fixpoint includes (searchString string : string) : bool :=
  String.prefix searchString string
  || match string with
     | EmptyString => false
     | String _ rest => includes searchString rest
     end.

(** The loop of [getOpenCvType], with [unread] the elements of the
    buffer from [idx] on: it goes on while [idx < buffer.length], that
    is while [unread] is not empty, and [char] is not a blank. *)
Fixpoint typeWord (unread : list byte) (word : string) (idx : nat) (char : ascii)
  : string * nat :=
  match unread with
  | [] => (word, idx)
  | b :: unread' =>
      if Ascii.eqb char " " then (word, idx)
      else typeWord unread' (word ++ String char EmptyString) (S idx) (ascii_of_byte b)
  end.

(** What [getOpenCvType] returns for a type: a string, or, for a word
    that names a property [CV_TYPES] inherits, a value that is no
    string. *)
Inductive CvType : Type :=
| Name (type : string)
| Inherited.

(** A blank in the bytes of a message. *)
Definition blank : byte := x20.

(** The matrix the EXR loader reads. *)
Record Exr : Type := {
  data : list float;
  width : nat;
  height : nat;
}.

(** The promise of the image: resolved with the data of the EXR file,
    or to be resolved when the browser has loaded the PNG image of the
    given bytes into an [Image] of the given size. *)
Inductive Promise : Type :=
| Resolved (img : list float)
| Loading (png_data : list byte) (numCols numRows : N).

Section Mat.

(** The names of the properties every object inherits. *)
Variable inherited : string -> bool.

Variable parseInt : string -> float.

(** [new THREE.EXRLoader().parse(buffer)] *)
Variable exr_parse : list byte -> Completion Exr.

Definition getOpenCvType (buffer : list byte) : CvType * nat :=
  let '(word, idx) := typeWord (drop 1 buffer) EmptyString 1 (fromCharCode (buffer !! 0%nat)) in
  match JsObj.get word CV_TYPES with
  | Some type => (Name type, idx)
  | None => if inherited word then (Inherited, idx) else (Name "custom", idx)
  end.

(** The loop of [getBufferSize]: it ends at a blank and at nothing
    else. Past the end of the buffer every character has code 0, and the
    loop goes on. [fuel] is the number of iterations the model follows:
    the result is [None] when the loop has not ended within them. *)
Fixpoint sizeWord (fuel : nat) (buffer : list byte) (word : string) (idx : nat)
    (char : ascii) : option (string * nat) :=
  if Ascii.eqb char " " then Some (word, idx)
  else
    match fuel with
    | O => None
    | S fuel =>
        sizeWord fuel buffer (word ++ String char EmptyString) (S idx)
          (fromCharCode (buffer !! idx))
    end.

Definition getBufferSize (fuel : nat) (buffer : list byte) (idx : nat)
  : option (float * nat) :=
  '(word, idx) ← sizeWord fuel buffer EmptyString (S idx) (fromCharCode (buffer !! idx));
  Some (parseInt word, idx).

(** [parseOpenCvMat(opencv_mat)]: the promise of the image, none when no
    branch is taken, and [[numRows, numCols, numChannels]]; [None] when
    the loop of [getBufferSize] has not ended within [fuel] iterations.

    A value that is no string has no [includes]. In the branch of the
    custom format [buffer] is an [ArrayBuffer], which has a [byteLength]
    and no [length]: [idx < buffer.length] is false, the loop reads no
    dimension, [dimOpenCv[2]] is [undefined] and selects no case of the
    [switch], [img] stays [undefined], and [img.length] raises. *)
Definition parseOpenCvMat (fuel : nat) (opencv_mat : list byte)
  : option (Completion (option Promise * list float)) :=
  let '(type, idx_buffer_prefix) := getOpenCvType opencv_mat in
  match type with
  | Inherited => Some (Throw TypeError)
  | Name type =>
      if includes "CV_32FC" type then
        '(_, idx_buffer_prefix) ← getBufferSize fuel opencv_mat idx_buffer_prefix;
        let buffer_exr := drop idx_buffer_prefix opencv_mat in
        Some
          (exr ← exr_parse buffer_exr;
           let numRows := number (height exr) in
           let numCols := number (width exr) in
           Normal (Some (Resolved (data exr)),
                   [numRows; numCols;
                    (number (length (data exr)) / (numRows * numCols))%float]))
      else if includes "CV_" type then
        '(_, idx_buffer_prefix) ← getBufferSize fuel opencv_mat idx_buffer_prefix;
        Some
          (numCols ← getUint32 opencv_mat (N.of_nat idx_buffer_prefix + 16);
           numRows ← getUint32 opencv_mat (N.of_nat idx_buffer_prefix + 20);
           Normal (Some (Loading (drop idx_buffer_prefix opencv_mat) numCols numRows),
                   [number (N.to_nat numRows); number (N.to_nat numCols); 4%float]))
      else if String.eqb type "custom" then Some (Throw TypeError)
      else Some (Normal (None, [0; 0; 0]%float))
  end.

End Mat.

(** A message as the viewer accepts it: the id of a type, a blank, a
    word for the size, a blank, and the bytes of the image. *)
Definition message (id size : string) (image : list byte) : list byte :=
  list_byte_of_string id ++ [blank] ++ list_byte_of_string size ++ [blank] ++ image.

(** No blank among the characters of [s]. *)
Fixpoint unbroken (s : string) : bool :=
  match s with
  | EmptyString => true
  | String c r => negb (Ascii.eqb c " ") && unbroken r
  end.

End OpenCv.

(** ** camera.js and simulator.js: the streams of images *)

Module Stream.

Import Redis Simulator.

Definition is_depth (task : Camera.Task) : bool :=
  match task with
  | Camera.DepthDecoded _ _ _ => true
  | Camera.ColorDecoded _ _ _ => false
  end.

(** The number of decodes in flight, of depth images or of colour
    images. *)
Fixpoint in_flight (depth : bool) (tasks : list Camera.Task) : nat :=
  match tasks with
  | [] => 0
  | task :: rest =>
      (if Bool.eqb (is_depth task) depth then 1 else 0) + in_flight depth rest
  end.

(** What decides whether images are taken: the two flags and the
    decodes in flight. *)
Definition queue (world : Camera.World) : bool * bool * list Camera.Task :=
  (Camera.updatingDepth world, Camera.updatingColor world, Camera.pending world).

(** Of each kind at most one decode is in flight, and none while the
    flag of the kind is clear. *)
Definition serial (world : Camera.World) : Prop :=
  in_flight true (Camera.pending world) <= (if Camera.updatingDepth world then 1 else 0)
  /\ in_flight false (Camera.pending world) <= (if Camera.updatingColor world then 1 else 0).

(** The flag [updatingDepth] is set, and no decode is in flight whose
    callback would clear it. *)
Definition stalled (world : Camera.World) : Prop :=
  Camera.updatingDepth world = true /\ in_flight true (Camera.pending world) = 0.

(** What happens to the page: a message arrives, the decode in flight
    at a position reports, the load callback of a component is called. *)
Inductive Event : Type :=
| Message (buffer : list byte)
| Decoded (i : nat)
| Loaded (kind : Kind) (key : string) (component : nat).

Section Page.

Context {Forms Nodes : Type}.
Variable max_arguments : N.
Variable JSON_parse : string -> Completion Json.
Variable parseFloat : string -> float.
Variable parseOpenCvMat : list byte -> Completion (list float * Camera.Dim).
Variable formExists : string -> Forms -> Completion bool.
Variable getValue : string -> Forms -> Completion Val.
Variable getKeys : Forms -> list string.
Variable updateForm : string -> option Val -> Forms -> Forms * Completion unit.
Variable deleteForm : string -> Forms -> Forms * Completion unit.
Variable create_node : Kind -> Json -> Nodes -> Nodes * Completion nat.
Variable update_node : Handler -> nat -> Val -> Nodes -> Nodes * Completion bool.

Definition handle (event : Event) : StateM (@State Forms Nodes) unit :=
  match event with
  | Message buffer =>
      onmessage max_arguments JSON_parse parseFloat parseOpenCvMat formExists getValue
        getKeys updateForm deleteForm create_node update_node buffer
  | Decoded i => complete i
  | Loaded kind key component => loaded kind key component
  end.

(** The state after a sequence of events. Each event is a task of its
    own: an exception ends the task and leaves the state to the next. *)
Definition after (events : list Event) (st : @State Forms Nodes) : @State Forms Nodes :=
  fold_left (fun st event => fst (handle event st)) events st.

End Page.

End Stream.

(** ** object.js: the pose of an object *)

Module GraphicsObject.

Import Redis.

(** [a[i]] for what [makeNumeric] returns: a character of a string, a
    number or a row of an array, or [undefined]. *)
Inductive Element : Type :=
| Undefined
| Character (c : ascii)
| Number (x : float)
| Row (row : list float).

Definition element (a : Numeric) (i : nat) : Element :=
  match a with
  | NString s =>
      match String.get i s with
      | Some c => Character c
      | None => Undefined
      end
  | NArray row =>
      match row !! i with
      | Some x => Number x
      | None => Undefined
      end
  | NMatrix rows =>
      match rows !! i with
      | Some row => Row row
      | None => Undefined
      end
  end.

(** [[].concat.apply([], a)]: the elements of the rows of a matrix one
    after the other; [apply] takes no string for its list of
    arguments. *)
Definition flatten (a : Numeric) : Completion (list float) :=
  match a with
  | NString _ => Throw TypeError
  | NArray row => Normal row
  | NMatrix rows => Normal (concat rows)
  end.

Section Object3D.

(** three.js is not part of the sources: its vectors, quaternions and
    matrices and the operations the callbacks call on them are
    parameters. *)
Context {Vector3 Quaternion Matrix4 : Type}.

Variable parseFloat : string -> float.
(** [v.fromArray(array)] *)
Variable fromArray : Numeric -> Vector3.
(** [q.set(x, y, z, w)] *)
Variable set : Element -> Element -> Element -> Element -> Quaternion.
(** [m.setPosition(x, y, z)] *)
Variable setPosition : Matrix4 -> Element -> Element -> Element -> Matrix4.
(** [m.setPosition(v)] *)
Variable setPositionTo : Matrix4 -> Vector3 -> Matrix4.
(** [new THREE.Vector3().setFromMatrixPosition(m)] *)
Variable setFromMatrixPosition : Matrix4 -> Vector3.
(** [m.setFromMatrix3(new THREE.Matrix3().fromArray(array))] *)
Variable setFromMatrix3 : Matrix4 -> list float -> Matrix4.
(** [m.fromArray(array)] *)
Variable matrixFromArray : Matrix4 -> list float -> Matrix4.

(** The fields of an [Object3D] the callbacks read and write. *)
Record t : Type := {
  position : Vector3;
  quaternion : Quaternion;
  scale : Vector3;
  matrix : Matrix4;
  matrixAutoUpdate : bool;
}.

Definition updatePosition (object : t) (val : Val) : Completion (t * bool) :=
  pos ← makeNumeric0 parseFloat val;
  if matrixAutoUpdate object then
    Normal ({| position := fromArray pos;
               quaternion := quaternion object;
               scale := scale object;
               matrix := matrix object;
               matrixAutoUpdate := matrixAutoUpdate object |}, true)
  else
    Normal ({| position := position object;
               quaternion := quaternion object;
               scale := scale object;
               matrix := setPosition (matrix object)
                           (element pos 0) (element pos 1) (element pos 2);
               matrixAutoUpdate := matrixAutoUpdate object |}, true).

Definition updateOrientation (object : t) (val : Val) : Completion (t * bool) :=
  quat ← makeNumeric0 parseFloat val;
  Normal ({| position := position object;
             quaternion := set (element quat 0) (element quat 1) (element quat 2)
                             (element quat 3);
             scale := scale object;
             matrix := matrix object;
             matrixAutoUpdate := matrixAutoUpdate object |}, true).

Definition updateScale (object : t) (val : Val) : Completion (t * bool) :=
  scale ← makeNumeric0 parseFloat val;
  Normal ({| position := position object;
             quaternion := quaternion object;
             scale := fromArray scale;
             matrix := matrix object;
             matrixAutoUpdate := matrixAutoUpdate object |}, true).

(** [updateMatrix(object, val)]. In the last branch the name [matrix]
    is read where no binding of it is in scope, the constant of that
    name being local to the first branch: with no global of that name
    the read raises [ReferenceError], before the flag is cleared. *)
Definition updateMatrix (object : t) (val : Val) : Completion (t * bool) :=
  numeric ← makeNumeric parseFloat val;
  arr ← flatten numeric;
  matrix ←
    (if (length arr =? 9)%nat then
       let position :=
         if matrixAutoUpdate object then position object
         else setFromMatrixPosition (matrix object) in
       Normal (setPositionTo (setFromMatrix3 (matrix object) arr) position)
     else if (length arr =? 16)%nat then
       Normal (matrixFromArray (matrix object) arr)
     else Throw ReferenceError);
  Normal ({| position := position object;
             quaternion := quaternion object;
             scale := scale object;
             matrix := matrix;
             matrixAutoUpdate := false |}, true).

(** A call of one of the four callbacks. *)
Inductive Call : Type :=
| Position (val : Val)
| Orientation (val : Val)
| Scale (val : Val)
| Matrix (val : Val).

Definition call (c : Call) (object : t) : Completion (t * bool) :=
  match c with
  | Position val => updatePosition object val
  | Orientation val => updateOrientation object val
  | Scale val => updateScale object val
  | Matrix val => updateMatrix object val
  end.

(** The object after a sequence of calls; a call that raises has
    changed nothing. *)
Definition after (calls : list Call) (object : t) : t :=
  fold_left
    (fun object c =>
       match call c object with
       | Normal (object', _) => object'
       | Throw _ => object
       end)
    calls object.

End Object3D.

Arguments t : clear implicits.

End GraphicsObject.

(** ** graphics.js: where the file of a mesh is *)

Module Graphics.

Local Open Scope string_scope.

(** [s.lastIndexOf(c)] for a [c] of one character, from the index [idx]
    of the first character of [s] on: the index of the last [c], and
    [found] when there is none. *)
Fixpoint lastIndexOf_from (c : ascii) (s : string) (idx found : Z) : Z :=
  match s with
  | EmptyString => found
  | String c' rest =>
      lastIndexOf_from c rest (idx + 1) (if Ascii.eqb c' c then idx else found)
  end.

Definition lastIndexOf (c : ascii) (s : string) : Z := lastIndexOf_from c s 0 (-1).

(** [s.substr(start)] and [s.substr(start, length)] for a [start] that
    is not negative; a negative [length] counts as 0. *)
Definition substr (start : Z) (length : option Z) (s : string) : string :=
  let start := Z.to_nat start in
  match length with
  | None => String.substring start (String.length s - start) s
  | Some length => String.substring start (Z.to_nat length) s
  end.

(** The name of the page without its extension:
    [webapp.substr(0, webapp.lastIndexOf("."))]. *)
Definition webapp_of (page : string) : string :=
  substr 0 (Some (lastIndexOf "." page)) page.

(** What [parse] makes of the file name of a mesh. *)
Record Mesh : Type := {
  dir : string;
  file : string;
  ext : string;
}.

Definition mesh (webapp meshFilename : string) : Mesh :=
  {| dir := "resources/" ++ webapp ++ "/"
            ++ substr 0 (Some (lastIndexOf "/" meshFilename + 1)%Z) meshFilename;
     file := substr (lastIndexOf "/" meshFilename + 1)%Z None meshFilename;
     ext := substr (lastIndexOf "." meshFilename + 1)%Z None meshFilename |}.

Inductive Loader : Type :=
| OBJLoader
| ColladaLoader.

(** The loader for an extension; none for a file type that is not
    supported. *)
Definition loader (ext : string) : option Loader :=
  if String.eqb ext "obj" then Some OBJLoader
  else if String.eqb ext "dae" then Some ColladaLoader
  else None.

End Graphics.

(** ** robot.js: the bodies of a robot *)

Module RobotModel.

Section Create.

(** three.js and the structures of the model are not part of the
    sources: the pose of a body comes as the quaternion and the vector
    that are set from [T_to_parent], a graphics structure as what
    [Graphics.parse] is called with. *)
Context {Quaternion Vector3 Number Graphic : Type}.

(** [Graphics.parse(graphicsStruct, body, promises)], as to whether it
    raises. *)
Variable parse : Graphic -> Completion unit.
(** [new THREE.Vector3(1, 0, 0)] and the like. *)
Variable x_axis y_axis z_axis : Vector3.
(** The number 0. *)
Variable zero : Number.

(** A rigid body of the model: [id_parent], the pose [T_to_parent],
    [joint.type] and [graphics]. *)
Record RigidBody : Type := {
  id_parent : Z;
  ori : Quaternion;
  pos : Vector3;
  joint_type : string;
  graphics : list Graphic;
}.

(** [articulated_body]: the graphics of the base and the rigid bodies. *)
Record ArticulatedBody : Type := {
  base_graphics : list Graphic;
  rigid_bodies : list RigidBody;
}.

Definition parseAll (structs : list Graphic) : Completion unit :=
  foldM (fun _ graphicsStruct => parse graphicsStruct) tt structs.

(** The [switch] on [rb.joint.type[1].toLowerCase()]: a type of less
    than two characters has no second one to turn to lower case, a
    second character other than x, y and z leaves [axis] undefined. *)
Definition axis_of_type (type : string) : Completion (option Vector3) :=
  match String.get 1 type with
  | None => Throw TypeError
  | Some c =>
      let c := Robot.toLowerCase c in
      Normal (if Ascii.eqb c "x" then Some x_axis
              else if Ascii.eqb c "y" then Some y_axis
              else if Ascii.eqb c "z" then Some z_axis
              else None)
  end.

(** The body of the loop over the rigid bodies, with the bodies made so
    far: the new body, and the index of its parent among them, none for
    the base. A parent that is not among them is [undefined], and has no
    [add]. *)
Definition create_body (bodies : list (Robot.Body Quaternion Vector3)) (rb : RigidBody)
  : Completion (Robot.Body Quaternion Vector3 * option nat) :=
  let parent :=
    if (id_parent rb <? 0)%Z then Some None
    else match bodies !! Z.to_nat (id_parent rb) with
         | Some _ => Some (Some (Z.to_nat (id_parent rb)))
         | None => None
         end in
  axis ← axis_of_type (joint_type rb);
  type ← (match String.get 0 (joint_type rb) with
          | Some c => Normal c
          | None => Throw TypeError
          end);
  parseAll (graphics rb);;
  match parent with
  | Some parent =>
      Normal ({| Robot.quaternion := ori rb;
                 Robot.position := pos rb;
                 Robot.redisgl_quaternion := ori rb;
                 Robot.redisgl_position := pos rb;
                 Robot.jointType := type;
                 Robot.jointAxis := axis |}, parent)
  | None => Throw TypeError
  end.

Definition create_bodies (rbs : list RigidBody)
  : Completion (list (Robot.Body Quaternion Vector3) * list (option nat)) :=
  foldM
    (fun '(bodies, parents) rb =>
       '(body, parent) ← create_body bodies rb;
       Normal (bodies ++ [body], parents ++ [parent]))
    ([], []) rbs.

(** [create(model, loadCallback)], as to the [redisgl] record of the
    robot and the parent of each body. *)
Definition create (ab : ArticulatedBody)
  : Completion (Robot.t Quaternion Vector3 Number * list (option nat)) :=
  parseAll (base_graphics ab);;
  '(bodies, parents) ← create_bodies (rigid_bodies ab);
  Normal ({| Robot.bodies := bodies; Robot.q := map (fun _ => zero) bodies |}, parents).

(** [c] is one of the characters of [letters]. *)
Definition one_of (letters : string) (c : ascii) : bool :=
  existsb (Ascii.eqb c) (list_ascii_of_string letters).

(** A joint that moves about an axis the model does not name: the
    first letter of its type is r or p, small or capital, the second is
    none of x, y and z. *)
Definition axis_unnamed (rb : RigidBody) : bool :=
  match String.get 0 (joint_type rb), String.get 1 (joint_type rb) with
  | Some t, Some a => one_of "rRpP" t && negb (one_of "xXyYzZ" a)
  | _, _ => false
  end.

End Create.

Arguments RigidBody : clear implicits.
Arguments ArticulatedBody : clear implicits.

End RobotModel.

(** ** camera.js: the colours of the point cloud *)

Module Colours.

Import Camera.

Section Pass.

Variables rows cols channels : nat.
Variable colors : list float.

(** Where the second pass of [renderPointCloud] reads the colour of
    the point of a pixel: [idxRow + idxCol]. *)
Definition source (p : nat * nat) : nat :=
  (rows - fst p) * cols * channels + snd p * channels.

(** The colour of the point of a pixel: [colorImage[idxRow + idxCol + c]
    / 255] for [c] below 3. *)
Definition colour (p : nat * nat) : float * float * float :=
  (element_over colors (source p + 0) 255,
   element_over colors (source p + 1) 255,
   element_over colors (source p + 2) 255).

End Pass.

End Colours.

(** ** Further messages and values for the concrete runs *)

Module Cases.

Import Redis Wire Simulator.

(** Two updates of the one key [q]. *)
Definition twice : Message :=
  {| updates := [(Sample.text "q", Sample.text "1"); (Sample.text "q", Sample.text "2")];
     deletes := [] |}.

(** The bytes of [Sample.word_deleted] with a count of two delete keys,
    the second of them of type 3. *)
Definition odd_type : list byte :=
  be_bytes 4 (N.of_nat (length (updates Sample.word_deleted)))
    ++ concat (map encode_update (updates Sample.word_deleted))
    ++ be_bytes 4 (N.of_nat (length (deletes Sample.word_deleted) + 1))
    ++ concat (map encode_payload (deletes Sample.word_deleted))
    ++ [x03] ++ encode_length Literal 2 ++ [x68; x69].

(** The identity of the plane. *)
Definition eye2 : list (list string) := [["1"; "0"]; ["0"; "1"]]%string.

(** The forms of two keys. *)
Definition two_forms : Sidebar.Keys := ["alpha"; "gamma"]%string.

(** A trajectory of capacity 3 that has been in use: four positions
    were appended to it. *)
Definition used : Trajectory.t nat :=
  {| Trajectory.positions := [14; 12; 13; 14];
     Trajectory.drawRange1 := (0, 1)%nat;
     Trajectory.drawRange2 := (1, 3)%nat;
     Trajectory.idx := 1;
     Trajectory.len := 3 |}.

(** An EXR loader that reads one pixel out of everything. *)
Definition exr_parse (buffer : list byte) : Completion OpenCv.Exr :=
  Normal {| OpenCv.data := [1%float]; OpenCv.width := 1; OpenCv.height := 1 |}.

(** [parseOpenCvMat], the loop over the size followed for a thousand
    iterations. *)
Definition header
  : list byte -> option (Completion (option OpenCv.Promise * list float)) :=
  OpenCv.parseOpenCvMat JsObj.inherited Sample.parseFloat exr_parse 1000.

(** An id of [CV_TYPES], a blank, and a size with no blank behind it. *)
Definition no_second_blank : list byte := list_byte_of_string "2 24".

(** What stands for the first 24 bytes of a PNG file of 2 columns and
    3 rows. *)
Definition png24 : list byte :=
  replicate 16 x00 ++ [x00; x00; x00; x02] ++ [x00; x00; x00; x03].

Definition png_message : list byte := OpenCv.message "2" "24" png24.

(** A model of a camera that binds its intrinsic matrix and its depth
    image. *)
Definition camera_doc : Json :=
  {| key_cameras_prefix := None; key_objects_prefix := None;
     key_robots_prefix := None; key_trajectories_prefix := None;
     key_q := None; key_pos := Some ""%string; key_ori := Some ""%string;
     key_scale := None; key_matrix := None; key_intrinsic := Some "front::K"%string;
     key_depth_image := Some "front::depth"%string;
     key_color_image := Some ""%string |}.

Definition JSON_parse (text : string) : Completion Json :=
  if String.eqb text "front, with intrinsic" then Normal camera_doc
  else Sample.JSON_parse text.

Definition front_arrives : list byte :=
  Sample.message [(Sample.args_key, Sample.text "args");
                  ("camera::front"%string, Sample.text "front, with intrinsic")] [].

(** An intrinsic matrix of one row. *)
Definition K_arrives : list byte :=
  Sample.message [("front::K"%string, Sample.text "7")] [].

(** The camera arrives, a depth image for it starts to decode, and the
    matrix of one row arrives. *)
Definition short_matrix : list Stream.Event :=
  [Stream.Message front_arrives; Stream.Message Sample.depth_arrives;
   Stream.Message K_arrives].

Definition after : list Stream.Event -> Sample.State -> Sample.State :=
  Stream.after Sample.max_arguments JSON_parse Sample.parseFloat Sample.parseOpenCvMat
    Sample.Redis_formExists Sample.Redis_getValue Sample.getKeys
    Sample.Redis_updateForm Sample.Redis_deleteForm
    Sample.create_node Sample.update_node.

(** Stand-ins for three.js in object.js: a vector is the array it was
    set from, a quaternion the four elements it was set to, a matrix the
    number of writes to it. *)
Definition Object3D : Type :=
  GraphicsObject.t Numeric (list GraphicsObject.Element) nat.

Definition calls_after : list GraphicsObject.Call -> Object3D -> Object3D :=
  GraphicsObject.after Sample.parseFloat (fun array => array)
    (fun x y z w => [x; y; z; w]) (fun m _ _ _ => S m) (fun m _ => S m)
    (fun _ => NArray []) (fun m _ => S m) (fun m _ => S m).

Definition updateMatrix : Object3D -> Val -> Completion (Object3D * bool) :=
  GraphicsObject.updateMatrix Sample.parseFloat (fun m _ => S m)
    (fun _ => NArray []) (fun m _ => S m) (fun m _ => S m).

(** An object at rest at the origin. *)
Definition box : Object3D :=
  {| GraphicsObject.position := NArray [0; 0; 0]%float;
     GraphicsObject.quaternion := [];
     GraphicsObject.scale := NArray [1; 1; 1]%float;
     GraphicsObject.matrix := 0%nat;
     GraphicsObject.matrixAutoUpdate := true |}.

(** A rotation matrix in three rows. *)
Definition eye3 : Val :=
  VMatrix [["1"; "0"; "0"]; ["0"; "1"; "0"]; ["0"; "0"; "1"]]%string.

(** A model of three bodies in a chain: a revolute joint about z, a
    prismatic joint along x and a fixed joint. As in [Sample.chain],
    whole numbers stand for quaternions and vectors. *)
Definition arm : RobotModel.ArticulatedBody Z Z unit :=
  {| RobotModel.base_graphics := [tt];
     RobotModel.rigid_bodies :=
       [{| RobotModel.id_parent := -1; RobotModel.ori := 10%Z; RobotModel.pos := 10%Z;
           RobotModel.joint_type := "RZ"; RobotModel.graphics := [tt] |};
        {| RobotModel.id_parent := 0; RobotModel.ori := 20%Z; RobotModel.pos := 20%Z;
           RobotModel.joint_type := "px"; RobotModel.graphics := [] |};
        {| RobotModel.id_parent := 1; RobotModel.ori := 30%Z; RobotModel.pos := 30%Z;
           RobotModel.joint_type := "fixed"; RobotModel.graphics := [] |}] |}.

Definition create_robot
  : RobotModel.ArticulatedBody Z Z unit -> Completion (Robot.t Z Z Z * list (option nat)) :=
  RobotModel.create (fun _ => Normal tt) 1%Z 2%Z 3%Z 0%Z.

(** A model of one body whose joint is revolute about an axis that is
    none of x, y and z. *)
Definition loose : RobotModel.ArticulatedBody Z Z unit :=
  {| RobotModel.base_graphics := [];
     RobotModel.rigid_bodies :=
       [{| RobotModel.id_parent := -1; RobotModel.ori := 10%Z; RobotModel.pos := 10%Z;
           RobotModel.joint_type := "rq"; RobotModel.graphics := [] |}] |}.

(** The numbers 0 to 63 for the four channels of a colour image of
    four rows of four pixels, and the camera of [Sample.depth4] with this
    image. *)
Definition shades : list float := map number (seq 0 64).

Definition colored : Camera.t :=
  Camera.with_color (Sample.camera_of Sample.depth4 4 4) shades
    {| Camera.numRows := 4; Camera.numCols := 4; Camera.numChannels := 4 |}.

End Cases.

(** * Facts *)

Section WireFacts.
Import Redis Wire.
Local Open Scope N_scope.

Variable max_arguments : N.

Abbreviation parsePayload := (Redis.parsePayload max_arguments).
Abbreviation parseUpdates := (Redis.parseUpdates max_arguments).
Abbreviation parseDeletes := (Redis.parseDeletes max_arguments).
Abbreviation parseMessage := (Redis.parseMessage max_arguments).

Lemma byteLength_app a b : byteLength (a ++ b) = byteLength a + byteLength b.
Proof. unfold byteLength. rewrite length_app. lia. Qed.

Lemma slice_cursor buffer idx bs rest :
  at_cursor buffer idx (bs ++ rest) ->
  slice buffer idx (idx + byteLength bs) = bs.
Proof.
  intros (pre & -> & <-). unfold slice.
  rewrite !byteLength_app.
  rewrite N.min_l by lia. rewrite N.min_l by lia.
  replace (byteLength pre + byteLength bs - byteLength pre) with (byteLength bs) by lia.
  unfold byteLength. rewrite !Nat2N.id.
  rewrite drop_app_length. apply take_app_length.
Qed.

Lemma cursor_advance buffer idx bs rest :
  at_cursor buffer idx (bs ++ rest) ->
  at_cursor buffer (idx + byteLength bs) rest.
Proof.
  intros (pre & -> & <-). exists (pre ++ bs). split.
  - by rewrite <- app_assoc.
  - apply byteLength_app.
Qed.

Lemma cursor_in_range buffer idx bs rest :
  at_cursor buffer idx (bs ++ rest) ->
  idx + byteLength bs <= byteLength buffer.
Proof. intros (pre & -> & <-). rewrite !byteLength_app. lia. Qed.

Lemma getUint_cursor w buffer idx bs rest :
  at_cursor buffer idx (bs ++ rest) -> byteLength bs = w ->
  getUint w buffer idx = Normal (be_value bs).
Proof.
  intros Hc <-. unfold getUint.
  pose proof (cursor_in_range _ _ _ _ Hc) as Hr.
  apply N.leb_le in Hr. rewrite Hr.
  by rewrite (slice_cursor _ _ _ _ Hc).
Qed.

Lemma Uint8Array_cursor buffer idx bs rest :
  at_cursor buffer idx (bs ++ rest) ->
  Uint8Array buffer idx (byteLength bs) = Normal bs.
Proof.
  intros Hc. unfold Uint8Array.
  pose proof (cursor_in_range _ _ _ _ Hc) as Hr.
  apply N.leb_le in Hr. rewrite Hr.
  by rewrite (slice_cursor _ _ _ _ Hc).
Qed.

Lemma to_N_byte_of_N n : Byte.to_N (byte_of_N n) = n mod 256.
Proof.
  unfold byte_of_N.
  destruct (Byte.of_N (n mod 256)) as [b|] eqn:E.
  - by apply Byte.to_of_N.
  - apply Byte.of_N_None_iff in E.
    pose proof (N.mod_upper_bound n 256). lia.
Qed.

Lemma be_value_snoc l b : be_value (l ++ [b]) = be_value l * 256 + Byte.to_N b.
Proof. unfold be_value. by rewrite fold_left_app. Qed.

Lemma be_value_be_bytes w n :
  n < 256 ^ N.of_nat w -> be_value (be_bytes w n) = n.
Proof.
  revert n. induction w as [|w IH]; intros n Hn.
  - simpl in *. change (256 ^ 0) with 1 in Hn. unfold be_value. simpl. lia.
  - cbn [be_bytes]. rewrite be_value_snoc, to_N_byte_of_N, IH.
    + rewrite N.mul_comm. symmetry. apply N.div_mod. lia.
    + rewrite Nat2N.inj_succ, N.pow_succ_r' in Hn.
      apply N.Div0.div_lt_upper_bound. lia.
Qed.

Lemma length_be_bytes w n : length (be_bytes w n) = w.
Proof.
  revert n. induction w as [|w IH]; intros n; cbn [be_bytes]; [done|].
  rewrite length_app, IH. simpl. lia.
Qed.

Lemma byteLength_be_bytes w n : byteLength (be_bytes w n) = N.of_nat w.
Proof. unfold byteLength. by rewrite length_be_bytes. Qed.

Lemma tag_low_bits p :
  N.land (Byte.to_N (byte_of_N (type_tag (content p) + (if reserved p then 128 else 0)))) 127
  = type_tag (content p).
Proof.
  rewrite to_N_byte_of_N.
  destruct (content p), (reserved p); reflexivity.
Qed.

Lemma be_value_single b : be_value [b] = Byte.to_N b.
Proof. unfold be_value. simpl. lia. Qed.

Lemma getUint8_cursor buffer idx b rest :
  at_cursor buffer idx ([b] ++ rest) -> getUint8 buffer idx = Normal (Byte.to_N b).
Proof.
  intros Hc. unfold getUint8.
  by rewrite (getUint_cursor 1 buffer idx [b] rest Hc eq_refl), be_value_single.
Qed.

Lemma parse_length_cursor buffer idx t n rest :
  tier_fits t n ->
  at_cursor buffer idx (encode_length t n ++ rest) ->
  exists idx',
    (forall A (k : N * N -> Completion A),
       (lenPayload ← getUint8 buffer idx;
        (if lenPayload =? 126 then
           l ← getUint16 buffer (idx + 1); Normal (l, idx + 1 + 2)
         else if lenPayload =? 127 then
           l ← getBigUint64 buffer (idx + 1); Normal (l, idx + 1 + 8)
         else Normal (lenPayload, idx + 1)) ≫= k) = k (n, idx'))
    /\ at_cursor buffer idx' rest.
Proof.
  intros Hfit Hc. destruct t; cbn [encode_length tier_fits] in *.
  - exists (idx + 1). split.
    + intros A k. unfold getUint8.
      rewrite (getUint_cursor 1 buffer idx [byte_of_N n] rest Hc eq_refl).
      rewrite be_value_single, to_N_byte_of_N, N.mod_small by lia.
      cbn [mbind Completion_bind].
      destruct (N.eqb_spec n 126); [lia|].
      destruct (N.eqb_spec n 127); [lia|]. done.
    + by apply (cursor_advance buffer idx [byte_of_N n] rest).
  - apply (cursor_advance buffer idx [byte_of_N 126] (be_bytes 2 n ++ rest)) in Hc as Hc'.
    change (byteLength [_]) with 1 in Hc'.
    exists (idx + 1 + 2). split.
    + intros A k. unfold getUint8, getUint16.
      rewrite (getUint_cursor 1 buffer idx [byte_of_N 126] (be_bytes 2 n ++ rest) Hc eq_refl).
      rewrite be_value_single. change (Byte.to_N (byte_of_N 126)) with 126.
      cbn [mbind Completion_bind N.eqb Pos.eqb].
      rewrite (getUint_cursor 2 buffer _ (be_bytes 2 n) rest Hc' (byteLength_be_bytes 2 n)).
      rewrite be_value_be_bytes; [done|]. simpl. lia.
    + apply (cursor_advance buffer _ (be_bytes 2 n) rest) in Hc'.
      by rewrite byteLength_be_bytes in Hc'.
  - apply (cursor_advance buffer idx [byte_of_N 127] (be_bytes 8 n ++ rest)) in Hc as Hc'.
    change (byteLength [_]) with 1 in Hc'.
    exists (idx + 1 + 8). split.
    + intros A k. unfold getUint8, getBigUint64.
      rewrite (getUint_cursor 1 buffer idx [byte_of_N 127] (be_bytes 8 n ++ rest) Hc eq_refl).
      rewrite be_value_single. change (Byte.to_N (byte_of_N 127)) with 127.
      cbn [mbind Completion_bind N.eqb Pos.eqb].
      rewrite (getUint_cursor 8 buffer _ (be_bytes 8 n) rest Hc' (byteLength_be_bytes 8 n)).
      rewrite be_value_be_bytes; [done|]. simpl. lia.
    + apply (cursor_advance buffer _ (be_bytes 8 n) rest) in Hc'.
      by rewrite byteLength_be_bytes in Hc'.
Qed.

Lemma parsePayload_cursor buffer idx p rest :
  payload_ok p -> text_fits max_arguments p ->
  at_cursor buffer idx (encode_payload p ++ rest) ->
  exists idx',
    parsePayload buffer idx = Normal (Some (idx', content p))
    /\ at_cursor buffer idx' rest.
Proof.
  intros Hok Hfit Hc. unfold encode_payload in Hc.
  set (body := raw_bytes (content p)) in *.
  set (tagb := byte_of_N _) in Hc.
  change ((tagb :: encode_length (tier p) (byteLength body) ++ body) ++ rest)
    with ([tagb] ++ (encode_length (tier p) (byteLength body) ++ body) ++ rest) in Hc.
  unfold Redis.parsePayload.
  rewrite (getUint8_cursor buffer idx tagb _ Hc). subst tagb.
  cbn [mbind Completion_bind]. rewrite tag_low_bits.
  apply cursor_advance in Hc. rewrite <- app_assoc in Hc.
  change (byteLength [_]) with 1 in Hc.
  destruct (parse_length_cursor _ _ _ _ _ Hok Hc) as (idx1 & Hlen & Hc1).
  rewrite Hlen.
  exists (idx1 + byteLength body). split.
  - subst body.
    destruct (content p) as [s|b] eqn:E; cbn [type_tag N.eqb Pos.eqb].
    + rewrite (Uint8Array_cursor _ _ _ _ Hc1). cbn [mbind Completion_bind].
      unfold text_fits in Hfit. rewrite E in Hfit.
      cbn [raw_bytes]. unfold fromCharCodes.
      rewrite (proj2 (N.leb_le _ _) Hfit). cbn [mbind Completion_bind].
      by rewrite string_of_list_byte_of_string.
    + rewrite (slice_cursor _ _ _ _ Hc1). done.
  - by apply cursor_advance.
Qed.

Lemma parseUpdates_cursor buffer l :
  forall idx o rest,
    Forall (fun kv => payload_ok (fst kv) /\ payload_ok (snd kv)) l ->
    Forall (fun kv => text_fits max_arguments (fst kv)
                      /\ text_fits max_arguments (snd kv)) l ->
    at_cursor buffer idx (concat (map encode_update l) ++ rest) ->
    exists idx',
      parseUpdates buffer (length l) idx o = Normal (idx', fold_left store_update l o)
      /\ at_cursor buffer idx' rest.
Proof.
  induction l as [|[k v] l IH]; intros idx o rest Hok Hfit Hc.
  - exists idx. by split.
  - inversion Hok as [|? ? [Hk Hv] Hl]; subst.
    inversion Hfit as [|? ? [Fk Fv] Fl]; subst. cbn [fst snd] in *.
    cbn [map concat] in Hc. unfold encode_update at 1 in Hc.
    cbn [fst snd] in Hc. rewrite <- !app_assoc in Hc.
    destruct (parsePayload_cursor _ _ _ _ Hk Fk Hc) as (i1 & E1 & Hc1).
    destruct (parsePayload_cursor _ _ _ _ Hv Fv Hc1) as (i2 & E2 & Hc2).
    destruct (IH i2 (store_update o (k, v)) rest Hl Fl Hc2) as (i3 & E3 & Hc3).
    exists i3. split; [|done].
    cbn [length Redis.parseUpdates]. rewrite E1. cbn [mbind Completion_bind elements].
    rewrite E2. cbn [mbind Completion_bind elements]. exact E3.
Qed.

Lemma parseDeletes_cursor buffer l :
  forall idx acc rest,
    Forall payload_ok l -> Forall (text_fits max_arguments) l ->
    at_cursor buffer idx (concat (map encode_payload l) ++ rest) ->
    exists idx',
      parseDeletes buffer (length l) idx acc = Normal (idx', acc ++ map content l)
      /\ at_cursor buffer idx' rest.
Proof.
  induction l as [|k l IH]; intros idx acc rest Hok Hfit Hc.
  - exists idx. split; [|done]. cbn. by rewrite app_nil_r.
  - inversion Hok as [|? ? Hk Hl]; subst. inversion Hfit as [|? ? Fk Fl]; subst.
    cbn [map concat] in Hc. rewrite <- app_assoc in Hc.
    destruct (parsePayload_cursor _ _ _ _ Hk Fk Hc) as (i1 & E1 & Hc1).
    destruct (IH i1 (acc ++ [content k]) rest Hl Fl Hc1) as (i2 & E2 & Hc2).
    exists i2. split; [|done].
    cbn [length Redis.parseDeletes]. rewrite E1. cbn [mbind Completion_bind elements].
    rewrite E2. cbn [map]. by rewrite <- app_assoc.
Qed.

Lemma getUint32_cursor buffer idx n rest :
  n < 2 ^ 32 -> at_cursor buffer idx (be_bytes 4 n ++ rest) ->
  getUint32 buffer idx = Normal n.
Proof.
  intros Hn Hc. unfold getUint32.
  rewrite (getUint_cursor 4 _ _ _ _ Hc (byteLength_be_bytes 4 _)).
  by rewrite be_value_be_bytes.
Qed.

Lemma cursor_start buffer : at_cursor buffer 0 buffer.
Proof. by exists []. Qed.

(** What the decoder makes of any well-formed message whose texts the
    engine can turn into strings: the updates are stored one by one into
    an object, the delete keys are listed. *)
Lemma parseMessage_encode m :
  well_formed m -> texts_fit max_arguments m ->
  parseMessage (encode m)
  = Normal {| toUpdate := fold_left store_update (updates m) JsObj.empty;
              toDelete := map content (deletes m) |}.
Proof.
  intros (Hnu & Hnd & Hu & Hd) (Fu & Fd). unfold Redis.parseMessage.
  pose proof (cursor_start (encode m)) as Hc. unfold encode at 2 in Hc.
  rewrite (getUint32_cursor _ _ _ _ Hnu Hc).
  cbn [mbind Completion_bind]. rewrite Nat2N.id.
  apply cursor_advance in Hc. rewrite byteLength_be_bytes in Hc.
  destruct (parseUpdates_cursor _ _ _ JsObj.empty _ Hu Fu Hc) as (i1 & E1 & Hc1).
  change (0 + N.of_nat 4) with (0 + 4) in E1. rewrite E1.
  cbn [mbind Completion_bind].
  rewrite (getUint32_cursor _ _ _ _ Hnd Hc1).
  cbn [mbind Completion_bind]. rewrite Nat2N.id.
  apply cursor_advance in Hc1. rewrite byteLength_be_bytes in Hc1.
  rewrite <- (app_nil_r (concat _)) in Hc1.
  destruct (parseDeletes_cursor _ _ _ [] _ Hd Fd Hc1) as (i2 & E2 & Hc2).
  change (i1 + N.of_nat 4) with (i1 + 4) in E2. rewrite E2.
  reflexivity.
Qed.

Lemma has_false_iff {V} k (o : JsObj.t V) :
  JsObj.has k o = false <-> k ∉ JsObj.keys o.
Proof.
  unfold JsObj.has. induction o as [|[k' v] o IH]; cbn.
  - split; [intros _; apply not_elem_of_nil|done].
  - rewrite not_elem_of_cons. destruct (String.eqb_spec k k'); [|tauto].
    split; [done|]. intros []; congruence.
Qed.

Lemma set_fresh {V} k (v : V) o :
  k <> "__proto__"%string -> JsObj.array_index k = None -> k ∉ JsObj.keys o ->
  JsObj.set k v o = o ++ [(k, v)].
Proof.
  intros Hp Hi Hk. unfold JsObj.set.
  destruct (String.eqb_spec k "__proto__"); [done|].
  apply has_false_iff in Hk. by rewrite Hk, Hi.
Qed.

Lemma store_plain l :
  forall o,
    Forall (fun kv => plain_key (fst kv)) l ->
    NoDup (JsObj.keys o ++ map (fun kv => toPropertyKey (content (fst kv))) l) ->
    fold_left store_update l o
    = o ++ map (fun kv => (toPropertyKey (content (fst kv)), content (snd kv))) l.
Proof.
  induction l as [|[k v] l IH]; intros o Hp Hnd; cbn [fold_left map].
  - by rewrite app_nil_r.
  - inversion Hp as [|? ? Hk Hl]; subst. cbn [fst snd] in *.
    unfold store_update at 2. cbn [fst snd].
    unfold plain_key in Hk. destruct (content k) as [s|] eqn:E; [|done].
    destruct Hk as [Hi Hs]. cbn [toPropertyKey] in *.
    rewrite set_fresh; [|done|done|].
    + rewrite IH; [by rewrite <- app_assoc|done|].
      unfold JsObj.keys in Hnd |- *. rewrite map_app. cbn [map fst] in Hnd |- *.
      rewrite E in Hnd. by rewrite <- app_assoc.
    + apply NoDup_app in Hnd as (_ & Hd & _).
      intros Hin. apply (Hd _ Hin). cbn [map fst]. rewrite E.
      apply elem_of_cons. by left.
Qed.

(** C3. Decoding the encoding of a well-formed message - counts below
    2^32, every payload with a length its tier can hold - gives back its
    delete keys in order and its key/value pairs in order, provided that
    no text of the message is longer than the arguments a call takes,
    and that the update keys are text, pairwise distinct, and none of
    them is an array index or [__proto__]: those are the keys a
    JavaScript object keeps in the order in which they were set. *)
Theorem wire_roundtrip m :
  well_formed m -> texts_fit max_arguments m -> plain_keys m ->
  parseMessage (encode m) = Normal (batch_of m).
Proof.
  intros Hwf Hfit [Hp Hnd]. rewrite parseMessage_encode by done.
  unfold batch_of, pairs_of. f_equal. f_equal.
  by rewrite store_plain.
Qed.

End WireFacts.

Section Truncation.
Import Redis Wire.
Local Open Scope N_scope.

Lemma byteLength_take n buffer :
  (n <= length buffer)%nat -> byteLength (take n buffer) = N.of_nat n.
Proof. intros H. unfold byteLength. rewrite length_take. f_equal. lia. Qed.

(** A range that ends in the part kept reads the same bytes. *)
Lemma slice_take n buffer first final :
  (n <= length buffer)%nat -> first <= final -> final <= N.of_nat n ->
  slice (take n buffer) first final = slice buffer first final.
Proof.
  intros Hn Hff Hf. unfold slice. rewrite byteLength_take by done.
  unfold byteLength. rewrite !N.min_l by lia.
  rewrite !take_drop_commute, take_take. do 2 f_equal. lia.
Qed.

Lemma getUint_take w n buffer idx :
  (n <= length buffer)%nat ->
  getUint w (take n buffer) idx
  = if idx + w <=? N.of_nat n then getUint w buffer idx else Throw RangeError.
Proof.
  intros Hn. unfold getUint. rewrite byteLength_take by done.
  destruct (N.leb_spec (idx + w) (N.of_nat n)) as [H|H]; [|done].
  rewrite slice_take by lia.
  assert (Hb : idx + w <= byteLength buffer) by (unfold byteLength; lia).
  apply N.leb_le in Hb. by rewrite Hb.
Qed.

Lemma Uint8Array_take n buffer idx len :
  (n <= length buffer)%nat ->
  Uint8Array (take n buffer) idx len
  = if idx + len <=? N.of_nat n then Uint8Array buffer idx len else Throw RangeError.
Proof.
  intros Hn. unfold Uint8Array. rewrite byteLength_take by done.
  destruct (N.leb_spec (idx + len) (N.of_nat n)) as [H|H]; [|done].
  rewrite slice_take by lia.
  assert (Hb : idx + len <= byteLength buffer) by (unfold byteLength; lia).
  apply N.leb_le in Hb. by rewrite Hb.
Qed.

Section AtLimit.

Variable limit : N.

Abbreviation parsePayload := (Redis.parsePayload limit).
Abbreviation parseUpdates := (Redis.parseUpdates limit).
Abbreviation parseDeletes := (Redis.parseDeletes limit).
Abbreviation parseMessage := (Redis.parseMessage limit).

(** A text payload read from a buffer is read as it was from every cut
    of the buffer that keeps it whole, and raises [RangeError] on every
    shorter cut. *)
Lemma parsePayload_take n buffer idx idx' s :
  (n <= length buffer)%nat ->
  parsePayload buffer idx = Normal (Some (idx', Text s)) ->
  parsePayload (take n buffer) idx
  = if idx' <=? N.of_nat n then Normal (Some (idx', Text s)) else Throw RangeError.
Proof.
  intros Hn H. unfold Redis.parsePayload, getUint8, getUint16, getBigUint64 in *.
  destruct (getUint 1 buffer idx) as [b|] eqn:E1; [|done].
  cbn [mbind Completion_bind] in H.
  destruct (getUint 1 buffer (idx + 1)) as [l0|] eqn:E2; [|done].
  cbn [mbind Completion_bind] in H.
  (* the length field, on the buffer and on the cut *)
  assert (Hlen : exists len idx2,
            idx + 2 <= idx2
            /\ (if l0 =? 126
                then getUint 2 buffer (idx + 1 + 1) ≫= λ l : N, Normal (l, idx + 1 + 1 + 2)
                else if l0 =? 127
                then getUint 8 buffer (idx + 1 + 1) ≫= λ l : N, Normal (l, idx + 1 + 1 + 8)
                else Normal (l0, idx + 1 + 1)) = Normal (len, idx2)
            /\ (idx + 2 <= N.of_nat n ->
                (if l0 =? 126
                then getUint 2 (take n buffer) (idx + 1 + 1)
                       ≫= λ l : N, Normal (l, idx + 1 + 1 + 2)
                else if l0 =? 127
                then getUint 8 (take n buffer) (idx + 1 + 1)
                       ≫= λ l : N, Normal (l, idx + 1 + 1 + 8)
                else Normal (l0, idx + 1 + 1))
               = if idx2 <=? N.of_nat n then Normal (len, idx2) else Throw RangeError)).
  { destruct (l0 =? 126).
    - destruct (getUint 2 buffer (idx + 1 + 1)) as [l|] eqn:E3; [|done].
      exists l, (idx + 1 + 1 + 2). split; [lia|]. split; [done|]. intros _.
      rewrite getUint_take, E3 by done.
      by destruct (idx + 1 + 1 + 2 <=? N.of_nat n).
    - destruct (l0 =? 127).
      + destruct (getUint 8 buffer (idx + 1 + 1)) as [l|] eqn:E3; [|done].
        exists l, (idx + 1 + 1 + 8). split; [lia|]. split; [done|]. intros _.
        rewrite getUint_take, E3 by done.
        by destruct (idx + 1 + 1 + 8 <=? N.of_nat n).
      + exists l0, (idx + 1 + 1). split; [lia|]. split; [done|]. intros Hin.
        by rewrite (proj2 (N.leb_le (idx + 1 + 1) (N.of_nat n))) by lia. }
  destruct Hlen as (len & idx2 & Hidx2 & Hfull & Hcut).
  cbn [mbind Completion_bind] in Hfull, Hcut.
  rewrite Hfull in H. cbn [mbind Completion_bind] in H.
  destruct (N.land b 127 =? 1) eqn:Htype.
  - destruct (Uint8Array buffer idx2 len) as [payload|] eqn:E4; [|done].
    cbn [mbind Completion_bind] in H.
    destruct (fromCharCodes limit payload) as [text|] eqn:E5; [|done].
    cbn [mbind Completion_bind] in H. injection H as <- <-.
    rewrite !(getUint_take 1), E1, E2 by done.
    destruct (N.leb_spec (idx2 + len) (N.of_nat n)) as [Hin|Hout].
    + rewrite (proj2 (N.leb_le (idx + 1) (N.of_nat n))) by lia.
      cbn [mbind Completion_bind].
      rewrite (proj2 (N.leb_le (idx + 1 + 1) (N.of_nat n))) by lia.
      cbn [mbind Completion_bind].
      rewrite Hcut, (proj2 (N.leb_le idx2 (N.of_nat n))) by lia.
      cbn [mbind Completion_bind]. rewrite Htype.
      rewrite Uint8Array_take, E4 by done.
      rewrite (proj2 (N.leb_le (idx2 + len) (N.of_nat n))) by lia.
      cbn [mbind Completion_bind]. by rewrite E5.
    + destruct (idx + 1 <=? N.of_nat n); [|done]. cbn [mbind Completion_bind].
      destruct (N.leb_spec (idx + 1 + 1) (N.of_nat n)) as [Hin2|]; [|done].
      cbn [mbind Completion_bind].
      rewrite Hcut by lia. destruct (idx2 <=? N.of_nat n); [|done].
      cbn [mbind Completion_bind]. rewrite Htype.
      rewrite Uint8Array_take by done.
      by rewrite (proj2 (N.leb_gt (idx2 + len) (N.of_nat n))) by lia.
  - destruct (N.land b 127 =? 2); discriminate.
Qed.

Lemma cursor_unique buffer i j rest :
  at_cursor buffer i rest -> at_cursor buffer j rest -> i = j.
Proof.
  intros (pre & -> & <-) (pre' & H & <-).
  apply (f_equal length) in H. rewrite !length_app in H.
  unfold byteLength. f_equal. lia.
Qed.

Lemma parsePayload_cut n buffer idx p rest :
  (n <= length buffer)%nat ->
  payload_ok p -> text_fits limit p -> is_text p ->
  at_cursor buffer idx (encode_payload p ++ rest) ->
  parsePayload (take n buffer) idx
  = if idx + byteLength (encode_payload p) <=? N.of_nat n
    then Normal (Some (idx + byteLength (encode_payload p), content p))
    else Throw RangeError.
Proof.
  intros Hn Hok Hfit [s Hs] Hc.
  destruct (parsePayload_cursor limit _ _ _ _ Hok Hfit Hc) as (idx' & Hrun & Hc').
  apply cursor_advance in Hc.
  rewrite (cursor_unique _ _ _ _ Hc' Hc) in Hrun.
  rewrite Hs in Hrun |- *. by apply parsePayload_take.
Qed.

Lemma parseUpdates_cut n buffer l :
  forall idx o rest,
    (n <= length buffer)%nat -> idx <= N.of_nat n ->
    Forall (fun kv => payload_ok (fst kv) /\ payload_ok (snd kv)) l ->
    Forall (fun kv => text_fits limit (fst kv) /\ text_fits limit (snd kv)) l ->
    Forall (fun kv => is_text (fst kv) /\ is_text (snd kv)) l ->
    at_cursor buffer idx (concat (map encode_update l) ++ rest) ->
    parseUpdates (take n buffer) (length l) idx o
    = if idx + byteLength (concat (map encode_update l)) <=? N.of_nat n
      then Normal (idx + byteLength (concat (map encode_update l)),
                   fold_left store_update l o)
      else Throw RangeError.
Proof.
  induction l as [|[k v] l IH]; intros idx o rest Hn Hidx Hok Hfit Htext Hc.
  - cbn. rewrite N.add_0_r. by rewrite (proj2 (N.leb_le _ _) Hidx).
  - inversion Hok as [|? ? [Hk Hv] Hok']; subst.
    inversion Hfit as [|? ? [Fk Fv] Hfit']; subst.
    inversion Htext as [|? ? [Tk Tv] Htext']; subst.
    cbn [fst snd] in *.
    cbn [map concat length Redis.parseUpdates fold_left] in *.
    unfold encode_update at 1 in Hc. cbn [fst snd] in Hc.
    rewrite <- !app_assoc in Hc.
    rewrite (parsePayload_cut n buffer idx k _ Hn Hk Fk Tk Hc).
    rewrite !byteLength_app.
    change (byteLength (encode_update (k, v)))
      with (byteLength (encode_payload k ++ encode_payload v)).
    rewrite !byteLength_app.
    set (a := byteLength (encode_payload k)).
    set (b := byteLength (encode_payload v)).
    set (c := byteLength (concat (map encode_update l))).
    destruct (N.leb_spec (idx + a) (N.of_nat n)) as [Ha|Ha].
    + cbn [mbind Completion_bind elements].
      apply cursor_advance in Hc. fold a in Hc.
      rewrite (parsePayload_cut n buffer (idx + a) v _ Hn Hv Fv Tv Hc). fold b.
      destruct (N.leb_spec (idx + a + b) (N.of_nat n)) as [Hb|Hb].
      * cbn [mbind Completion_bind elements].
        apply cursor_advance in Hc. fold b in Hc.
        rewrite (IH (idx + a + b) _ rest Hn Hb Hok' Hfit' Htext' Hc). fold c.
        replace (idx + a + b + c) with (idx + (a + b + c)) by lia.
        reflexivity.
      * cbn [mbind Completion_bind].
        by rewrite (proj2 (N.leb_gt (idx + (a + b + c)) (N.of_nat n))) by lia.
    + cbn [mbind Completion_bind].
      by rewrite (proj2 (N.leb_gt (idx + (a + b + c)) (N.of_nat n))) by lia.
Qed.

Lemma parseDeletes_cut n buffer l :
  forall idx acc rest,
    (n <= length buffer)%nat -> idx <= N.of_nat n ->
    Forall payload_ok l -> Forall (text_fits limit) l -> Forall is_text l ->
    at_cursor buffer idx (concat (map encode_payload l) ++ rest) ->
    parseDeletes (take n buffer) (length l) idx acc
    = if idx + byteLength (concat (map encode_payload l)) <=? N.of_nat n
      then Normal (idx + byteLength (concat (map encode_payload l)),
                   acc ++ map content l)
      else Throw RangeError.
Proof.
  induction l as [|k l IH]; intros idx acc rest Hn Hidx Hok Hfit Htext Hc.
  - cbn. rewrite N.add_0_r, app_nil_r. by rewrite (proj2 (N.leb_le _ _) Hidx).
  - inversion Hok as [|? ? Hk Hok']; subst.
    inversion Hfit as [|? ? Fk Hfit']; subst.
    inversion Htext as [|? ? Tk Htext']; subst.
    cbn [map concat length Redis.parseDeletes] in *.
    rewrite <- !app_assoc in Hc.
    rewrite (parsePayload_cut n buffer idx k _ Hn Hk Fk Tk Hc).
    rewrite !byteLength_app.
    set (a := byteLength (encode_payload k)).
    set (c := byteLength (concat (map encode_payload l))).
    destruct (N.leb_spec (idx + a) (N.of_nat n)) as [Ha|Ha].
    + cbn [mbind Completion_bind elements].
      apply cursor_advance in Hc. fold a in Hc.
      rewrite (IH (idx + a) _ rest Hn Ha Hok' Hfit' Htext' Hc). fold c.
      replace (idx + a + c) with (idx + (a + c)) by lia.
      rewrite <- app_assoc. reflexivity.
    + cbn [mbind Completion_bind].
      by rewrite (proj2 (N.leb_gt (idx + (a + c)) (N.of_nat n))) by lia.
Qed.

(** Every proper cut of the encoding of a well-formed message of texts
    that the engine can turn into strings raises [RangeError]. *)
Lemma truncated_within_limit (m : Message) (n : nat) :
  well_formed m -> texts_fit limit m -> text_only m -> (n < length (encode m))%nat ->
  parseMessage (take n (encode m)) = Throw RangeError.
Proof.
  intros (Hnu & Hnd & Hu & Hd) [Fu Fd] [Tu Td] Hlt.
  assert (Hn : (n <= length (encode m))%nat) by lia.
  set (buffer := encode m) in *.
  set (us := concat (map encode_update (updates m))).
  set (ds := concat (map encode_payload (deletes m))).
  assert (Hbuf : buffer = be_bytes 4 (N.of_nat (length (updates m)))
                   ++ us ++ be_bytes 4 (N.of_nat (length (deletes m))) ++ ds ++ [])
    by (by rewrite app_nil_r).
  assert (Hlen : byteLength buffer = 4 + byteLength us + 4 + byteLength ds).
  { rewrite Hbuf, !byteLength_app, !byteLength_be_bytes.
    change (byteLength []) with 0. lia. }
  assert (Hlt' : N.of_nat n < byteLength buffer) by (unfold byteLength; lia).
  assert (Hc0 : at_cursor buffer 0 buffer) by (by exists []).
  unfold Redis.parseMessage, getUint32.
  rewrite getUint_take by done.
  destruct (N.leb_spec (0 + 4) (N.of_nat n)) as [H4|H4]; [|done].
  rewrite Hbuf in Hc0 at 2.
  rewrite (getUint_cursor 4 buffer 0 _ _ Hc0 (byteLength_be_bytes 4 _)).
  rewrite be_value_be_bytes by (simpl; lia).
  cbn [mbind Completion_bind]. rewrite Nat2N.id.
  apply cursor_advance in Hc0. rewrite byteLength_be_bytes in Hc0.
  change (0 + N.of_nat 4) with (0 + 4) in Hc0.
  rewrite (parseUpdates_cut n buffer (updates m) (0 + 4) _ _ Hn H4 Hu Fu Tu Hc0).
  fold us.
  destruct (N.leb_spec (0 + 4 + byteLength us) (N.of_nat n)) as [Hus|Hus]; [|done].
  cbn [mbind Completion_bind].
  rewrite getUint_take by done.
  destruct (N.leb_spec (0 + 4 + byteLength us + 4) (N.of_nat n)) as [H8|H8]; [|done].
  apply cursor_advance in Hc0.
  rewrite (getUint_cursor 4 buffer _ _ _ Hc0 (byteLength_be_bytes 4 _)).
  rewrite be_value_be_bytes by (simpl; lia).
  cbn [mbind Completion_bind]. rewrite Nat2N.id.
  apply cursor_advance in Hc0. rewrite byteLength_be_bytes in Hc0.
  change (N.of_nat 4) with 4 in Hc0.
  rewrite (parseDeletes_cut n buffer (deletes m) _ _ _ Hn H8 Hd Fd Td Hc0).
  fold ds.
  by rewrite (proj2 (N.leb_gt _ _)) by lia.
Qed.

End AtLimit.

(** *** The limit on the length of a text *)

(** Under a limit the decoder raises [RangeError] where it would read a
    longer text, and does otherwise what it does under a limit that no
    text of the buffer reaches. *)
Section Limits.

Variables small large : N.
Variable buffer : list byte.
Hypothesis large_enough : byteLength buffer <= large.

Lemma slice_length (first final : N) :
  byteLength (slice buffer first final) <= byteLength buffer.
Proof.
  unfold slice, byteLength. rewrite length_take, length_drop. lia.
Qed.

Lemma parsePayload_limit idx :
  Redis.parsePayload small buffer idx = Throw RangeError
  \/ Redis.parsePayload small buffer idx = Redis.parsePayload large buffer idx.
Proof.
  unfold Redis.parsePayload.
  destruct (getUint8 buffer idx) as [b|]; cbn [mbind Completion_bind]; [|by right].
  destruct (getUint8 buffer (idx + 1)) as [l0|]; cbn [mbind Completion_bind]; [|by right].
  destruct (if l0 =? 126
            then getUint16 buffer (idx + 1 + 1) ≫= λ l : N, Normal (l, idx + 1 + 1 + 2)
            else if l0 =? 127
            then getBigUint64 buffer (idx + 1 + 1) ≫= λ l : N, Normal (l, idx + 1 + 1 + 8)
            else Normal (l0, idx + 1 + 1)) as [[len idx2]|];
    cbn [mbind Completion_bind]; [|by right].
  destruct (N.land b 127 =? 1); [|by right].
  unfold Uint8Array.
  destruct (idx2 + len <=? byteLength buffer); cbn [mbind Completion_bind]; [|by right].
  unfold fromCharCodes.
  pose proof (slice_length idx2 (idx2 + len)) as Hlen.
  rewrite (proj2 (N.leb_le _ large)) by lia.
  destruct (byteLength (slice buffer idx2 (idx2 + len)) <=? small); [by right|by left].
Qed.

Lemma parseUpdates_limit n :
  forall idx o,
    Redis.parseUpdates small buffer n idx o = Throw RangeError
    \/ Redis.parseUpdates small buffer n idx o = Redis.parseUpdates large buffer n idx o.
Proof.
  induction n as [|n IH]; intros idx o; [by right|].
  cbn [Redis.parseUpdates].
  destruct (parsePayload_limit idx) as [-> | ->]; [by left|].
  destruct (Redis.parsePayload large buffer idx) as [[[idx1 key]|]|];
    cbn [mbind Completion_bind elements]; [|by right|by right].
  destruct (parsePayload_limit idx1) as [-> | ->]; [by left|].
  destruct (Redis.parsePayload large buffer idx1) as [[[idx2 val]|]|];
    cbn [mbind Completion_bind elements]; [|by right|by right].
  apply IH.
Qed.

Lemma parseDeletes_limit n :
  forall idx acc,
    Redis.parseDeletes small buffer n idx acc = Throw RangeError
    \/ Redis.parseDeletes small buffer n idx acc
       = Redis.parseDeletes large buffer n idx acc.
Proof.
  induction n as [|n IH]; intros idx acc; [by right|].
  cbn [Redis.parseDeletes].
  destruct (parsePayload_limit idx) as [-> | ->]; [by left|].
  destruct (Redis.parsePayload large buffer idx) as [[[idx1 key]|]|];
    cbn [mbind Completion_bind elements]; [|by right|by right].
  apply IH.
Qed.

Lemma parseMessage_limit :
  Redis.parseMessage small buffer = Throw RangeError
  \/ Redis.parseMessage small buffer = Redis.parseMessage large buffer.
Proof.
  unfold Redis.parseMessage.
  destruct (getUint32 buffer 0) as [numUpdates|]; cbn [mbind Completion_bind]; [|by right].
  destruct (parseUpdates_limit (N.to_nat numUpdates) (0 + 4) JsObj.empty) as [-> | ->];
    [by left|].
  destruct (Redis.parseUpdates large buffer (N.to_nat numUpdates) (0 + 4) JsObj.empty)
    as [[idx updateKeyVals]|]; cbn [mbind Completion_bind]; [|by right].
  destruct (getUint32 buffer idx) as [numDeletes|]; cbn [mbind Completion_bind];
    [|by right].
  destruct (parseDeletes_limit (N.to_nat numDeletes) (idx + 4) []) as [-> | ->];
    [by left|by right].
Qed.

End Limits.

Lemma text_fits_mono small large p :
  small <= large -> text_fits small p -> text_fits large p.
Proof. unfold text_fits. destruct (content p); [lia|done]. Qed.

Lemma text_fits_some p : exists limit, text_fits limit p.
Proof.
  unfold text_fits. destruct (content p) as [s|b]; [|by exists 0].
  by exists (byteLength (list_byte_of_string s)).
Qed.

(** Every message has a limit that none of its texts reaches. *)
Lemma texts_fit_some m : exists limit, forall large, limit <= large -> texts_fit large m.
Proof.
  assert (Hu : exists limit, forall large, limit <= large ->
             Forall (fun kv => text_fits large (fst kv) /\ text_fits large (snd kv))
               (updates m)).
  { induction (updates m) as [|[k v] l [limit IH]]; [by exists 0|].
    destruct (text_fits_some k) as [a Ha], (text_fits_some v) as [b Hb].
    exists (N.max limit (N.max a b)). intros large Hlarge. constructor.
    - split; cbn [fst snd];
        [apply (text_fits_mono a)|apply (text_fits_mono b)]; (lia || done).
    - apply IH. lia. }
  assert (Hd : exists limit, forall large, limit <= large ->
             Forall (text_fits large) (deletes m)).
  { induction (deletes m) as [|k l [limit IH]]; [by exists 0|].
    destruct (text_fits_some k) as [a Ha].
    exists (N.max limit a). intros large Hlarge. constructor.
    - apply (text_fits_mono a); (lia || done).
    - apply IH. lia. }
  destruct Hu as [a Ha], Hd as [b Hb]. exists (N.max a b).
  intros large Hlarge. split; [apply Ha|apply Hb]; lia.
Qed.

Variable max_arguments : N.

(** Every proper cut of the encoding of a well-formed message of text
    payloads makes [parseMessage] raise [RangeError]: no read goes past
    the end, and nothing is returned. *)
Theorem truncated_text_message_raises (m : Message) (n : nat) :
  well_formed m -> text_only m -> (n < length (encode m))%nat ->
  Redis.parseMessage max_arguments (take n (encode m)) = Throw RangeError.
Proof.
  intros Hwf Htext Hlt.
  destruct (texts_fit_some m) as [limit Hlimit].
  set (large := N.max limit (byteLength (take n (encode m)))).
  assert (Hlarge : byteLength (take n (encode m)) <= large) by lia.
  destruct (parseMessage_limit max_arguments large (take n (encode m)) Hlarge)
    as [H|H]; [done|].
  rewrite H. apply truncated_within_limit; try done. apply Hlimit. lia.
Qed.

End Truncation.

Section TrajectoryFacts.
Import Trajectory.

Context {P : Type} (origin : P) (C : nat).
Hypothesis C_pos : 0 < C.

Abbreviation filling := (@Trajectory.filling P origin C).
Abbreviation wrapped := (@Trajectory.wrapped P C).

Lemma appendAll_app (traj : t P) (ps qs : list P) :
  appendAll C traj (ps ++ qs) = (traj' ← appendAll C traj ps; appendAll C traj' qs).
Proof.
  revert traj. induction ps as [|p ps IH]; intros traj; cbn; [done|].
  destruct (appendPosition C traj p); cbn; [apply IH|done].
Qed.

(** One append, when the write index is a slot of the buffer. *)
Lemma appendPosition_step (traj : t P) (pos : P) :
  idx traj < length (positions traj) ->
  appendPosition C traj pos =
  Normal
    (let wrap := bool_decide (C < S (idx traj)) in
     let positions :=
       if wrap then <[0 := pos]> (<[idx traj := pos]> (positions traj))
       else <[idx traj := pos]> (positions traj) in
     let idx := if wrap then 1 else S (idx traj) in
     if bool_decide (len traj < C) then
       {| positions := positions; drawRange1 := (0, S (len traj));
          drawRange2 := drawRange2 traj; idx := idx; len := S (len traj) |}
     else
       {| positions := positions; drawRange1 := (0, idx);
          drawRange2 := (idx, C - idx + 1); idx := idx; len := len traj |}).
Proof.
  intros Hi. unfold appendPosition, set.
  destruct (decide (idx traj < length (positions traj))) as [_|]; [|lia].
  cbn [mbind Completion_bind].
  destruct (decide (C < S (idx traj))) as [Hw|Hw].
  - rewrite (bool_decide_eq_true_2 _ Hw), length_insert.
    destruct (decide (0 < length (positions traj))) as [_|]; [|lia].
    cbn [mbind Completion_bind].
    destruct (decide (len traj < C)) as [Hl|Hl].
    + by rewrite (bool_decide_eq_true_2 _ Hl).
    + by rewrite (bool_decide_eq_false_2 _ Hl).
  - rewrite (bool_decide_eq_false_2 _ Hw).
    cbn [mbind Completion_bind].
    destruct (decide (len traj < C)) as [Hl|Hl].
    + by rewrite (bool_decide_eq_true_2 _ Hl).
    + by rewrite (bool_decide_eq_false_2 _ Hl).
Qed.

Lemma append_filling ps p :
  length ps < C ->
  appendPosition C (filling ps) p = Normal (filling (ps ++ [p])).
Proof.
  intros Hn. rewrite appendPosition_step.
  2:{ cbn. rewrite length_app, length_replicate. lia. }
  cbn [positions idx len drawRange2 filling].
  rewrite (bool_decide_eq_false_2 (C < S (length ps))) by lia.
  rewrite (bool_decide_eq_true_2 (length ps < C)) by lia.
  unfold filling. rewrite length_app. cbn [length]. rewrite !Nat.add_1_r.
  f_equal. f_equal.
  replace (S C - length ps) with (S (S C - S (length ps))) by lia.
  cbn [replicate].
  rewrite insert_app_r_alt by lia. rewrite Nat.sub_diag. cbn [insert list_insert].
  by rewrite <- app_assoc.
Qed.

Lemma appendAll_filling ps :
  length ps <= C ->
  appendAll C (create origin C) ps = Normal (filling ps).
Proof.
  induction ps as [|p ps IH] using rev_ind; intros Hn.
  - cbn. unfold create, filling. cbn [length]. by rewrite Nat.sub_0_r.
  - rewrite length_app in Hn. cbn in Hn.
    rewrite appendAll_app, IH by lia. cbn [mbind Completion_bind appendAll].
    rewrite append_filling by lia. done.
Qed.

Lemma append_full ps p :
  length ps = C ->
  appendPosition C (filling ps) p = Normal (wrapped (ps ++ [p]) 1).
Proof.
  intros Hn. rewrite appendPosition_step.
  2:{ cbn. rewrite length_app, length_replicate. lia. }
  cbn [positions idx len drawRange2 filling].
  rewrite (bool_decide_eq_true_2 (C < S (length ps))) by lia.
  rewrite (bool_decide_eq_false_2 (length ps < C)) by lia.
  unfold wrapped. rewrite length_app. cbn [length].
  replace (C - 1 + 1) with C by lia. rewrite Hn.
  f_equal. f_equal.
  replace (C + 1 - C) with 1 by lia. cbn [replicate].
  rewrite insert_app_r_alt by lia. rewrite Hn, Nat.sub_diag. cbn [insert list_insert].
  replace (C + 1 - 1) with (length ps) by lia.
  rewrite drop_app_length.
  replace (C + 1 - C) with 1 by lia.
  destruct ps as [|a ps]; [cbn in Hn; lia|].
  cbn [app insert list_insert drop].
  rewrite drop_0. f_equal.
  rewrite take_ge; [done|]. rewrite length_app. cbn in *. lia.
Qed.

Lemma append_wrapped ps p i :
  C < length ps -> 1 <= i <= C ->
  appendPosition C (wrapped ps i) p
  = Normal (wrapped (ps ++ [p]) (if bool_decide (i = C) then 1 else S i)).
Proof.
  intros Hn Hi.
  assert (Hlen : length (positions (wrapped ps i)) = C + 1).
  { cbn. rewrite length_app, length_take, !length_drop. lia. }
  rewrite appendPosition_step by (cbn [idx wrapped]; lia).
  cbn [positions idx len drawRange2 wrapped].
  rewrite (bool_decide_eq_false_2 (C < C)) by lia.
  set (D := drop (length ps - C) ps).
  assert (HD : length D = C) by (subst D; rewrite length_drop; lia).
  assert (HD1 : drop 1 D = drop (length ps + 1 - C) ps).
  { subst D. rewrite drop_drop. f_equal. lia. }
  destruct (decide (i = C)) as [->|Hne].
  - rewrite (bool_decide_eq_true_2 (C < S C)) by lia.
    rewrite (bool_decide_eq_true_2 (C = C)) by done.
    unfold wrapped. f_equal. f_equal.
    rewrite length_app. cbn [length].
    replace (C + 1 - C) with 1 by lia. fold D.
    rewrite insert_app_r_alt by lia. rewrite HD, Nat.sub_diag.
    replace (length ps + 1 - 1) with (length ps) by lia.
    rewrite drop_app_length.
    rewrite drop_app_le by lia. rewrite <- HD1.
    replace (C + 1 - 1) with C by lia.
    destruct D as [|d D']; [cbn in HD; lia|].
    cbn [take insert list_insert app drop length] in *. rewrite drop_0.
    rewrite take_0, take_ge; [done|]. rewrite length_app. cbn. lia.
  - rewrite (bool_decide_eq_false_2 (C < S i)) by lia.
    rewrite (bool_decide_eq_false_2 (i = C)) by done.
    unfold wrapped. f_equal. f_equal.
    rewrite length_app. cbn [length]. fold D.
    rewrite insert_app_r_alt by (rewrite length_drop; lia).
    rewrite length_drop.
    replace (i - (length ps - (length ps - i))) with 0 by lia.
    replace (length ps + 1 - S i) with (length ps - i) by lia.
    rewrite drop_app_le by lia. rewrite <- app_assoc. f_equal.
    rewrite drop_app_le by lia. rewrite <- HD1.
    rewrite take_app_le by (rewrite length_drop; lia).
    replace (C + 1 - i) with (S (C - i)) by lia.
    replace (C + 1 - S i) with (C - i) by lia.
    destruct D as [|d D']; [cbn in HD; lia|].
    cbn [take insert list_insert app drop]. by rewrite drop_0.
Qed.

Lemma appendAll_wrapped ps :
  C < length ps ->
  exists i, 1 <= i <= C /\ appendAll C (create origin C) ps = Normal (wrapped ps i).
Proof.
  induction ps as [|p ps IH] using rev_ind; intros Hn.
  - cbn in Hn. lia.
  - rewrite length_app in Hn. cbn in Hn. rewrite appendAll_app.
    destruct (decide (length ps = C)) as [E|E].
    + exists 1. split; [lia|].
      rewrite appendAll_filling by lia. cbn [mbind Completion_bind appendAll].
      by rewrite append_full.
    + destruct IH as (i & Hi & ->); [lia|].
      cbn [mbind Completion_bind appendAll].
      rewrite append_wrapped by lia.
      eexists. split; [|reflexivity]. case_bool_decide; lia.
Qed.

(** C5. Appending to a ring of capacity [C]. One append writes the
    position at the write index and increments it; an index that would
    exceed [C] wraps, writing the position at slot 0 as well and
    restarting at 1. After more than [C] appends the count of stored
    positions is [C], the two draw ranges are [(0, idx)] and
    [(idx, C - idx + 1)], their lengths add up to [C + 1], together they
    are the whole buffer slot by slot, and the positions they show are
    exactly the last [C] appended ones: what was appended before is
    gone. *)
Theorem trajectory_ring_buffer (ps : list P) :
  (forall (traj : t P) (pos : P),
     idx traj <= C -> length (positions traj) = C + 1 ->
     exists traj',
       appendPosition C traj pos = Normal traj'
       /\ (idx traj < C ->
           positions traj' = <[idx traj := pos]> (positions traj)
           /\ idx traj' = S (idx traj))
       /\ (idx traj = C ->
           positions traj' = <[0 := pos]> (<[C := pos]> (positions traj))
           /\ idx traj' = 1))
  /\ (C < length ps ->
      exists traj,
        appendAll C (create origin C) ps = Normal traj
        /\ len traj = C
        /\ 1 <= idx traj <= C
        /\ drawRange1 traj = (0, idx traj)
        /\ drawRange2 traj = (idx traj, C - idx traj + 1)
        /\ snd (drawRange1 traj) + snd (drawRange2 traj) = C + 1
        /\ visible traj = positions traj
        /\ length (visible traj) = C + 1
        /\ (forall x, x ∈ visible traj <-> x ∈ drop (length ps - C) ps)
        /\ (forall x, x ∈ take (length ps - C) ps ->
                      x ∉ drop (length ps - C) ps -> x ∉ visible traj)).
Proof.
  split.
  - intros traj pos Hi Hlen. rewrite appendPosition_step by lia.
    eexists. split; [reflexivity|]. split; intros Hc.
    + rewrite (bool_decide_eq_false_2 (C < S (idx traj))) by lia.
      by destruct (bool_decide (len traj < C)).
    + rewrite (bool_decide_eq_true_2 (C < S (idx traj))) by lia.
      rewrite Hc. by destruct (bool_decide (len traj < C)).
  - intros Hn. destruct (appendAll_wrapped ps Hn) as (i & Hi & Hrun).
    exists (wrapped ps i). split; [done|].
    assert (Hvis : visible (wrapped ps i) = positions (wrapped ps i)).
    { unfold visible, segment. cbn [wrapped positions drawRange1 drawRange2 fst snd].
      rewrite drop_0. f_equal.
      - rewrite take_app_length'; [done|]. rewrite length_drop. lia.
      - rewrite drop_app_length'; [|rewrite length_drop; lia].
        apply take_ge. rewrite length_take, length_drop. lia. }
    assert (Hmem : forall x, x ∈ visible (wrapped ps i) <-> x ∈ drop (length ps - C) ps).
    { intros x. rewrite Hvis. cbn [wrapped positions].
      set (D := drop (length ps - C) ps).
      assert (HD : drop (length ps - i) ps = drop (C - i) D).
      { subst D. rewrite drop_drop. f_equal. lia. }
      rewrite HD, elem_of_app. split.
      - intros [Hx|Hx].
        + by apply (subseteq_drop (C - i) D).
        + by apply (subseteq_take (C + 1 - i) D).
      - intros Hx. rewrite <- (take_drop (C - i) D) in Hx.
        apply elem_of_app in Hx as [Hx|Hx]; [right|by left].
        replace (C - i) with (min (C - i) (C + 1 - i)) in Hx by lia.
        rewrite <- take_take in Hx.
        by apply (subseteq_take (C - i)). }
    repeat split; try done; try (cbn; lia).
    + rewrite Hvis. cbn. rewrite length_app, length_take, !length_drop. lia.
    + apply Hmem.
    + apply Hmem.
    + intros x _ Hx Hv. by apply Hx, Hmem.
Qed.

End TrajectoryFacts.

Section LetterFacts.

(** A character comes out of [toLowerCase] as a small letter of the
    basic alphabet exactly when it is that letter, small or capital. *)
Lemma toLowerCase_r c :
  Ascii.eqb (Robot.toLowerCase c) "r" = Ascii.eqb c "r" || Ascii.eqb c "R".
Proof. destruct c as [[] [] [] [] [] [] [] []]; reflexivity. Qed.

Lemma toLowerCase_p c :
  Ascii.eqb (Robot.toLowerCase c) "p" = Ascii.eqb c "p" || Ascii.eqb c "P".
Proof. destruct c as [[] [] [] [] [] [] [] []]; reflexivity. Qed.

Lemma toLowerCase_x c :
  Ascii.eqb (Robot.toLowerCase c) "x" = Ascii.eqb c "x" || Ascii.eqb c "X".
Proof. destruct c as [[] [] [] [] [] [] [] []]; reflexivity. Qed.

Lemma toLowerCase_y c :
  Ascii.eqb (Robot.toLowerCase c) "y" = Ascii.eqb c "y" || Ascii.eqb c "Y".
Proof. destruct c as [[] [] [] [] [] [] [] []]; reflexivity. Qed.

Lemma toLowerCase_z c :
  Ascii.eqb (Robot.toLowerCase c) "z" = Ascii.eqb c "z" || Ascii.eqb c "Z".
Proof. destruct c as [[] [] [] [] [] [] [] []]; reflexivity. Qed.

End LetterFacts.

Section RobotFacts.
Import Redis Robot.

Context {Quaternion Vector3 Number : Type}.
Variable identity : Quaternion.
Variable setFromAxisAngle : Vector3 -> Number -> Quaternion.
Variable multiply : Quaternion -> Quaternion -> Quaternion.
Variable zero : Vector3.
Variable multiplyScalar : Vector3 -> Number -> Vector3.
Variable add : Vector3 -> Vector3 -> Vector3.
Variable parseFloat : string -> float.
Variable number : float -> Number.
Variable character : ascii -> Number.
Variable array : list float -> Number.
Variable undefined : Number.

(** The laws of three.js arithmetic the statement rests on: the fresh
    quaternion is the unit of the product, the fresh vector the unit of
    the sum, and the sum commutes. *)
Hypothesis multiply_identity : forall r, multiply r identity = r.
Hypothesis add_zero : forall v, add zero v = v.
Hypothesis add_comm : forall u v, add u v = add v u.

Abbreviation Body := (Robot.Body Quaternion Vector3).
Abbreviation axis_known := (Robot.axis_known (Quaternion := Quaternion) (Vector3 := Vector3)).
Abbreviation posed := (Robot.posed setFromAxisAngle multiply multiplyScalar add).
Abbreviation configures := (Robot.configures parseFloat number character).
Abbreviation updateBody :=
  (Robot.updateBody identity setFromAxisAngle multiply zero multiplyScalar add undefined).
Abbreviation updateBodies :=
  (Robot.updateBodies identity setFromAxisAngle multiply zero multiplyScalar add undefined).
Abbreviation updateQ :=
  (Robot.updateQ identity setFromAxisAngle multiply zero multiplyScalar add
     parseFloat number character array undefined).

Lemma updateBody_posed q i body :
  axis_known body ->
  exists body',
    updateBody q i body = Normal body'
    /\ posed (default undefined (q !! i)) body body'.
Proof.
  intros Hax. unfold axis_known, revolute, prismatic in Hax.
  unfold Robot.updateBody, posed, revolute, prismatic, axis_of.
  rewrite toLowerCase_r, toLowerCase_p.
  destruct (Ascii.eqb (jointType body) "r" || Ascii.eqb (jointType body) "R") eqn:Er;
    destruct (Ascii.eqb (jointType body) "p" || Ascii.eqb (jointType body) "P") eqn:Ep;
    destruct (jointAxis body) as [axis|] eqn:Ea;
    try (exfalso; by apply Hax);
    cbn [mbind Completion_bind];
    (eexists; split; [reflexivity|]);
    cbn [quaternion position redisgl_quaternion redisgl_position jointType jointAxis];
    repeat split; try done; intros; simplify_eq;
    rewrite ?multiply_identity, ?add_zero; try done; try apply add_comm.
Qed.

Lemma updateBodies_posed q bodies :
  forall i,
    Forall axis_known bodies ->
    exists bodies',
      updateBodies q i bodies = Normal bodies'
      /\ Forall2 (fun '(j, body) body' => posed (default undefined (q !! j)) body body')
           (imap (fun j body => (i + j, body)) bodies) bodies'.
Proof.
  induction bodies as [|body rest IH]; intros i Hax.
  - exists []. split; [done|]. constructor.
  - inversion Hax as [|? ? Hb Hr]; subst.
    destruct (updateBody_posed q i body Hb) as (body' & E & Hp).
    destruct (IH (S i) Hr) as (rest' & Er & Hrest).
    exists (body' :: rest'). split.
    + cbn [Robot.updateBodies]. rewrite E. cbn [mbind Completion_bind].
      rewrite Er. done.
    + cbn [imap]. constructor.
      * by rewrite Nat.add_0_r.
      * erewrite imap_ext; [exact Hrest|].
        intros j b _. cbn. f_equal. lia.
Qed.

(** What [makeNumeric(val[0])] makes of a value that stands for a
    configuration. *)
Lemma makeNumeric0_configures val q :
  configures val q ->
  exists numeric,
    makeNumeric0 parseFloat val = Normal numeric
    /\ Robot.elements number character array numeric = q.
Proof.
  intros [row rows|c s]; eexists; (split; [reflexivity|]); cbn.
  - by rewrite map_map.
  - done.
Qed.


End RobotFacts.

Section ReprojectionFacts.
Import Camera Reprojection.

Local Open Scope float_scope.

Variable downscale : nat.
Variable K : Intrinsic.
Variables rows cols : nat.
Variable image : list float.

Hypothesis K_rows : (2 <= length K)%nat.

Lemma entry_K_at i j : (i < 2)%nat -> entry K i j = Normal (K_at K i j).
Proof.
  intros Hi. unfold entry, K_at.
  destruct (K !! i) as [row|] eqn:E; [done|].
  apply lookup_ge_None in E. lia.
Qed.

Lemma remainder_nonzero_multiple a :
  remainder_nonzero a downscale = negb (multiple a downscale).
Proof. unfold remainder_nonzero, multiple. by destruct downscale. Qed.

(** One step of the inner loop stores the point of the pixel, or leaves
    the buffer alone. *)
Lemma pointAt_keep y acc x :
  multiple y downscale = true ->
  pointAt downscale K rows cols image y acc x
  = Normal (if sampled downscale (y, x) && positive (depth cols image (y, x))
            then store_point acc (point K rows cols image (y, x))
            else acc).
Proof.
  intros Hy. destruct acc as [buffer idx].
  unfold pointAt, sampled, positive, depth, point. cbn [fst snd].
  rewrite !remainder_nonzero_multiple, Hy. cbn [andb negb].
  destruct (multiple x downscale); cbn [negb]; [|done].
  destruct (isNaN _ || _); cbn [negb]; [done|].
  rewrite !entry_K_at by lia. done.
Qed.

Lemma pointAt_row y xs :
  multiple y downscale = true ->
  forall acc,
    foldM (pointAt downscale K rows cols image y) acc xs
    = Normal
        (fold_left store_point
           (map (point K rows cols image)
              (List.filter
                 (fun p => sampled downscale p && positive (depth cols image p))
                 (map (pair y) xs)))
           acc).
Proof.
  intros Hy. induction xs as [|x xs IH]; intros acc; [done|].
  cbn [foldM map List.filter]. rewrite pointAt_keep by done.
  cbn [mbind Completion_bind].
  destruct (sampled _ _ && _); [|apply IH].
  cbn [map fold_left]. apply IH.
Qed.

Lemma skipped_row y xs :
  multiple y downscale = false ->
  List.filter
    (fun p => sampled downscale p && positive (depth cols image p))
    (map (pair y) xs) = [].
Proof.
  intros Hy. induction xs as [|x xs IH]; [done|].
  cbn [map List.filter]. unfold sampled at 1. cbn [fst snd]. rewrite Hy. exact IH.
Qed.

Lemma pointsOfRow_row acc y :
  pointsOfRow downscale K rows cols image acc y
  = Normal
      (fold_left store_point
         (map (point K rows cols image)
            (List.filter
               (fun p => sampled downscale p && positive (depth cols image p))
               (map (pair y) (seq 0 cols))))
         acc).
Proof.
  unfold pointsOfRow. rewrite remainder_nonzero_multiple.
  destruct (multiple y downscale) eqn:Hy; cbn [negb].
  - by apply pointAt_row.
  - by rewrite skipped_row.
Qed.

Lemma pointsOfRow_rows ys :
  forall acc,
    foldM (pointsOfRow downscale K rows cols image) acc ys
    = Normal
        (fold_left store_point
           (map (point K rows cols image)
              (List.filter
                 (fun p => sampled downscale p && positive (depth cols image p))
                 (flat_map (fun y => map (pair y) (seq 0 cols)) ys)))
           acc).
Proof.
  induction ys as [|y ys IH]; intros acc; [done|].
  cbn [foldM flat_map]. rewrite List.filter_app, map_app, fold_left_app.
  rewrite pointsOfRow_row. cbn [mbind Completion_bind]. apply IH.
Qed.

(** What the stores leave in the buffer: a point that fits is there,
    rounded to single precision. *)
Lemma store_point_length acc p :
  length (fst (store_point acc p)) = length (fst acc)
  /\ snd (store_point acc p) = S (snd acc).
Proof.
  destruct acc as [b i], p as [[x y] z]. cbn [store_point fst snd]. unfold store32.
  by rewrite !length_insert.
Qed.

Lemma store_points_from points :
  forall acc,
    length (fst (fold_left store_point points acc)) = length (fst acc)
    /\ snd (fold_left store_point points acc) = (snd acc + length points)%nat
    /\ (forall j, (j < 3 * snd acc)%nat ->
          fst (fold_left store_point points acc) !! j = fst acc !! j).
Proof.
  induction points as [|p points IH]; intros acc; cbn [fold_left length].
  - split; [done|]. split; [lia|done].
  - destruct (IH (store_point acc p)) as (Hl & Hs & Hk).
    destruct (store_point_length acc p) as [Hl' Hs'].
    split; [congruence|]. split; [lia|].
    intros j Hj. rewrite Hk by lia.
    destruct acc as [b i], p as [[x y] z]. cbn [store_point fst snd] in *.
    unfold store32. rewrite !list_lookup_insert_ne by lia. done.
Qed.

Lemma store_points_lookup points :
  forall acc i x y z,
    points !! i = Some (x, y, z) ->
    (3 * (snd acc + i) + 2 < length (fst acc))%nat ->
    let buffer := fst (fold_left store_point points acc) in
    buffer !! (3 * (snd acc + i))%nat = Some (fround x)
    /\ buffer !! (3 * (snd acc + i) + 1)%nat = Some (fround y)
    /\ buffer !! (3 * (snd acc + i) + 2)%nat = Some (fround z).
Proof.
  induction points as [|p points IH]; intros acc i x y z Hi Hfit; [done|].
  cbn [fold_left]. destruct i as [|i].
  - cbn in Hi. injection Hi as ->. rewrite Nat.add_0_r in *.
    destruct (store_points_from points (store_point acc (x, y, z))) as (_ & _ & Hk).
    destruct acc as [b n]. cbn [store_point fst snd] in *. unfold store32 in *.
    cbv zeta. rewrite !Hk by lia. rewrite Nat.add_0_r.
    rewrite list_lookup_insert_ne by lia.
    rewrite list_lookup_insert_ne by lia.
    rewrite list_lookup_insert_eq by lia.
    rewrite list_lookup_insert_ne by lia.
    rewrite list_lookup_insert_eq by (rewrite length_insert; lia).
    rewrite list_lookup_insert_eq by (rewrite !length_insert; lia).
    done.
  - cbn in Hi.
    destruct (store_point_length acc p) as [Hl' Hs'].
    specialize (IH (store_point acc p) i x y z Hi).
    rewrite Hs', Hl' in IH.
    replace (snd acc + S i)%nat with (S (snd acc) + i)%nat by lia.
    apply IH. lia.
Qed.

(** C4. For a camera with a depth image, an intrinsic matrix of at
    least two rows and its two buffers, whatever the downscale factor,
    [renderPointCloud] reports a change and emits, in raster order,
    exactly the pixels whose row and column are multiples of the factor
    and whose depth [raw / 1000] is a number above zero, infinity
    included. The draw range is the number of these pixels; the point of
    the [i]-th of them is [(d * (col - K[0][2]) / K[0][0],
    d * ((numRows - row) - K[1][2]) / K[1][1], d)] and is found at
    [3 * i] in the position buffer, in single precision, when the buffer
    is that long. The images, their dimensions and the intrinsic matrix
    stay as they are. *)
Theorem renderPointCloud_emits (camera : Camera.t) (buffer colors : list float) :
  depthImage camera = Some image ->
  intrinsic camera = Some K ->
  numRows (depthDim camera) = rows ->
  numCols (depthDim camera) = cols ->
  positionArray camera = Some buffer ->
  colorArray camera = Some colors ->
  let pixels := emitted downscale rows cols image in
  let points := map (point K rows cols image) pixels in
  exists camera',
    renderPointCloud downscale camera = Normal (camera', true)
    /\ drawRange camera' = Some (0%nat, length pixels)
    /\ positionArray camera' = Some (fst (store_points buffer points))
    /\ length (fst (store_points buffer points)) = length buffer
    /\ (forall i x y z,
          points !! i = Some (x, y, z) ->
          (3 * i + 2 < length buffer)%nat ->
          fst (store_points buffer points) !! (3 * i)%nat = Some (fround x)
          /\ fst (store_points buffer points) !! (3 * i + 1)%nat = Some (fround y)
          /\ fst (store_points buffer points) !! (3 * i + 2)%nat = Some (fround z))
    /\ depthImage camera' = depthImage camera
    /\ colorImage camera' = colorImage camera
    /\ depthDim camera' = depthDim camera
    /\ colorDim camera' = colorDim camera
    /\ intrinsic camera' = intrinsic camera.
Proof.
  intros Himage HK Hrows Hcols Hbuffer Hcolors pixels points.
  destruct (store_points_from points (buffer, 0%nat)) as (Hlen & Hcount & _).
  cbn [fst snd] in Hlen, Hcount.
  assert (Hrun :
    foldM (pointsOfRow downscale K rows cols image) (buffer, 0%nat) (seq 0 rows)
    = Normal (store_points buffer points)) by apply pointsOfRow_rows.
  assert (Hpoints : forall i x y z,
            points !! i = Some (x, y, z) ->
            (3 * i + 2 < length buffer)%nat ->
            fst (store_points buffer points) !! (3 * i)%nat = Some (fround x)
            /\ fst (store_points buffer points) !! (3 * i + 1)%nat = Some (fround y)
            /\ fst (store_points buffer points) !! (3 * i + 2)%nat = Some (fround z)).
  { intros i x y z Hi Hfit.
    apply (store_points_lookup points (buffer, 0%nat) i x y z Hi Hfit). }
  unfold renderPointCloud. rewrite Himage, HK, Hrows, Hcols, Hbuffer.
  cbn [array_of mbind Completion_bind]. rewrite Hrun.
  fold (store_points buffer points) in Hlen, Hcount.
  rewrite Nat.add_0_l in Hcount.
  assert (Hcount' : snd (store_points buffer points) = length pixels).
  { rewrite Hcount. unfold points. by rewrite length_map. }
  clear Hcount Hrun.
  destruct (store_points buffer points) as [stored count].
  cbn [fst snd] in *. cbn [mbind Completion_bind]. subst count.
  assert (Hdone : forall camera',
            positionArray camera' = Some stored ->
            drawRange camera' = Some (0%nat, length pixels) ->
            depthImage camera' = depthImage camera ->
            colorImage camera' = colorImage camera ->
            depthDim camera' = depthDim camera ->
            colorDim camera' = colorDim camera ->
            intrinsic camera' = intrinsic camera ->
            exists camera'',
              Normal (camera', true) = Normal (camera'', true)
              /\ drawRange camera'' = Some (0%nat, length pixels)
              /\ positionArray camera'' = Some stored
              /\ length stored = length buffer
              /\ (forall i x y z,
                    points !! i = Some (x, y, z) ->
                    (3 * i + 2 < length buffer)%nat ->
                    stored !! (3 * i)%nat = Some (fround x)
                    /\ stored !! (3 * i + 1)%nat = Some (fround y)
                    /\ stored !! (3 * i + 2)%nat = Some (fround z))
              /\ depthImage camera'' = depthImage camera
              /\ colorImage camera'' = colorImage camera
              /\ depthDim camera'' = depthDim camera
              /\ colorDim camera'' = colorDim camera
              /\ intrinsic camera'' = intrinsic camera).
  { intros camera' ? ? ? ? ? ? ?. exists camera'. split_and!; done. }
  rewrite Himage, HK in Hdone.
  cbn [with_points colorImage colorDim colorArray].
  destruct (colorImage camera) as [colorData|] eqn:Hci.
  - destruct (negb _ || negb _).
    + by apply Hdone.
    + rewrite Hcolors. cbn [array_of mbind Completion_bind].
      destruct (fold_left _ _ _) as [colorBuffer ?].
      by apply Hdone.
  - by apply Hdone.
Qed.

End ReprojectionFacts.

Section StateFacts.

Context {S : Type}.

(** A sequence that completes normally did so in both of its parts. *)
Lemma bind_Normal {A B : Type} (m : StateM S A) (f : A -> StateM S B) s s' b :
  (m ≫= f) s = (s', Normal b) ->
  exists s1 a, m s = (s1, Normal a) /\ f a s1 = (s', Normal b).
Proof.
  unfold mbind, StateM_bind. destruct (m s) as [s1 [a|e]]; [|done].
  intros H. by exists s1, a.
Qed.

Lemma modify_Normal (f : S -> S) s s' u :
  modify f s = (s', Normal u) -> s' = f s.
Proof. by intros [= <-]. Qed.

Lemma get_Normal (s s' x : S) : get s = (s', Normal x) -> s' = s /\ x = s.
Proof. by intros [= <- <-]. Qed.

Lemma mret_Normal {A : Type} (a b : A) (s s' : S) :
  mret (M := StateM S) a s = (s', Normal b) -> s' = s /\ b = a.
Proof. by intros [= <- <-]. Qed.

End StateFacts.

Section CameraHandlerFacts.
Import Redis Camera.

Lemma renderCameraViewFrame_frame_state spec spec' r :
  renderCameraViewFrame spec = Normal (spec', r) -> same_frame_state spec spec'.
Proof.
  unfold renderCameraViewFrame. destruct (intrinsic spec) as [K|] eqn:HK.
  - destruct (mapM _ _) as [corners|]; cbn [mbind Completion_bind]; [|done].
    intros [= <- <-]. by repeat split.
  - intros [= <- <-]. by repeat split.
Qed.

Lemma renderPointCloud_frame_state downscale spec spec' r :
  renderPointCloud downscale spec = Normal (spec', r) -> same_frame_state spec spec'.
Proof.
  unfold renderPointCloud.
  destruct (depthImage spec) as [image|] eqn:Hd;
    [destruct (intrinsic spec) as [K|] eqn:HK|];
    try (intros [= <- <-]; by repeat split).
  destruct (array_of (positionArray spec)) as [buffer|]; cbn [mbind Completion_bind]; [|done].
  destruct (foldM _ _ _) as [[stored count]|]; cbn [mbind Completion_bind]; [|done].
  cbn [with_points colorImage colorDim colorArray].
  destruct (colorImage spec) as [colors|] eqn:Hc.
  - destruct (negb _ || negb _).
    + intros [= <- <-]. by repeat split.
    + destruct (array_of (colorArray spec)); cbn [mbind Completion_bind]; [|done].
      destruct (fold_left _ _ _) as [colorBuffer ?].
      intros [= <- <-]. by repeat split.
  - intros [= <- <-]. by repeat split.
Qed.

Lemma deref_Some world camera spec :
  deref world camera = Normal spec <-> cameras world !! camera = Some spec.
Proof.
  unfold deref. destruct (cameras world !! camera); split; intros H; by simplify_eq.
Qed.

Lemma updating_inv f camera world world' :
  updating f camera world = (world', Normal tt) ->
  exists spec,
    cameras world !! camera = Some spec /\ world' = assign world camera (f spec).
Proof.
  unfold updating. destruct (deref world camera) as [spec|] eqn:E; [|done].
  intros [= <-]. exists spec. split; [by apply deref_Some|done].
Qed.

Lemma rendering_inv f camera world world' r :
  rendering f camera world = (world', Normal r) ->
  exists spec spec',
    cameras world !! camera = Some spec
    /\ f spec = Normal (spec', r)
    /\ world' = assign world camera spec'.
Proof.
  unfold rendering. destruct (deref world camera) as [spec|] eqn:E; [|done].
  destruct (f spec) as [[spec' r']|] eqn:Ef; [|done].
  intros [= <- <-]. exists spec, spec'. split; [by apply deref_Some|done].
Qed.

Lemma assign_same world camera spec spec0 :
  cameras world !! camera = Some spec0 ->
  cameras (assign world camera spec) !! camera = Some spec.
Proof.
  intros H. cbn. apply list_lookup_insert_eq. by eapply lookup_lt_Some.
Qed.

Lemma assign_other world camera spec other :
  other <> camera ->
  cameras (assign world camera spec) !! other = cameras world !! other.
Proof. intros H. cbn. by apply list_lookup_insert_ne. Qed.

(** What the callback of a depth decode does to the world, whatever has
    become of the camera in the meantime. *)
Lemma depthDecoded_inv camera img dim world world' r :
  depthDecoded camera img dim world = (world', Normal r) ->
  (exists spec,
     cameras world' !! camera = Some spec
     /\ depthImage spec = Some img /\ depthDim spec = dim)
  /\ (forall other, other <> camera -> cameras world' !! other = cameras world !! other)
  /\ updatingDepth world' = false
  /\ updatingColor world' = updatingColor world
  /\ pending world' = pending world
  /\ r = negb (updatingColor world).
Proof.
  unfold depthDecoded. intros H.
  apply bind_Normal in H as (w1 & [] & E1 & H).
  apply updating_inv in E1 as (spec0 & H0 & ->).
  apply bind_Normal in H as (w2 & r2 & E2 & H).
  apply rendering_inv in E2 as (spec1 & spec2 & H1 & Hf & ->).
  rewrite (assign_same _ _ _ _ H0) in H1. injection H1 as <-.
  apply bind_Normal in H as (w3 & r3 & E3 & H).
  apply rendering_inv in E3 as (spec3 & spec4 & H3 & Hp & ->).
  rewrite (assign_same _ _ _ _ (assign_same _ _ _ _ H0)) in H3. injection H3 as <-.
  apply bind_Normal in H as (w4 & w & E4 & H).
  apply get_Normal in E4 as [-> ->].
  apply bind_Normal in H as (w5 & [] & E5 & H).
  apply modify_Normal in E5 as ->.
  apply mret_Normal in H as [-> ->].
  apply renderCameraViewFrame_frame_state in Hf as (Hf1 & _ & Hf3 & _).
  apply renderPointCloud_frame_state in Hp as (Hp1 & _ & Hp3 & _).
  split_and!; try done.
  - exists spec4. split_and!.
    + cbn. apply list_lookup_insert_eq. rewrite !length_insert. by eapply lookup_lt_Some.
    + by rewrite Hp1, Hf1.
    + by rewrite Hp3, Hf3.
  - intros other Hne. cbn. by rewrite !list_lookup_insert_ne.
Qed.

Lemma colorDecoded_inv camera img dim world world' r :
  colorDecoded camera img dim world = (world', Normal r) ->
  (exists spec,
     cameras world' !! camera = Some spec
     /\ colorImage spec = Some img /\ colorDim spec = dim)
  /\ (forall other, other <> camera -> cameras world' !! other = cameras world !! other)
  /\ updatingColor world' = false
  /\ updatingDepth world' = updatingDepth world
  /\ pending world' = pending world
  /\ r = negb (updatingDepth world).
Proof.
  unfold colorDecoded. intros H.
  apply bind_Normal in H as (w1 & [] & E1 & H).
  apply updating_inv in E1 as (spec0 & H0 & ->).
  apply bind_Normal in H as (w3 & r3 & E3 & H).
  apply rendering_inv in E3 as (spec3 & spec4 & H3 & Hp & ->).
  rewrite (assign_same _ _ _ _ H0) in H3. injection H3 as <-.
  apply bind_Normal in H as (w4 & w & E4 & H).
  apply get_Normal in E4 as [-> ->].
  apply bind_Normal in H as (w5 & [] & E5 & H).
  apply modify_Normal in E5 as ->.
  apply mret_Normal in H as [-> ->].
  apply renderPointCloud_frame_state in Hp as (_ & Hp2 & _ & Hp4 & _).
  split_and!; try done.
  - exists spec4. split_and!.
    + cbn. apply list_lookup_insert_eq. rewrite !length_insert. by eapply lookup_lt_Some.
    + by rewrite Hp2.
    + by rewrite Hp4.
  - intros other Hne. cbn. by rewrite !list_lookup_insert_ne.
Qed.

(** *** Callbacks that raise *)

Lemma entry_raises K i j e : entry K i j = Throw e -> e = TypeError.
Proof. unfold entry. destruct (K !! i); [done|]. by intros [= <-]. Qed.

Lemma corner_raises K yx e : corner K yx = Throw e -> e = TypeError.
Proof.
  unfold corner. destruct yx as [y x].
  repeat match goal with
         | |- context [entry K ?i ?j] =>
             let E := fresh "E" in
             destruct (entry K i j) eqn:E; cbn [mbind Completion_bind];
             [|intros [= <-]; by eapply entry_raises]
         end.
  done.
Qed.

Lemma mapM_corner_raises K yxs e : mapM (corner K) yxs = Throw e -> e = TypeError.
Proof.
  induction yxs as [|yx yxs IH]; cbn [mapM]; [done|].
  destruct (corner K yx) eqn:E; cbn [mbind Completion_bind].
  - destruct (mapM (corner K) yxs); cbn [mbind Completion_bind]; [done|].
    intros [= <-]. by apply IH.
  - intros [= <-]. by eapply corner_raises.
Qed.

Lemma renderCameraViewFrame_raises spec e :
  renderCameraViewFrame spec = Throw e -> e = TypeError.
Proof.
  unfold renderCameraViewFrame. destruct (intrinsic spec) as [K|]; [|done].
  destruct (mapM _ _) eqn:E; cbn [mbind Completion_bind]; [done|].
  intros [= <-]. by eapply mapM_corner_raises.
Qed.

Lemma pointAt_raises downscale K rows cols image y acc x e :
  pointAt downscale K rows cols image y acc x = Throw e -> e = TypeError.
Proof.
  unfold pointAt. destruct acc as [buffer idx].
  destruct (remainder_nonzero x downscale); [done|].
  destruct (isNaN _ || _); [done|].
  repeat match goal with
         | |- context [entry K ?i ?j] =>
             let E := fresh "E" in
             destruct (entry K i j) eqn:E; cbn [mbind Completion_bind];
             [|intros [= <-]; by eapply entry_raises]
         end.
  done.
Qed.

Lemma foldM_raises {A B : Type} (f : A -> B -> Completion A) (l : list B) :
  (forall a b e, f a b = Throw e -> e = TypeError) ->
  forall a e, foldM f a l = Throw e -> e = TypeError.
Proof.
  intros Hf. induction l as [|b l IH]; intros a e; cbn [foldM]; [done|].
  destruct (f a b) eqn:E; cbn [mbind Completion_bind].
  - apply IH.
  - intros [= <-]. by eapply Hf.
Qed.

Lemma renderPointCloud_raises downscale spec e :
  renderPointCloud downscale spec = Throw e -> e = TypeError.
Proof.
  unfold renderPointCloud.
  destruct (depthImage spec) as [image|]; [|done].
  destruct (intrinsic spec) as [K|]; [|done].
  destruct (positionArray spec) as [buffer|]; cbn [array_of mbind Completion_bind];
    [|by intros [= <-]].
  destruct (foldM _ _ _) as [[stored count]|] eqn:E; cbn [mbind Completion_bind].
  - cbn [with_points colorImage colorDim colorArray].
    destruct (colorImage spec); [|done].
    destruct (negb _ || negb _); [done|].
    destruct (colorArray spec); cbn [array_of mbind Completion_bind];
      [|by intros [= <-]].
    by destruct (fold_left _ _ _).
  - intros [= <-]. revert E. apply foldM_raises.
    intros acc y e. unfold pointsOfRow.
    destruct (remainder_nonzero y downscale); [done|].
    apply foldM_raises. intros acc' x e'. apply pointAt_raises.
Qed.

Lemma updating_at f camera world spec :
  cameras world !! camera = Some spec ->
  updating f camera world = (assign world camera (f spec), Normal tt).
Proof. intros H. unfold updating. by rewrite (proj2 (deref_Some _ _ _) H). Qed.

Lemma rendering_at f camera world spec :
  cameras world !! camera = Some spec ->
  rendering f camera world
  = match f spec with
    | Throw e => (world, Throw e)
    | Normal (spec', result) => (assign world camera spec', Normal result)
    end.
Proof. intros H. unfold rendering. by rewrite (proj2 (deref_Some _ _ _) H). Qed.

(** What the callback of a depth decode does to the world, however it
    ends: the image and its dimensions are stored in any case; the flag
    is cleared when the callback comes to its end, and left alone when
    the drawing of the frame or of the points raises. *)
Lemma depthDecoded_outcome camera img dim world spec0 world' outcome :
  cameras world !! camera = Some spec0 ->
  depthDecoded camera img dim world = (world', outcome) ->
  (exists spec,
     cameras world' !! camera = Some spec
     /\ depthImage spec = Some img /\ depthDim spec = dim)
  /\ (forall other, other <> camera -> cameras world' !! other = cameras world !! other)
  /\ updatingColor world' = updatingColor world
  /\ pending world' = pending world
  /\ match outcome with
     | Normal r => updatingDepth world' = false /\ r = negb (updatingColor world)
     | Throw e => e = TypeError /\ updatingDepth world' = updatingDepth world
     end.
Proof.
  intros H0. unfold depthDecoded.
  unfold mbind at 1, StateM_bind at 1. rewrite (updating_at _ _ _ _ H0).
  set (spec1 := with_depth _ img dim).
  assert (H1 : cameras (assign world camera spec1) !! camera = Some spec1)
    by (by eapply assign_same).
  assert (Hstored : depthImage spec1 = Some img /\ depthDim spec1 = dim) by done.
  unfold mbind at 1, StateM_bind at 1. rewrite (rendering_at _ _ _ _ H1).
  destruct (renderCameraViewFrame spec1) as [[spec2 r2]|e] eqn:Ef.
  2:{ intros [= <- <-]. apply renderCameraViewFrame_raises in Ef as ->.
      split_and!; try done.
      - by exists spec1.
      - intros other Hne. by apply assign_other. }
  apply renderCameraViewFrame_frame_state in Ef as (Hf1 & _ & Hf3 & _).
  set (world2 := assign (assign world camera spec1) camera spec2).
  assert (H2 : cameras world2 !! camera = Some spec2) by (by eapply assign_same).
  unfold mbind at 1, StateM_bind at 1. rewrite (rendering_at _ _ _ _ H2).
  destruct (renderPointCloud DOWNSCALE_FACTOR spec2) as [[spec3 r3]|e] eqn:Ep.
  2:{ intros [= <- <-]. apply renderPointCloud_raises in Ep as ->.
      split_and!; try done.
      - exists spec2. split; [done|]. destruct Hstored. split; congruence.
      - intros other Hne. subst world2. by rewrite !assign_other. }
  apply renderPointCloud_frame_state in Ep as (Hp1 & _ & Hp3 & _).
  intros [= <- <-]. split_and!; try done.
  - exists spec3. split; [by eapply assign_same|]. destruct Hstored. split; congruence.
  - intros other Hne. cbn [cameras with_updatingDepth]. subst world2.
    by rewrite !assign_other.
Qed.

Lemma colorDecoded_outcome camera img dim world spec0 world' outcome :
  cameras world !! camera = Some spec0 ->
  colorDecoded camera img dim world = (world', outcome) ->
  (exists spec,
     cameras world' !! camera = Some spec
     /\ colorImage spec = Some img /\ colorDim spec = dim)
  /\ (forall other, other <> camera -> cameras world' !! other = cameras world !! other)
  /\ updatingDepth world' = updatingDepth world
  /\ pending world' = pending world
  /\ match outcome with
     | Normal r => updatingColor world' = false /\ r = negb (updatingDepth world)
     | Throw e => e = TypeError /\ updatingColor world' = updatingColor world
     end.
Proof.
  intros H0. unfold colorDecoded.
  unfold mbind at 1, StateM_bind at 1. rewrite (updating_at _ _ _ _ H0).
  set (spec1 := with_color spec0 img dim).
  assert (H1 : cameras (assign world camera spec1) !! camera = Some spec1)
    by (by eapply assign_same).
  assert (Hstored : colorImage spec1 = Some img /\ colorDim spec1 = dim) by done.
  unfold mbind at 1, StateM_bind at 1. rewrite (rendering_at _ _ _ _ H1).
  destruct (renderPointCloud DOWNSCALE_FACTOR spec1) as [[spec3 r3]|e] eqn:Ep.
  2:{ intros [= <- <-]. apply renderPointCloud_raises in Ep as ->.
      split_and!; try done.
      - by exists spec1.
      - intros other Hne. by apply assign_other. }
  apply renderPointCloud_frame_state in Ep as (_ & Hp2 & _ & Hp4 & _).
  intros [= <- <-]. split_and!; try done.
  - exists spec3. split; [by eapply assign_same|]. destruct Hstored. split; congruence.
  - intros other Hne. cbn [cameras with_updatingColor]. by rewrite !assign_other.
Qed.

End CameraHandlerFacts.

Section SimulatorFacts.
Import Redis Simulator.

Context {Forms Nodes : Type}.
Variable max_arguments : N.
Variable JSON_parse : string -> Completion Json.
Variable parseFloat : string -> float.
Variable parseOpenCvMat : list byte -> Completion (list float * Camera.Dim).
Variable formExists : string -> Forms -> Completion bool.
Variable getValue : string -> Forms -> Completion Val.
Variable getKeys : Forms -> list string.
Variable updateForm : string -> option Val -> Forms -> Forms * Completion unit.
Variable deleteForm : string -> Forms -> Forms * Completion unit.
Variable create_node : Kind -> Json -> Nodes -> Nodes * Completion nat.
Variable update_node : Handler -> nat -> Val -> Nodes -> Nodes * Completion bool.

Abbreviation State := (@Simulator.State Forms Nodes).
Abbreviation call := (Simulator.call parseFloat parseOpenCvMat update_node).
Abbreviation invoke := (Simulator.invoke parseFloat parseOpenCvMat update_node).
Abbreviation dispatch := (Simulator.dispatch parseFloat parseOpenCvMat update_node).
Abbreviation updateKeys :=
  (Simulator.updateKeys parseFloat parseOpenCvMat updateForm update_node).
Abbreviation parseUpdateKeys :=
  (Simulator.parseUpdateKeys parseFloat parseOpenCvMat updateForm update_node).
Abbreviation deleteKeys := (Simulator.deleteKeys (Nodes := Nodes) deleteForm).
Abbreviation parseDeleteKeys := (Simulator.parseDeleteKeys (Nodes := Nodes) deleteForm).
Abbreviation addComponentToScene :=
  (Simulator.addComponentToScene (Forms := Forms) create_node).
Abbreviation parseArgs :=
  (Simulator.parseArgs JSON_parse parseFloat parseOpenCvMat formExists getValue getKeys
     create_node update_node).
Abbreviation parseModels :=
  (Simulator.parseModels JSON_parse parseFloat parseOpenCvMat formExists getValue
     updateForm create_node update_node).
Abbreviation handleMessage :=
  (Simulator.handleMessage max_arguments JSON_parse parseFloat parseOpenCvMat formExists
     getValue getKeys updateForm deleteForm create_node update_node).

Lemma writing_Normal (f : Forms -> Forms * Completion unit) (st st' : State) u :
  writing f st = (st', Normal u) -> st' = with_forms st (f (forms st)).1.
Proof.
  unfold writing. destruct (f (forms st)) as [forms' r]. by intros [= <- _].
Qed.

Lemma call_frame cb val (st st' : State) r :
  call cb val st = (st', r) ->
  renders st' = renders st /\ invoked st' = invoked st
  /\ robots st' = robots st /\ objects st' = objects st
  /\ redisUpdateCallbacks st' = redisUpdateCallbacks st.
Proof.
  unfold Simulator.call.
  destruct (handler cb);
    repeat match goal with
    | |- context [let '(_, _) := ?x in _] => destruct x
    end;
    intros [= <- <-]; by repeat split.
Qed.

Lemma invoke_frame key keyComponent cb val (st st' : State) r :
  invoke key keyComponent cb val st = (st', r) ->
  renders st' = renders st
  /\ robots st' = robots st /\ objects st' = objects st
  /\ redisUpdateCallbacks st' = redisUpdateCallbacks st
  /\ exists call,
       invoked st' = invoked st ++ [call] /\ outcome call = r
       /\ at_key call = key /\ callee call = cb.
Proof.
  unfold Simulator.invoke.
  destruct (call cb val st) as [st1 r1] eqn:E.
  apply call_frame in E as (Hr & Hi & Hro & Ho & Hc).
  intros [= <- <-]. cbn. rewrite Hi. split_and!; try done.
  eexists. by split_and!.
Qed.

Lemma dispatch_or key val entry :
  forall renderFrame (st st' : State) result,
    dispatch key val entry renderFrame st = (st', Normal result) ->
    renders st' = renders st
    /\ robots st' = robots st /\ objects st' = objects st
    /\ redisUpdateCallbacks st' = redisUpdateCallbacks st
    /\ exists calls,
         invoked st' = invoked st ++ calls
         /\ result = existsb asked calls || renderFrame
         /\ Forall (fun call => at_key call = key) calls
         /\ map callee calls = map snd entry.
Proof.
  induction entry as [|[keyComponent cb] entry IH]; intros renderFrame st st' result.
  - intros [= <- <-]. split_and!; try done. exists []. by rewrite app_nil_r.
  - cbn [Simulator.dispatch]. intros H.
    apply bind_Normal in H as (st1 & r1 & E1 & H).
    apply invoke_frame in E1 as (Hr & Hro & Ho & Hc & call & Hi & Hout & Hk & Hcb).
    apply IH in H as (Hr' & Hro' & Ho' & Hc' & calls & Hi' & -> & Hks & Hcbs).
    split_and!; try congruence.
    exists (call :: calls). split_and!.
    + rewrite Hi', Hi. by rewrite <- app_assoc.
    + cbn [existsb]. unfold asked at 2. rewrite Hout.
      destruct r1, (existsb asked calls), renderFrame; done.
    + by constructor.
    + cbn. by rewrite Hcb, Hcbs.
Qed.

Lemma updateKeys_or keyVals :
  forall renderFrame (st st' : State) result,
    updateKeys keyVals renderFrame st = (st', Normal result) ->
    renders st' = renders st
    /\ robots st' = robots st /\ objects st' = objects st
    /\ redisUpdateCallbacks st' = redisUpdateCallbacks st
    /\ exists calls,
         invoked st' = invoked st ++ calls
         /\ result = existsb asked calls || renderFrame
         /\ Forall (fun call => at_key call ∈ JsObj.keys keyVals) calls.
Proof.
  induction keyVals as [|[key val] keyVals IH]; intros renderFrame st st' result.
  - intros [= <- <-]. split_and!; try done. exists []. by rewrite app_nil_r.
  - cbn [Simulator.updateKeys]. intros H.
    apply bind_Normal in H as (st0 & st0' & E0 & H).
    apply get_Normal in E0 as [-> ->].
    apply bind_Normal in H as (st1 & r1 & E1 & H).
    apply bind_Normal in H as (st2 & [] & E2 & H).
    apply writing_Normal in E2 as ->.
    assert (Hstep :
      renders st1 = renders st
      /\ robots st1 = robots st /\ objects st1 = objects st
      /\ redisUpdateCallbacks st1 = redisUpdateCallbacks st
      /\ exists calls,
           invoked st1 = invoked st ++ calls
           /\ r1 = existsb asked calls || renderFrame
           /\ Forall (fun call => at_key call = key) calls).
    { destruct (JsObj.in_ key (redisUpdateCallbacks st)).
      - apply dispatch_or in E1 as (? & ? & ? & ? & calls & ? & ? & ? & _).
        split_and!; try done. by exists calls.
      - apply mret_Normal in E1 as [-> ->]. split_and!; try done.
        exists []. by rewrite app_nil_r. }
    destruct Hstep as (Hr & Hro & Ho & Hc & calls & Hi & -> & Hks).
    apply IH in H as (Hr' & Hro' & Ho' & Hc' & calls' & Hi' & -> & Hks').
    cbn in Hr', Hro', Ho', Hc', Hi'.
    split_and!; try congruence.
    exists (calls ++ calls'). split_and!.
    + rewrite Hi', Hi. by rewrite <- app_assoc.
    + rewrite existsb_app.
      destruct (existsb asked calls), (existsb asked calls'), renderFrame; done.
    + apply Forall_app. split.
      * eapply Forall_impl; [exact Hks|]. intros call ->. cbn. apply elem_of_cons. by left.
      * eapply Forall_impl; [exact Hks'|]. intros call Hin. cbn. apply elem_of_cons. by right.
Qed.

(** *** Deleting *)

Lemma delete_callbacks_all keyComponent (callbacks : JsObj.t (JsObj.t Callback)) :
  keyComponent <> "length"%string ->
  delete_callbacks keyComponent callbacks
  = Normal (map (fun entry => (entry.1, JsObj.delete keyComponent entry.2)) callbacks).
Proof.
  intros Hne. induction callbacks as [|[key entry] rest IH]; [done|].
  cbn [delete_callbacks]. destruct (String.eqb_spec keyComponent "length"); [done|].
  by rewrite IH.
Qed.

Lemma delete_callbacks_length (callbacks : JsObj.t (JsObj.t Callback)) :
  delete_callbacks "length" callbacks
  = match callbacks with [] => Normal [] | _ => Throw TypeError end.
Proof. by destruct callbacks as [|[key entry] rest]. Qed.

Lemma unregister_frame keyComponent (st st' : State) outcome :
  unregisterRedisUpdateCallback keyComponent st = (st', outcome) ->
  match delete_callbacks keyComponent (redisUpdateCallbacks st) with
  | Normal callbacks =>
      st' = with_redisUpdateCallbacks st callbacks /\ outcome = Normal tt
  | Throw e => st' = st /\ outcome = Throw e
  end.
Proof.
  unfold unregisterRedisUpdateCallback, mbind, StateM_bind, get, lift, modify.
  destruct (delete_callbacks _ _); by intros [= <- <-].
Qed.

Lemma remove_frame kind key (st st' : State) outcome :
  Simulator.remove kind key st = (st', outcome) ->
  renders st' = renders st /\ invoked st' = invoked st
  /\ forms st' = forms st /\ handlingMessage st' = handlingMessage st.
Proof.
  unfold Simulator.remove.
  unfold mbind at 1, StateM_bind at 1. cbn [modify].
  intros H. apply unregister_frame in H.
  destruct (delete_callbacks _ _); destruct H as [-> _];
    destruct (JsObj.get key (components kind st)); destruct kind; done.
Qed.

Lemma deleteKeys_true keys :
  forall (st st' : State) result,
    deleteKeys keys true st = (st', Normal result) ->
    result = true /\ renders st' = renders st /\ invoked st' = invoked st.
Proof.
  induction keys as [|key keys IH]; intros st st' result.
  - by intros [= <- <-].
  - cbn [Simulator.deleteKeys]. intros H.
    apply bind_Normal in H as (st0 & st0' & E0 & H).
    apply get_Normal in E0 as [-> ->].
    apply bind_Normal in H as (st1 & r1 & E1 & H).
    apply bind_Normal in H as (st2 & [] & E2 & H).
    apply writing_Normal in E2 as ->.
    assert (Hstep : r1 = true /\ renders st1 = renders st /\ invoked st1 = invoked st).
    { destruct (JsObj.in_ (toString key) (robots st)).
      - apply bind_Normal in E1 as (st1' & [] & E1 & E1').
        apply mret_Normal in E1' as [-> ->].
        apply remove_frame in E1 as (? & ? & _). done.
      - destruct (JsObj.in_ (toString key) (objects st)).
        + apply bind_Normal in E1 as (st1' & [] & E1 & E1').
          apply mret_Normal in E1' as [-> ->].
          apply remove_frame in E1 as (? & ? & _). done.
        + by apply mret_Normal in E1 as [-> ->]. }
    destruct Hstep as (-> & Hr & Hi).
    apply IH in H as (-> & Hr' & Hi'). cbn in Hr', Hi'.
    split_and!; congruence.
Qed.

Lemma deleteKeys_or keys :
  forall renderFrame (st st' : State) result,
    deleteKeys keys renderFrame st = (st', Normal result) ->
    result = existsb (names_entity st) keys || renderFrame
    /\ renders st' = renders st /\ invoked st' = invoked st.
Proof.
  induction keys as [|key keys IH]; intros renderFrame st st' result.
  - by intros [= <- <-].
  - cbn [Simulator.deleteKeys existsb]. unfold names_entity at 1. intros H.
    apply bind_Normal in H as (st0 & st0' & E0 & H).
    apply get_Normal in E0 as [-> ->].
    apply bind_Normal in H as (st1 & r1 & E1 & H).
    apply bind_Normal in H as (st2 & [] & E2 & H).
    apply writing_Normal in E2 as ->.
    destruct (JsObj.in_ (toString key) (robots st)) eqn:Hro.
    + apply bind_Normal in E1 as (st1' & [] & E1 & E1').
      apply mret_Normal in E1' as [-> ->].
      apply remove_frame in E1 as (Hr & Hi & _).
      apply deleteKeys_true in H as (-> & Hr' & Hi'). cbn in Hr', Hi'.
      split_and!; [done|congruence..].
    + destruct (JsObj.in_ (toString key) (objects st)) eqn:Ho.
      * apply bind_Normal in E1 as (st1' & [] & E1 & E1').
        apply mret_Normal in E1' as [-> ->].
        apply remove_frame in E1 as (Hr & Hi & _).
        apply deleteKeys_true in H as (-> & Hr' & Hi'). cbn in Hr', Hi'.
        split_and!; [done|congruence..].
      * apply mret_Normal in E1 as [-> ->].
        apply IH in H as (-> & Hr' & Hi'). cbn in Hr', Hi'.
        split_and!; [reflexivity|congruence..].
Qed.

Lemma lift_Normal {A : Type} (c : Completion A) (st st' : State) a :
  lift c st = (st', Normal a) -> st' = st /\ c = Normal a.
Proof. by intros [= <- ->]. Qed.

Lemma render_Normal (st st' : State) u :
  render st = (st', Normal u) ->
  renders st' = S (renders st) /\ invoked st' = invoked st
  /\ handlingMessage st' = handlingMessage st.
Proof. by intros [= <-]. Qed.

(** Installing a component renders once. *)
Lemma addComponentToScene_renders kind key model (st st' : State) component :
  addComponentToScene kind key model st = (st', Normal component) ->
  renders st' = S (renders st).
Proof.
  unfold Simulator.addComponentToScene. intros H.
  apply bind_Normal in H as (st1 & component1 & E1 & H).
  assert (Hr1 : renders st1 = renders st).
  { unfold create in E1. destruct kind.
    1-3: destruct (create_node _ model (nodes st)) as [n r]; by injection E1 as <- _.
    destruct (Camera.new_camera (world st)); by injection E1 as <- _. }
  apply bind_Normal in H as (st2 & [] & E2 & H). apply modify_Normal in E2 as ->.
  apply bind_Normal in H as (st3 & [] & E3 & H). apply modify_Normal in E3 as ->.
  apply bind_Normal in H as (st4 & [] & E4 & H).
  assert (Hr4 : renders st4 = renders st).
  { rewrite <- Hr1. unfold store_component in E4.
    destruct (String.eqb key "__proto__"); apply modify_Normal in E4 as ->;
      destruct kind, (loads_later _), (JsObj.get key _); reflexivity. }
  apply bind_Normal in H as (st5 & [] & E5 & H). apply modify_Normal in E5 as ->.
  apply bind_Normal in H as (st6 & [] & E6 & H).
  apply render_Normal in E6 as (Hr6 & _). apply mret_Normal in H as [-> _].
  rewrite Hr6. cbn. by rewrite Hr4.
Qed.

(** C9. For every batch that [handleMessage] processes to its end
    without writing to a built-in object, the results of the callbacks
    called for the update keys of the batch are ORed into one flag;
    after the model phase the loop renders once more if that flag is set
    or a delete key is found in the robots or in the objects - the key
    of a robot or an object, or a name these maps inherit - and not
    otherwise. The callbacks themselves do not render, and every
    [addComponentToScene] of the model phase renders once on its own. *)
Theorem handleMessage_renders (buffer : list byte) (st : State) :
  snd (handleMessage buffer st) = Normal tt ->
  polluted (fst (handleMessage buffer st)) = false ->
  (forall kind key model (s s' : State) component,
     addComponentToScene kind key model s = (s', Normal component) ->
     renders s' = S (renders s))
  /\ exists keys st_models st_updates renderFrame calls,
       parseMessage max_arguments buffer = Normal keys
       /\ (parseArgs (toUpdate keys) ;; parseModels (toUpdate keys)) st
          = (st_models, Normal tt)
       /\ parseUpdateKeys (toUpdate keys) st_models = (st_updates, Normal renderFrame)
       /\ renders st_updates = renders st_models
       /\ invoked st_updates = invoked st_models ++ calls
       /\ Forall (fun call => at_key call ∈ JsObj.keys (toUpdate keys)) calls
       /\ renderFrame = existsb asked calls
       /\ let deleted := existsb (names_entity st_updates) (toDelete keys) in
          let st' := fst (handleMessage buffer st) in
          renders st' = renders st_models + (if renderFrame || deleted then 1 else 0)
          /\ invoked st' = invoked st_updates
          /\ handlingMessage st' = false.
Proof.
  intros Hdone _. split; [apply addComponentToScene_renders|].
  destruct (handleMessage buffer st) as [st' r] eqn:H. cbn [fst snd] in *. subst r.
  unfold Simulator.handleMessage in H.
  apply bind_Normal in H as (st0 & keys & E0 & H).
  apply lift_Normal in E0 as [-> Hkeys].
  apply bind_Normal in H as (st1 & [] & E1 & H).
  apply bind_Normal in H as (st2 & [] & E2 & H).
  apply bind_Normal in H as (st3 & renderFrame & E3 & H).
  apply bind_Normal in H as (st4 & deleted & E4 & H).
  apply bind_Normal in H as (st5 & [] & E5 & H).
  apply modify_Normal in H as ->.
  pose proof E3 as E3'. unfold Simulator.parseUpdateKeys in E3'.
  apply updateKeys_or in E3' as (Hr3 & _ & _ & _ & calls & Hi3 & Hrf & Hks).
  rewrite orb_false_r in Hrf.
  unfold Simulator.parseDeleteKeys in E4.
  apply deleteKeys_or in E4 as (-> & Hr4 & Hi4). rewrite orb_false_r in E5.
  exists keys, st2, st3, renderFrame, calls. split_and!; try done.
  - unfold mbind, StateM_bind. by rewrite E1.
  - cbn. rewrite (orb_comm renderFrame).
    destruct (existsb _ _ || renderFrame).
    + apply render_Normal in E5 as (-> & _). lia.
    + apply mret_Normal in E5 as [-> _]. lia.
  - cbn. destruct (existsb _ _ || renderFrame).
    + apply render_Normal in E5 as (_ & -> & _). done.
    + by apply mret_Normal in E5 as [-> _].
Qed.

(** C10. A value that is no [ArrayBuffer] - a string or a matrix of
    strings, the two forms a text payload takes - leaves the world of the
    cameras as it is when it reaches the depth or the colour callback: no
    decode is started, no frame state changes, and the callback returns
    [false]. The same holds through the registry. *)
Theorem image_callbacks_ignore_text (camera : nat) (world : Camera.World) (st : State) :
  (forall s, exists rows,
     toVal parseFloat (Text s) = VString s \/ toVal parseFloat (Text s) = VMatrix rows)
  /\ (forall s,
        Camera.updateDepthImage parseOpenCvMat camera (VString s) world
        = (world, Normal false)
        /\ Camera.updateColorImage parseOpenCvMat camera (VString s) world
           = (world, Normal false))
  /\ (forall rows,
        Camera.updateDepthImage parseOpenCvMat camera (VMatrix rows) world
        = (world, Normal false)
        /\ Camera.updateColorImage parseOpenCvMat camera (VMatrix rows) world
           = (world, Normal false))
  /\ (forall val,
        (forall b, val <> VBuffer b) ->
        call {| component := camera; handler := CameraUpdateDepthImage |} val st
        = (st, Normal false)
        /\ call {| component := camera; handler := CameraUpdateColorImage |} val st
           = (st, Normal false)).
Proof.
  split_and!.
  - intros s. exists (stringToMatrix s). cbn. destruct (negb _); auto.
  - done.
  - done.
  - intros val Hval. destruct st. destruct val as [s|rows|b]; [done|done|].
    by destruct (Hval b).
Qed.


Lemma has_delete {V} k (o : JsObj.t V) :
  NoDup (JsObj.keys o) -> JsObj.has k (JsObj.delete k o) = false.
Proof.
  unfold JsObj.has. induction o as [|[k' v] o IH]; intros Hnd; cbn; [done|].
  apply NoDup_cons in Hnd as [Hk' Hnd].
  destruct (String.eqb_spec k k') as [->|Hne].
  - destruct (JsObj.get k' o) eqn:E; [|done].
    exfalso. apply Hk'. clear -E.
    induction o as [|[k1 v1] o IH]; [done|]. cbn in *.
    destruct (String.eqb_spec k' k1) as [->|]; [apply elem_of_cons; by left|].
    apply elem_of_cons. right. by apply IH.
  - cbn. destruct (String.eqb_spec k k'); [done|]. by apply IH.
Qed.

(** What the removal of a component leaves. *)
Lemma remove_tears_down kind key (st : State) :
  NoDup (JsObj.keys (components kind st)) ->
  Forall (fun entry => NoDup (JsObj.keys entry.2)) (redisUpdateCallbacks st) ->
  key <> "length"%string \/ redisUpdateCallbacks st = [] ->
  exists st',
    Simulator.remove kind key st = (st', Normal tt)
    /\ JsObj.has key (components kind st') = false
    /\ (forall old, JsObj.get key (components kind st) = Some old ->
          (kind, old) ∉ scene st')
    /\ (JsObj.get key (components kind st) = None ->
          components kind st' = components kind st /\ scene st' = scene st)
    /\ (forall other, other <> kind -> components other st' = components other st)
    /\ (forall c, c ∈ scene st -> c.1 <> kind -> c ∈ scene st')
    /\ Forall (fun entry => JsObj.has key entry.2 = false) (redisUpdateCallbacks st')
    /\ forms st' = forms st /\ renders st' = renders st
    /\ handlingMessage st' = handlingMessage st /\ polluted st' = polluted st.
Proof.
  intros Hnd Hreg Hlen.
  assert (Hdel : exists callbacks,
            delete_callbacks key (redisUpdateCallbacks st) = Normal callbacks
            /\ Forall (fun entry : string * JsObj.t Callback =>
                         JsObj.has key entry.2 = false) callbacks).
  { destruct Hlen as [Hne|Hnil].
    - eexists. split; [by apply delete_callbacks_all|].
      apply Forall_fmap. eapply Forall_impl; [exact Hreg|].
      intros [key0 entry] Hentry. cbn. by apply has_delete.
    - rewrite Hnil. exists []. split; [by destruct (String.eqb key "length")|constructor]. }
  destruct Hdel as (callbacks & Hdel & Hgone).
  unfold Simulator.remove, unregisterRedisUpdateCallback.
  unfold mbind, StateM_bind, get, lift, modify.
  assert (Hsame : forall s : State,
            delete_callbacks key (redisUpdateCallbacks
              match JsObj.get key (components kind s) with
              | Some old =>
                  with_components kind
                    (with_scene s (filter (fun c => c <> (kind, old)) (scene s)))
                    (JsObj.delete key
                       (components kind
                          (with_scene s (filter (fun c => c <> (kind, old)) (scene s)))))
              | None => s
              end)
            = delete_callbacks key (redisUpdateCallbacks s)).
  { intros s. destruct (JsObj.get key (components kind s)); [|done]. by destruct kind. }
  rewrite Hsame, Hdel. eexists. split; [reflexivity|].
  destruct (JsObj.get key (components kind st)) as [old|] eqn:Eold.
  - split_and!; try (by destruct kind).
    + destruct kind; cbn; by apply has_delete.
    + intros old' [= <-]. destruct kind; cbn; intros Hin;
        apply list_elem_of_filter in Hin as [Hne _]; by apply Hne.
    + intros other Hne. by destruct kind, other.
    + intros c Hc Hkind.
      assert (Hin : c ∈ filter (fun c => c <> (kind, old)) (scene st)).
      { apply list_elem_of_filter. split; [|done]. intros ->. by apply Hkind. }
      by destruct kind.
  - split_and!; try done; try (by destruct kind).
    destruct kind; cbn in *; unfold JsObj.has; by rewrite Eold.
Qed.

(** The removal of a component at the key [length], where the
    registry has a key. *)
Lemma remove_raises kind (st : State) :
  NoDup (JsObj.keys (components kind st)) ->
  redisUpdateCallbacks st <> [] ->
  exists st',
    Simulator.remove kind "length" st = (st', Throw TypeError)
    /\ JsObj.has "length" (components kind st') = false
    /\ (forall other, other <> kind -> components other st' = components other st)
    /\ redisUpdateCallbacks st' = redisUpdateCallbacks st
    /\ forms st' = forms st /\ renders st' = renders st.
Proof.
  intros Hnd Hsome.
  assert (Hraise : delete_callbacks "length" (redisUpdateCallbacks st) = Throw TypeError).
  { rewrite delete_callbacks_length. by destruct (redisUpdateCallbacks st). }
  unfold Simulator.remove, unregisterRedisUpdateCallback.
  unfold mbind, StateM_bind, get, lift, modify.
  assert (Hsame : forall s : State,
            delete_callbacks "length" (redisUpdateCallbacks
              match JsObj.get "length" (components kind s) with
              | Some old =>
                  with_components kind
                    (with_scene s (filter (fun c => c <> (kind, old)) (scene s)))
                    (JsObj.delete "length"
                       (components kind
                          (with_scene s (filter (fun c => c <> (kind, old)) (scene s)))))
              | None => s
              end)
            = delete_callbacks "length" (redisUpdateCallbacks s)).
  { intros s. destruct (JsObj.get "length" (components kind s)); [|done].
    by destruct kind. }
  rewrite Hsame, Hraise. eexists. split; [reflexivity|].
  destruct (JsObj.get "length" (components kind st)) as [old|] eqn:Eold.
  - split_and!; try (by destruct kind).
    + destruct kind; cbn; by apply has_delete.
    + intros other Hne. by destruct kind, other.
  - split_and!; try done.
    destruct kind; cbn in *; unfold JsObj.has; by rewrite Eold.
Qed.

(** One delete key: the branch taken for it, then [deleteForm]. *)
Lemma parseDeleteKeys_one (k : Value) (st : State) :
  parseDeleteKeys [k] st
  = let key := toString k in
    match
      (if JsObj.in_ key (robots st) then Simulator.remove KRobot key;; mret true
       else if JsObj.in_ key (objects st) then Simulator.remove KObject key;; mret true
       else mret false) st
    with
    | (st1, Normal found) =>
        (with_forms st1 (deleteForm key (forms st1)).1,
         match (deleteForm key (forms st1)).2 with
         | Normal _ => Normal found
         | Throw e => Throw e
         end)
    | (st1, Throw e) => (st1, Throw e)
    end.
Proof.
  unfold Simulator.parseDeleteKeys. cbn [Simulator.deleteKeys].
  unfold mbind at 1, StateM_bind at 1. cbn [get].
  unfold mbind at 1, StateM_bind at 1. cbv zeta.
  match goal with
  | |- match ?m st with _ => _ end = _ => destruct (m st) as [st1 [found|e]]
  end; [|done].
  unfold mbind at 1, StateM_bind at 1, writing.
  by destruct (deleteForm (toString k) (forms st1)) as [forms' [[]|e]].
Qed.

Lemma inherited_length : JsObj.inherited "length" = false.
Proof. reflexivity. Qed.


End SimulatorFacts.

(** * Concrete runs *)

Section Runs.
Import Redis Wire Simulator.
Local Open Scope string_scope.

Abbreviation parseMessage := (Redis.parseMessage Sample.max_arguments).

(** Closed goals about a message: the counts and lengths by computation,
    the lists element by element. *)
Ltac by_evaluation :=
  repeat match goal with
         | |- _ /\ _ => split
         | |- Forall _ _ => constructor
         | |- NoDup _ => apply (bool_decide_unpack _); vm_compute; exact I
         | |- _ <> _ => discriminate
         | |- (_ <= _)%N => vm_compute; discriminate
         | |- True => exact I
         | |- _ => vm_compute; reflexivity
         | |- _ => progress cbn
         end.

Lemma batch_well_formed :
  well_formed Sample.batch /\ texts_fit Sample.max_arguments Sample.batch
  /\ plain_keys Sample.batch.
Proof.
  unfold well_formed, texts_fit, text_fits, plain_keys, plain_key, payload_ok. cbn.
  by_evaluation.
Defined.

(** C1. The robot [robot::arm] arrives with a model bound to [arm::q]
    and is replaced by a model bound to [arm::joints]. The map and the
    scene then hold the second component only, but the registry still
    holds the callback of the first at [arm::q]: an update of [arm::q]
    calls it on the removed component, which is updated, and the frame
    is rendered. *)
Theorem replaced_robot_keeps_old_binding :
  let st := fst (Sample.run [Sample.onmessage Sample.arm_arrives;
                             Sample.onmessage Sample.arm_replaced] Sample.initial) in
  let st' := fst (Sample.onmessage Sample.old_key_updated st) in
  robots st = [("robot::arm", 1)]
  /\ scene st = [(KRobot, 1)]
  /\ redisUpdateCallbacks st
     = [("arm::q", [("robot::arm", {| component := 0; handler := RobotUpdateQ |})]);
        ("arm::joints", [("robot::arm", {| component := 1; handler := RobotUpdateQ |})])]
  /\ invoked st = []
  /\ invoked st'
     = [{| at_key := "arm::q"; at_component := "robot::arm";
           callee := {| component := 0; handler := RobotUpdateQ |};
           given := VMatrix [["0"; "0"; "0"]];
           outcome := Normal true |}]
  /\ Sample.applied (nodes st') = [(RobotUpdateQ, 0, VMatrix [["0"; "0"; "0"]])]
  /\ renders st' = S (renders st).
Proof. by_evaluation. Qed.

(** C7. The camera [camera::front] arrives and its key is deleted. The
    delete reaches [parseDeleteKeys] as a delete key, and the camera
    stays in the map and in the scene, its callback stays in the
    registry, and no frame is rendered. *)
Theorem deleted_camera_stays :
  let st := fst (Sample.onmessage Sample.front_arrives Sample.initial) in
  let st' := fst (Sample.onmessage Sample.front_deleted st) in
  parseMessage Sample.front_deleted
  = Normal {| toUpdate := []; toDelete := [Text "camera::front"] |}
  /\ cameras st = [("camera::front", 0)]
  /\ scene st = [(KCamera, 0)]
  /\ redisUpdateCallbacks st
     = [("front::depth",
         [("camera::front", {| component := 0; handler := CameraUpdateDepthImage |})])]
  /\ cameras st' = cameras st
  /\ scene st' = scene st
  /\ redisUpdateCallbacks st' = redisUpdateCallbacks st
  /\ renders st' = renders st
  /\ Sample.formExists "camera::front" (forms st) = true
  /\ Sample.formExists "camera::front" (forms st') = false.
Proof. by_evaluation. Qed.

(** C2. A message that deletes one binary key of five bytes decodes to
    that key. Cut after the first byte of the key it still decodes, to a
    key of one byte, and so does a buffer whose length byte says five
    where one byte follows. With a text key in place of the binary one
    the cut message raises [RangeError]. *)
Theorem truncated_binary_key_is_accepted :
  well_formed Sample.blob_deleted
  /\ length (encode Sample.blob_deleted) = 15%nat
  /\ parseMessage (encode Sample.blob_deleted)
     = Normal {| toUpdate := [];
                 toDelete := [Binary [xaa; xbb; xcc; xdd; xee]] |}
  /\ Sample.blob_cut = Sample.overlong
  /\ parseMessage Sample.blob_cut
     = Normal {| toUpdate := []; toDelete := [Binary [xaa]] |}
  /\ parseMessage Sample.overlong
     = Normal {| toUpdate := []; toDelete := [Binary [xaa]] |}
  /\ parseMessage Sample.word_cut = Throw RangeError.
Proof. unfold well_formed, payload_ok. cbn. by_evaluation. Qed.

(** C3, as the claim has it: a well-formed message whose second update
    key is an array index comes back with its pairs in another order. *)
Lemma roundtrip_moves_index_keys :
  well_formed Sample.out_of_order
  /\ batch_of Sample.out_of_order
     = {| toUpdate := [("b", Text "first"); ("1", Text "second")]; toDelete := [] |}
  /\ parseMessage (encode Sample.out_of_order)
     = Normal {| toUpdate := [("1", Text "second"); ("b", Text "first")];
                 toDelete := [] |}
  /\ parseMessage (encode Sample.out_of_order) <> Normal (batch_of Sample.out_of_order).
Proof.
  unfold well_formed, payload_ok. cbn. by_evaluation.
Qed.

Lemma wire_roundtrip_witness :
  well_formed Sample.batch /\ texts_fit Sample.max_arguments Sample.batch
  /\ plain_keys Sample.batch
  /\ parseMessage (encode Sample.batch) = Normal (batch_of Sample.batch).
Proof.
  split; [apply batch_well_formed|]. split; [apply batch_well_formed|].
  split; [apply batch_well_formed|].
  apply wire_roundtrip; apply batch_well_formed.
Defined.

(** C4, as the claim has it: a pixel infinitely far is no finite
    positive depth, yet the draw range counts it; and the buffer the
    source allocates for one pixel has no room for its point. *)
Lemma infinite_depth_is_emitted :
  Reprojection.finite_positive (Reprojection.depth 1 Sample.far_pixel (0, 0)%nat) = false
  /\ Reprojection.emitted_finite Camera.DOWNSCALE_FACTOR 1 1 Sample.far_pixel = []
  /\ exists camera',
       Camera.renderPointCloud Camera.DOWNSCALE_FACTOR
         (Sample.camera_of Sample.far_pixel 1 1)
       = Normal (camera', true)
       /\ Camera.drawRange camera' = Some (0, 1)%nat
       /\ Camera.positionArray camera' = Some [].
Proof.
  split; [by vm_compute|]. split; [by vm_compute|].
  eexists. split; [vm_compute; reflexivity|]. by split.
Qed.

Lemma renderPointCloud_emits_witness :
  let camera := Sample.camera_of Sample.depth4 4 4 in
  let pixels := Reprojection.emitted 2 4 4 Sample.depth4 in
  let points := map (Reprojection.point Sample.K3 4 4 Sample.depth4) pixels in
  pixels = [(0, 0); (0, 2)]%nat
  /\ exists camera',
       Camera.renderPointCloud 2 camera = Normal (camera', true)
       /\ Camera.drawRange camera' = Some (0%nat, length pixels)
       /\ Camera.positionArray camera'
          = Some (fst (Reprojection.store_points (replicate 12 0%float) points)).
Proof.
  split; [by vm_compute|].
  destruct (renderPointCloud_emits 2 Sample.K3 4 4 Sample.depth4
              ltac:(cbn; lia)
              (Sample.camera_of Sample.depth4 4 4)
              (replicate 12 0%float) (replicate 12 1%float)
              eq_refl eq_refl eq_refl eq_refl eq_refl eq_refl)
    as (camera' & Hrun & Hrange & Hbuffer & _).
  exists camera'. by split_and!.
Defined.

Lemma trajectory_ring_buffer_witness :
  let C := Trajectory.LEN_TRAJECTORY_TRAIL in
  let ps := seq 1 (C + 5) in
  (0 < C)%nat /\ (C < length ps)%nat
  /\ exists traj,
       Trajectory.appendAll C (Trajectory.create 0%nat C) ps = Normal traj
       /\ Trajectory.len traj = C
       /\ snd (Trajectory.drawRange1 traj) + snd (Trajectory.drawRange2 traj) = (C + 1)%nat
       /\ (forall x, x ∈ Trajectory.visible traj <-> x ∈ drop (length ps - C) ps)
       /\ (forall x, x ∈ take (length ps - C) ps ->
                     x ∉ drop (length ps - C) ps -> x ∉ Trajectory.visible traj).
Proof.
  assert (Hpos : (0 < Trajectory.LEN_TRAJECTORY_TRAIL)%nat)
    by (unfold Trajectory.LEN_TRAJECTORY_TRAIL; lia).
  assert (Hlen : (Trajectory.LEN_TRAJECTORY_TRAIL
                  < length (seq 1 (Trajectory.LEN_TRAJECTORY_TRAIL + 5)))%nat)
    by (rewrite length_seq; lia).
  split; [exact Hpos|]. split; [exact Hlen|].
  destruct (proj2 (trajectory_ring_buffer 0%nat Trajectory.LEN_TRAJECTORY_TRAIL Hpos
                     (seq 1 (Trajectory.LEN_TRAJECTORY_TRAIL + 5))) Hlen)
    as (traj & Hrun & Hl & _ & _ & _ & Hsum & _ & _ & Hmem & Hold).
  exists traj. by split_and!.
Defined.





(** C9, as the claim has it: a batch that deletes the robot calls no
    callback, so that the OR of the results is false, and renders a
    frame, and so does a batch that deletes the key [toString], which
    names nothing; a batch that brings a model and a value for its key
    renders two frames, one when the model is installed and one for the
    callback. *)
Lemma batch_renders_differ :
  let st := fst (Sample.onmessage Sample.arm_arrives Sample.initial) in
  let st' := fst (Sample.onmessage Sample.arm_deleted st) in
  let st1 := fst (Sample.onmessage Sample.toString_deleted Sample.initial) in
  let st2 := fst (Sample.onmessage Sample.arm_arrives_posed Sample.initial) in
  (invoked st' = invoked st /\ existsb asked (invoked st') = false
   /\ renders st' = S (renders st))
  /\ (invoked st1 = [] /\ renders Sample.initial = 0%nat /\ renders st1 = 1%nat)
  /\ (length (invoked st2) = 1%nat /\ renders st2 = 2%nat).
Proof. by_evaluation. Qed.

Lemma handleMessage_renders_witness :
  snd (Sample.handleMessage Sample.arm_arrives_posed Sample.initial) = Normal tt
  /\ polluted (fst (Sample.handleMessage Sample.arm_arrives_posed Sample.initial)) = false
  /\ exists keys (st_models st_updates : Sample.State) renderFrame calls,
       parseMessage Sample.arm_arrives_posed = Normal keys
       /\ renders st_updates = renders st_models
       /\ invoked st_updates = (invoked st_models ++ calls)%list
       /\ renderFrame = existsb asked calls
       /\ renders (fst (Sample.handleMessage Sample.arm_arrives_posed Sample.initial))
          = (renders st_models
             + (if renderFrame || existsb (names_entity st_updates) (toDelete keys)
                then 1 else 0))%nat.
Proof.
  unfold Sample.handleMessage.
  assert (Hdone :
    snd (Simulator.handleMessage Sample.max_arguments Sample.JSON_parse Sample.parseFloat
           Sample.parseOpenCvMat Sample.Redis_formExists Sample.Redis_getValue
           Sample.getKeys Sample.Redis_updateForm Sample.Redis_deleteForm
           Sample.create_node Sample.update_node
           Sample.arm_arrives_posed Sample.initial)
    = Normal tt) by (vm_compute; reflexivity).
  assert (Hclean :
    polluted
      (fst (Simulator.handleMessage Sample.max_arguments Sample.JSON_parse
              Sample.parseFloat Sample.parseOpenCvMat Sample.Redis_formExists
              Sample.Redis_getValue Sample.getKeys Sample.Redis_updateForm
              Sample.Redis_deleteForm Sample.create_node Sample.update_node
              Sample.arm_arrives_posed Sample.initial))
    = false) by (vm_compute; reflexivity).
  split; [exact Hdone|]. split; [exact Hclean|].
  destruct (handleMessage_renders Sample.max_arguments Sample.JSON_parse Sample.parseFloat
              Sample.parseOpenCvMat Sample.Redis_formExists Sample.Redis_getValue
              Sample.getKeys Sample.Redis_updateForm Sample.Redis_deleteForm
              Sample.create_node Sample.update_node
              Sample.arm_arrives_posed Sample.initial Hdone Hclean)
    as (_ & keys & st_models & st_updates & renderFrame & calls
        & Hkeys & _ & _ & Hr & Hi & _ & Hrf & Hrenders & _).
  exists keys, st_models, st_updates, renderFrame, calls.
  exact (conj Hkeys (conj Hr (conj Hi (conj Hrf Hrenders)))).
Defined.

Lemma truncated_text_message_raises_witness :
  well_formed Sample.word_deleted
  /\ text_only Sample.word_deleted
  /\ (11 < length (encode Sample.word_deleted))%nat
  /\ parseMessage (take 11 (encode Sample.word_deleted)) = Throw RangeError.
Proof.
  assert (Hwf : well_formed Sample.word_deleted).
  { unfold well_formed, payload_ok. cbn. by_evaluation. }
  assert (Htext : text_only Sample.word_deleted).
  { split; repeat constructor. by exists "hello". }
  assert (Hlt : (11 < length (encode Sample.word_deleted))%nat) by (vm_compute; lia).
  split; [exact Hwf|]. split; [exact Htext|]. split; [exact Hlt|].
  exact (truncated_text_message_raises Sample.max_arguments Sample.word_deleted 11
           Hwf Htext Hlt).
Defined.


End Runs.

Section FrameFacts.
Import Frame.
Context {S X : Type} (part : S -> X).

Lemma keeps_ret {A} (a : A) : keeps part (mret (M := StateM S) a).
Proof. by intros s. Qed.

Lemma keeps_get : keeps part (get (S := S)).
Proof. by intros s. Qed.

Lemma keeps_lift {A} (c : Completion A) : keeps part (lift (S := S) c).
Proof. by intros s. Qed.

Lemma keeps_modify (f : S -> S) :
  (forall s, part (f s) = part s) -> keeps part (modify f).
Proof. intros H s. apply H. Qed.

Lemma keeps_bind {A B} (m : StateM S A) (f : A -> StateM S B) :
  keeps part m -> (forall a, keeps part (f a)) -> keeps part (m ≫= f).
Proof.
  intros Hm Hf s. unfold mbind, StateM_bind.
  specialize (Hm s). destruct (m s) as [s1 [a|e]]; cbn in *; [|done].
  by rewrite Hf.
Qed.

Lemma keeps_try_catch {A} (m : StateM S A) (handler : JsError -> StateM S A) :
  keeps part m -> (forall e, keeps part (handler e)) -> keeps part (try_catch m handler).
Proof.
  intros Hm Hh s. unfold try_catch.
  specialize (Hm s). destruct (m s) as [s1 [a|e]]; cbn in *; [done|].
  by rewrite Hh.
Qed.

Lemma keeps_forM {B} (l : list B) (body : B -> StateM S unit) :
  (forall b, keeps part (body b)) -> keeps part (forM l body).
Proof.
  intros Hb. induction l as [|b l IH]; cbn [forM]; [apply keeps_ret|].
  apply keeps_bind; [apply Hb|]. intros _. apply IH.
Qed.

Lemma ends_bind {A B} x (m : StateM S A) (f : A -> StateM S B) :
  keeps part m -> (forall a, ends part x (f a)) -> ends part x (m ≫= f).
Proof.
  intros Hm Hf s. unfold mbind, StateM_bind.
  specialize (Hm s). destruct (m s) as [s1 [a|e]]; cbn in *; [|done].
  specialize (Hf a s1). destruct (f a s1) as [s2 [b|e]]; cbn in *; congruence.
Qed.

Lemma ends_modify x (f : S -> S) :
  (forall s, part (f s) = x) -> ends part x (modify f).
Proof. intros H s. apply H. Qed.

End FrameFacts.

Section SocketFacts.
Import Redis Simulator Frame.

Context {Forms Nodes : Type}.
Variable max_arguments : N.
Variable JSON_parse : string -> Completion Json.
Variable parseFloat : string -> float.
Variable parseOpenCvMat : list byte -> Completion (list float * Camera.Dim).
Variable formExists : string -> Forms -> Completion bool.
Variable getValue : string -> Forms -> Completion Val.
Variable getKeys : Forms -> list string.
Variable updateForm : string -> option Val -> Forms -> Forms * Completion unit.
Variable deleteForm : string -> Forms -> Forms * Completion unit.
Variable create_node : Kind -> Json -> Nodes -> Nodes * Completion nat.
Variable update_node : Handler -> nat -> Val -> Nodes -> Nodes * Completion bool.

Abbreviation State := (@Simulator.State Forms Nodes).
Abbreviation busy := (handlingMessage (Forms := Forms) (Nodes := Nodes)).
Abbreviation registerRedisUpdateCallback :=
  (Simulator.registerRedisUpdateCallback parseFloat parseOpenCvMat formExists getValue
     update_node).
Abbreviation handleMessage :=
  (Simulator.handleMessage max_arguments JSON_parse parseFloat parseOpenCvMat formExists
     getValue getKeys updateForm deleteForm create_node update_node).
Abbreviation onmessage :=
  (Simulator.onmessage max_arguments JSON_parse parseFloat parseOpenCvMat formExists
     getValue getKeys updateForm deleteForm create_node update_node).

Lemma render_busy : keeps busy (render (Forms := Forms) (Nodes := Nodes)).
Proof. by intros st. Qed.

Lemma reading_busy {A} (f : Forms -> Completion A) :
  keeps busy (reading (Nodes := Nodes) f).
Proof. by intros st. Qed.

Lemma writing_busy (f : Forms -> Forms * Completion unit) :
  keeps busy (writing (Nodes := Nodes) f).
Proof. intros st. unfold writing. by destruct (f (forms st)). Qed.

Lemma call_busy cb val :
  keeps busy (Simulator.call parseFloat parseOpenCvMat update_node cb val).
Proof.
  intros st. unfold Simulator.call.
  destruct (handler cb);
    repeat match goal with
    | |- context [let '(_, _) := ?x in _] => destruct x
    end; reflexivity.
Qed.

Lemma invoke_busy key keyComponent cb val :
  keeps busy (Simulator.invoke parseFloat parseOpenCvMat update_node key keyComponent cb val).
Proof.
  intros st. unfold Simulator.invoke.
  pose proof (call_busy cb val st) as H.
  by destruct (Simulator.call _ _ _ cb val st).
Qed.

Lemma store_callback_busy key keyComponent cb entry :
  keeps busy (store_callback (Forms := Forms) (Nodes := Nodes) key keyComponent cb entry).
Proof.
  unfold store_callback. destruct (String.eqb _ _); [apply keeps_lift|].
  by apply keeps_modify.
Qed.

Lemma register_busy key keyComponent cb :
  keeps busy (registerRedisUpdateCallback key keyComponent cb).
Proof.
  unfold Simulator.registerRedisUpdateCallback.
  destruct (bool_decide _); [apply keeps_ret|].
  apply keeps_bind; [apply keeps_get|]. intros st.
  apply keeps_bind.
  { destruct (JsObj.in_ _ _); [apply keeps_ret|by apply keeps_modify]. }
  intros _. apply keeps_bind; [apply keeps_get|]. intros st1.
  apply keeps_bind.
  { destruct (JsObj.get _ _); [apply store_callback_busy|by apply keeps_modify]. }
  intros _. apply keeps_bind; [apply reading_busy|]. intros [|]; [|apply keeps_ret].
  apply keeps_bind; [apply reading_busy|]. intros val.
  apply keeps_bind; [apply invoke_busy|]. intros _. apply keeps_ret.
Qed.

Lemma unregister_busy keyComponent :
  keeps busy (unregisterRedisUpdateCallback (Forms := Forms) (Nodes := Nodes) keyComponent).
Proof.
  unfold unregisterRedisUpdateCallback.
  apply keeps_bind; [apply keeps_get|]. intros st.
  apply keeps_bind; [apply keeps_lift|]. intros callbacks. by apply keeps_modify.
Qed.

Lemma store_component_busy kind key component :
  keeps busy (store_component (Forms := Forms) (Nodes := Nodes) kind key component).
Proof.
  unfold store_component. destruct (String.eqb _ _); apply keeps_modify; intros st;
    [done|by destruct kind].
Qed.

Lemma addComponentToScene_busy kind key model :
  keeps busy (Simulator.addComponentToScene (Forms := Forms) create_node kind key model).
Proof.
  unfold Simulator.addComponentToScene.
  apply keeps_bind.
  { intros st. unfold create. destruct kind.
    1-3: by destruct (create_node _ model (nodes st)).
    by destruct (Camera.new_camera (world st)). }
  intros component.
  apply keeps_bind; [apply keeps_modify; intros st; by destruct (loads_later kind)|].
  intros _. apply keeps_bind.
  { apply keeps_modify. intros st.
    destruct (JsObj.get key _); [|done]. by destruct kind. }
  intros _. apply keeps_bind; [apply store_component_busy|].
  intros _. apply keeps_bind; [by apply keeps_modify|].
  intros _. apply keeps_bind; [apply render_busy|]. intros _. apply keeps_ret.
Qed.

Ltac model_busy :=
  apply keeps_bind; [apply keeps_get|]; intros st;
  destruct (negb _); [apply keeps_ret|];
  apply keeps_bind; [apply keeps_lift|]; intros model;
  apply keeps_bind; [apply addComponentToScene_busy|]; intros component;
  repeat first
    [ apply keeps_ret
    | apply register_busy
    | apply keeps_bind; [|intros _]
    | match goal with |- keeps _ (if ?b then _ else _) => destruct b end ].

Lemma parseRobotModel_busy key val :
  keeps busy
    (parseRobotModel JSON_parse parseFloat parseOpenCvMat formExists getValue
       create_node update_node key val).
Proof. unfold parseRobotModel. model_busy. Qed.

Lemma parseObjectModel_busy key val :
  keeps busy
    (parseObjectModel JSON_parse parseFloat parseOpenCvMat formExists getValue
       create_node update_node key val).
Proof. unfold parseObjectModel. model_busy. Qed.

Lemma parseTrajectoryModel_busy key val :
  keeps busy
    (parseTrajectoryModel JSON_parse parseFloat parseOpenCvMat formExists getValue
       create_node update_node key val).
Proof. unfold parseTrajectoryModel. model_busy. Qed.

Lemma parseCameraModel_busy key val :
  keeps busy
    (parseCameraModel JSON_parse parseFloat parseOpenCvMat formExists getValue
       create_node update_node key val).
Proof. unfold parseCameraModel. model_busy. Qed.

Lemma loadExisting_busy json key :
  keeps busy
    (loadExisting JSON_parse parseFloat parseOpenCvMat formExists getValue
       create_node update_node json key).
Proof.
  unfold loadExisting.
  repeat match goal with |- keeps _ (if ?b then _ else _) => destruct b end;
    try apply keeps_ret;
    (apply keeps_bind; [apply reading_busy|]; intros val;
     apply keeps_bind; [|intros _; apply keeps_ret]).
  - apply parseCameraModel_busy.
  - apply parseObjectModel_busy.
  - apply parseRobotModel_busy.
  - apply parseTrajectoryModel_busy.
Qed.

Lemma store_args_busy namespace json :
  keeps busy (store_args (Forms := Forms) (Nodes := Nodes) namespace json).
Proof. unfold store_args. by destruct (String.eqb _ _); apply keeps_modify. Qed.

Lemma parseArgs_busy keyVals :
  keeps busy
    (parseArgs JSON_parse parseFloat parseOpenCvMat formExists getValue getKeys
       create_node update_node keyVals).
Proof.
  unfold parseArgs. apply keeps_forM. intros [key val].
  destruct (args_namespace key); [|apply keeps_ret].
  destruct (JSON_parse _); [|apply keeps_ret].
  apply keeps_bind; [apply store_args_busy|]. intros _.
  apply keeps_bind; [apply keeps_get|]. intros st.
  apply keeps_forM. intros key'. apply loadExisting_busy.
Qed.

Lemma parseModels_busy keyVals :
  keeps busy
    (parseModels JSON_parse parseFloat parseOpenCvMat formExists getValue updateForm
       create_node update_node keyVals).
Proof.
  induction keyVals as [|[key [val|b]] rest IH]; cbn [parseModels];
    [apply keeps_ret| |exact IH].
  apply keeps_bind.
  - apply keeps_try_catch; [|intros _; apply keeps_ret].
    apply keeps_bind; [apply parseCameraModel_busy|]. intros [|]; [apply keeps_ret|].
    apply keeps_bind; [apply parseObjectModel_busy|]. intros [|]; [apply keeps_ret|].
    apply keeps_bind; [apply parseRobotModel_busy|]. intros [|]; [apply keeps_ret|].
    apply keeps_bind; [apply parseTrajectoryModel_busy|]. intros ?. apply keeps_ret.
  - intros [[|]|]; [|exact IH|apply keeps_ret].
    apply keeps_bind; [apply writing_busy|]. intros _. exact IH.
Qed.

Lemma dispatch_busy key val entry :
  forall renderFrame,
    keeps busy
      (dispatch parseFloat parseOpenCvMat update_node key val entry renderFrame).
Proof.
  induction entry as [|[keyComponent cb] entry IH]; intros renderFrame; cbn [dispatch];
    [apply keeps_ret|].
  apply keeps_bind; [apply invoke_busy|]. intros result. apply IH.
Qed.

Lemma updateKeys_busy keyVals :
  forall renderFrame,
    keeps busy
      (updateKeys parseFloat parseOpenCvMat updateForm update_node keyVals renderFrame).
Proof.
  induction keyVals as [|[key val] rest IH]; intros renderFrame; cbn [updateKeys];
    [apply keeps_ret|].
  apply keeps_bind; [apply keeps_get|]. intros st.
  apply keeps_bind.
  - destruct (JsObj.in_ key _); [apply dispatch_busy|apply keeps_ret].
  - intros rf. apply keeps_bind; [apply writing_busy|]. intros _. apply IH.
Qed.

Lemma remove_busy kind key :
  keeps busy (remove (Forms := Forms) (Nodes := Nodes) kind key).
Proof.
  unfold remove. apply keeps_bind; [|intros _; apply unregister_busy].
  apply keeps_modify. intros st. destruct (JsObj.get key _); [|done]. by destruct kind.
Qed.

Lemma deleteKeys_busy keys :
  forall renderFrame,
    keeps busy (deleteKeys (Nodes := Nodes) deleteForm keys renderFrame).
Proof.
  induction keys as [|k keys IH]; intros renderFrame; cbn [deleteKeys];
    [apply keeps_ret|].
  apply keeps_bind; [apply keeps_get|]. intros st.
  apply keeps_bind.
  - destruct (JsObj.in_ _ (robots st)).
    { apply keeps_bind; [apply remove_busy|]. intros _. apply keeps_ret. }
    destruct (JsObj.in_ _ (objects st)); [|apply keeps_ret].
    apply keeps_bind; [apply remove_busy|]. intros _. apply keeps_ret.
  - intros rf. apply keeps_bind; [apply writing_busy|]. intros _. apply IH.
Qed.

Lemma handleMessage_ends buffer : ends busy false (handleMessage buffer).
Proof.
  unfold Simulator.handleMessage.
  apply ends_bind; [apply keeps_lift|]. intros keys.
  apply ends_bind; [apply parseArgs_busy|]. intros _.
  apply ends_bind; [apply parseModels_busy|]. intros _.
  apply ends_bind; [apply updateKeys_busy|]. intros renderFrame.
  apply ends_bind; [apply deleteKeys_busy|]. intros deleted.
  apply ends_bind; [|intros _; by apply ends_modify].
  destruct (deleted || renderFrame); [apply render_busy|apply keeps_ret].
Qed.

(** The flag [handlingMessage] is cleared by the last statement of
    [handleMessage] and by nothing else: a message that is processed to
    its end leaves the socket open, and a message on which
    [handleMessage] throws - bytes that do not decode, a callback or a
    model parser outside the [try] that raises - leaves the flag set, so
    that [ws.onmessage] drops every message that follows. *)
Theorem throwing_message_blocks_socket (buffer : list byte) (st : State) :
  handlingMessage st = false ->
  let st' := fst (onmessage buffer st) in
  match snd (onmessage buffer st) with
  | Normal _ => handlingMessage st' = false
  | Throw _ =>
      handlingMessage st' = true
      /\ forall next, onmessage next st' = (st', Normal tt)
  end.
Proof.
  intros Hopen st'.
  assert (Hrun : onmessage buffer st = handleMessage buffer (with_handlingMessage st true)).
  { unfold Simulator.onmessage, mbind, StateM_bind. cbn [get modify]. by rewrite Hopen. }
  subst st'. rewrite Hrun.
  pose proof (handleMessage_ends buffer (with_handlingMessage st true)) as Hend.
  destruct (handleMessage buffer (with_handlingMessage st true)) as [st' [[]|e]];
    cbn [fst snd] in *; [done|].
  split; [done|]. intros next.
  unfold Simulator.onmessage, mbind, StateM_bind. cbn [get]. by rewrite Hend.
Qed.

End SocketFacts.

Section ObjectFacts.
Context {V : Type}.
Implicit Types (o : JsObj.t V) (k : string) (v : V).

Lemma get_app k o1 o2 :
  JsObj.get k (o1 ++ o2)
  = match JsObj.get k o1 with Some v => Some v | None => JsObj.get k o2 end.
Proof.
  induction o1 as [|[k' v'] o1 IH]; cbn; [done|].
  by destruct (String.eqb k k').
Qed.

Lemma get_replace k k' v o :
  JsObj.get k' (JsObj.replace k v o)
  = if String.eqb k' k then (if JsObj.has k o then Some v else None)
    else JsObj.get k' o.
Proof.
  unfold JsObj.has. induction o as [|[k1 v1] o IH]; cbn.
  - by destruct (String.eqb k' k).
  - destruct (String.eqb_spec k k1) as [->|Hne]; cbn.
    + by destruct (String.eqb_spec k' k1).
    + destruct (String.eqb_spec k' k1) as [->|Hne'].
      * destruct (String.eqb_spec k1 k); [congruence|done].
      * exact IH.
Qed.

Lemma get_insert_index i k k' v o :
  JsObj.has k o = false ->
  JsObj.get k' (JsObj.insert_index i k v o)
  = if String.eqb k' k then Some v else JsObj.get k' o.
Proof.
  unfold JsObj.has. induction o as [|[k1 v1] o IH]; intros Hk; cbn in *.
  - by destruct (String.eqb k' k).
  - destruct (String.eqb_spec k k1) as [->|Hne]; [done|].
    destruct (JsObj.array_index k1) as [j|]; [destruct (N.ltb j i)|]; cbn.
    + destruct (String.eqb_spec k' k1) as [->|].
      * destruct (String.eqb_spec k1 k); [congruence|done].
      * by apply IH.
    + by destruct (String.eqb k' k).
    + by destruct (String.eqb k' k).
Qed.

(** Reading after writing: the key written has the value written, every
    other key has what it had. *)
Lemma get_set k k' v o :
  k <> "__proto__"%string ->
  JsObj.get k' (JsObj.set k v o)
  = if String.eqb k' k then Some v else JsObj.get k' o.
Proof.
  intros Hp. unfold JsObj.set.
  destruct (String.eqb_spec k "__proto__"); [done|].
  destruct (JsObj.has k o) eqn:Hk.
  - rewrite get_replace, Hk. done.
  - destruct (JsObj.array_index k) as [i|].
    + by apply get_insert_index.
    + rewrite get_app. cbn.
      destruct (String.eqb_spec k' k) as [->|].
      * unfold JsObj.has in Hk. by destruct (JsObj.get k o).
      * by destruct (JsObj.get k' o).
Qed.

End ObjectFacts.

Section DecoderFacts.
Import Redis Wire.
Local Open Scope N_scope.

Variable max_arguments : N.

Abbreviation parsePayload := (Redis.parsePayload max_arguments).
Abbreviation parseDeletes := (Redis.parseDeletes max_arguments).
Abbreviation parseMessage := (Redis.parseMessage max_arguments).

(** The decoder on a well-formed message with anything behind it. *)
Lemma parseMessage_encode_app m rest :
  well_formed m -> texts_fit max_arguments m ->
  parseMessage (encode m ++ rest)
  = Normal {| toUpdate := fold_left store_update (updates m) JsObj.empty;
              toDelete := map content (deletes m) |}.
Proof.
  intros (Hnu & Hnd & Hu & Hd) (Fu & Fd). unfold Redis.parseMessage.
  pose proof (cursor_start (encode m ++ rest)) as Hc.
  unfold encode at 2 in Hc. rewrite <- !app_assoc in Hc.
  rewrite (getUint32_cursor _ _ _ _ Hnu Hc).
  cbn [mbind Completion_bind]. rewrite Nat2N.id.
  apply cursor_advance in Hc. rewrite byteLength_be_bytes in Hc.
  destruct (parseUpdates_cursor max_arguments _ _ _ JsObj.empty _ Hu Fu Hc)
    as (i1 & E1 & Hc1).
  change (0 + N.of_nat 4) with (0 + 4) in E1. rewrite E1.
  cbn [mbind Completion_bind].
  rewrite (getUint32_cursor _ _ _ _ Hnd Hc1).
  cbn [mbind Completion_bind]. rewrite Nat2N.id.
  apply cursor_advance in Hc1. rewrite byteLength_be_bytes in Hc1.
  destruct (parseDeletes_cursor max_arguments _ _ _ [] _ Hd Fd Hc1) as (i2 & E2 & Hc2).
  change (i1 + N.of_nat 4) with (i1 + 4) in E2. rewrite E2.
  reflexivity.
Qed.

(** [parseMessage] stops after the last delete key: what follows it in
    the buffer is neither read nor rejected. This is for a message no
    text of which is longer than the arguments a call takes; a longer
    text raises [RangeError] where it is turned into a string. *)
Theorem trailing_bytes_are_ignored (m : Message) (rest : list byte) :
  well_formed m -> texts_fit max_arguments m ->
  parseMessage (encode m ++ rest) = parseMessage (encode m)
  /\ throws (parseMessage (encode m ++ rest)) = false.
Proof.
  intros Hwf Hfit. rewrite <- (app_nil_r (encode m)) at 2.
  rewrite !parseMessage_encode_app by done. done.
Qed.

Lemma get_stored k l :
  k <> "__proto__"%string ->
  forall o,
    JsObj.get k (fold_left store_update l o)
    = match JsObj.get k (reverse (pairs_of {| updates := l; deletes := [] |})) with
      | Some v => Some v
      | None => JsObj.get k o
      end.
Proof.
  intros Hk. unfold pairs_of. cbn [updates].
  induction l as [|[p q] l IH]; intros o; cbn [fold_left map]; [done|].
  rewrite IH, reverse_cons, get_app. cbn [fst snd].
  destruct (JsObj.get k (reverse _)); [done|].
  unfold store_update. cbn [fst snd JsObj.get].
  destruct (String.eqb_spec (toPropertyKey (content p)) "__proto__") as [Hp|Hp].
  - unfold JsObj.set. rewrite Hp. cbn.
    destruct (String.eqb_spec k "__proto__"); [done|done].
  - rewrite get_set by done. by destruct (String.eqb k _).
Qed.

(** When a message updates a key more than once, the decoded object has
    the value of the last of these updates for it; a key the message does
    not update is no property of the object. This is for a message no
    text of which is longer than the arguments a call takes, and for
    every key but [__proto__]. *)
Theorem decoded_value_is_last (m : Message) (k : string) :
  well_formed m -> texts_fit max_arguments m -> k <> "__proto__"%string ->
  exists batch,
    parseMessage (encode m) = Normal batch
    /\ JsObj.get k (toUpdate batch) = JsObj.get k (reverse (pairs_of m)).
Proof.
  intros Hwf Hfit Hk. eexists. split; [by apply parseMessage_encode|].
  cbn [toUpdate]. rewrite get_stored by done. cbn [JsObj.get JsObj.empty].
  unfold pairs_of. cbn [updates]. by destruct (JsObj.get k _).
Qed.

(** A payload whose type is neither 1 nor 2: [parsePayload] reads the
    header and falls off its end. *)
Lemma parsePayload_unknown buffer idx tag t n rest :
  N.land (Byte.to_N tag) 127 <> 1 -> N.land (Byte.to_N tag) 127 <> 2 ->
  tier_fits t n ->
  at_cursor buffer idx ([tag] ++ encode_length t n ++ rest) ->
  parsePayload buffer idx = Normal None.
Proof.
  intros H1 H2 Hfit Hc. unfold Redis.parsePayload.
  rewrite (getUint8_cursor buffer idx tag _ Hc). cbn [mbind Completion_bind].
  apply cursor_advance in Hc. change (byteLength [_]) with 1 in Hc.
  destruct (parse_length_cursor _ _ _ _ _ Hfit Hc) as (idx1 & Hlen & _).
  rewrite Hlen.
  destruct (N.eqb_spec (N.land (Byte.to_N tag) 127) 1); [done|].
  by destruct (N.eqb_spec (N.land (Byte.to_N tag) 127) 2).
Qed.

Lemma parseDeletes_unknown buffer ds :
  forall idx acc more tag t n rest,
    Forall payload_ok ds -> Forall (text_fits max_arguments) ds ->
    N.land (Byte.to_N tag) 127 <> 1 -> N.land (Byte.to_N tag) 127 <> 2 ->
    tier_fits t n ->
    at_cursor buffer idx
      (concat (map encode_payload ds) ++ [tag] ++ encode_length t n ++ rest) ->
    parseDeletes buffer (length ds + S more) idx acc = Throw TypeError.
Proof.
  induction ds as [|d ds IH]; intros idx acc more tag t n rest Hok Hfits H1 H2 Hfit Hc.
  - cbn [length Nat.add Redis.parseDeletes]. cbn [map concat app] in Hc.
    by rewrite (parsePayload_unknown _ _ _ _ _ _ H1 H2 Hfit Hc).
  - inversion Hok as [|? ? Hd Hds]; subst. inversion Hfits as [|? ? Fd Fds]; subst.
    cbn [length Nat.add Redis.parseDeletes]. cbn [map concat] in Hc.
    rewrite <- app_assoc in Hc.
    destruct (parsePayload_cursor max_arguments _ _ _ _ Hd Fd Hc) as (i1 & E1 & Hc1).
    rewrite E1. cbn [mbind Completion_bind elements].
    by apply (IH i1 _ more tag t n rest).
Qed.

(** A delete key with a type other than 1 and 2 is not skipped: the
    message as a whole fails with [TypeError], whatever follows that key
    and whatever well-formed pairs and keys come before it, so long as
    no text before it is longer than the arguments a call takes: such a
    text raises [RangeError] before the key is reached. *)
Theorem unknown_type_raises_TypeError
    (m : Message) (more : nat) (tag : byte) (t : LengthTier) (n : N) (rest : list byte) :
  well_formed m -> texts_fit max_arguments m ->
  N.of_nat (length (deletes m) + S more) < 2 ^ 32 ->
  N.land (Byte.to_N tag) 127 <> 1 -> N.land (Byte.to_N tag) 127 <> 2 ->
  tier_fits t n ->
  parseMessage
    (be_bytes 4 (N.of_nat (length (updates m)))
       ++ concat (map encode_update (updates m))
       ++ be_bytes 4 (N.of_nat (length (deletes m) + S more))
       ++ concat (map encode_payload (deletes m))
       ++ [tag] ++ encode_length t n ++ rest)
  = Throw TypeError.
Proof.
  intros (Hnu & _ & Hu & Hd) (Fu & Fd) Hcount H1 H2 Hfit. unfold Redis.parseMessage.
  match goal with |- context [getUint32 ?b 0] => pose proof (cursor_start b) as Hc end.
  rewrite (getUint32_cursor _ _ _ _ Hnu Hc).
  cbn [mbind Completion_bind]. rewrite Nat2N.id.
  apply cursor_advance in Hc. rewrite byteLength_be_bytes in Hc.
  destruct (parseUpdates_cursor max_arguments _ _ _ JsObj.empty _ Hu Fu Hc)
    as (i1 & E1 & Hc1).
  change (0 + N.of_nat 4) with (0 + 4) in E1. rewrite E1.
  cbn [mbind Completion_bind].
  rewrite (getUint32_cursor _ _ _ _ Hcount Hc1).
  cbn [mbind Completion_bind]. rewrite Nat2N.id.
  apply cursor_advance in Hc1. rewrite byteLength_be_bytes in Hc1.
  change (i1 + N.of_nat 4) with (i1 + 4) in Hc1.
  by rewrite (parseDeletes_unknown _ _ _ [] more tag t n rest Hd Fd H1 H2 Hfit Hc1).
Qed.

End DecoderFacts.

Section TextFacts.
Import Redis Sidebar.
Local Open Scope string_scope.

Implicit Types (s r cur e post : string) (c sep : ascii) (p q : ascii -> bool).

Local Abbreviation nonspace := (fun c => negb (is_space c)).
Local Abbreviation other k := (fun c => negb (Ascii.eqb c k)).
Local Abbreviation tail_of sep l := (fold_right (fun s acc => sep ++ s ++ acc) "" l).

Lemma append_cons c s r : String c s ++ r = String c (s ++ r).
Proof. reflexivity. Qed.

Lemma append_assoc s1 s2 s3 : (s1 ++ s2) ++ s3 = s1 ++ (s2 ++ s3).
Proof. induction s1 as [|c s1 IH]; [done|]. rewrite !append_cons. by f_equal. Qed.

Lemma append_empty_r s : s ++ "" = s.
Proof. induction s as [|c s IH]; [done|]. rewrite append_cons. by f_equal. Qed.

Lemma rev_string_app s1 s2 acc :
  rev_string (s1 ++ s2) acc = rev_string s2 (rev_string s1 acc).
Proof.
  revert acc. induction s1 as [|c s1 IH]; intros acc; [done|].
  rewrite append_cons. simpl. apply IH.
Qed.

Lemma rev_string_acc s acc : rev_string s acc = rev_string s "" ++ acc.
Proof.
  revert acc. induction s as [|c s IH]; intros acc; simpl; [done|].
  rewrite IH, (IH (String c "")), append_assoc. done.
Qed.

Lemma rev_string_involutive s : rev_string (rev_string s "") "" = s.
Proof.
  induction s as [|c s IH]; simpl; [done|].
  rewrite (rev_string_acc s (String c "")), rev_string_app. simpl. by rewrite IH.
Qed.

Lemma all_chars_app p s r : all_chars p (s ++ r) = all_chars p s && all_chars p r.
Proof.
  induction s as [|c s IH]; [done|].
  rewrite append_cons. simpl. by rewrite IH, andb_assoc.
Qed.

Lemma all_chars_rev p s acc :
  all_chars p (rev_string s acc) = all_chars p s && all_chars p acc.
Proof.
  revert acc. induction s as [|c s IH]; intros acc; simpl; [done|].
  rewrite IH. simpl. by destruct (p c), (all_chars p s).
Qed.

Lemma all_chars_impl p q s :
  (forall c, p c = true -> q c = true) ->
  all_chars p s = true -> all_chars q s = true.
Proof.
  intros Hpq. induction s as [|c s IH]; simpl; [done|].
  intros [Hc Hs]%andb_true_iff. by rewrite (Hpq c Hc), IH.
Qed.

(** *** [trim] *)

Lemma trimStart_solid s : solid s = true -> trimStart s = s.
Proof. destruct s as [|c s]; [done|]. simpl. by intros ->%negb_true_iff. Qed.

Lemma solid_app s r : solid s = true -> solid (s ++ r) = true.
Proof. by destruct s. Qed.

Lemma solid_chars s : s <> "" -> all_chars nonspace s = true -> solid s = true.
Proof. destruct s as [|c s]; [done|]. simpl. by intros _ [? _]%andb_true_iff. Qed.

Lemma rev_string_empty s acc : rev_string s acc = "" -> s = "" /\ acc = "".
Proof.
  revert acc. induction s as [|c s IH]; intros acc; simpl; [done|].
  intros H. by destruct (IH _ H) as [_ ?].
Qed.

Lemma trim_solid s :
  solid s = true -> solid (rev_string s "") = true -> trim s = s.
Proof.
  intros Hs Hr. unfold trim.
  by rewrite (trimStart_solid s), (trimStart_solid _ Hr), rev_string_involutive.
Qed.

Lemma trim_blank s : trim (String " " s) = trim s.
Proof. reflexivity. Qed.

(** *** [join] *)

Lemma fold_join sep_s l s :
  fold_left (fun acc s' => acc ++ sep_s ++ s') l s = s ++ tail_of sep_s l.
Proof.
  revert s. induction l as [|y l IH]; intros s; simpl.
  - by rewrite append_empty_r.
  - by rewrite IH, !append_assoc.
Qed.

Lemma join_tail sep_s x l :
  Simulator.join sep_s (x :: l) = x ++ tail_of sep_s l.
Proof. apply fold_join. Qed.

Lemma join_snoc sep_s l e :
  l <> [] -> Simulator.join sep_s (l ++ [e]) = Simulator.join sep_s l ++ sep_s ++ e.
Proof.
  destruct l as [|x l]; [done|]. intros _. unfold Simulator.join.
  rewrite <- app_comm_cons. by rewrite fold_left_app.
Qed.

Lemma join_solid sep_s l :
  l <> [] -> Forall (fun e => solid e = true) l ->
  solid (Simulator.join sep_s l) = true.
Proof.
  destruct l as [|x l]; [done|]. intros _ Hl.
  rewrite join_tail. apply solid_app. by inversion Hl.
Qed.

Lemma join_rev_solid sep_s l :
  l <> [] -> Forall (fun e => solid (rev_string e "") = true) l ->
  solid (rev_string (Simulator.join sep_s l) "") = true.
Proof.
  induction l as [|e l _] using rev_ind; [done|]. intros _ Hl.
  apply Forall_app in Hl as [_ He]. inversion He as [|? ? He' _]; subst.
  destruct l as [|x l]; [done|].
  rewrite join_snoc by done.
  rewrite !rev_string_app, rev_string_acc. by apply solid_app.
Qed.

Lemma tail_chars p sep_s l :
  all_chars p sep_s = true -> Forall (fun e => all_chars p e = true) l ->
  all_chars p (tail_of sep_s l) = true.
Proof.
  intros Hsep. induction 1 as [|y l Hy _ IH]; simpl; [done|].
  by rewrite !all_chars_app, Hsep, Hy, IH.
Qed.

Lemma join_chars p sep_s l :
  all_chars p sep_s = true -> Forall (fun e => all_chars p e = true) l ->
  all_chars p (Simulator.join sep_s l) = true.
Proof.
  intros Hsep Hl. destruct l as [|x l]; [done|]. inversion Hl; subst.
  rewrite join_tail, all_chars_app, tail_chars by done. by rewrite andb_true_r.
Qed.

(** *** [split] *)

(** The parts of [s] between separators, when [s] is one part. *)
Lemma split_from_part sep s cur :
  all_chars (other sep) s = true ->
  split_from sep s cur = [(rev_string cur "" ++ s)%string]%list.
Proof.
  revert cur. induction s as [|c s IH]; intros cur Hs; simpl in *.
  - by rewrite append_empty_r.
  - apply andb_true_iff in Hs as [Hc Hs]. apply negb_true_iff in Hc. rewrite Hc.
    rewrite IH by done. simpl. rewrite rev_string_acc, append_assoc. done.
Qed.

Lemma split_from_first sep s rest cur :
  all_chars (other sep) s = true ->
  split_from sep (s ++ String sep rest) cur
  = ((rev_string cur "" ++ s)%string :: split_from sep rest "")%list.
Proof.
  revert cur. induction s as [|c s IH]; intros cur Hs.
  - simpl. rewrite Ascii.eqb_refl. by rewrite append_empty_r.
  - simpl in Hs. apply andb_true_iff in Hs as [Hc Hs]. apply negb_true_iff in Hc.
    rewrite append_cons. simpl. rewrite Hc.
    rewrite IH by done. simpl. rewrite rev_string_acc, append_assoc. done.
Qed.

(** Splitting at [sep] what was joined with a separator that starts
    with [sep]: the rest of the separator stays in front of every part
    but the first. *)
Lemma split_join sep post x l :
  all_chars (other sep) post = true ->
  all_chars (other sep) x = true ->
  Forall (fun e => all_chars (other sep) e = true) l ->
  split sep (x ++ tail_of (String sep post) l) = (x :: map (fun e => (post ++ e)%string) l)%list.
Proof.
  intros Hpost Hx Hl. revert x Hx. unfold split.
  induction Hl as [|y l Hy _ IH]; intros x Hx; simpl.
  - by rewrite append_empty_r, split_from_part.
  - rewrite append_cons, split_from_first by done. simpl. f_equal.
    rewrite <- append_assoc. apply IH. by rewrite all_chars_app, Hpost, Hy.
Qed.

(** *** Rows and matrices *)

Lemma forallb_Forall {A} (f : A -> bool) (l : list A) :
  forallb f l = true -> Forall (fun x => f x = true) l.
Proof.
  induction l as [|x l IH]; simpl; [constructor|].
  intros [? ?]%andb_true_iff. constructor; auto.
Qed.

Lemma plain_inv e :
  plain e = true ->
  e <> "" /\ all_chars nonspace e = true
  /\ all_chars (other ";"%char) e = true /\ all_chars (other " "%char) e = true.
Proof.
  unfold plain. intros [Hne Hall]%andb_true_iff.
  apply negb_true_iff, String.eqb_neq in Hne. split; [done|].
  split; [|split]; revert Hall; apply all_chars_impl; intros c [Hs Hc]%andb_true_iff.
  - done.
  - done.
  - destruct (Ascii.eqb_spec c " "%char) as [->|]; [done|done].
Qed.

Lemma row_text row :
  row <> [] -> Forall (fun e => plain e = true) row ->
  let text := Simulator.join " " row in
  split " " (trim text) = row
  /\ solid text = true /\ solid (rev_string text "") = true
  /\ all_chars (other ";"%char) text = true.
Proof.
  intros Hne Hrow text.
  assert (Hsolid : solid text = true).
  { apply join_solid; [done|]. eapply Forall_impl; [exact Hrow|].
    intros e (? & ? & _)%plain_inv. by apply solid_chars. }
  assert (Hrev : solid (rev_string text "") = true).
  { apply join_rev_solid; [done|]. eapply Forall_impl; [exact Hrow|].
    intros e (He & Hs & _)%plain_inv. apply solid_chars.
    - intros [? _]%rev_string_empty. done.
    - by rewrite all_chars_rev, Hs. }
  split; [|split; [done|split; [done|]]].
  - rewrite trim_solid by done. subst text.
    destruct row as [|x row]; [done|]. inversion Hrow as [|? ? Hx Hrest]; subst.
    rewrite join_tail, (split_join " " "" x row).
    + f_equal. apply map_id.
    + done.
    + by apply plain_inv in Hx as (_ & _ & _ & ?).
    + eapply Forall_impl; [exact Hrest|]. by intros e (_ & _ & _ & ?)%plain_inv.
  - apply join_chars; [done|]. eapply Forall_impl; [exact Hrow|].
    by intros e (_ & _ & ? & _)%plain_inv.
Qed.

(** The text [matrixToString] writes for a matrix is read back by
    [stringToMatrix] as the same matrix, when the matrix has a row, every
    row has an element, and every element is free of white space and
    semicolons and not empty. *)
Theorem matrix_text_round_trip (rows : list (list string)) :
  printable rows = true ->
  exists text, matrixToString (VMatrix rows) = Normal text
               /\ stringToMatrix text = rows.
Proof.
  intros [Hne Hrows]%andb_true_iff. eexists; split; [reflexivity|].
  apply forallb_Forall in Hrows.
  assert (Hfacts : Forall (fun row => row <> [] /\ Forall (fun e => plain e = true) row) rows).
  { eapply Forall_impl; [exact Hrows|]. intros row [Hr He]%andb_true_iff.
    split; [|by apply forallb_Forall].
    apply negb_true_iff, bool_decide_eq_false in Hr. done. }
  clear Hrows. destruct rows as [|row rows]; [done|]. clear Hne.
  assert (Htexts : Forall (fun text => solid text = true /\ solid (rev_string text "") = true
                                       /\ all_chars (other ";"%char) text = true)
                          (map (Simulator.join " ") (row :: rows))).
  { apply Forall_map. eapply Forall_impl; [exact Hfacts|].
    intros r [Hr He]. by destruct (row_text r Hr He) as (_ & ? & ? & ?). }
  unfold stringToMatrix. rewrite trim_solid.
  - rewrite map_cons, join_tail, (split_join ";" " ").
    + inversion Hfacts as [|? ? [Hr He] Hrest]; subst. rewrite map_cons. f_equal.
      * by destruct (row_text row Hr He) as (? & _).
      * rewrite !map_map. rewrite <- (map_id rows) at 2. apply map_ext_Forall.
        eapply Forall_impl; [exact Hrest|]. intros r [Hr' He']. cbv beta.
        change (" " ++ Simulator.join " " r) with (String " " (Simulator.join " " r)).
        rewrite trim_blank. by destruct (row_text r Hr' He') as (? & _).
    + done.
    + inversion Htexts as [|? ? (_ & _ & ?) _]; subst. done.
    + inversion Htexts as [|? ? _ Hrest]; subst.
      eapply Forall_impl; [exact Hrest|]. by intros t (_ & _ & ?).
  - apply join_solid; [done|]. eapply Forall_impl; [exact Htexts|]. by intros t (? & _).
  - apply join_rev_solid; [done|]. eapply Forall_impl; [exact Htexts|]. by intros t (_ & ? & _).
Qed.

End TextFacts.

Section FormFacts.
Import Sidebar.

Implicit Types (key k : string) (keys rest : Keys).

Lemma place_shift key keys i : place key keys i = (i + place key keys 0)%nat.
Proof.
  revert i. induction keys as [|k rest IH]; intros i; simpl; [lia|].
  destruct (String.ltb key k); [lia|]. rewrite (IH (S i)), (IH 1%nat). lia.
Qed.

Lemma addForm_cons key k rest :
  addForm key (k :: rest)
  = if String.ltb key k then key :: k :: rest else k :: addForm key rest.
Proof.
  unfold addForm. simpl. destruct (String.ltb key k); [done|].
  rewrite (place_shift key rest 1). cbn [Nat.add length].
  change (S (place key rest 0) <? S (length rest))%nat
    with (place key rest 0 <? length rest)%nat.
  by destruct (place key rest 0 <? length rest)%nat.
Qed.

Lemma ltb_asym (a b : string) : String.ltb a b = true -> String.ltb b a = false.
Proof.
  unfold String.ltb. rewrite (String.compare_antisym b a).
  by destruct (String.compare a b).
Qed.

Lemma addForm_ordered key keys :
  ordered keys = true -> ordered (addForm key keys) = true.
Proof.
  induction keys as [|k rest IH]; [done|]. intros Hord.
  rewrite addForm_cons. destruct (String.ltb key k) eqn:Hk.
  - change (negb (String.ltb k key) && ordered (k :: rest) = true).
    by rewrite (ltb_asym _ _ Hk), Hord.
  - destruct rest as [|k' rest'].
    + change (negb (String.ltb key k) && true = true). by rewrite Hk.
    + change (negb (String.ltb k' k) && ordered (k' :: rest') = true) in Hord.
      apply andb_true_iff in Hord as [Hkk' Hord]. specialize (IH Hord).
      rewrite addForm_cons in IH |- *. destruct (String.ltb key k') eqn:Hk'.
      * change (negb (String.ltb key k) && ordered (key :: k' :: rest') = true).
        by rewrite Hk, IH.
      * change (negb (String.ltb k' k) && ordered (k' :: addForm key rest') = true).
        by rewrite Hkk', IH.
Qed.

Lemma addForm_Permutation key keys : addForm key keys ≡ₚ key :: keys.
Proof.
  induction keys as [|k rest IH]; [done|].
  rewrite addForm_cons. destruct (String.ltb key k); [done|].
  rewrite IH. apply Permutation_swap.
Qed.

(** Forms in alphabetical order stay in alphabetical order when
    [addForm] adds one, and the forms are then the new one and the old
    ones, none lost and none doubled. *)
Theorem addForm_keeps_order key keys :
  ordered keys = true ->
  ordered (addForm key keys) = true /\ addForm key keys ≡ₚ key :: keys.
Proof. intros Hord. split; [by apply addForm_ordered | apply addForm_Permutation]. Qed.

End FormFacts.

Section TrailFacts.
Import Trajectory.

Context {P : Type} (origin : P) (C : nat).
Hypothesis C_pos : 0 < C.

Abbreviation filling := (@Trajectory.filling P origin C).
Abbreviation wrapped := (@Trajectory.wrapped P C).

(** The state while the trail fills again after a [reset]: the slots not
    yet written hold what [base] held. *)
Abbreviation refilling base ps :=
  {| positions := ps ++ drop (length ps) base;
     drawRange1 := (0, length ps);
     drawRange2 := (0, 0);
     idx := length ps;
     len := length ps |}.

Lemma append_refilling (base ps : list P) (p : P) :
  length base = C + 1 -> length ps < C ->
  appendPosition C (refilling base ps) p = Normal (refilling base (ps ++ [p])).
Proof.
  intros Hb Hn. rewrite (appendPosition_step C C_pos).
  2:{ cbn [positions idx]. rewrite length_app, length_drop. lia. }
  cbn [positions idx len drawRange2].
  rewrite (bool_decide_eq_false_2 (C < S (length ps))) by lia.
  rewrite (bool_decide_eq_true_2 (length ps < C)) by lia.
  rewrite length_app. cbn [length]. rewrite !Nat.add_1_r.
  f_equal. f_equal.
  rewrite insert_app_r_alt by lia. rewrite Nat.sub_diag.
  destruct (drop (length ps) base) as [|b rest] eqn:Hd.
  { apply (f_equal length) in Hd. rewrite length_drop in Hd. cbn in Hd. lia. }
  cbn [insert list_insert]. rewrite <- app_assoc. cbn [app]. do 2 f_equal.
  replace (S (length ps)) with (length ps + 1) by lia.
  rewrite <- drop_drop, Hd. done.
Qed.

Lemma appendAll_refilling (traj : t P) (ps : list P) :
  length (positions traj) = C + 1 -> length ps <= C ->
  appendAll C (reset traj) ps = Normal (refilling (positions traj) ps).
Proof.
  intros Hb. induction ps as [|p ps IH] using rev_ind; intros Hn.
  - cbn. unfold reset. by rewrite drop_0.
  - rewrite length_app in Hn. cbn in Hn.
    rewrite appendAll_app, IH by lia. cbn [mbind Completion_bind appendAll].
    rewrite append_refilling by lia. done.
Qed.

Lemma append_refull (base ps : list P) (p : P) :
  length base = C + 1 -> length ps = C ->
  appendPosition C (refilling base ps) p = Normal (wrapped (ps ++ [p]) 1).
Proof.
  intros Hb Hn. rewrite (appendPosition_step C C_pos).
  2:{ cbn [positions idx]. rewrite length_app, length_drop. lia. }
  cbn [positions idx len drawRange2].
  rewrite (bool_decide_eq_true_2 (C < S (length ps))) by lia.
  rewrite (bool_decide_eq_false_2 (length ps < C)) by lia.
  unfold Trajectory.wrapped. rewrite length_app. cbn [length].
  replace (C - 1 + 1) with C by lia. rewrite Hn.
  f_equal. f_equal.
  destruct (drop C base) as [|b rest] eqn:Hd.
  { apply (f_equal length) in Hd. rewrite length_drop in Hd. cbn in Hd. lia. }
  assert (Hrest : rest = []).
  { apply (f_equal length) in Hd. rewrite length_drop in Hd. cbn in Hd.
    apply length_zero_iff_nil. lia. }
  subst rest.
  rewrite insert_app_r_alt by lia. rewrite Hn, Nat.sub_diag. cbn [insert list_insert].
  replace (C + 1 - 1) with (length ps) by lia.
  rewrite drop_app_length.
  replace (C + 1 - C) with 1 by lia.
  destruct ps as [|a ps]; [cbn in Hn; lia|].
  cbn [app insert list_insert drop].
  rewrite drop_0. f_equal.
  rewrite take_ge; [done|]. rewrite length_app. cbn in *. lia.
Qed.

(** The first [C + 1] appends, after [create] and after a [reset]. *)
Lemma appendAll_first_lap (traj : t P) (ps : list P) :
  length (positions traj) = C + 1 -> length ps = C + 1 ->
  appendAll C (reset traj) ps = Normal (wrapped ps 1)
  /\ appendAll C (create origin C) ps = Normal (wrapped ps 1).
Proof.
  intros Hb Hn. destruct ps as [|p ps _] using rev_ind; [cbn in Hn; lia|].
  rewrite length_app in Hn. cbn in Hn.
  rewrite !appendAll_app, appendAll_refilling, (appendAll_filling origin C C_pos) by lia.
  cbn [mbind Completion_bind appendAll].
  rewrite append_refull, (append_full origin C C_pos) by lia. done.
Qed.

Lemma visible_filling (ps : list P) :
  length ps <= C ->
  segment (positions (filling ps)) (drawRange1 (filling ps)) = ps
  /\ segment (positions (filling ps)) (drawRange2 (filling ps)) = [].
Proof.
  intros Hn. unfold segment. cbn [Trajectory.filling positions drawRange1 drawRange2 fst snd].
  split; [|done]. by rewrite drop_0, take_app_length.
Qed.

(** The two lines of the trail, read one after the other, pass through
    the positions in the order of their arrival: while the trail fills,
    the first line is all the positions so far and the second is empty;
    once it has wrapped, the second line holds the older positions, ends
    at the point at which the first begins, and the two together are the
    last [C] positions, oldest first. *)
Theorem trail_is_in_order (ps : list P) :
  exists traj,
    appendAll C (create origin C) ps = Normal traj
    /\ let line1 := segment (positions traj) (drawRange1 traj) in
       let line2 := segment (positions traj) (drawRange2 traj) in
       (length ps <= C -> line1 = ps /\ line2 = [])
       /\ (C < length ps ->
           line2 ++ drop 1 line1 = drop (length ps - C) ps
           /\ last line2 = head line1
           /\ head line1 <> None).
Proof.
  destruct (decide (length ps <= C)) as [Hn|Hn].
  - exists (filling ps). split; [by apply (appendAll_filling origin C C_pos)|].
    cbv zeta. split; [intros _; by apply visible_filling|lia].
  - destruct (appendAll_wrapped origin C C_pos ps) as (i & Hi & Hrun); [lia|].
    exists (wrapped ps i). split; [done|]. cbv zeta. split; [lia|]. intros _.
    unfold segment. cbn [Trajectory.wrapped positions drawRange1 drawRange2 fst snd].
    set (n := length ps).
    assert (Hl1 : length (drop (n - i) ps) = i) by (rewrite length_drop; lia).
    rewrite drop_0, take_app_length' by done.
    rewrite drop_app_length' by done.
    assert (Hl2 : length (take (C + 1 - i) (drop (n - C) ps)) = C + 1 - i).
    { rewrite length_take, length_drop. lia. }
    rewrite take_ge by (rewrite Hl2; lia).
    assert (Hold : drop (n - C) ps
                   = take (C + 1 - i) (drop (n - C) ps) ++ drop 1 (drop (n - i) ps)).
    { rewrite <- (take_drop (C + 1 - i) (drop (n - C) ps)) at 1. f_equal.
      rewrite !drop_drop. f_equal. lia. }
    split; [by rewrite <- Hold|].
    assert (Hat : exists p, ps !! (n - i) = Some p).
    { apply lookup_lt_is_Some. lia. }
    destruct Hat as [p Hp].
    assert (Hhead : head (drop (n - i) ps) = Some p).
    { rewrite head_lookup, lookup_drop. by rewrite Nat.add_0_r. }
    rewrite Hhead. split; [|done].
    rewrite last_lookup, Hl2, lookup_take_lt by lia.
    rewrite lookup_drop. rewrite <- Hp. f_equal. lia.
Qed.

(** After [reset] a trajectory behaves as a new one: whatever it held,
    the same appends leave the same draw ranges, write index and count
    and show the same positions, and once they have wrapped the two
    trajectories are equal. Right after [reset] nothing is shown. *)
Theorem reset_starts_afresh (traj : t P) (ps : list P) :
  length (positions traj) = C + 1 ->
  visible (reset traj) = []
  /\ exists after fresh,
       appendAll C (reset traj) ps = Normal after
       /\ appendAll C (create origin C) ps = Normal fresh
       /\ visible after = visible fresh
       /\ drawRange1 after = drawRange1 fresh
       /\ drawRange2 after = drawRange2 fresh
       /\ idx after = idx fresh
       /\ len after = len fresh
       /\ (C < length ps -> after = fresh).
Proof.
  intros Hb. split; [done|].
  destruct (decide (length ps <= C)) as [Hn|Hn].
  - exists (refilling (positions traj) ps), (filling ps).
    split; [by apply appendAll_refilling|]. split; [by apply (appendAll_filling origin C C_pos)|].
    split; [|repeat split; done || lia].
    unfold visible, segment.
    cbn [Trajectory.filling positions drawRange1 drawRange2 fst snd].
    by rewrite !drop_0, !take_app_length.
  - destruct (appendAll_wrapped origin C C_pos ps) as (i & Hi & Hrun); [lia|].
    exists (wrapped ps i), (wrapped ps i).
    split; [|by repeat split].
    rewrite <- (take_drop (C + 1) ps) in Hrun |- *.
    rewrite appendAll_app in Hrun |- *.
    destruct (appendAll_first_lap traj (take (C + 1) ps)) as [Hre Hcr];
      [done | rewrite length_take; lia |].
    rewrite Hcr in Hrun. rewrite Hre. exact Hrun.
Qed.

End TrailFacts.

Section OpenCvFacts.
Import Redis OpenCv.

Variable inherited : string -> bool.
Variable parseInt : string -> float.
Variable exr_parse : list byte -> Completion Exr.

Abbreviation getBufferSize := (OpenCv.getBufferSize parseInt).
Abbreviation parseOpenCvMat := (OpenCv.parseOpenCvMat inherited parseInt exr_parse).
Abbreviation bytes := list_byte_of_string.
Abbreviation char_at buffer i := (fromCharCode (buffer !! i)).

Lemma append_one_char (acc : string) (c : ascii) (w : string) :
  ((acc ++ String c EmptyString) ++ w)%string = (acc ++ String c w)%string.
Proof. by rewrite append_assoc. Qed.

Lemma append_nothing (acc : string) : (acc ++ EmptyString)%string = acc.
Proof. apply append_empty_r. Qed.

Lemma blank_char (b : byte) : Ascii.eqb (ascii_of_byte b) " " = true -> b = blank.
Proof.
  intros H%Ascii.eqb_eq. rewrite <- (byte_of_ascii_of_byte b), H. reflexivity.
Qed.

Lemma char_at_blank (buffer : list byte) i :
  Ascii.eqb (char_at buffer i) " " = true -> buffer !! i = Some blank.
Proof.
  destruct (buffer !! i) as [b|]; cbn [fromCharCode]; [|done].
  by intros ->%blank_char.
Qed.

(** *** The word of the type *)

(** A word without a blank, then a blank: the loop stops behind the
    blank with the word. *)
Lemma typeWord_run (s : string) :
  forall acc idx c more,
    unbroken (String c s) = true ->
    typeWord (bytes s ++ blank :: more) acc idx c
    = ((acc ++ String c s)%string, idx + String.length s + 1).
Proof.
  induction s as [|c' s IH]; intros acc idx c more Hw.
  - cbn in Hw. rewrite andb_true_r in Hw. apply negb_true_iff in Hw.
    cbn [bytes list_byte_of_string list_ascii_of_string map app typeWord]. rewrite Hw.
    replace (idx + String.length "" + 1) with (S idx) by (cbn; lia).
    destruct more as [|b more]; [done|]. by cbn.
  - cbn [unbroken] in Hw. apply andb_true_iff in Hw as [Hc Hw].
    apply negb_true_iff in Hc.
    change (bytes (String c' s)) with (byte_of_ascii c' :: bytes s).
    cbn [app typeWord]. rewrite Hc, ascii_of_byte_of_ascii.
    rewrite (IH _ _ _ _ Hw), append_one_char. f_equal. cbn [String.length]. lia.
Qed.

(** Whatever the buffer, the loop stops with a word without a blank,
    either behind a blank that follows the word or at the end of the
    buffer. *)
Lemma typeWord_stops (unread : list byte) :
  forall acc idx c word idx',
    typeWord unread acc idx c = (word, idx') ->
    exists w,
      word = (acc ++ w)%string
      /\ unbroken w = true
      /\ idx' = idx + String.length w
      /\ ((exists rest, byte_of_ascii c :: unread = bytes w ++ blank :: rest)
          \/ idx' = idx + length unread).
Proof.
  induction unread as [|b unread IH]; intros acc idx c word idx' Hrun.
  - cbn in Hrun. injection Hrun as <- <-. exists EmptyString.
    rewrite append_nothing. split; [done|]. split; [done|].
    split; [cbn; lia|]. right. cbn. lia.
  - cbn [typeWord] in Hrun. destruct (Ascii.eqb c " ") eqn:Hc.
    + injection Hrun as <- <-. exists EmptyString.
      rewrite append_nothing. split; [done|]. split; [done|].
      split; [cbn; lia|]. left.
      apply Ascii.eqb_eq in Hc as ->. by exists (b :: unread).
    + destruct (IH _ _ _ _ _ Hrun) as (w & -> & Hw & -> & Hend).
      exists (String c w). rewrite append_one_char.
      split; [done|]. split; [by cbn; rewrite Hc|]. split; [cbn; lia|].
      destruct Hend as [(rest & Hrest)|Hend]; [left|right; cbn; lia].
      exists rest. rewrite byte_of_ascii_of_byte in Hrest.
      change (bytes (String c w)) with (byte_of_ascii c :: bytes w).
      cbn [app]. by rewrite Hrest.
Qed.

(** *** The word of the size *)

Lemma sizeWord_run (w : string) :
  forall fuel buffer acc i rest,
    unbroken w = true -> String.length w <= fuel ->
    drop i buffer = bytes w ++ blank :: rest ->
    sizeWord fuel buffer acc (S i) (char_at buffer i)
    = Some ((acc ++ w)%string, S i + String.length w).
Proof.
  induction w as [|c w IH]; intros fuel buffer acc i rest Hw Hfuel Hdrop.
  - cbn [bytes list_byte_of_string list_ascii_of_string map app] in Hdrop.
    assert (Hat : buffer !! i = Some blank).
    { rewrite <- (Nat.add_0_r i), <- lookup_drop, Hdrop. done. }
    rewrite Hat, append_nothing. cbn [String.length]. rewrite Nat.add_0_r.
    by destruct fuel.
  - cbn [unbroken] in Hw. apply andb_true_iff in Hw as [Hc Hw].
    apply negb_true_iff in Hc. cbn [String.length] in Hfuel.
    destruct fuel as [|fuel]; [lia|].
    change (bytes (String c w)) with (byte_of_ascii c :: bytes w) in Hdrop.
    assert (Hat : buffer !! i = Some (byte_of_ascii c)).
    { rewrite <- (Nat.add_0_r i), <- lookup_drop, Hdrop. done. }
    assert (Hnext : drop (S i) buffer = bytes w ++ blank :: rest).
    { replace (S i) with (i + 1) by lia. by rewrite <- drop_drop, Hdrop. }
    rewrite Hat. cbn [fromCharCode sizeWord]. rewrite ascii_of_byte_of_ascii, Hc.
    rewrite (IH fuel buffer _ (S i) rest Hw ltac:(lia) Hnext), append_one_char.
    do 2 f_equal. cbn [String.length]. lia.
Qed.

Lemma sizeWord_stops (fuel : nat) :
  forall buffer acc i word idx',
    sizeWord fuel buffer acc (S i) (char_at buffer i) = Some (word, idx') ->
    exists w rest,
      word = (acc ++ w)%string
      /\ unbroken w = true
      /\ String.length w <= fuel
      /\ idx' = S i + String.length w
      /\ drop i buffer = bytes w ++ blank :: rest.
Proof.
  induction fuel as [|fuel IH]; intros buffer acc i word idx' Hrun.
  - cbn [sizeWord] in Hrun. destruct (Ascii.eqb (char_at buffer i) " ") eqn:Hc; [|done].
    injection Hrun as <- <-. apply char_at_blank in Hc.
    exists EmptyString, (drop (S i) buffer). rewrite append_nothing.
    split; [done|]. split; [done|]. split; [cbn; lia|]. split; [cbn; lia|].
    by apply drop_S.
  - cbn [sizeWord] in Hrun. destruct (Ascii.eqb (char_at buffer i) " ") eqn:Hc.
    + injection Hrun as <- <-. apply char_at_blank in Hc.
      exists EmptyString, (drop (S i) buffer). rewrite append_nothing.
      split; [done|]. split; [done|]. split; [cbn; lia|]. split; [cbn; lia|].
      by apply drop_S.
    + destruct (IH _ _ _ _ _ Hrun) as (w & rest & -> & Hw & Hlen & -> & Hdrop).
      destruct (buffer !! i) as [b|] eqn:Hat.
      2:{ apply lookup_ge_None in Hat. rewrite drop_ge in Hdrop by lia.
          by destruct (bytes w). }
      cbn [fromCharCode] in Hc |- *.
      exists (String (ascii_of_byte b) w), rest. rewrite append_one_char.
      split; [done|]. split; [by cbn; rewrite Hc|].
      split; [cbn; lia|]. split; [cbn; lia|].
      change (bytes (String (ascii_of_byte b) w))
        with (byte_of_ascii (ascii_of_byte b) :: bytes w).
      rewrite byte_of_ascii_of_byte. cbn [app]. rewrite <- Hdrop. by apply drop_S.
Qed.

(** Where no blank is left in the buffer the loop does not end: it
    reads the bytes that are left, and behind them a character of code 0
    again and again. *)
Lemma sizeWord_goes_on (fuel : nat) :
  forall buffer acc i,
    blank ∉ drop i buffer ->
    sizeWord fuel buffer acc (S i) (char_at buffer i) = None.
Proof.
  induction fuel as [|fuel IH]; intros buffer acc i Hnone.
  - cbn [sizeWord]. destruct (Ascii.eqb (char_at buffer i) " ") eqn:Hc; [|done].
    apply char_at_blank in Hc. exfalso. apply Hnone.
    rewrite (drop_S _ _ _ Hc). apply elem_of_cons. by left.
  - cbn [sizeWord]. destruct (Ascii.eqb (char_at buffer i) " ") eqn:Hc.
    + apply char_at_blank in Hc. exfalso. apply Hnone.
      rewrite (drop_S _ _ _ Hc). apply elem_of_cons. by left.
    + apply IH. intros Hin. apply Hnone.
      destruct (buffer !! i) as [b|] eqn:Hat.
      * rewrite (drop_S _ _ _ Hat). apply elem_of_cons. by right.
      * apply lookup_ge_None in Hat. rewrite drop_ge in Hin by lia.
        by apply elem_of_nil in Hin.
Qed.

(** *** Messages *)

Lemma length_bytes (s : string) : length (bytes s) = String.length s.
Proof. induction s as [|c s IH]; [done|]. cbn. by rewrite <- IH. Qed.

Lemma known_type (id type : string) :
  JsObj.get id CV_TYPES = Some type ->
  id <> EmptyString /\ unbroken id = true /\ includes "CV_" type = true.
Proof.
  unfold CV_TYPES. cbn [JsObj.get].
  repeat match goal with
         | |- context [String.eqb id ?k] =>
             destruct (String.eqb_spec id k) as [->|_];
             [intros [= <-]; split; [discriminate|split; vm_compute; reflexivity]|]
         end.
  done.
Qed.

Lemma getOpenCvType_message (id type : string) (more : list byte) :
  JsObj.get id CV_TYPES = Some type ->
  getOpenCvType inherited (bytes id ++ blank :: more) = (Name type, S (String.length id)).
Proof.
  intros Hid. destruct (known_type id type Hid) as (Hne & Hw & _).
  destruct id as [|c s]; [done|]. unfold getOpenCvType.
  change (bytes (String c s)) with (byte_of_ascii c :: bytes s).
  cbn [app lookup list_lookup drop fromCharCode]. rewrite drop_0, ascii_of_byte_of_ascii.
  rewrite (typeWord_run s _ _ _ _ Hw).
  change (EmptyString ++ String c s)%string with (String c s). rewrite Hid.
  f_equal. cbn [String.length]. lia.
Qed.

Lemma getBufferSize_message (fuel : nat) (pre : list byte) (size : string)
    (image : list byte) :
  unbroken size = true -> String.length size <= fuel ->
  getBufferSize fuel (pre ++ bytes size ++ blank :: image) (length pre)
  = Some (parseInt size, length pre + String.length size + 1).
Proof.
  intros Hw Hfuel. unfold OpenCv.getBufferSize.
  rewrite (sizeWord_run size fuel _ EmptyString (length pre) image Hw Hfuel).
  - cbn [mbind option_bind String.append]. do 2 f_equal. lia.
  - by rewrite drop_app_length.
Qed.

Lemma getUint_behind (width : N) (pre image : list byte) (offset : N) :
  getUint width (pre ++ image) (N.of_nat (length pre) + offset) = getUint width image offset.
Proof.
  unfold getUint, slice, byteLength. rewrite length_app, Nat2N.inj_add.
  set (p := N.of_nat (length pre)). set (n := N.of_nat (length image)).
  destruct (N.leb_spec (offset + width) n) as [Hle|Hgt].
  - rewrite (proj2 (N.leb_le (p + offset + width) (p + n))) by lia.
    f_equal. rewrite !N.min_l by lia.
    replace (p + offset + width - (p + offset))%N with width by lia.
    replace (offset + width - offset)%N with width by lia.
    rewrite N2Nat.inj_add. subst p. rewrite Nat2N.id.
    by rewrite <- drop_drop, drop_app_length.
  - by rewrite (proj2 (N.leb_gt (p + offset + width) (p + n))) by lia.
Qed.

(** The bytes in front of the image in a message. *)
Lemma message_prefix (id size : string) (image : list byte) :
  exists pre,
    message id size image = pre ++ image
    /\ length pre = S (String.length id) + String.length size + 1
    /\ message id size image
       = (bytes id ++ [blank]) ++ bytes size ++ blank :: image
    /\ length (bytes id ++ [blank]) = S (String.length id).
Proof.
  exists (bytes id ++ [blank] ++ bytes size ++ [blank]). unfold message.
  split; [by rewrite <- !app_assoc|].
  split; [rewrite !length_app, !length_bytes; cbn; lia|].
  split; [by rewrite <- !app_assoc|].
  rewrite length_app, length_bytes. cbn. lia.
Qed.

(** What [parseOpenCvMat] makes of a message. *)
Lemma parseOpenCvMat_message (fuel : nat) (id type size : string) (image : list byte) :
  JsObj.get id CV_TYPES = Some type ->
  unbroken size = true -> String.length size <= fuel ->
  parseOpenCvMat fuel (message id size image)
  = Some
      (if includes "CV_32FC" type then
         exr ← exr_parse image;
         Normal (Some (Resolved (data exr)),
                 [number (height exr); number (width exr);
                  (number (length (data exr))
                   / (number (height exr) * number (width exr)))%float])
       else
         numCols ← getUint32 image 16;
         numRows ← getUint32 image 20;
         Normal (Some (Loading image numCols numRows),
                 [number (N.to_nat numRows); number (N.to_nat numCols); 4%float])).
Proof.
  intros Hid Hw Hfuel. destruct (known_type id type Hid) as (_ & _ & Hcv).
  destruct (message_prefix id size image) as (pre & Hpre & Hlen & Hmid & Hhead).
  unfold OpenCv.parseOpenCvMat.
  assert (Htype : getOpenCvType inherited (message id size image)
                  = (Name type, S (String.length id))).
  { unfold message. by apply getOpenCvType_message. }
  rewrite Htype.
  assert (Hsize : getBufferSize fuel (message id size image) (S (String.length id))
                  = Some (parseInt size, length pre)).
  { rewrite Hmid, <- Hhead, getBufferSize_message by done. by rewrite Hlen, Hhead. }
  destruct (includes "CV_32FC" type).
  - rewrite Hsize. cbn [mbind option_bind]. by rewrite Hpre, drop_app_length.
  - rewrite Hcv, Hsize. cbn [mbind option_bind].
    rewrite Hpre, drop_app_length. unfold getUint32. by rewrite !getUint_behind.
Qed.

(** A message of an id of [CV_TYPES], a size and an image is read
    according to the type the id names, as soon as the loop over the
    size is followed to its end. For a type of floating-point numbers
    the image goes to the EXR loader, and the dimensions are those of
    what it returns. For every other type the image is taken for a PNG
    file whatever the type says: the numbers of columns and of rows are
    the two big-endian 32-bit numbers at the bytes 16 and 20 of the
    image, the number of channels is 4, and an image of less than 24
    bytes raises [RangeError]. *)
Theorem image_message_is_read (fuel : nat) (id type size : string) (image : list byte) :
  JsObj.get id CV_TYPES = Some type ->
  unbroken size = true -> String.length size <= fuel ->
  exists read,
    parseOpenCvMat fuel (message id size image) = Some read
    /\ (includes "CV_32FC" type = true ->
        read = (exr ← exr_parse image;
                Normal (Some (Resolved (data exr)),
                        [number (height exr); number (width exr);
                         (number (length (data exr))
                          / (number (height exr) * number (width exr)))%float])))
    /\ (includes "CV_32FC" type = false ->
        (length image < 24 -> read = Throw RangeError)
        /\ (forall head cols rows rest,
              length head = 16 -> length cols = 4 -> length rows = 4 ->
              image = head ++ cols ++ rows ++ rest ->
              read = Normal (Some (Loading image (be_value cols) (be_value rows)),
                             [number (N.to_nat (be_value rows));
                              number (N.to_nat (be_value cols)); 4%float]))).
Proof.
  intros Hid Hw Hfuel. eexists.
  split; [exact (parseOpenCvMat_message fuel id type size image Hid Hw Hfuel)|].
  split; intros ->; [done|]. split.
  - intros Hshort. unfold getUint32, getUint, byteLength.
    destruct (N.leb_spec (16 + 4) (N.of_nat (length image))) as [H16|H16]; [|done].
    cbn [mbind Completion_bind].
    destruct (N.leb_spec (20 + 4) (N.of_nat (length image))) as [H20|H20]; [lia|done].
  - intros head cols rows rest Hhead Hcols Hrows ->.
    assert (Hc : getUint32 (head ++ cols ++ rows ++ rest) 16 = Normal (be_value cols)).
    { apply (getUint_cursor 4 _ 16 cols (rows ++ rest)).
      - exists head. split; [done|]. unfold byteLength. lia.
      - unfold byteLength. lia. }
    assert (Hr : getUint32 (head ++ cols ++ rows ++ rest) 20 = Normal (be_value rows)).
    { apply (getUint_cursor 4 _ 20 rows rest).
      - exists (head ++ cols). split; [by rewrite <- app_assoc|].
        unfold byteLength. rewrite length_app. lia.
      - unfold byteLength. lia. }
    by rewrite Hc, Hr.
Qed.

(** The buffers [parseOpenCvMat] returns an image for. *)
Lemma parseOpenCvMat_returns (fuel : nat) (buffer : list byte) result :
  parseOpenCvMat fuel buffer = Some (Normal result) ->
  exists id type size image,
    buffer = message id size image
    /\ JsObj.get id CV_TYPES = Some type
    /\ unbroken size = true /\ String.length size <= fuel
    /\ (if includes "CV_32FC" type then throws (exr_parse image) = false
        else 24 <= length image).
Proof.
  intros Hread.
  assert (Hshape : exists id type size image,
             buffer = message id size image
             /\ JsObj.get id CV_TYPES = Some type
             /\ unbroken size = true /\ String.length size <= fuel).
  { unfold OpenCv.parseOpenCvMat, getOpenCvType in Hread.
    destruct (typeWord (drop 1 buffer) EmptyString 1 (char_at buffer 0))
      as [word idx] eqn:Hword.
    destruct (JsObj.get word CV_TYPES) as [type|] eqn:Hid.
    2:{ destruct (inherited word); [done|]. by vm_compute in Hread. }
    destruct (known_type word type Hid) as (_ & _ & Hcv).
    assert (Hsize : is_Some (getBufferSize fuel buffer idx)).
    { destruct (includes "CV_32FC" type); [|rewrite Hcv in Hread];
        by destruct (getBufferSize fuel buffer idx). }
    unfold OpenCv.getBufferSize in Hsize.
    destruct (sizeWord fuel buffer EmptyString (S idx) (char_at buffer idx))
      as [[size idx2]|] eqn:Hrun; [|by destruct Hsize].
    apply sizeWord_stops in Hrun as (w & image & -> & Hw & Hfuel & _ & Hdrop).
    apply typeWord_stops in Hword as (w1 & -> & _ & -> & Hend).
    destruct buffer as [|b unread].
    { rewrite drop_nil in Hdrop. by destruct (bytes w). }
    cbn [lookup list_lookup fromCharCode drop] in Hend. rewrite drop_0 in Hend.
    rewrite byte_of_ascii_of_byte in Hend.
    destruct Hend as [(rest & Hrest)|Hend].
    2:{ rewrite Hend, drop_ge in Hdrop by (cbn; lia). by destruct (bytes w). }
    exists w1, type, w, image. cbn [String.append] in Hid.
    split; [|by split].
    rewrite Hrest in Hdrop |- *. unfold message. do 2 f_equal.
    replace (1 + String.length w1) with (length (bytes w1 ++ [blank])) in Hdrop
      by (rewrite length_app, length_bytes; cbn; lia).
    change (bytes w1 ++ blank :: rest) with (bytes w1 ++ [blank] ++ rest) in Hdrop.
    by rewrite app_assoc, drop_app_length in Hdrop. }
  destruct Hshape as (id & type & size & image & -> & Hid & Hw & Hfuel).
  exists id, type, size, image. split; [done|]. split; [done|]. split; [done|].
  split; [done|].
  rewrite (parseOpenCvMat_message fuel id type size image Hid Hw Hfuel) in Hread.
  injection Hread as Hread.
  destruct (includes "CV_32FC" type).
  - by destruct (exr_parse image).
  - unfold getUint32, getUint, byteLength in Hread.
    destruct (N.leb_spec (16 + 4) (N.of_nat (length image))) as [H16|H16]; [|done].
    cbn [mbind Completion_bind] in Hread.
    destruct (N.leb_spec (20 + 4) (N.of_nat (length image))) as [H20|H20]; [lia|done].
Qed.

(** A buffer that starts with a word that is no id of [CV_TYPES]. *)
Lemma parseOpenCvMat_unknown (fuel : nat) (word : string) (rest : list byte) :
  unbroken word = true -> JsObj.get word CV_TYPES = None ->
  parseOpenCvMat fuel (bytes word ++ blank :: rest) = Some (Throw TypeError).
Proof.
  intros Hw Hid. unfold OpenCv.parseOpenCvMat, getOpenCvType.
  destruct word as [|c s].
  - cbn [bytes list_byte_of_string list_ascii_of_string map app lookup list_lookup
         fromCharCode drop].
    rewrite drop_0.
    assert (Hword : forall unread, typeWord unread EmptyString 1 (ascii_of_byte blank)
                                   = (EmptyString, 1)).
    { intros [|b unread]; reflexivity. }
    rewrite Hword, Hid. by destruct (inherited EmptyString).
  - change (bytes (String c s)) with (byte_of_ascii c :: bytes s).
    cbn [app lookup list_lookup drop fromCharCode]. rewrite drop_0, ascii_of_byte_of_ascii.
    rewrite (typeWord_run s _ _ _ _ Hw).
    change (EmptyString ++ String c s)%string with (String c s). rewrite Hid.
    by destruct (inherited (String c s)).
Qed.

(** A buffer of an id of [CV_TYPES] without a second blank. *)
Lemma parseOpenCvMat_goes_on (fuel : nat) (id type : string) (rest : list byte) :
  JsObj.get id CV_TYPES = Some type -> blank ∉ rest ->
  parseOpenCvMat fuel (bytes id ++ blank :: rest) = None.
Proof.
  intros Hid Hnone. destruct (known_type id type Hid) as (_ & _ & Hcv).
  unfold OpenCv.parseOpenCvMat. rewrite (getOpenCvType_message id type rest Hid).
  assert (Hsize : getBufferSize fuel (bytes id ++ blank :: rest) (S (String.length id))
                  = None).
  { unfold OpenCv.getBufferSize. rewrite sizeWord_goes_on; [done|].
    replace (S (String.length id)) with (length (bytes id ++ [blank]))
      by (rewrite length_app, length_bytes; cbn; lia).
    change (bytes id ++ blank :: rest) with (bytes id ++ [blank] ++ rest).
    by rewrite app_assoc, drop_app_length. }
  destruct (includes "CV_32FC" type); [|rewrite Hcv]; by rewrite Hsize.
Qed.


End OpenCvFacts.

Section StableFacts.
Import Frame.
Context {S : Type} (property : S -> Prop).

Lemma stable_ret {A} (a : A) : stable property (mret (M := StateM S) a).
Proof. by intros s. Qed.

Lemma stable_get : stable property (get (S := S)).
Proof. by intros s. Qed.

Lemma stable_lift {A} (c : Completion A) : stable property (lift (S := S) c).
Proof. by intros s. Qed.

Lemma stable_modify (f : S -> S) :
  (forall s, property s -> property (f s)) -> stable property (modify f).
Proof. intros H s. apply H. Qed.

Lemma stable_bind {A B} (m : StateM S A) (f : A -> StateM S B) :
  stable property m -> (forall a, stable property (f a)) -> stable property (m ≫= f).
Proof.
  intros Hm Hf s Hs. unfold mbind, StateM_bind.
  specialize (Hm s Hs). destruct (m s) as [s1 [a|e]]; cbn in *; [|done].
  by apply Hf.
Qed.

Lemma stable_try_catch {A} (m : StateM S A) (handler : JsError -> StateM S A) :
  stable property m -> (forall e, stable property (handler e)) ->
  stable property (try_catch m handler).
Proof.
  intros Hm Hh s Hs. unfold try_catch.
  specialize (Hm s Hs). destruct (m s) as [s1 [a|e]]; cbn in *; [done|].
  by apply Hh.
Qed.

Lemma stable_forM {B} (l : list B) (body : B -> StateM S unit) :
  (forall b, stable property (body b)) -> stable property (forM l body).
Proof.
  intros Hb. induction l as [|b l IH]; cbn [forM]; [apply stable_ret|].
  apply stable_bind; [apply Hb|]. intros _. apply IH.
Qed.

(** A part that [m] keeps decides a property that [m] leaves stable. *)
Lemma keeps_stable {X A} (part : S -> X) (m : StateM S A) :
  (forall s s', part s' = part s -> property s -> property s') ->
  keeps part m -> stable property m.
Proof. intros Hpart Hm s Hs. by apply (Hpart s), Hs. Qed.

End StableFacts.

(** The message loop leaves stable every property that depends on the
    camera world only and that the callbacks and the creation of a
    camera leave stable. *)
Section LoopStable.
Import Redis Simulator Frame.

Context {Forms Nodes : Type}.
Variable max_arguments : N.
Variable JSON_parse : string -> Completion Json.
Variable parseFloat : string -> float.
Variable parseOpenCvMat : list byte -> Completion (list float * Camera.Dim).
Variable formExists : string -> Forms -> Completion bool.
Variable getValue : string -> Forms -> Completion Val.
Variable getKeys : Forms -> list string.
Variable updateForm : string -> option Val -> Forms -> Forms * Completion unit.
Variable deleteForm : string -> Forms -> Forms * Completion unit.
Variable create_node : Kind -> Json -> Nodes -> Nodes * Completion nat.
Variable update_node : Handler -> nat -> Val -> Nodes -> Nodes * Completion bool.

Abbreviation State := (@Simulator.State Forms Nodes).
Abbreviation call := (Simulator.call parseFloat parseOpenCvMat update_node).
Abbreviation registerRedisUpdateCallback :=
  (Simulator.registerRedisUpdateCallback parseFloat parseOpenCvMat formExists getValue
     update_node).
Abbreviation handleMessage :=
  (Simulator.handleMessage max_arguments JSON_parse parseFloat parseOpenCvMat formExists getValue
     getKeys updateForm deleteForm create_node update_node).
Abbreviation onmessage :=
  (Simulator.onmessage max_arguments JSON_parse parseFloat parseOpenCvMat formExists getValue
     getKeys updateForm deleteForm create_node update_node).

Variable property : State -> Prop.
Hypothesis of_world : forall st st' : State, world st' = world st -> property st -> property st'.
Hypothesis through_call : forall cb val, stable property (call cb val).
Hypothesis through_camera :
  forall st : State, property st -> property (with_world st (Camera.new_camera (world st)).1).

(** A store into a variable other than the camera world. *)
Ltac elsewhere :=
  apply stable_modify; intros st0;
  repeat match goal with
         | |- context [match ?x with _ => _ end] => destruct x
         end;
  apply of_world; reflexivity.

Lemma render_stable : stable property (render (Forms := Forms) (Nodes := Nodes)).
Proof. unfold render. elsewhere. Qed.

Lemma invoke_stable key keyComponent cb val :
  stable property
    (Simulator.invoke parseFloat parseOpenCvMat update_node key keyComponent cb val).
Proof.
  intros st Hst. unfold Simulator.invoke.
  pose proof (through_call cb val st Hst) as H.
  destruct (Simulator.call _ _ _ cb val st) as [st1 r]. cbn [fst] in *.
  by apply (of_world st1).
Qed.

Lemma reading_stable {A} (f : Forms -> Completion A) :
  stable property (reading (Nodes := Nodes) f).
Proof. by intros st. Qed.

Lemma writing_stable (f : Forms -> Forms * Completion unit) :
  stable property (writing (Nodes := Nodes) f).
Proof.
  intros st Hst. unfold writing. destruct (f (forms st)). by apply (of_world st).
Qed.

Lemma store_callback_stable key keyComponent cb entry :
  stable property
    (store_callback (Forms := Forms) (Nodes := Nodes) key keyComponent cb entry).
Proof.
  unfold store_callback. destruct (String.eqb _ _); [apply stable_lift|elsewhere].
Qed.

Lemma register_stable key keyComponent cb :
  stable property (registerRedisUpdateCallback key keyComponent cb).
Proof.
  unfold Simulator.registerRedisUpdateCallback.
  destruct (bool_decide _); [apply stable_ret|].
  apply stable_bind; [apply stable_get|]. intros st.
  apply stable_bind.
  { destruct (JsObj.in_ _ _); [apply stable_ret|elsewhere]. }
  intros _. apply stable_bind; [apply stable_get|]. intros st1.
  apply stable_bind.
  { destruct (JsObj.get _ _); [apply store_callback_stable|elsewhere]. }
  intros _. apply stable_bind; [apply reading_stable|]. intros [|]; [|apply stable_ret].
  apply stable_bind; [apply reading_stable|]. intros val.
  apply stable_bind; [apply invoke_stable|]. intros _. apply stable_ret.
Qed.

Lemma unregister_stable keyComponent :
  stable property
    (unregisterRedisUpdateCallback (Forms := Forms) (Nodes := Nodes) keyComponent).
Proof.
  unfold unregisterRedisUpdateCallback.
  apply stable_bind; [apply stable_get|]. intros st.
  apply stable_bind; [apply stable_lift|]. intros callbacks. elsewhere.
Qed.

Lemma store_component_stable kind key component :
  stable property
    (store_component (Forms := Forms) (Nodes := Nodes) kind key component).
Proof.
  unfold store_component. destruct (String.eqb _ _); [elsewhere|].
  apply stable_modify. intros st. apply of_world. by destruct kind.
Qed.

Lemma addComponentToScene_stable kind key model :
  stable property
    (Simulator.addComponentToScene (Forms := Forms) create_node kind key model).
Proof.
  unfold Simulator.addComponentToScene.
  apply stable_bind.
  { intros st Hst. unfold create. destruct kind.
    1-3: destruct (create_node _ model (nodes st)); by apply (of_world st).
    pose proof (through_camera st Hst) as H.
    by destruct (Camera.new_camera (world st)). }
  intros component.
  apply stable_bind; [elsewhere|]. intros _.
  apply stable_bind.
  { apply stable_modify. intros st.
    destruct (JsObj.get key _); [|done]. apply of_world. by destruct kind. }
  intros _. apply stable_bind; [apply store_component_stable|].
  intros _. apply stable_bind; [elsewhere|].
  intros _. apply stable_bind; [apply render_stable|]. intros _. apply stable_ret.
Qed.

Ltac model_stable :=
  apply stable_bind; [apply stable_get|]; intros st;
  destruct (negb _); [apply stable_ret|];
  apply stable_bind; [apply stable_lift|]; intros model;
  apply stable_bind; [apply addComponentToScene_stable|]; intros component;
  repeat first
    [ apply stable_ret
    | apply register_stable
    | apply stable_bind; [|intros _]
    | match goal with |- stable _ (if ?b then _ else _) => destruct b end ].

Lemma parseRobotModel_stable key val :
  stable property
    (parseRobotModel JSON_parse parseFloat parseOpenCvMat formExists getValue
       create_node update_node key val).
Proof. unfold parseRobotModel. model_stable. Qed.

Lemma parseObjectModel_stable key val :
  stable property
    (parseObjectModel JSON_parse parseFloat parseOpenCvMat formExists getValue
       create_node update_node key val).
Proof. unfold parseObjectModel. model_stable. Qed.

Lemma parseTrajectoryModel_stable key val :
  stable property
    (parseTrajectoryModel JSON_parse parseFloat parseOpenCvMat formExists getValue
       create_node update_node key val).
Proof. unfold parseTrajectoryModel. model_stable. Qed.

Lemma parseCameraModel_stable key val :
  stable property
    (parseCameraModel JSON_parse parseFloat parseOpenCvMat formExists getValue
       create_node update_node key val).
Proof. unfold parseCameraModel. model_stable. Qed.

Lemma loadExisting_stable json key :
  stable property
    (loadExisting JSON_parse parseFloat parseOpenCvMat formExists getValue
       create_node update_node json key).
Proof.
  unfold loadExisting.
  repeat match goal with |- stable _ (if ?b then _ else _) => destruct b end;
    try apply stable_ret;
    (apply stable_bind; [apply reading_stable|]; intros val;
     apply stable_bind; [|intros _; apply stable_ret]).
  - apply parseCameraModel_stable.
  - apply parseObjectModel_stable.
  - apply parseRobotModel_stable.
  - apply parseTrajectoryModel_stable.
Qed.

Lemma store_args_stable namespace json :
  stable property (store_args (Forms := Forms) (Nodes := Nodes) namespace json).
Proof. unfold store_args. destruct (String.eqb _ _); elsewhere. Qed.

Lemma parseArgs_stable keyVals :
  stable property
    (parseArgs JSON_parse parseFloat parseOpenCvMat formExists getValue getKeys
       create_node update_node keyVals).
Proof.
  unfold parseArgs. apply stable_forM. intros [key val].
  destruct (args_namespace key); [|apply stable_ret].
  destruct (JSON_parse _); [|apply stable_ret].
  apply stable_bind; [apply store_args_stable|]. intros _.
  apply stable_bind; [apply stable_get|]. intros st.
  apply stable_forM. intros key'. apply loadExisting_stable.
Qed.

Lemma parseModels_stable keyVals :
  stable property
    (parseModels JSON_parse parseFloat parseOpenCvMat formExists getValue updateForm
       create_node update_node keyVals).
Proof.
  induction keyVals as [|[key [val|b]] rest IH]; cbn [parseModels];
    [apply stable_ret| |exact IH].
  apply stable_bind.
  - apply stable_try_catch; [|intros _; apply stable_ret].
    apply stable_bind; [apply parseCameraModel_stable|]. intros [|]; [apply stable_ret|].
    apply stable_bind; [apply parseObjectModel_stable|]. intros [|]; [apply stable_ret|].
    apply stable_bind; [apply parseRobotModel_stable|]. intros [|]; [apply stable_ret|].
    apply stable_bind; [apply parseTrajectoryModel_stable|]. intros ?. apply stable_ret.
  - intros [[|]|]; [|exact IH|apply stable_ret].
    apply stable_bind; [apply writing_stable|]. intros _. exact IH.
Qed.

Lemma dispatch_stable key val entry :
  forall renderFrame,
    stable property
      (dispatch parseFloat parseOpenCvMat update_node key val entry renderFrame).
Proof.
  induction entry as [|[keyComponent cb] entry IH]; intros renderFrame; cbn [dispatch];
    [apply stable_ret|].
  apply stable_bind; [apply invoke_stable|]. intros result. apply IH.
Qed.

Lemma updateKeys_stable keyVals :
  forall renderFrame,
    stable property
      (updateKeys parseFloat parseOpenCvMat updateForm update_node keyVals renderFrame).
Proof.
  induction keyVals as [|[key val] rest IH]; intros renderFrame; cbn [updateKeys];
    [apply stable_ret|].
  apply stable_bind; [apply stable_get|]. intros st.
  apply stable_bind.
  - destruct (JsObj.in_ key _); [apply dispatch_stable|apply stable_ret].
  - intros rf. apply stable_bind; [apply writing_stable|]. intros _. apply IH.
Qed.

Lemma remove_stable kind key :
  stable property (remove (Forms := Forms) (Nodes := Nodes) kind key).
Proof.
  unfold remove. apply stable_bind; [|intros _; apply unregister_stable].
  apply stable_modify. intros st.
  destruct (JsObj.get key _); [|done]. apply of_world. by destruct kind.
Qed.

Lemma deleteKeys_stable keys :
  forall renderFrame,
    stable property (deleteKeys (Nodes := Nodes) deleteForm keys renderFrame).
Proof.
  induction keys as [|k keys IH]; intros renderFrame; cbn [deleteKeys];
    [apply stable_ret|].
  apply stable_bind; [apply stable_get|]. intros st.
  apply stable_bind.
  - destruct (JsObj.in_ _ (robots st)).
    { apply stable_bind; [apply remove_stable|]. intros _. apply stable_ret. }
    destruct (JsObj.in_ _ (objects st)); [|apply stable_ret].
    apply stable_bind; [apply remove_stable|]. intros _. apply stable_ret.
  - intros rf. apply stable_bind; [apply writing_stable|]. intros _. apply IH.
Qed.

Lemma handleMessage_stable buffer : stable property (handleMessage buffer).
Proof.
  unfold Simulator.handleMessage.
  apply stable_bind; [apply stable_lift|]. intros keys.
  apply stable_bind; [apply parseArgs_stable|]. intros _.
  apply stable_bind; [apply parseModels_stable|]. intros _.
  apply stable_bind; [apply updateKeys_stable|]. intros renderFrame.
  apply stable_bind; [apply deleteKeys_stable|]. intros deleted.
  apply stable_bind; [|intros _; elsewhere].
  destruct (deleted || renderFrame); [apply render_stable|apply stable_ret].
Qed.

Lemma onmessage_stable buffer : stable property (onmessage buffer).
Proof.
  unfold Simulator.onmessage.
  apply stable_bind; [apply stable_get|]. intros st.
  destruct (handlingMessage st); [apply stable_ret|].
  apply stable_bind; [elsewhere|]. intros _. apply handleMessage_stable.
Qed.

Lemma loaded_stable kind key component :
  stable property (loaded (Forms := Forms) (Nodes := Nodes) kind key component).
Proof.
  unfold loaded. apply stable_bind; [apply stable_get|]. intros st.
  destruct (_ && _); [apply render_stable|apply stable_ret].
Qed.

End LoopStable.

Section QueueFacts.
Import Redis Camera Stream Frame.

Variable parseFloat : string -> float.
Variable parseOpenCvMat : list byte -> Completion (list float * Dim).

Lemma updating_queue f camera : keeps queue (updating f camera).
Proof. intros world. unfold updating. by destruct (deref world camera). Qed.

Lemma rendering_queue f camera : keeps queue (rendering f camera).
Proof.
  intros world. unfold rendering. destruct (deref world camera) as [spec|]; [|done].
  by destruct (f spec) as [[spec' result]|].
Qed.

Lemma updateIntrinsic_queue camera val :
  keeps queue (updateIntrinsic parseFloat camera val).
Proof.
  unfold updateIntrinsic.
  apply keeps_bind; [apply keeps_lift|]. intros K.
  apply keeps_bind; [apply updating_queue|]. intros _.
  apply keeps_bind; [apply rendering_queue|]. intros [|];
    [apply rendering_queue|apply keeps_ret].
Qed.

Lemma updatePosition_queue camera val :
  keeps queue (Camera.updatePosition parseFloat camera val).
Proof.
  unfold Camera.updatePosition.
  apply keeps_bind; [apply keeps_lift|]. intros pos.
  apply keeps_bind; [apply updating_queue|]. intros _. apply keeps_ret.
Qed.

Lemma updateOrientation_queue camera val :
  keeps queue (Camera.updateOrientation parseFloat camera val).
Proof.
  unfold Camera.updateOrientation.
  apply keeps_bind; [apply keeps_lift|]. intros quat.
  apply keeps_bind; [apply updating_queue|]. intros _. apply keeps_ret.
Qed.

Lemma in_flight_app depth tasks more :
  in_flight depth (tasks ++ more) = in_flight depth tasks + in_flight depth more.
Proof. induction tasks as [|task tasks IH]; cbn; [done|]. rewrite IH. lia. Qed.

Lemma in_flight_delete depth tasks i task :
  tasks !! i = Some task ->
  in_flight depth tasks
  = (if Bool.eqb (is_depth task) depth then 1 else 0) + in_flight depth (delete i tasks).
Proof.
  revert i. induction tasks as [|t tasks IH]; intros [|i] Hi; simplify_eq/=; [done|].
  rewrite (IH i Hi). lia.
Qed.

(** The callback of a decode clears the flag of its kind if it returns
    and leaves the queue as it is if it throws. *)
Lemma depthDecoded_queue camera img dim world :
  queue (depthDecoded camera img dim world).1
  = match (depthDecoded camera img dim world).2 with
    | Normal _ => (false, updatingColor world, pending world)
    | Throw _ => queue world
    end.
Proof.
  unfold depthDecoded, mbind, StateM_bind.
  match goal with |- context [updating ?f camera world] =>
    pose proof (updating_queue f camera world) as H1;
    destruct (updating f camera world) as [w1 [[]|e]] end; cbn [fst snd] in *; [|done].
  pose proof (rendering_queue renderCameraViewFrame camera w1) as H2.
  destruct (rendering renderCameraViewFrame camera w1) as [w2 [r2|e]];
    cbn [fst snd] in *; [|congruence].
  pose proof (rendering_queue (renderPointCloud DOWNSCALE_FACTOR) camera w2) as H3.
  destruct (rendering (renderPointCloud DOWNSCALE_FACTOR) camera w2) as [w3 [r3|e]];
    cbn [fst snd] in *; [|congruence].
  cbn. unfold queue in *. cbn [with_updatingDepth updatingDepth updatingColor pending].
  congruence.
Qed.

Lemma colorDecoded_queue camera img dim world :
  queue (colorDecoded camera img dim world).1
  = match (colorDecoded camera img dim world).2 with
    | Normal _ => (updatingDepth world, false, pending world)
    | Throw _ => queue world
    end.
Proof.
  unfold colorDecoded, mbind, StateM_bind.
  match goal with |- context [updating ?f camera world] =>
    pose proof (updating_queue f camera world) as H1;
    destruct (updating f camera world) as [w1 [[]|e]] end; cbn [fst snd] in *; [|done].
  pose proof (rendering_queue (renderPointCloud DOWNSCALE_FACTOR) camera w1) as H3.
  destruct (rendering (renderPointCloud DOWNSCALE_FACTOR) camera w1) as [w3 [r3|e]];
    cbn [fst snd] in *; [|congruence].
  cbn. unfold queue in *. cbn [with_updatingColor updatingDepth updatingColor pending].
  congruence.
Qed.

Lemma serial_queue world world' : queue world' = queue world -> serial world -> serial world'.
Proof. unfold queue, serial. intros [= H1 H2 H3]. by rewrite H1, H2, H3. Qed.

Lemma stalled_queue world world' :
  queue world' = queue world -> stalled world -> stalled world'.
Proof. unfold queue, stalled. intros [= H1 H2 H3]. by rewrite H1, H3. Qed.

Lemma updateDepthImage_serial camera val :
  stable serial (updateDepthImage parseOpenCvMat camera val).
Proof.
  intros world Hs. unfold updateDepthImage.
  destruct val as [s|rows|buffer]; [done|done|].
  destruct (updatingDepth world) eqn:Hflag; [exact Hs|].
  destruct Hs as [Hd Hc]. rewrite Hflag in Hd.
  destruct (parseOpenCvMat buffer) as [[img dim]|e]; cbn [fst]; unfold serial; cbn.
  - rewrite !in_flight_app. cbn. split; lia.
  - split; lia.
Qed.

Lemma updateColorImage_serial camera val :
  stable serial (updateColorImage parseOpenCvMat camera val).
Proof.
  intros world Hs. unfold updateColorImage.
  destruct val as [s|rows|buffer]; [done|done|].
  destruct (updatingColor world) eqn:Hflag; [exact Hs|].
  destruct Hs as [Hd Hc]. rewrite Hflag in Hc.
  destruct (parseOpenCvMat buffer) as [[img dim]|e]; cbn [fst]; unfold serial; cbn.
  - rewrite !in_flight_app. cbn. split; lia.
  - split; lia.
Qed.

(** While the stream is stalled every depth image is refused: the
    callback returns [false] and changes nothing. *)
Lemma updateDepthImage_stalled camera val world :
  stalled world ->
  updateDepthImage parseOpenCvMat camera val world = (world, Normal false).
Proof.
  intros [Hflag _]. unfold updateDepthImage.
  destruct val as [s|rows|buffer]; [done|done|]. by rewrite Hflag.
Qed.

Lemma updateColorImage_stalled camera val :
  stable stalled (updateColorImage parseOpenCvMat camera val).
Proof.
  intros world Hs. unfold updateColorImage.
  destruct val as [s|rows|buffer]; [done|done|].
  destruct (updatingColor world); [exact Hs|]. destruct Hs as [Hflag Hnone].
  destruct (parseOpenCvMat buffer) as [[img dim]|e]; cbn [fst]; unfold stalled; cbn.
  - rewrite in_flight_app. cbn. split; [done|lia].
  - done.
Qed.

End QueueFacts.

Section StreamFacts.
Import Redis Simulator Stream Frame.

Context {Forms Nodes : Type}.
Variable max_arguments : N.
Variable JSON_parse : string -> Completion Json.
Variable parseFloat : string -> float.
Variable parseOpenCvMat : list byte -> Completion (list float * Camera.Dim).
Variable formExists : string -> Forms -> Completion bool.
Variable getValue : string -> Forms -> Completion Val.
Variable getKeys : Forms -> list string.
Variable updateForm : string -> option Val -> Forms -> Forms * Completion unit.
Variable deleteForm : string -> Forms -> Forms * Completion unit.
Variable create_node : Kind -> Json -> Nodes -> Nodes * Completion nat.
Variable update_node : Handler -> nat -> Val -> Nodes -> Nodes * Completion bool.

Abbreviation State := (@Simulator.State Forms Nodes).
Abbreviation call := (Simulator.call parseFloat parseOpenCvMat update_node).
Abbreviation handle :=
  (Stream.handle max_arguments JSON_parse parseFloat parseOpenCvMat formExists getValue getKeys
     updateForm deleteForm create_node update_node).
Abbreviation after :=
  (Stream.after max_arguments JSON_parse parseFloat parseOpenCvMat formExists getValue getKeys
     updateForm deleteForm create_node update_node).
Abbreviation complete := (Simulator.complete (Forms := Forms) (Nodes := Nodes)).

(** A property of the queue that the two image callbacks leave stable
    is left stable by every callback. *)
Lemma call_queue (property : Camera.World -> Prop) :
  (forall w w', queue w' = queue w -> property w -> property w') ->
  (forall camera val,
     stable property (Camera.updateDepthImage parseOpenCvMat camera val)) ->
  (forall camera val,
     stable property (Camera.updateColorImage parseOpenCvMat camera val)) ->
  forall cb val, stable (fun st : State => property (world st)) (call cb val).
Proof.
  intros Hq Hdepth Hcolor cb val st Hst. unfold Simulator.call.
  destruct (handler cb).
  1-8: by destruct (update_node _ (component cb) val (nodes st)).
  - pose proof (updatePosition_queue parseFloat (component cb) val (world st)) as H.
    destruct (Camera.updatePosition _ _ val (world st)) as [w r]. by apply (Hq (world st)).
  - pose proof (updateOrientation_queue parseFloat (component cb) val (world st)) as H.
    destruct (Camera.updateOrientation _ _ val (world st)) as [w r].
    by apply (Hq (world st)).
  - pose proof (updateIntrinsic_queue parseFloat (component cb) val (world st)) as H.
    destruct (Camera.updateIntrinsic _ _ val (world st)) as [w r].
    by apply (Hq (world st)).
  - pose proof (Hdepth (component cb) val (world st) Hst) as H.
    by destruct (Camera.updateDepthImage _ _ val (world st)) as [w r].
  - pose proof (Hcolor (component cb) val (world st) Hst) as H.
    by destruct (Camera.updateColorImage _ _ val (world st)) as [w r].
Qed.

(** The world after the callback of a decode has run in the loop. *)
Lemma decoded_world task (st : State) :
  world (decoded task st).1 = (Camera.run task (world st)).1.
Proof.
  unfold decoded. by destruct (Camera.run task (world st)) as [w [[|]|e]].
Qed.

Lemma decoded_throws task (st : State) :
  throws (decoded task st).2 = throws (Camera.run task (world st)).2.
Proof.
  unfold decoded. by destruct (Camera.run task (world st)) as [w [[|]|e]].
Qed.

Lemma complete_serial i : stable (fun st : State => serial (world st)) (complete i).
Proof.
  intros st [Hd Hc]. unfold Simulator.complete.
  destruct (Camera.pending (world st) !! i) as [task|] eqn:Hi; [|by split].
  rewrite decoded_world. cbn [world with_world].
  pose proof (in_flight_delete true _ _ _ Hi) as Ht.
  pose proof (in_flight_delete false _ _ _ Hi) as Hf.
  set (w1 := Camera.with_pending (world st) (delete i (Camera.pending (world st)))) in *.
  destruct task as [camera img dim|camera img dim]; cbn [Camera.run is_depth Bool.eqb] in *.
  - pose proof (depthDecoded_queue camera img dim w1) as Hq.
    destruct (Camera.depthDecoded camera img dim w1) as [w [r|e]];
      cbn [fst snd] in Hq |- *; unfold queue in Hq; injection Hq as H1 H2 H3;
      unfold serial; rewrite H1, H2, H3; subst w1; cbn; split; try lia.
    all: destruct (Camera.updatingDepth (world st)); lia.
  - pose proof (colorDecoded_queue camera img dim w1) as Hq.
    destruct (Camera.colorDecoded camera img dim w1) as [w [r|e]];
      cbn [fst snd] in Hq |- *; unfold queue in Hq; injection Hq as H1 H2 H3;
      unfold serial; rewrite H1, H2, H3; subst w1; cbn; split; try lia.
    all: destruct (Camera.updatingColor (world st)); lia.
Qed.

Lemma complete_stalled i : stable (fun st : State => stalled (world st)) (complete i).
Proof.
  intros st [Hflag Hnone]. unfold Simulator.complete.
  destruct (Camera.pending (world st) !! i) as [task|] eqn:Hi; [|by split].
  rewrite decoded_world. cbn [world with_world].
  pose proof (in_flight_delete true _ _ _ Hi) as Ht.
  set (w1 := Camera.with_pending (world st) (delete i (Camera.pending (world st)))) in *.
  destruct task as [camera img dim|camera img dim]; cbn [Camera.run is_depth Bool.eqb] in *;
    [lia|].
  pose proof (colorDecoded_queue camera img dim w1) as Hq.
  destruct (Camera.colorDecoded camera img dim w1) as [w [r|e]];
    cbn [fst snd] in Hq |- *; unfold queue in Hq; injection Hq as H1 H2 H3;
    unfold stalled; rewrite H1, H3; subst w1; cbn; split; (done || lia).
Qed.

Lemma handle_queue (property : Camera.World -> Prop) event :
  (forall w w', queue w' = queue w -> property w -> property w') ->
  (forall camera val,
     stable property (Camera.updateDepthImage parseOpenCvMat camera val)) ->
  (forall camera val,
     stable property (Camera.updateColorImage parseOpenCvMat camera val)) ->
  (forall i, stable (fun st : State => property (world st)) (complete i)) ->
  stable (fun st : State => property (world st)) (handle event).
Proof.
  intros Hq Hdepth Hcolor Hcomplete.
  assert (Hworld : forall st st' : State,
             world st' = world st -> property (world st) -> property (world st'))
    by (by intros st st' ->).
  destruct event as [buffer|i|kind key component]; cbn [Stream.handle].
  - apply onmessage_stable; [exact Hworld|by apply call_queue|].
    intros st Hst. by apply (Hq (world st)).
  - apply Hcomplete.
  - by apply loaded_stable.
Qed.

Lemma after_queue (property : Camera.World -> Prop) events :
  (forall w w', queue w' = queue w -> property w -> property w') ->
  (forall camera val,
     stable property (Camera.updateDepthImage parseOpenCvMat camera val)) ->
  (forall camera val,
     stable property (Camera.updateColorImage parseOpenCvMat camera val)) ->
  (forall i, stable (fun st : State => property (world st)) (complete i)) ->
  forall st : State, property (world st) -> property (world (after events st)).
Proof.
  intros Hq Hdepth Hcolor Hcomplete.
  induction events as [|event events IH]; intros st Hst; [done|].
  cbn [Stream.after fold_left]. apply IH.
  by apply (handle_queue property event).
Qed.

(** The two flags serialise the decodes: whatever messages arrive and
    in whatever order decodes report and components load, there is at
    most one decode of a depth image and at most one of a colour image in
    flight, for all cameras together, and none of a kind while the flag
    of the kind is clear. *)
Theorem decodes_are_serialised (events : list Event) (forms0 : Forms) (nodes0 : Nodes) :
  serial (world (after events (initial forms0 nodes0))).
Proof.
  apply (after_queue serial).
  - apply serial_queue.
  - apply updateDepthImage_serial.
  - apply updateColorImage_serial.
  - apply complete_serial.
  - split; cbn; lia.
Qed.

(** A decode of a depth image that fails is never made up for. When
    [parseOpenCvMat] throws, or when the callback of the decode throws,
    the flag [updatingDepth] stays set with no decode in flight. *)
Theorem failed_depth_decode_stalls (st : State) :
  serial (world st) ->
  (forall camera buffer,
     Camera.updatingDepth (world st) = false ->
     throws (parseOpenCvMat buffer) = true ->
     stalled
       (Camera.updateDepthImage parseOpenCvMat camera (VBuffer buffer) (world st)).1)
  /\ (forall i camera img dim,
        Camera.pending (world st) !! i = Some (Camera.DepthDecoded camera img dim) ->
        throws (complete i st).2 = true ->
        stalled (world (complete i st).1)).
Proof.
  intros [Hd Hc]. split.
  - intros camera buffer Hflag Hthrow. rewrite Hflag in Hd.
    unfold Camera.updateDepthImage. rewrite Hflag.
    destruct (parseOpenCvMat buffer) as [[img dim]|e]; [done|].
    split; cbn; [done|lia].
  - intros i camera img dim Hi Hthrow. unfold Simulator.complete in *. rewrite Hi in *.
    rewrite decoded_throws in Hthrow. rewrite decoded_world.
    cbn [world with_world Camera.run] in *.
    pose proof (in_flight_delete true _ _ _ Hi) as Ht. cbn [is_depth Bool.eqb] in Ht.
    set (w1 := Camera.with_pending (world st) (delete i (Camera.pending (world st)))) in *.
    pose proof (depthDecoded_queue camera img dim w1) as Hq.
    destruct (Camera.depthDecoded camera img dim w1) as [w [r|e]]; [done|].
    cbn [fst snd] in Hq |- *. unfold queue in Hq. injection Hq as H1 H2 H3.
    unfold stalled. rewrite H1, H3. subst w1. cbn.
    destruct (Camera.updatingDepth (world st)); [split; [done|lia]|lia].
Qed.

(** Once the stream of depth images is stalled it stays so, whatever
    happens to the page afterwards, and every depth image that arrives,
    for whichever camera, is refused: its callback returns [false] and
    changes nothing. *)
Theorem stalled_stream_stays_stalled (st : State) (events : list Event) :
  stalled (world st) ->
  let st' := after events st in
  stalled (world st')
  /\ forall cb val,
       handler cb = CameraUpdateDepthImage -> call cb val st' = (st', Normal false).
Proof.
  intros Hst st'.
  assert (Hst' : stalled (world st')).
  { apply (after_queue stalled); [apply stalled_queue| | |apply complete_stalled|done].
    - intros camera val w Hw. by rewrite updateDepthImage_stalled.
    - apply updateColorImage_stalled. }
  split; [exact Hst'|]. intros cb val Hcb.
  unfold Simulator.call. rewrite Hcb, updateDepthImage_stalled by done.
  by destruct st'.
Qed.

End StreamFacts.

Section RestPoseFacts.
Import Robot.

Context {Quaternion Vector3 Number : Type}.
Variable identity : Quaternion.
Variable setFromAxisAngle : Vector3 -> Number -> Quaternion.
Variable multiply : Quaternion -> Quaternion -> Quaternion.
Variable zero : Vector3.
Variable multiplyScalar : Vector3 -> Number -> Vector3.
Variable add : Vector3 -> Vector3 -> Vector3.
Variable parseFloat : string -> float.
Variable number : float -> Number.
Variable character : ascii -> Number.
Variable array : list float -> Number.
Variable undefined : Number.

Abbreviation Body := (Robot.Body Quaternion Vector3).
Abbreviation updateBody :=
  (Robot.updateBody identity setFromAxisAngle multiply zero multiplyScalar add undefined).
Abbreviation updateBodies :=
  (Robot.updateBodies identity setFromAxisAngle multiply zero multiplyScalar add undefined).
Abbreviation updateQ :=
  (Robot.updateQ identity setFromAxisAngle multiply zero multiplyScalar add
     parseFloat number character array undefined).

(** Two bodies with the same [redisgl] record. *)
Abbreviation same_rest :=
  (fun body body' : Body =>
     redisgl_quaternion body' = redisgl_quaternion body
     /\ redisgl_position body' = redisgl_position body
     /\ jointType body' = jointType body
     /\ jointAxis body' = jointAxis body).

(** A joint that moves and has no axis. *)
Abbreviation axis_missing :=
  (fun body : Body => revolute body || prismatic body = true /\ jointAxis body = None).

Lemma updateBody_rest q i body body' :
  updateBody q i body = Normal body' -> same_rest body body'.
Proof.
  unfold Robot.updateBody, axis_of.
  destruct (Ascii.eqb (toLowerCase (jointType body)) "r");
    destruct (Ascii.eqb (toLowerCase (jointType body)) "p");
    destruct (jointAxis body); cbn; intros [= <-]; done.
Qed.

Lemma updateBody_of_rest q i body body0 :
  same_rest body0 body -> updateBody q i body = updateBody q i body0.
Proof.
  intros (Hq & Hp & Ht & Ha). unfold Robot.updateBody, axis_of.
  by rewrite Hq, Hp, Ht, Ha.
Qed.

Lemma updateBodies_rest q bodies :
  forall i bodies',
    updateBodies q i bodies = Normal bodies' -> Forall2 same_rest bodies bodies'.
Proof.
  induction bodies as [|body rest IH]; intros i bodies'; cbn [Robot.updateBodies].
  - intros [= <-]. constructor.
  - destruct (updateBody q i body) as [body'|] eqn:Eb; cbn [mbind Completion_bind]; [|done].
    destruct (updateBodies q (S i) rest) as [rest'|] eqn:Er;
      cbn [mbind Completion_bind]; [|done].
    intros [= <-]. constructor; [by eapply updateBody_rest|by eapply IH].
Qed.

Lemma updateBodies_of_rest q bodies bodies0 :
  Forall2 same_rest bodies0 bodies ->
  forall i, updateBodies q i bodies = updateBodies q i bodies0.
Proof.
  induction 1 as [|body0 body rest0 rest Hb _ IH]; intros i; cbn [Robot.updateBodies];
    [done|].
  by rewrite (updateBody_of_rest q i body body0 Hb), IH.
Qed.

Lemma updateBody_raises q i body :
  match updateBody q i body with
  | Normal _ => ~ axis_missing body
  | Throw e => e = TypeError /\ axis_missing body
  end.
Proof.
  unfold Robot.updateBody, axis_of, revolute, prismatic.
  rewrite toLowerCase_r, toLowerCase_p.
  destruct (Ascii.eqb (jointType body) "r" || Ascii.eqb (jointType body) "R");
    destruct (Ascii.eqb (jointType body) "p" || Ascii.eqb (jointType body) "P");
    destruct (jointAxis body); cbn; try done; intros [? ?]; done.
Qed.

Lemma makeNumeric0_raises val :
  match Redis.makeNumeric0 parseFloat val with
  | Normal _ => first_missing val = false
  | Throw e => e = TypeError /\ first_missing val = true
  end.
Proof. by destruct val as [[|c s]|[|row rows]|buffer]. Qed.

Lemma updateBodies_raises q bodies :
  forall i,
    match updateBodies q i bodies with
    | Normal _ => Forall (fun body => ~ axis_missing body) bodies
    | Throw e => e = TypeError /\ Exists axis_missing bodies
    end.
Proof.
  induction bodies as [|body rest IH]; intros i; cbn [Robot.updateBodies];
    [constructor|].
  pose proof (updateBody_raises q i body) as Hb.
  destruct (updateBody q i body) as [body'|e]; cbn [mbind Completion_bind].
  - specialize (IH (S i)).
    destruct (updateBodies q (S i) rest) as [rest'|e]; cbn [mbind Completion_bind].
    + by constructor.
    + destruct IH as [-> Hex]. split; [done|]. by apply Exists_cons_tl.
  - destruct Hb as [-> Hb]. split; [done|]. by apply Exists_cons_hd.
Qed.

(** [updateQ] sets the joints to a configuration, it does not move
    them by it: the pose it gives depends on the poses at rest that
    [create] recorded and on the new value only. After one [updateQ] a
    second one has the result it would have had on the robot as it
    was. *)
Theorem updateQ_is_absolute (robot robot1 : Robot.t Quaternion Vector3 Number)
    (val1 val2 : Redis.Val) (result : bool) :
  updateQ robot val1 = Normal (robot1, result) ->
  updateQ robot1 val2 = updateQ robot val2.
Proof.
  unfold Robot.updateQ.
  destruct (Redis.makeNumeric0 parseFloat val1) as [q1|]; cbn [mbind Completion_bind];
    [|done].
  destruct (updateBodies (elements number character array q1) 0 (bodies robot))
    as [bodies1|] eqn:E1; cbn [mbind Completion_bind]; [|done].
  intros [= <- _]. cbn [bodies].
  destruct (Redis.makeNumeric0 parseFloat val2) as [q2|]; cbn [mbind Completion_bind];
    [|done].
  by rewrite (updateBodies_of_rest _ bodies1 (bodies robot)
                (updateBodies_rest _ _ _ _ E1)).
Qed.

(** [updateQ] raises exactly when the value has no first element - it
    is the empty string, a matrix of no rows or an [ArrayBuffer] - or a
    revolute or prismatic joint of the robot has no axis, and then it
    raises [TypeError]. *)
Theorem updateQ_raises_without_axis (robot : Robot.t Quaternion Vector3 Number)
    (val : Redis.Val) :
  (throws (updateQ robot val) = true
   <-> first_missing val = true \/ Exists axis_missing (bodies robot))
  /\ (throws (updateQ robot val) = true -> updateQ robot val = Throw TypeError).
Proof.
  unfold Robot.updateQ.
  pose proof (makeNumeric0_raises val) as Hval.
  destruct (Redis.makeNumeric0 parseFloat val) as [q|e]; cbn [mbind Completion_bind].
  - pose proof (updateBodies_raises (elements number character array q) (bodies robot) 0)
      as H.
    destruct (updateBodies _ 0 (bodies robot)) as [bodies'|e];
      cbn [mbind Completion_bind throws].
    + split; [|done]. split; [done|]. intros [Hmiss|Hex]; [congruence|].
      apply Exists_exists in Hex as (body & Hin & Hmiss).
      rewrite Forall_forall in H. by destruct (H body Hin).
    + destruct H as [-> Hex]. split; [|done]. split; [by right|done].
  - destruct Hval as [-> Hmiss]. cbn [throws]. split; [|done]. split; [by left|done].
Qed.

End RestPoseFacts.

Section RobotModelFacts.
Import Robot RobotModel.

Context {Quaternion Vector3 Number Graphic : Type}.
Variable parse : Graphic -> Completion unit.
Variable x_axis y_axis z_axis : Vector3.
Variable zero : Number.
Variable identity : Quaternion.
Variable setFromAxisAngle : Vector3 -> Number -> Quaternion.
Variable multiply : Quaternion -> Quaternion -> Quaternion.
Variable origin : Vector3.
Variable multiplyScalar : Vector3 -> Number -> Vector3.
Variable add : Vector3 -> Vector3 -> Vector3.
Variable parseFloat : string -> float.
Variable number : float -> Number.
Variable character : ascii -> Number.
Variable array : list float -> Number.
Variable undefined : Number.

Abbreviation Body := (Robot.Body Quaternion Vector3).
Abbreviation RigidBody := (RobotModel.RigidBody Quaternion Vector3 Graphic).
Abbreviation create_body := (RobotModel.create_body parse x_axis y_axis z_axis).
Abbreviation create_bodies := (RobotModel.create_bodies parse x_axis y_axis z_axis).
Abbreviation create := (RobotModel.create parse x_axis y_axis z_axis zero).
Abbreviation updateQ :=
  (Robot.updateQ identity setFromAxisAngle multiply origin multiplyScalar add
     parseFloat number character array undefined).

(** The body [create] makes of a rigid body of the model. *)
Abbreviation made :=
  (fun (rb : RigidBody) (body : Body) =>
     quaternion body = ori rb /\ position body = pos rb
     /\ redisgl_quaternion body = ori rb /\ redisgl_position body = pos rb
     /\ String.get 0 (joint_type rb) = Some (jointType body)
     /\ (revolute body || prismatic body = true /\ jointAxis body = None
         <-> axis_unnamed rb = true)).

(** The parent [create] adds a body to: the base, or the body at
    [id_parent], which is one of the bodies made before. *)
Abbreviation hung :=
  (fun (before : nat) (rb : RigidBody) (parent : option nat) =>
     if (id_parent rb <? 0)%Z then parent = None
     else parent = Some (Z.to_nat (id_parent rb)) /\ Z.to_nat (id_parent rb) < before).

Lemma create_body_made bodies rb body parent :
  create_body bodies rb = Normal (body, parent) ->
  made rb body /\ hung (length bodies) rb parent.
Proof.
  unfold RobotModel.create_body, axis_of_type, axis_unnamed, one_of, revolute, prismatic.
  destruct (String.get 1 (joint_type rb)) as [a|]; cbn [mbind Completion_bind]; [|done].
  destruct (String.get 0 (joint_type rb)) as [t|]; cbn [mbind Completion_bind]; [|done].
  destruct (parseAll parse (graphics rb)) as [[]|]; cbn [mbind Completion_bind]; [|done].
  destruct (id_parent rb <? 0)%Z.
  - intros [= <- <-]. cbn. split; [|done]. split_and!; try done.
    rewrite toLowerCase_x, toLowerCase_y, toLowerCase_z. cbn [list_ascii_of_string existsb].
    destruct (Ascii.eqb t "r"), (Ascii.eqb t "R"), (Ascii.eqb t "p"), (Ascii.eqb t "P"),
      (Ascii.eqb a "x"), (Ascii.eqb a "X"), (Ascii.eqb a "y"), (Ascii.eqb a "Y"),
      (Ascii.eqb a "z"), (Ascii.eqb a "Z"); cbn; split; (done || by intros [? ?]).
  - destruct (bodies !! Z.to_nat (id_parent rb)) as [p|] eqn:Hp; [|done].
    intros [= <- <-]. cbn. split; [|split; [done|by eapply lookup_lt_Some]].
    split_and!; try done.
    rewrite toLowerCase_x, toLowerCase_y, toLowerCase_z. cbn [list_ascii_of_string existsb].
    destruct (Ascii.eqb t "r"), (Ascii.eqb t "R"), (Ascii.eqb t "p"), (Ascii.eqb t "P"),
      (Ascii.eqb a "x"), (Ascii.eqb a "X"), (Ascii.eqb a "y"), (Ascii.eqb a "Y"),
      (Ascii.eqb a "z"), (Ascii.eqb a "Z"); cbn; split; (done || by intros [? ?]).
Qed.

Lemma create_bodies_made (rbs : list RigidBody) :
  forall bodies0 parents0 bodies parents,
    foldM
      (fun '(bodies, parents) rb =>
         '(body, parent) ← create_body bodies rb;
         Normal (bodies ++ [body], parents ++ [parent]))
      (bodies0, parents0) rbs
    = Normal (bodies, parents) ->
    exists bodies1 parents1,
      bodies = bodies0 ++ bodies1 /\ parents = parents0 ++ parents1
      /\ Forall2 made rbs bodies1
      /\ length parents1 = length rbs
      /\ forall i rb parent,
           rbs !! i = Some rb -> parents1 !! i = Some parent ->
           hung (length bodies0 + i) rb parent.
Proof.
  induction rbs as [|rb rbs IH]; intros bodies0 parents0 bodies parents; cbn [foldM].
  - intros [= <- <-]. exists [], []. rewrite !app_nil_r. by repeat split.
  - destruct (create_body bodies0 rb) as [[body parent]|] eqn:Hb;
      cbn [mbind Completion_bind]; [|done].
    intros Hrest. apply create_body_made in Hb as [Hmade Hhung].
    destruct (IH _ _ _ _ Hrest)
      as (bodies1 & parents1 & -> & -> & Hall & Hlen & Hparents).
    exists (body :: bodies1), (parent :: parents1).
    rewrite <- !app_assoc. split; [done|]. split; [done|]. split; [by constructor|].
    split; [cbn; by rewrite Hlen|].
    intros [|i] rb' parent' Hrb Hparent; simplify_eq/=.
    + by rewrite Nat.add_0_r.
    + specialize (Hparents i rb' parent' Hrb Hparent).
      rewrite length_app in Hparents. cbn [length] in Hparents.
      by replace (length bodies0 + S i) with (length bodies0 + 1 + i) by lia.
Qed.

(** When [create] returns, the robot has a body for each rigid body of
    the model, in the order of the model, at the pose the model gives it
    and with that pose as its pose at rest; its configuration is a zero
    for each body; and each body hangs from the base or from a body made
    before it, so that the bodies form a tree. *)
Theorem create_builds_a_tree (ab : RobotModel.ArticulatedBody Quaternion Vector3 Graphic)
    (robot : Robot.t Quaternion Vector3 Number) (parents : list (option nat)) :
  create ab = Normal (robot, parents) ->
  length (bodies robot) = length (rigid_bodies ab)
  /\ q robot = replicate (length (rigid_bodies ab)) zero
  /\ forall i rb,
       rigid_bodies ab !! i = Some rb ->
       exists body parent,
         bodies robot !! i = Some body
         /\ quaternion body = ori rb /\ position body = pos rb
         /\ redisgl_quaternion body = ori rb /\ redisgl_position body = pos rb
         /\ String.get 0 (joint_type rb) = Some (jointType body)
         /\ parents !! i = Some parent
         /\ (if (id_parent rb <? 0)%Z then parent = None
             else parent = Some (Z.to_nat (id_parent rb)) /\ Z.to_nat (id_parent rb) < i).
Proof.
  unfold RobotModel.create, RobotModel.create_bodies.
  destruct (parseAll parse (base_graphics ab)) as [[]|]; cbn [mbind Completion_bind]; [|done].
  destruct (foldM _ _ _) as [[bodies parents']|] eqn:Hrun; cbn [mbind Completion_bind]; [|done].
  intros [= <- <-].
  apply create_bodies_made in Hrun
    as (bodies1 & parents1 & -> & -> & Hall & Hlen & Hparents).
  cbn [app Robot.bodies Robot.q].
  pose proof (Forall2_length _ _ _ Hall) as Hlen'.
  split; [done|]. split.
  { rewrite Hlen'. clear. induction bodies1; cbn; by f_equal. }
  intros i rb Hrb.
  destruct (Forall2_lookup_l _ _ _ _ _ Hall Hrb) as (body & Hbody & Hmade).
  destruct (lookup_lt_is_Some_2 parents1 i) as [parent Hparent].
  { rewrite Hlen. by eapply lookup_lt_Some. }
  exists body, parent. destruct Hmade as (? & ? & ? & ? & ? & _).
  split_and!; try done. exact (Hparents i rb parent Hrb Hparent).
Qed.

(** Whether a robot that [create] has made can be posed is decided by
    the model and by whether the value has a first element: [updateQ]
    raises for it exactly when the value has none - the empty string, a
    matrix of no rows, an [ArrayBuffer] - or the model has a joint whose
    type begins with r or p, small or capital, and goes on with a
    character other than x, y and z, small or capital. *)
Theorem created_robot_poses (ab : RobotModel.ArticulatedBody Quaternion Vector3 Graphic)
    (robot : Robot.t Quaternion Vector3 Number) (parents : list (option nat))
    (val : Redis.Val) :
  create ab = Normal (robot, parents) ->
  throws (updateQ robot val) = first_missing val || existsb axis_unnamed (rigid_bodies ab).
Proof.
  unfold RobotModel.create, RobotModel.create_bodies.
  destruct (parseAll parse (base_graphics ab)) as [[]|]; cbn [mbind Completion_bind]; [|done].
  destruct (foldM _ _ _) as [[bodies parents']|] eqn:Hrun; cbn [mbind Completion_bind]; [|done].
  intros [= <- <-].
  apply create_bodies_made in Hrun as (bodies1 & parents1 & -> & -> & Hall & _).
  cbn [app]. unfold Robot.updateQ. cbn [Robot.bodies].
  pose proof (makeNumeric0_raises parseFloat val) as Hval.
  destruct (Redis.makeNumeric0 parseFloat val) as [q'|e]; cbn [mbind Completion_bind];
    [|by destruct Hval as [_ ->]].
  rewrite Hval. cbn [orb].
  pose proof (updateBodies_raises identity setFromAxisAngle multiply origin multiplyScalar
                add undefined (elements number character array q') bodies1 0) as Hraise.
  destruct (Robot.updateBodies _ _ _ _ _ _ _ _ 0 bodies1) as [bodies'|e];
    cbn [mbind Completion_bind throws]; symmetry.
  - apply not_true_iff_false. intros Hex.
    apply existsb_exists in Hex as (rb & Hin & Hbad).
    apply list_elem_of_In, list_elem_of_lookup in Hin as [i Hi].
    destruct (Forall2_lookup_l _ _ _ _ _ Hall Hi) as (body & Hbody & Hmade).
    destruct Hmade as (_ & _ & _ & _ & _ & Hiff).
    rewrite Forall_forall in Hraise.
    apply (Hraise body); [by eapply list_elem_of_lookup_2|]. by apply Hiff.
  - destruct Hraise as [_ Hex]. apply Exists_exists in Hex as (body & Hin & Hmiss).
    apply list_elem_of_lookup in Hin as [i Hi].
    destruct (Forall2_lookup_r _ _ _ _ _ Hall Hi) as (rb & Hrb & Hmade).
    destruct Hmade as (_ & _ & _ & _ & _ & Hiff).
    apply existsb_exists. exists rb. split; [|by apply Hiff].
    apply list_elem_of_In. by eapply list_elem_of_lookup_2.
Qed.

End RobotModelFacts.

Section ObjectPoseFacts.
Import Redis GraphicsObject.

Context {Vector3 Quaternion Matrix4 : Type}.
Variable parseFloat : string -> float.
Variable fromArray : Numeric -> Vector3.
Variable set : Element -> Element -> Element -> Element -> Quaternion.
Variable setPosition : Matrix4 -> Element -> Element -> Element -> Matrix4.
Variable setPositionTo : Matrix4 -> Vector3 -> Matrix4.
Variable setFromMatrixPosition : Matrix4 -> Vector3.
Variable setFromMatrix3 : Matrix4 -> list float -> Matrix4.
Variable matrixFromArray : Matrix4 -> list float -> Matrix4.

Abbreviation Object3D := (GraphicsObject.t Vector3 Quaternion Matrix4).
Abbreviation updateMatrix :=
  (GraphicsObject.updateMatrix parseFloat setPositionTo setFromMatrixPosition
     setFromMatrix3 matrixFromArray).
Abbreviation call :=
  (GraphicsObject.call parseFloat fromArray set setPosition setPositionTo
     setFromMatrixPosition setFromMatrix3 matrixFromArray).
Abbreviation after :=
  (GraphicsObject.after parseFloat fromArray set setPosition setPositionTo
     setFromMatrixPosition setFromMatrix3 matrixFromArray).

(** The number of elements of a matrix. *)
Abbreviation size rows := (length (concat (rows : list (list string)))).

Lemma length_concat_map {A B} (f : A -> B) (rows : list (list A)) :
  length (concat (map (map f) rows)) = length (concat rows).
Proof.
  induction rows as [|row rows IH]; [done|].
  cbn [map concat]. by rewrite !length_app, length_map, IH.
Qed.

(** [updateMatrix] takes a matrix of 9 or of 16 elements, however they
    are spread over its rows, and nothing else: a string and an
    [ArrayBuffer] raise [TypeError], a matrix of another size raises
    [ReferenceError], and the object is then left with the automatic
    update of its matrix as it was. When it returns it has cleared the
    flag [matrixAutoUpdate] and written the matrix only. *)
Theorem updateMatrix_takes_9_or_16 (object : Object3D) (val : Val) :
  match val with
  | VString _ | VBuffer _ => updateMatrix object val = Throw TypeError
  | VMatrix rows =>
      if bool_decide (size rows = 9 \/ size rows = 16) then
        exists matrix',
          updateMatrix object val
          = Normal ({| position := position object;
                       quaternion := quaternion object;
                       scale := scale object;
                       matrix := matrix';
                       matrixAutoUpdate := false |}, true)
      else updateMatrix object val = Throw ReferenceError
  end.
Proof.
  destruct val as [s|rows|buffer]; [done| |done].
  unfold GraphicsObject.updateMatrix.
  cbn [makeNumeric flatten mbind Completion_bind]. rewrite length_concat_map.
  case_bool_decide as Hsize.
  - destruct Hsize as [-> | ->]; cbn [Nat.eqb mbind Completion_bind]; by eexists.
  - destruct (Nat.eqb_spec (size rows) 9) as [H9|_]; [by destruct Hsize; left|].
    destruct (Nat.eqb_spec (size rows) 16) as [H16|_]; [by destruct Hsize; right|].
    done.
Qed.

Lemma call_frozen (c : Call) (object object' : Object3D) (result : bool) :
  matrixAutoUpdate object = false ->
  call c object = Normal (object', result) ->
  matrixAutoUpdate object' = false /\ position object' = position object.
Proof.
  intros Hflag. destruct c as [val|val|val|val]; cbn [GraphicsObject.call].
  - unfold updatePosition. rewrite Hflag.
    destruct (makeNumeric0 parseFloat val); cbn [mbind Completion_bind]; [|done].
    by intros [= <- _].
  - unfold updateOrientation.
    destruct (makeNumeric0 parseFloat val); cbn [mbind Completion_bind]; [|done].
    by intros [= <- _].
  - unfold updateScale.
    destruct (makeNumeric0 parseFloat val); cbn [mbind Completion_bind]; [|done].
    by intros [= <- _].
  - unfold GraphicsObject.updateMatrix.
    destruct (makeNumeric parseFloat val) as [numeric|]; cbn [mbind Completion_bind]; [|done].
    destruct (flatten numeric) as [arr|]; cbn [mbind Completion_bind]; [|done].
    destruct (length arr =? 9)%nat; cbn [mbind Completion_bind]; [by intros [= <- _]|].
    destruct (length arr =? 16)%nat; cbn [mbind Completion_bind]; [by intros [= <- _]|done].
Qed.

Lemma after_frozen (calls : list Call) :
  forall object : Object3D,
    matrixAutoUpdate object = false ->
    matrixAutoUpdate (after calls object) = false
    /\ position (after calls object) = position object.
Proof.
  induction calls as [|c calls IH]; intros object Hflag; [done|].
  cbn [GraphicsObject.after fold_left].
  destruct (call c object) as [[object' result]|e] eqn:Hcall.
  - destruct (call_frozen c object object' result Hflag Hcall) as [Hflag' Hpos].
    destruct (IH object' Hflag') as [Hf Hp]. split; [exact Hf|]. by rewrite <- Hpos.
  - by apply IH.
Qed.

(** Once [updateMatrix] has returned for an object, the position of the
    object is never written again: the flag [matrixAutoUpdate] stays
    cleared through every later call of the four callbacks, and
    [updatePosition] writes the translation of the matrix instead. *)
Theorem updateMatrix_freezes_position
    (object object1 : Object3D) (val : Val) (result : bool) (calls : list Call) :
  updateMatrix object val = Normal (object1, result) ->
  matrixAutoUpdate (after calls object1) = false
  /\ position (after calls object1) = position object.
Proof.
  intros Hrun.
  assert (H1 : matrixAutoUpdate object1 = false /\ position object1 = position object).
  { unfold GraphicsObject.updateMatrix in Hrun.
    destruct (makeNumeric parseFloat val) as [numeric|]; cbn [mbind Completion_bind] in Hrun;
      [|done].
    destruct (flatten numeric) as [arr|]; cbn [mbind Completion_bind] in Hrun; [|done].
    destruct (length arr =? 9)%nat; cbn [mbind Completion_bind] in Hrun;
      [by injection Hrun as <- _|].
    destruct (length arr =? 16)%nat; cbn [mbind Completion_bind] in Hrun;
      [by injection Hrun as <- _|done]. }
  destruct H1 as [Hflag Hpos].
  destruct (after_frozen calls object1 Hflag) as [Hf Hp].
  split; [exact Hf|]. by rewrite Hp.
Qed.

End ObjectPoseFacts.

Section MeshFacts.
Import Graphics Sidebar.
Local Open Scope string_scope.

Abbreviation without c := (all_chars (fun x => negb (Ascii.eqb x c))).

(** The last [c] of [s] splits [s] in two. *)
Lemma lastIndexOf_from_splits (c : ascii) (s : string) :
  forall idx found,
    (without c s = true /\ lastIndexOf_from c s idx found = found)
    \/ (exists pre post,
          s = pre ++ String c post /\ without c post = true
          /\ lastIndexOf_from c s idx found = (idx + Z.of_nat (String.length pre))%Z).
Proof.
  induction s as [|c' rest IH]; intros idx found; cbn [lastIndexOf_from all_chars].
  - by left.
  - destruct (IH (idx + 1)%Z (if Ascii.eqb c' c then idx else found))
      as [[Hnone ->]|(pre & post & -> & Hpost & ->)].
    + destruct (Ascii.eqb_spec c' c) as [->|Hne].
      * right. exists "", rest. cbn. split; [done|]. split; [done|lia].
      * left. by rewrite Hnone.
    + right. exists (String c' pre), post. rewrite append_cons.
      split; [done|]. split; [done|]. cbn [String.length]. lia.
Qed.

Lemma substring_front (pre post : string) :
  String.substring 0 (String.length pre) (pre ++ post) = pre.
Proof.
  induction pre as [|c pre IH]; [by destruct post|].
  rewrite append_cons. cbn [String.length String.substring]. by rewrite IH.
Qed.

Lemma substring_all (s : string) n :
  String.length s <= n -> String.substring 0 n s = s.
Proof.
  revert n. induction s as [|c s IH]; intros n Hn; [by destruct n|].
  cbn [String.length] in Hn. destruct n as [|n]; [lia|].
  cbn [String.substring]. rewrite IH; [done|lia].
Qed.

Lemma substring_back (pre post : string) n :
  String.length post <= n ->
  String.substring (String.length pre) n (pre ++ post) = post.
Proof.
  intros Hn. induction pre as [|c pre IH]; [by apply substring_all|].
  rewrite append_cons. cbn [String.length String.substring]. exact IH.
Qed.

Lemma length_append (s r : string) :
  String.length (s ++ r) = String.length s + String.length r.
Proof.
  induction s as [|c s IH]; [done|]. rewrite append_cons. cbn [String.length]. by rewrite IH.
Qed.

(** The two parts of [s] about its last [c]: what [substr] cuts off up
    to and including it, and what it leaves. *)
Lemma split_at_last (c : ascii) (s : string) :
  let front := substr 0 (Some (lastIndexOf c s + 1)%Z) s in
  let back := substr (lastIndexOf c s + 1)%Z None s in
  front ++ back = s
  /\ without c back = true
  /\ (if without c s then front = "" else exists stem, front = stem ++ String c "").
Proof.
  unfold substr, lastIndexOf.
  destruct (lastIndexOf_from_splits c s 0 (-1))
    as [[Hnone ->]|(pre & post & -> & Hpost & ->)]; cbv zeta;
    change (Z.to_nat 0) with 0.
  - change (Z.to_nat (-1 + 1)) with 0. rewrite Nat.sub_0_r, Hnone.
    rewrite (substring_all s (String.length s)) by lia.
    assert (Hfront : String.substring 0 0 s = "") by (by destruct s).
    rewrite Hfront. by split.
  - replace (Z.to_nat (0 + Z.of_nat (String.length pre) + 1))
      with (String.length (pre ++ String c "")) by (rewrite length_append; cbn; lia).
    replace (pre ++ String c post) with ((pre ++ String c "") ++ post)
      by (by rewrite append_assoc).
    rewrite substring_front, substring_back by (rewrite !length_append; lia).
    split; [done|]. split; [done|].
    rewrite !all_chars_app. cbn [all_chars]. rewrite Ascii.eqb_refl.
    cbn [negb andb]. rewrite andb_false_r. by exists pre.
Qed.

(** The name of a page without what follows its last dot; nothing is
    left of a name without a dot. *)
Lemma webapp_of_page (page : string) :
  if without "." page then webapp_of page = ""
  else exists rest, page = webapp_of page ++ "." ++ rest /\ without "." rest = true.
Proof.
  unfold webapp_of, substr, lastIndexOf. change (Z.to_nat 0) with 0.
  destruct (lastIndexOf_from_splits "." page 0 (-1))
    as [[Hnone ->]|(pre & post & -> & Hpost & ->)].
  - rewrite Hnone. by destruct page.
  - rewrite all_chars_app. cbn [all_chars]. rewrite Ascii.eqb_refl.
    cbn [negb andb]. rewrite andb_false_r.
    replace (Z.to_nat (0 + Z.of_nat (String.length pre))) with (String.length pre) by lia.
    rewrite substring_front. by exists post.
Qed.

(** The directory and the file of a mesh are the file name of the model
    cut behind its last slash: together they are the file name again,
    the file has no slash, and the directory is empty or ends with one.
    The extension is what follows the last dot of the whole file name,
    and the whole file name when it has no dot. A mesh is loaded only
    when the extension is [obj] or [dae], in these letters. The
    directory of the resources is named after the page without what
    follows its last dot, and has no name for a page without a dot. *)
Theorem mesh_file_name_is_split (page meshFilename : string) :
  let webapp := webapp_of page in
  let m := mesh webapp meshFilename in
  (if without "." page then webapp = ""
   else exists rest, page = webapp ++ "." ++ rest /\ without "." rest = true)
  /\ (exists directory,
     dir m = "resources/" ++ webapp ++ "/" ++ directory
     /\ directory ++ file m = meshFilename
     /\ without "/" (file m) = true
     /\ (if without "/" meshFilename then directory = ""
         else exists stem, directory = stem ++ "/"))
  /\ without "." (ext m) = true
  /\ (if without "." meshFilename then ext m = meshFilename
      else exists stem, meshFilename = stem ++ "." ++ ext m)
  /\ (loader (ext m) <> None <-> ext m = "obj" \/ ext m = "dae").
Proof.
  cbv zeta. cbn [dir file ext mesh]. split; [apply webapp_of_page|].
  destruct (split_at_last "/" meshFilename) as (Hjoin & Hfile & Hdir).
  destruct (split_at_last "." meshFilename) as (Hjoin' & Hext & Hstem).
  split; [|split; [exact Hext|split]].
  - eexists. split; [reflexivity|]. split; [exact Hjoin|]. split; [exact Hfile|exact Hdir].
  - destruct (without "." meshFilename).
    + rewrite Hstem in Hjoin'. exact Hjoin'.
    + destruct Hstem as [stem Hstem]. exists stem.
      rewrite Hstem, append_assoc in Hjoin'. symmetry. exact Hjoin'.
  - unfold loader.
    destruct (String.eqb_spec (substr (lastIndexOf "." meshFilename + 1)%Z None meshFilename)
                "obj") as [->|Hobj]; [split; [by left|done]|].
    destruct (String.eqb_spec (substr (lastIndexOf "." meshFilename + 1)%Z None meshFilename)
                "dae") as [->|Hdae]; [split; [by right|done]|].
    split; [done|]. by intros [?|?].
Qed.

End MeshFacts.

Section ViewFrameFacts.
Import Camera.
Local Open Scope float_scope.

(** The corner of the view frame at pixel ([y], [x]), as the position
    arrays keep it. *)
Abbreviation kept K y x :=
  (map fround
     [(x - default nan (default [] (K !! 0%nat) !! 2%nat))
        / default nan (default [] (K !! 0%nat) !! 0%nat);
      (y - default nan (default [] (K !! 1%nat) !! 2%nat))
        / default nan (default [] (K !! 1%nat) !! 1%nat);
      1]).

Lemma corner_rows (K : Intrinsic) (row0 row1 : list float) (y x : float) :
  K !! 0%nat = Some row0 -> K !! 1%nat = Some row1 ->
  corner K (y, x)
  = Normal [(x - default nan (row0 !! 2%nat)) / default nan (row0 !! 0%nat);
            (y - default nan (row1 !! 2%nat)) / default nan (row1 !! 1%nat); 1].
Proof. intros H0 H1. unfold corner, entry. by rewrite H0, H1. Qed.

(** With an intrinsic matrix of two rows at least, [renderCameraViewFrame]
    makes a pyramid of the eight lines of the frame. The lines 0 to 3
    keep their first point - the origin, for a camera that is new - and
    end at the four corners of the image, at depth 1. The lines 4 to 7
    run from corner to corner round the image: each ends where the next
    begins, and the last where the first began. *)
Theorem view_frame_is_closed (camera : Camera.t) (K : Intrinsic) :
  intrinsic camera = Some K -> (2 <= length K)%nat ->
  length (frame camera) = 8%nat ->
  Forall (fun line => length line = 6%nat) (frame camera) ->
  let rows := number (numRows (depthDim camera)) in
  let cols := number (numCols (depthDim camera)) in
  let corners :=
    [kept K 0 0; kept K 0 (cols - 1); kept K (rows - 1) (cols - 1); kept K (rows - 1) 0] in
  exists camera',
    renderCameraViewFrame camera = Normal (camera', true)
    /\ length (frame camera') = 8%nat
    /\ forall i corner next,
         corners !! i = Some corner ->
         corners !! ((i + 1) mod 4)%nat = Some next ->
         (exists line line',
            frame camera !! i = Some line /\ frame camera' !! i = Some line'
            /\ take 3 line' = take 3 line /\ drop 3 line' = corner)
         /\ frame camera' !! (4 + i)%nat = Some (corner ++ next)
         /\ corner !! 2%nat = Some 1.
Proof.
  intros HK Hrows Hlen Hlines rows cols corners.
  destruct K as [|row0 [|row1 K']]; [cbn in Hrows; lia..|].
  unfold renderCameraViewFrame. rewrite HK.
  cbn [mapM]. fold rows cols.
  rewrite !(corner_rows _ row0 row1) by done.
  cbn [mbind Completion_bind].
  destruct (frame camera) as [|l0 [|l1 [|l2 [|l3 [|l4 [|l5 [|l6 [|l7 [|]]]]]]]]] eqn:Hframe;
    try (cbn in Hlen; lia).
  eexists. split; [reflexivity|]. cbn [frame with_frame]. split; [done|].
  repeat match goal with
         | H : Forall _ (_ :: _) |- _ => inversion H; subst; clear H
         end.
  repeat match goal with
         | H : length ?l = 6%nat |- _ =>
             destruct l as [|? [|? [|? [|? [|? [|? [|]]]]]]]; try (cbn in H; lia); clear H
         end.
  assert (Hone : fround 1 = 1) by (vm_compute; reflexivity).
  intros [|[|[|[|i]]]] corner next Hc Hn; cbn in Hc, Hn; simplify_eq.
  all: rewrite Hone.
  all: split; [eexists _, _; split; [reflexivity|]; split; [reflexivity|]; by split|].
  all: by split.
Qed.

End ViewFrameFacts.

Section ColourFacts.
Import Camera Reprojection Colours.

Local Open Scope float_scope.

Variable downscale : nat.
Variable K : Intrinsic.
Variables rows cols channels : nat.
Variables image colors : list float.

Hypothesis K_rows : (2 <= length K)%nat.

Abbreviation emitted_here := (fun p => sampled downscale p && positive (depth cols image p)).
Abbreviation colour := (Colours.colour rows cols channels colors).

Lemma colorAt_keep y acc x :
  multiple y downscale = true ->
  colorAt downscale rows cols channels image colors y acc x
  = if emitted_here (y, x) then store_point acc (colour (y, x)) else acc.
Proof.
  intros Hy. destruct acc as [buffer idx].
  unfold colorAt, sampled, positive, depth, Colours.colour, source. cbn [fst snd].
  rewrite !remainder_nonzero_multiple, Hy. cbn [andb negb].
  destruct (multiple x downscale); cbn [negb]; [|done].
  destruct (isNaN _ || _); cbn [negb]; done.
Qed.

Lemma colorAt_row y xs :
  multiple y downscale = true ->
  forall acc,
    fold_left (colorAt downscale rows cols channels image colors y) xs acc
    = fold_left store_point
        (map colour (List.filter emitted_here (map (pair y) xs))) acc.
Proof.
  intros Hy. induction xs as [|x xs IH]; intros acc; [done|].
  cbn [fold_left map List.filter]. rewrite colorAt_keep by done.
  destruct (sampled _ _ && _); [|apply IH].
  cbn [map fold_left]. apply IH.
Qed.

Lemma colorsOfRow_row acc y :
  colorsOfRow downscale rows cols channels image colors acc y
  = fold_left store_point
      (map colour (List.filter emitted_here (map (pair y) (seq 0 cols)))) acc.
Proof.
  unfold colorsOfRow. rewrite remainder_nonzero_multiple.
  destruct (multiple y downscale) eqn:Hy; cbn [negb].
  - by apply colorAt_row.
  - by rewrite (skipped_row downscale cols image y (seq 0 cols) Hy).
Qed.

Lemma colorsOfRow_rows ys :
  forall acc,
    fold_left (colorsOfRow downscale rows cols channels image colors) ys acc
    = fold_left store_point
        (map colour
           (List.filter emitted_here (flat_map (fun y => map (pair y) (seq 0 cols)) ys)))
        acc.
Proof.
  induction ys as [|y ys IH]; intros acc; [done|].
  cbn [fold_left flat_map]. rewrite List.filter_app, map_app, fold_left_app.
  rewrite colorsOfRow_row. apply IH.
Qed.

(** The colour of a pixel of the first row is read past the end of a
    colour image that has its [rows * cols * channels] numbers. *)
Lemma first_row_colour x :
  (length colors <= rows * cols * channels)%nat ->
  colour (0%nat, x) = (nan / 255, nan / 255, nan / 255).
Proof.
  intros Hlen. unfold Colours.colour, source, element_over. cbn [fst snd].
  rewrite Nat.sub_0_r.
  rewrite !(proj2 (lookup_ge_None colors _)) by lia. done.
Qed.

(** The second pass of [renderPointCloud]. For a camera whose colour
    image has the rows and columns of its depth image, the points that
    are emitted get, in the order in which they are emitted, the colours
    the colour image holds at row [numRows - row] and column [col] of
    it, divided by 255: the image is read upside down and one row too
    far. The points of the first row of the depth image are read past
    the end of a colour image of [numRows * numCols * numChannels]
    numbers, and all their colours are [NaN]. *)
Theorem point_colours_are_shifted (camera : Camera.t) (buffer stored : list float) :
  depthImage camera = Some image ->
  intrinsic camera = Some K ->
  numRows (depthDim camera) = rows ->
  numCols (depthDim camera) = cols ->
  positionArray camera = Some buffer ->
  colorArray camera = Some stored ->
  colorImage camera = Some colors ->
  numRows (colorDim camera) = rows ->
  numCols (colorDim camera) = cols ->
  numChannels (colorDim camera) = channels ->
  let pixels := emitted downscale rows cols image in
  exists camera' stored',
    renderPointCloud downscale camera = Normal (camera', true)
    /\ colorArray camera' = Some stored'
    /\ length stored' = length stored
    /\ (forall i p r g b,
          pixels !! i = Some p -> colour p = (r, g, b) ->
          (3 * i + 2 < length stored)%nat ->
          stored' !! (3 * i)%nat = Some (fround r)
          /\ stored' !! (3 * i + 1)%nat = Some (fround g)
          /\ stored' !! (3 * i + 2)%nat = Some (fround b))
    /\ ((length colors <= rows * cols * channels)%nat ->
        forall i x,
          pixels !! i = Some (0%nat, x) ->
          (3 * i + 2 < length stored)%nat ->
          Forall (fun c => exists v, stored' !! (3 * i + c)%nat = Some v /\ isNaN v = true)
            [0; 1; 2]%nat).
Proof.
  intros Himage HK Hrows Hcols Hbuffer Hstored Hcolors Hcrows Hccols Hchannels pixels.
  set (shades := map colour pixels).
  destruct (store_points_from K K_rows shades (stored, 0%nat)) as (Hlen & _ & _).
  cbn [fst snd] in Hlen. fold (store_points stored shades) in Hlen.
  assert (Hshades : forall i p r g b,
            pixels !! i = Some p -> colour p = (r, g, b) ->
            (3 * i + 2 < length stored)%nat ->
            fst (store_points stored shades) !! (3 * i)%nat = Some (fround r)
            /\ fst (store_points stored shades) !! (3 * i + 1)%nat = Some (fround g)
            /\ fst (store_points stored shades) !! (3 * i + 2)%nat = Some (fround b)).
  { intros i p r g b Hi Hp Hfit.
    apply (store_points_lookup K K_rows shades (stored, 0%nat) i r g b); [|done].
    unfold shades. by rewrite list_lookup_fmap, Hi, <- Hp. }
  exists (with_colors
            (with_points camera
               (fst (store_points buffer (map (point K rows cols image) pixels)))
               (length pixels))
            (fst (store_points stored shades))),
    (fst (store_points stored shades)).
  split; [|split; [done|split; [done|split; [exact Hshades|]]]].
  - unfold renderPointCloud. rewrite Himage, HK, Hrows, Hcols, Hbuffer.
    cbn [array_of mbind Completion_bind].
    rewrite (pointsOfRow_rows downscale K rows cols image K_rows).
    cbn [mbind Completion_bind].
    destruct (store_points_from K K_rows (map (point K rows cols image) pixels)
                (buffer, 0%nat)) as (_ & Hcount & _).
    cbn [fst snd] in Hcount. rewrite length_map in Hcount.
    change (fold_left store_point (map (point K rows cols image) pixels) (buffer, 0%nat))
      with (store_points buffer (map (point K rows cols image) pixels)) in Hcount.
    change (fold_left store_point
              (map (point K rows cols image)
                 (List.filter emitted_here
                    (flat_map (fun y => map (pair y) (seq 0 cols)) (seq 0 rows))))
              (buffer, 0%nat))
      with (store_points buffer (map (point K rows cols image) pixels)).
    destruct (store_points buffer (map (point K rows cols image) pixels))
      as [positions count].
    cbn [fst snd] in Hcount |- *. subst count.
    cbn [with_points colorImage colorDim colorArray].
    rewrite Hcolors, Hcrows, Hccols, !Nat.eqb_refl. cbn [negb orb].
    rewrite Hstored, Hchannels. cbn [array_of mbind Completion_bind].
    rewrite colorsOfRow_rows.
    change (fold_left store_point
              (map colour
                 (List.filter emitted_here
                    (flat_map (fun y => map (pair y) (seq 0 cols)) (seq 0 rows))))
              (stored, 0%nat))
      with (store_points stored shades).
    by destruct (store_points stored shades).
  - intros Hsize i x Hi Hfit.
    pose proof (first_row_colour x Hsize) as Hnan.
    destruct (Hshades i (0%nat, x) _ _ _ Hi Hnan Hfit) as (H0 & H1 & H2).
    assert (Hv : isNaN (fround (nan / 255)) = true) by (vm_compute; reflexivity).
    repeat constructor; eexists; (split; [|exact Hv]).
    + by rewrite Nat.add_0_r.
    + done.
    + done.
Qed.

End ColourFacts.

Section ModelFacts.
Import Redis Simulator.

Context {Forms Nodes : Type}.
Variable JSON_parse : string -> Completion Json.
Variable parseFloat : string -> float.
Variable parseOpenCvMat : list byte -> Completion (list float * Camera.Dim).
Variable formExists : string -> Forms -> Completion bool.
Variable getValue : string -> Forms -> Completion Val.
Variable updateForm : string -> option Val -> Forms -> Forms * Completion unit.
Variable create_node : Kind -> Json -> Nodes -> Nodes * Completion nat.
Variable update_node : Handler -> nat -> Val -> Nodes -> Nodes * Completion bool.

Abbreviation State := (@Simulator.State Forms Nodes).
Abbreviation parseModels :=
  (Simulator.parseModels JSON_parse parseFloat parseOpenCvMat formExists getValue
     updateForm create_node update_node).

(** A model parser rejects a key that is no model key of its kind, and
    raises what [JSON.parse] raises for a key that is one, before it
    has changed anything. *)
Lemma parseRobotModel_text key val (st : State) :
  parseRobotModel JSON_parse parseFloat parseOpenCvMat formExists getValue
    create_node update_node key val st
  = if isModelKey key KRobot st then
      match JSON_parse val with
      | Throw e => (st, Throw e)
      | Normal model =>
          parseRobotModel JSON_parse parseFloat parseOpenCvMat formExists getValue
            create_node update_node key val st
      end
    else (st, Normal false).
Proof.
  destruct (isModelKey key KRobot st) eqn:Hkey.
  - destruct (JSON_parse val) as [model|e] eqn:Hval; [done|].
    unfold parseRobotModel, mbind, StateM_bind, get, lift. cbn. by rewrite Hkey, Hval.
  - unfold parseRobotModel, mbind, StateM_bind, get. cbn. by rewrite Hkey.
Qed.

Lemma parseObjectModel_text key val (st : State) :
  parseObjectModel JSON_parse parseFloat parseOpenCvMat formExists getValue
    create_node update_node key val st
  = if isModelKey key KObject st then
      match JSON_parse val with
      | Throw e => (st, Throw e)
      | Normal model =>
          parseObjectModel JSON_parse parseFloat parseOpenCvMat formExists getValue
            create_node update_node key val st
      end
    else (st, Normal false).
Proof.
  destruct (isModelKey key KObject st) eqn:Hkey.
  - destruct (JSON_parse val) as [model|e] eqn:Hval; [done|].
    unfold parseObjectModel, mbind, StateM_bind, get, lift. cbn. by rewrite Hkey, Hval.
  - unfold parseObjectModel, mbind, StateM_bind, get. cbn. by rewrite Hkey.
Qed.

Lemma parseTrajectoryModel_text key val (st : State) :
  parseTrajectoryModel JSON_parse parseFloat parseOpenCvMat formExists getValue
    create_node update_node key val st
  = if isModelKey key KTrajectory st then
      match JSON_parse val with
      | Throw e => (st, Throw e)
      | Normal model =>
          parseTrajectoryModel JSON_parse parseFloat parseOpenCvMat formExists getValue
            create_node update_node key val st
      end
    else (st, Normal false).
Proof.
  destruct (isModelKey key KTrajectory st) eqn:Hkey.
  - destruct (JSON_parse val) as [model|e] eqn:Hval; [done|].
    unfold parseTrajectoryModel, mbind, StateM_bind, get, lift. cbn. by rewrite Hkey, Hval.
  - unfold parseTrajectoryModel, mbind, StateM_bind, get. cbn. by rewrite Hkey.
Qed.

Lemma parseCameraModel_text key val (st : State) :
  parseCameraModel JSON_parse parseFloat parseOpenCvMat formExists getValue
    create_node update_node key val st
  = if isModelKey key KCamera st then
      match JSON_parse val with
      | Throw e => (st, Throw e)
      | Normal model =>
          parseCameraModel JSON_parse parseFloat parseOpenCvMat formExists getValue
            create_node update_node key val st
      end
    else (st, Normal false).
Proof.
  destruct (isModelKey key KCamera st) eqn:Hkey.
  - destruct (JSON_parse val) as [model|e] eqn:Hval; [done|].
    unfold parseCameraModel, mbind, StateM_bind, get, lift. cbn. by rewrite Hkey, Hval.
  - unfold parseCameraModel, mbind, StateM_bind, get. cbn. by rewrite Hkey.
Qed.


End ModelFacts.

(** * Further concrete runs *)

Section MoreRuns.
Import Redis Wire Simulator.
Local Open Scope string_scope.

Abbreviation parseMessage := (Redis.parseMessage Sample.max_arguments).

(** The side conditions of a concrete message, by computation. *)
Ltac evaluated :=
  repeat match goal with
         | |- _ /\ _ => split
         | |- Forall _ _ => constructor
         | |- _ <> _ => discriminate
         | |- (_ <= _)%N => vm_compute; discriminate
         | |- True => exact I
         | |- _ => vm_compute; reflexivity
         | |- _ => progress cbn
         end.

Lemma throwing_message_blocks_socket_witness :
  let st' :=
    fst (Simulator.onmessage Sample.max_arguments Sample.JSON_parse Sample.parseFloat
           Sample.parseOpenCvMat Sample.Redis_formExists Sample.Redis_getValue
           Sample.getKeys Sample.Redis_updateForm Sample.Redis_deleteForm
           Sample.create_node Sample.update_node
           Sample.word_cut Sample.initial) in
  handlingMessage Sample.initial = false
  /\ snd (Simulator.onmessage Sample.max_arguments Sample.JSON_parse Sample.parseFloat
            Sample.parseOpenCvMat Sample.Redis_formExists Sample.Redis_getValue
            Sample.getKeys Sample.Redis_updateForm Sample.Redis_deleteForm
            Sample.create_node Sample.update_node
            Sample.word_cut Sample.initial)
     = Throw RangeError
  /\ handlingMessage st' = true
  /\ forall next,
       Simulator.onmessage Sample.max_arguments Sample.JSON_parse Sample.parseFloat
         Sample.parseOpenCvMat Sample.Redis_formExists Sample.Redis_getValue
         Sample.getKeys Sample.Redis_updateForm Sample.Redis_deleteForm
         Sample.create_node Sample.update_node
         next st'
       = (st', Normal tt).
Proof.
  assert (Hopen : handlingMessage Sample.initial = false) by reflexivity.
  assert (Hthrow :
    snd (Simulator.onmessage Sample.max_arguments Sample.JSON_parse Sample.parseFloat
           Sample.parseOpenCvMat Sample.Redis_formExists Sample.Redis_getValue
           Sample.getKeys Sample.Redis_updateForm Sample.Redis_deleteForm
           Sample.create_node Sample.update_node
           Sample.word_cut Sample.initial)
    = Throw RangeError) by (vm_compute; reflexivity).
  pose proof (throwing_message_blocks_socket Sample.max_arguments Sample.JSON_parse
                Sample.parseFloat Sample.parseOpenCvMat Sample.Redis_formExists
                Sample.Redis_getValue Sample.getKeys Sample.Redis_updateForm
                Sample.Redis_deleteForm Sample.create_node Sample.update_node
                Sample.word_cut Sample.initial Hopen) as Hblock.
  cbv zeta in Hblock. rewrite Hthrow in Hblock. destruct Hblock as [Hbusy Hdrop].
  exact (conj Hopen (conj Hthrow (conj Hbusy Hdrop))).
Defined.

Lemma trailing_bytes_are_ignored_witness :
  well_formed Sample.batch
  /\ texts_fit Sample.max_arguments Sample.batch
  /\ parseMessage (encode Sample.batch ++ [xff; x00; x01])%list
     = parseMessage (encode Sample.batch)
  /\ throws (parseMessage (encode Sample.batch ++ [xff; x00; x01])%list) = false.
Proof.
  assert (Hwf : well_formed Sample.batch).
  { unfold well_formed, payload_ok. cbn. evaluated. }
  assert (Hfit : texts_fit Sample.max_arguments Sample.batch).
  { unfold texts_fit, text_fits. cbn. evaluated. }
  exact (conj Hwf (conj Hfit
           (trailing_bytes_are_ignored Sample.max_arguments Sample.batch [xff; x00; x01]
              Hwf Hfit))).
Defined.

Lemma decoded_value_is_last_witness :
  well_formed Cases.twice
  /\ texts_fit Sample.max_arguments Cases.twice
  /\ "q" <> "__proto__"
  /\ exists batch,
       parseMessage (encode Cases.twice) = Normal batch
       /\ JsObj.get "q" (toUpdate batch) = Some (Text "2").
Proof.
  assert (Hwf : well_formed Cases.twice).
  { unfold well_formed, payload_ok. cbn. evaluated. }
  assert (Hfit : texts_fit Sample.max_arguments Cases.twice).
  { unfold texts_fit, text_fits. cbn. evaluated. }
  assert (Hq : "q" <> "__proto__") by discriminate.
  split; [exact Hwf|]. split; [exact Hfit|]. split; [exact Hq|].
  destruct (decoded_value_is_last Sample.max_arguments Cases.twice "q" Hwf Hfit Hq)
    as (batch & Hrun & Hget).
  exists batch. split; [exact Hrun|]. rewrite Hget. vm_compute. reflexivity.
Defined.

Lemma unknown_type_raises_TypeError_witness :
  well_formed Sample.word_deleted
  /\ texts_fit Sample.max_arguments Sample.word_deleted
  /\ parseMessage Cases.odd_type = Throw TypeError.
Proof.
  assert (Hwf : well_formed Sample.word_deleted).
  { unfold well_formed, payload_ok. cbn. evaluated. }
  assert (Hfit : texts_fit Sample.max_arguments Sample.word_deleted).
  { unfold texts_fit, text_fits. cbn. evaluated. }
  split; [exact Hwf|]. split; [exact Hfit|].
  apply (unknown_type_raises_TypeError Sample.max_arguments Sample.word_deleted 0 x03
           Literal 2 [x68; x69] Hwf Hfit).
  - vm_compute. reflexivity.
  - vm_compute. discriminate.
  - vm_compute. discriminate.
  - vm_compute. reflexivity.
Defined.

Lemma matrix_text_round_trip_witness :
  Sidebar.printable Cases.eye2 = true
  /\ exists text,
       Sidebar.matrixToString (VMatrix Cases.eye2) = Normal text
       /\ text = "1 0; 0 1"
       /\ stringToMatrix text = Cases.eye2.
Proof.
  assert (Hp : Sidebar.printable Cases.eye2 = true) by (vm_compute; reflexivity).
  split; [exact Hp|].
  destruct (matrix_text_round_trip Cases.eye2 Hp) as (text & Hto & Hfrom).
  exists text. split; [exact Hto|]. split; [|exact Hfrom].
  vm_compute in Hto. by injection Hto as <-.
Defined.

Lemma addForm_keeps_order_witness :
  Sidebar.ordered Cases.two_forms = true
  /\ Sidebar.addForm "beta" Cases.two_forms = ["alpha"; "beta"; "gamma"]
  /\ Sidebar.ordered (Sidebar.addForm "beta" Cases.two_forms) = true
  /\ Sidebar.addForm "beta" Cases.two_forms ≡ₚ "beta" :: Cases.two_forms.
Proof.
  assert (Hord : Sidebar.ordered Cases.two_forms = true) by (vm_compute; reflexivity).
  split; [exact Hord|]. split; [vm_compute; reflexivity|].
  exact (addForm_keeps_order "beta" Cases.two_forms Hord).
Defined.

Lemma trail_is_in_order_witness :
  let C := Trajectory.LEN_TRAJECTORY_TRAIL in
  let ps := seq 1 (C + 5) in
  (0 < C)%nat
  /\ exists traj,
       Trajectory.appendAll C (Trajectory.create 0%nat C) ps = Normal traj
       /\ (Trajectory.segment (Trajectory.positions traj) (Trajectory.drawRange2 traj)
             ++ drop 1 (Trajectory.segment (Trajectory.positions traj)
                          (Trajectory.drawRange1 traj)))%list
          = drop (length ps - C) ps.
Proof.
  assert (Hpos : (0 < Trajectory.LEN_TRAJECTORY_TRAIL)%nat)
    by (unfold Trajectory.LEN_TRAJECTORY_TRAIL; lia).
  assert (Hlen : (Trajectory.LEN_TRAJECTORY_TRAIL
                  < length (seq 1 (Trajectory.LEN_TRAJECTORY_TRAIL + 5)))%nat)
    by (rewrite length_seq; lia).
  split; [exact Hpos|].
  destruct (trail_is_in_order 0%nat Trajectory.LEN_TRAJECTORY_TRAIL Hpos
              (seq 1 (Trajectory.LEN_TRAJECTORY_TRAIL + 5)))
    as (traj & Hrun & _ & Hwrapped).
  exists traj. split; [exact Hrun|]. exact (proj1 (Hwrapped Hlen)).
Defined.

Lemma reset_starts_afresh_witness :
  (0 < 3)%nat
  /\ length (Trajectory.positions Cases.used) = (3 + 1)%nat
  /\ Trajectory.visible (Trajectory.reset Cases.used) = []
  /\ exists after fresh,
       Trajectory.appendAll 3 (Trajectory.reset Cases.used) [21; 22]%nat = Normal after
       /\ Trajectory.appendAll 3 (Trajectory.create 0%nat 3) [21; 22]%nat = Normal fresh
       /\ Trajectory.visible after = Trajectory.visible fresh.
Proof.
  assert (Hpos : (0 < 3)%nat) by lia.
  assert (Hlen : length (Trajectory.positions Cases.used) = (3 + 1)%nat) by reflexivity.
  split; [exact Hpos|]. split; [exact Hlen|].
  destruct (reset_starts_afresh 0%nat 3 Hpos Cases.used [21; 22]%nat Hlen)
    as (Hnone & after & fresh & Hafter & Hfresh & Hvisible & _).
  split; [exact Hnone|]. exists after, fresh.
  exact (conj Hafter (conj Hfresh Hvisible)).
Defined.

Lemma image_message_is_read_witness :
  JsObj.get "2" OpenCv.CV_TYPES = Some "CV_16UC1"
  /\ OpenCv.unbroken "24" = true
  /\ (String.length "24" <= 1000)%nat
  /\ Cases.header Cases.png_message
     = Some (Normal (Some (OpenCv.Loading Cases.png24 2 3), [3; 2; 4]%float)).
Proof.
  assert (Hid : JsObj.get "2" OpenCv.CV_TYPES = Some "CV_16UC1") by reflexivity.
  assert (Hw : OpenCv.unbroken "24" = true) by reflexivity.
  assert (Hroom : (String.length "24" <= 1000)%nat) by (cbn; lia).
  split; [exact Hid|]. split; [exact Hw|]. split; [exact Hroom|].
  destruct (image_message_is_read JsObj.inherited Sample.parseFloat Cases.exr_parse 1000
              "2" "CV_16UC1" "24" Cases.png24 Hid Hw Hroom) as (read & Hrun & _ & Hpng).
  destruct (Hpng eq_refl) as [_ Hread].
  unfold Cases.header, Cases.png_message. rewrite Hrun. f_equal.
  rewrite (Hread (replicate 16 x00) [x00; x00; x00; x02] [x00; x00; x00; x03] []
             eq_refl eq_refl eq_refl eq_refl).
  vm_compute. reflexivity.
Defined.


Lemma failed_depth_decode_stalls_witness :
  let st := Cases.after Cases.short_matrix Sample.initial in
  Stream.serial (world st)
  /\ Camera.pending (world st) !! 0%nat
     = Some (Camera.DepthDecoded 0 [7; 9]%float
               {| Camera.numRows := 1; Camera.numCols := 2; Camera.numChannels := 1 |})
  /\ throws (Simulator.complete 0 st).2 = true
  /\ Stream.stalled (world (Simulator.complete 0 st).1).
Proof.
  set (st := Cases.after Cases.short_matrix Sample.initial).
  set (dim := {| Camera.numRows := 1; Camera.numCols := 2; Camera.numChannels := 1 |}).
  assert (Hserial : Stream.serial (world st)) by (split; vm_compute; lia).
  assert (Htask : Camera.pending (world st) !! 0%nat
                  = Some (Camera.DepthDecoded 0 [7; 9]%float dim))
    by (vm_compute; reflexivity).
  assert (Hthrow : throws (Simulator.complete 0 st).2 = true) by (vm_compute; reflexivity).
  split; [exact Hserial|]. split; [exact Htask|]. split; [exact Hthrow|].
  exact (proj2 (failed_depth_decode_stalls Sample.parseOpenCvMat st Hserial)
           0%nat 0%nat [7; 9]%float dim Htask Hthrow).
Defined.

Lemma stalled_stream_stays_stalled_witness :
  let st := Cases.after (Cases.short_matrix ++ [Stream.Decoded 0])%list Sample.initial in
  let st' :=
    Stream.after Sample.max_arguments Cases.JSON_parse Sample.parseFloat
      Sample.parseOpenCvMat Sample.Redis_formExists Sample.Redis_getValue Sample.getKeys
      Sample.Redis_updateForm Sample.Redis_deleteForm Sample.create_node
      Sample.update_node
      [Stream.Message Sample.depth_arrives; Stream.Decoded 0] st in
  Stream.stalled (world st)
  /\ Stream.stalled (world st')
  /\ Simulator.call Sample.parseFloat Sample.parseOpenCvMat Sample.update_node
       {| component := 0; handler := CameraUpdateDepthImage |} (VBuffer [x07]) st'
     = (st', Normal false).
Proof.
  set (st := Cases.after (Cases.short_matrix ++ [Stream.Decoded 0])%list Sample.initial).
  assert (Hst : Stream.stalled (world st)) by (split; vm_compute; reflexivity).
  split; [exact Hst|].
  destruct (stalled_stream_stays_stalled Sample.max_arguments Cases.JSON_parse
              Sample.parseFloat Sample.parseOpenCvMat Sample.Redis_formExists
              Sample.Redis_getValue Sample.getKeys Sample.Redis_updateForm
              Sample.Redis_deleteForm Sample.create_node Sample.update_node
              st [Stream.Message Sample.depth_arrives; Stream.Decoded 0] Hst)
    as [Hstill Hrefused].
  split; [exact Hstill|].
  exact (Hrefused {| component := 0; handler := CameraUpdateDepthImage |}
           (VBuffer [x07]) eq_refl).
Defined.

Lemma updateQ_is_absolute_witness :
  exists robot1,
    Sample.updateQ Sample.chain (VMatrix [["3"; "4"; "5"; "6"]]) = Normal (robot1, true)
    /\ Sample.updateQ robot1 (VMatrix [["1"; "1"; "1"; "1"]])
       = Sample.updateQ Sample.chain (VMatrix [["1"; "1"; "1"; "1"]]).
Proof.
  unfold Sample.updateQ.
  destruct (Robot.updateQ 0%Z Z.mul Z.add 0%Z Z.mul Z.add Sample.parseFloat Sample.whole
              (fun c => Sample.whole (Camera.number_of_char c)) (fun _ => 0%Z) 0%Z
              Sample.chain (VMatrix [["3"; "4"; "5"; "6"]]))
    as [[robot1 result]|e] eqn:Hrun; [|by vm_compute in Hrun].
  assert (Hresult : result = true) by (vm_compute in Hrun; congruence).
  subst result. exists robot1. split; [reflexivity|].
  exact (updateQ_is_absolute 0%Z Z.mul Z.add 0%Z Z.mul Z.add Sample.parseFloat
           Sample.whole (fun c => Sample.whole (Camera.number_of_char c)) (fun _ => 0%Z)
           0%Z Sample.chain robot1
           (VMatrix [["3"; "4"; "5"; "6"]]) (VMatrix [["1"; "1"; "1"; "1"]]) true Hrun).
Defined.

Lemma updateMatrix_freezes_position_witness :
  let moved := Cases.calls_after [GraphicsObject.Position (VMatrix [["5"; "6"; "7"]])] in
  exists object1,
    Cases.updateMatrix Cases.box Cases.eye3 = Normal (object1, true)
    /\ GraphicsObject.position (moved Cases.box) = NArray [5; 6; 7]%float
    /\ GraphicsObject.position (moved object1) = GraphicsObject.position Cases.box
    /\ GraphicsObject.matrixAutoUpdate (moved object1) = false.
Proof.
  unfold Cases.updateMatrix, Cases.calls_after.
  destruct (GraphicsObject.updateMatrix Sample.parseFloat (fun m _ => S m)
              (fun _ => NArray []) (fun m _ => S m) (fun m _ => S m) Cases.box Cases.eye3)
    as [[object1 result]|e] eqn:Hrun; [|by vm_compute in Hrun].
  assert (Hresult : result = true) by (vm_compute in Hrun; congruence).
  subst result. exists object1. split; [reflexivity|].
  split; [vm_compute; reflexivity|].
  destruct (updateMatrix_freezes_position Sample.parseFloat (fun array => array)
              (fun x y z w => [x; y; z; w]) (fun m _ _ _ => S m) (fun m _ => S m)
              (fun _ => NArray []) (fun m _ => S m) (fun m _ => S m)
              Cases.box object1 Cases.eye3 true
              [GraphicsObject.Position (VMatrix [["5"; "6"; "7"]])] Hrun)
    as [Hflag Hposition].
  exact (conj Hposition Hflag).
Defined.

Lemma create_builds_a_tree_witness :
  exists robot parents,
    Cases.create_robot Cases.arm = Normal (robot, parents)
    /\ parents = [None; Some 0; Some 1]%nat
    /\ length (Robot.bodies robot) = 3%nat
    /\ Robot.q robot = [0; 0; 0]%Z.
Proof.
  unfold Cases.create_robot.
  destruct (RobotModel.create (fun _ : unit => Normal tt) 1%Z 2%Z 3%Z 0%Z Cases.arm)
    as [[robot parents]|e] eqn:Hrun; [|by vm_compute in Hrun].
  exists robot, parents. split; [reflexivity|].
  split; [vm_compute in Hrun; congruence|].
  destruct (create_builds_a_tree (fun _ : unit => Normal tt) 1%Z 2%Z 3%Z 0%Z
              Cases.arm robot parents Hrun) as (Hlen & Hq & _).
  exact (conj Hlen Hq).
Defined.

Lemma created_robot_poses_witness :
  exists robot parents,
    Cases.create_robot Cases.arm = Normal (robot, parents)
    /\ throws (Sample.updateQ robot (VMatrix [["3"; "4"; "5"]])) = false
    /\ throws (Sample.updateQ robot (VMatrix [])) = true.
Proof.
  unfold Cases.create_robot, Sample.updateQ.
  destruct (RobotModel.create (fun _ : unit => Normal tt) 1%Z 2%Z 3%Z 0%Z Cases.arm)
    as [[robot parents]|e] eqn:Hrun; [|by vm_compute in Hrun].
  exists robot, parents. split; [reflexivity|].
  rewrite !(created_robot_poses (fun _ : unit => Normal tt) 1%Z 2%Z 3%Z 0%Z
              0%Z Z.mul Z.add 0%Z Z.mul Z.add Sample.parseFloat Sample.whole
              (fun c => Sample.whole (Camera.number_of_char c)) (fun _ => 0%Z) 0%Z
              Cases.arm robot parents _ Hrun).
  by split.
Defined.

Lemma view_frame_is_closed_witness :
  let camera := Sample.camera_of Sample.depth4 4 4 in
  Camera.intrinsic camera = Some Sample.K3
  /\ exists camera',
       Camera.renderCameraViewFrame camera = Normal (camera', true)
       /\ Camera.frame camera' !! 0%nat = Some [0; 0; 0; -0.5; -0.5; 1]%float
       /\ Camera.frame camera' !! 4%nat = Some [-0.5; -0.5; 1; 1; -0.5; 1]%float.
Proof.
  assert (HK : Camera.intrinsic (Sample.camera_of Sample.depth4 4 4) = Some Sample.K3)
    by reflexivity.
  split; [exact HK|].
  destruct (view_frame_is_closed (Sample.camera_of Sample.depth4 4 4) Sample.K3 HK
              ltac:(cbn; lia) eq_refl ltac:(repeat constructor))
    as (camera' & Hrun & _ & _).
  exists camera'. split; [exact Hrun|].
  vm_compute in Hrun. injection Hrun as <-. split; vm_compute; reflexivity.
Defined.

Lemma point_colours_are_shifted_witness :
  (2 <= length Sample.K3)%nat
  /\ Reprojection.emitted 2 4 4 Sample.depth4 = [(0, 0); (0, 2)]%nat
  /\ (length Cases.shades <= 4 * 4 * 4)%nat
  /\ exists camera' stored',
       Camera.renderPointCloud 2 Cases.colored = Normal (camera', true)
       /\ Camera.colorArray camera' = Some stored'
       /\ Forall (fun c => exists v, stored' !! (3 * 1 + c)%nat = Some v /\ isNaN v = true)
            [0; 1; 2]%nat.
Proof.
  assert (HK : (2 <= length Sample.K3)%nat) by (cbn; lia).
  assert (Hsize : (length Cases.shades <= 4 * 4 * 4)%nat) by (vm_compute; lia).
  split; [exact HK|]. split; [vm_compute; reflexivity|]. split; [exact Hsize|].
  destruct (point_colours_are_shifted 2 Sample.K3 4 4 4 Sample.depth4 Cases.shades HK
              Cases.colored (replicate 12 0%float) (replicate 12 1%float)
              eq_refl eq_refl eq_refl eq_refl eq_refl eq_refl eq_refl eq_refl eq_refl
              eq_refl)
    as (camera' & stored' & Hrun & Hstored & _ & _ & Hnan).
  exists camera', stored'. split; [exact Hrun|]. split; [exact Hstored|].
  apply (Hnan Hsize 1%nat 2%nat); [vm_compute; reflexivity|cbn; lia].
Defined.


End MoreRuns.

